(** * zikv: the arena-backed skiplist memtable

    A shallow embedding of the Go sources of the [utils] package
    (arena.go, the key helpers, entry.go and the skiplist) together with
    the properties the specification states about them.

    Integers are modelled as [Z]; every place where Go truncates to a
    fixed width is written out with [wrap32], [wrap16] or [wrapi32].
    Bytes are [Byte.byte].  The arena buffer is a [list byte]; the nodes
    that the Go code reads and writes through [unsafe.Pointer] are kept in
    a typed overlay ([nodes], a finite map from arena offsets to [node]
    records), so a [*node] is modelled by the offset it points at. *)

From Stdlib Require Import ZArith List Lia Bool.
From Stdlib Require Import Strings.Byte Sorting.Sorted.
From stdpp Require Import base option list gmap sorting.

Local Open Scope Z_scope.

(** ** Outcomes: normal return, fatal abort, or loop budget exhausted *)

(** The ways in which the Go code aborts.  The [Assert...] values name
    the [AssertTrue]/[AssertTruef] call sites; [RuntimePanic] is a Go
    runtime panic (nil dereference, index or slice bound out of range);
    [UntypedAccess] marks an access through a [*node] that points at arena
    bytes which hold no node (or at a tower slot trimmed away by
    [putNode]): Go would reinterpret whatever bytes are there, the model
    declines to give that a meaning. *)
Inductive failure : Type :=
  | AssertArenaCapacity
  | AssertCopyLength
  | AssertLevelAboveOne
  | AssertSpliceDistinct
  | AssertEqualityAtBase
  | AssertIterValid
  | RuntimePanic
  | UntypedAccess.

Inductive outcome (A : Type) : Type :=
  | Ret (a : A)
  | Fatal (f : failure)
  | OutOfFuel.
Arguments Ret {A} a.
Arguments Fatal {A} f.
Arguments OutOfFuel {A}.

#[global] Instance outcome_ret : MRet outcome := fun A a => Ret a.
#[global] Instance outcome_bind : MBind outcome := fun A B f m =>
  match m with
  | Ret a => f a
  | Fatal e => Fatal e
  | OutOfFuel => OutOfFuel
  end.

(** [AssertTrue b] of arena.go, tagged with the call site. *)
Definition AssertTrue (b : bool) (site : failure) : outcome unit :=
  if b then Ret tt else Fatal site.

(** ** Fixed-width integers and bytes *)

Definition wrap16 (z : Z) : Z := z mod 2 ^ 16.
Definition wrap32 (z : Z) : Z := z mod 2 ^ 32.
Definition wrap64 (z : Z) : Z := z mod 2 ^ 64.
(** Two's-complement int32. *)
Definition wrapi32 (z : Z) : Z := (z + 2 ^ 31) mod 2 ^ 32 - 2 ^ 31.

Definition MaxUint32 : Z := 2 ^ 32 - 1.
Definition MaxUint64 : Z := 2 ^ 64 - 1.

Definition byte_to_Z (b : byte) : Z := Z.of_N (Byte.to_N b).
Definition byte_of_Z (z : Z) : byte :=
  match Byte.of_N (Z.to_N (z mod 256)) with
  | Some b => b
  | None => x00
  end.

#[global] Instance byte_eq_decision : EqDecision byte := Byte.byte_eq_dec.

(** [len(s)] as a Go [int]. *)
Definition len {A : Type} (l : list A) : Z := Z.of_nat (length l).

(** [s[lo:hi]] with Go's bound check [0 <= lo <= hi <= len(s)]. *)
Definition slice (s : list byte) (lo hi : Z) : outcome (list byte) :=
  if (0 <=? lo) && (lo <=? hi) && (hi <=? len s)
  then Ret (take (Z.to_nat (hi - lo)) (drop (Z.to_nat lo) s))
  else Fatal RuntimePanic.

(** [s[lo:]]. *)
Definition slice_from (s : list byte) (lo : Z) : outcome (list byte) :=
  slice s lo (len s).

(** [copy(dst, src)]: the new contents of [dst] and the number of bytes
    copied, [min(len(dst), len(src))]. *)
Definition copy (dst src : list byte) : list byte * Z :=
  (take (length dst) src ++ drop (length src) dst,
   Z.min (len dst) (len src)).

(** [b[i] = x] with the index check. *)
Definition store_byte (b : list byte) (i : Z) (x : byte) : outcome (list byte) :=
  if (0 <=? i) && (i <? len b) then Ret (<[Z.to_nat i := x]> b)
  else Fatal RuntimePanic.

(** Indexing and assignment on the fixed-size [uint32] arrays
    ([tower], [prev], [next]). *)
Definition arr_get (arr : list Z) (i : Z) : outcome Z :=
  if (0 <=? i) && (i <? len arr) then Ret (default 0 (arr !! Z.to_nat i))
  else Fatal RuntimePanic.

Definition arr_set (arr : list Z) (i : Z) (v : Z) : outcome (list Z) :=
  if (0 <=? i) && (i <? len arr) then Ret (<[Z.to_nat i := v]> arr)
  else Fatal RuntimePanic.

(** ** Keys (the key helper file) *)

Definition ParseKey (key : list byte) : list byte :=
  if len key <? 8 then key
  else take (Z.to_nat (len key - 8)) key.

(** [binary.BigEndian.Uint64] on a slice of at least eight bytes. *)
Definition BigEndian_Uint64 (b : list byte) : Z :=
  fold_left (fun acc x => Z.lor (Z.shiftl acc 8) (byte_to_Z x)) (take 8 b) 0.

Definition ParseTs (key : list byte) : Z :=
  if len key <=? 8 then 0
  else MaxUint64 - BigEndian_Uint64 (drop (Z.to_nat (len key - 8)) key).

(** [bytes.Equal]. *)
Definition bytes_Equal (a b : list byte) : bool := bool_decide (a = b).

Definition SameKey (src dst : list byte) : bool :=
  if negb (len src =? len dst) then false
  else bytes_Equal (ParseKey src) (ParseKey dst).

(** [bytes.Compare]: lexicographic order on byte strings, -1, 0 or 1. *)
Fixpoint bytes_Compare (a b : list byte) : Z :=
  match a, b with
  | [], [] => 0
  | [], _ :: _ => -1
  | _ :: _, [] => 1
  | x :: a', y :: b' =>
      if byte_to_Z x <? byte_to_Z y then -1
      else if byte_to_Z y <? byte_to_Z x then 1
      else bytes_Compare a' b'
  end.

(** Modelled from the spec: [CompareKeys], which [findNear] and
    [findSpliceForLevel] call, is not among the sources.  The
    specification's comparison contract orders internal keys by user key
    (ascending, bytewise) and then by the stored timestamp suffix
    (ascending); a key shorter than 8 bytes is a user key with no
    version, that is an empty suffix. *)
Definition CompareKeys (key1 key2 : list byte) : Z :=
  let c := bytes_Compare (ParseKey key1) (ParseKey key2) in
  if c =? 0
  then bytes_Compare (drop (length (ParseKey key1)) key1)
                     (drop (length (ParseKey key2)) key2)
  else c.

(** ** Value cells (entry.go) *)

Record ValueStruct : Type := mkValueStruct {
  Meta : byte;
  Value : list byte;
  ExpiresAt : Z;
  Version : Z
}.

(** The zero value [ValueStruct{}]; Go's nil slice is the empty list. *)
Definition ValueStruct_zero : ValueStruct :=
  {| Meta := x00; Value := []; ExpiresAt := 0; Version := 0 |}.

Record Entry : Type := mkEntry {
  Key : list byte;
  EValue : list byte;
  EExpiresAt : Z;
  EMeta : byte;
  EVersion : Z;
  Offset : Z;
  Hlen : Z;
  ValThreshold : Z
}.

(** The loop of [sizeVarint]; a [uint64] is exhausted after at most ten
    shifts by 7, which is the budget [sizeVarint] passes. *)
Fixpoint sizeVarint_loop (budget : nat) (x cnt : Z) : Z :=
  let cnt := cnt + 1 in
  let x := Z.shiftr x 7 in
  if x =? 0 then cnt
  else match budget with
       | O => cnt
       | S budget' => sizeVarint_loop budget' x cnt
       end.

Definition sizeVarint (x : Z) : Z := sizeVarint_loop 9 x 0.

Definition EncodedSize (vs : ValueStruct) : Z :=
  let sz := len (Value vs) + 1 in
  let enc := sizeVarint (ExpiresAt vs) in
  wrap32 (sz + enc).

(** [binary.PutUvarint] of Go's standard library: seven bits per byte,
    least significant group first, the top bit marking continuation.  A
    [uint64] needs at most nine continuation bytes, the budget
    [PutUvarint] passes. *)
Fixpoint PutUvarint_loop (budget : nat) (b : list byte) (x : Z) (i : Z)
  : outcome (list byte * Z) :=
  if 128 <=? x then
    match budget with
    | O => OutOfFuel
    | S budget' =>
        b ← store_byte b i (byte_of_Z (Z.lor (x mod 256) 128));
        PutUvarint_loop budget' b (Z.shiftr x 7) (i + 1)
    end
  else
    b ← store_byte b i (byte_of_Z x);
    Ret (b, i + 1).

Definition PutUvarint (b : list byte) (x : Z) : outcome (list byte * Z) :=
  PutUvarint_loop 9 b x 0.

(** [binary.Uvarint] of Go's standard library: the decoded value and the
    number of bytes read; [(0, 0)] when the buffer ends early and
    [(0, -(i+1))] on a value that overflows 64 bits. *)
Fixpoint Uvarint_loop (b : list byte) (i : Z) (x s : Z) : Z * Z :=
  match b with
  | [] => (0, 0)
  | c :: b' =>
      if i =? 10 then (0, - (i + 1))
      else if byte_to_Z c <? 128 then
        if (i =? 9) && (1 <? byte_to_Z c) then (0, - (i + 1))
        else (Z.lor x (wrap64 (Z.shiftl (byte_to_Z c) s)), i + 1)
      else
        Uvarint_loop b' (i + 1)
          (Z.lor x (wrap64 (Z.shiftl (Z.land (byte_to_Z c) 127) s))) (s + 7)
  end.

Definition Uvarint (b : list byte) : Z * Z := Uvarint_loop b 0 0 0.

(** [EncodeValue] writes into the slice [b] it is given and returns the
    number of bytes written; the model returns the new contents of [b]
    as well. *)
Definition EncodeValue (vs : ValueStruct) (b : list byte) : outcome (list byte * Z) :=
  b ← store_byte b 0 (Meta vs);
  b1 ← slice_from b 1;
  '(b1, sz) ← PutUvarint b1 (ExpiresAt vs);
  tail ← slice_from b1 sz;
  let '(tail, cnt) := copy tail (Value vs) in
  Ret (take 1 b ++ take (Z.to_nat sz) b1 ++ tail, wrap32 (1 + sz + cnt)).

(** [DecodeValue] on a zero [ValueStruct] receiver, as [getVal] calls it;
    [Version] is not serialized and stays 0. *)
Definition DecodeValue (b : list byte) : outcome ValueStruct :=
  match b with
  | [] => Fatal RuntimePanic
  | m :: _ =>
      b1 ← slice_from b 1;
      let '(e, sz) := Uvarint b1 in
      v ← slice_from b (1 + sz);
      Ret {| Meta := m; Value := v; ExpiresAt := e; Version := 0 |}
  end.

(** ** The arena (arena.go) *)

Definition maxHeight : Z := 20.
Definition heightIncrease : Z := MaxUint32 / 3.

(** [unsafe.Sizeof(uint32(0))], [unsafe.Sizeof(uint64(0)) - 1] and
    [unsafe.Sizeof(node{})]: 8 + 4 + 2 + 2 + 20 * 4 bytes. *)
Definition offsetSize : Z := 4.
Definition nodeAlign : Z := 7.
Definition MaxNodeSize : Z := 96.

Record node : Type := mkNode {
  value : Z;
  keyOffset : Z;
  keySize : Z;
  height : Z;
  tower : list Z
}.

(** The bytes of a freshly made buffer are zero, so a node viewed at a
    fresh offset has all fields zero. *)
Definition node_zero : node :=
  {| value := 0; keyOffset := 0; keySize := 0; height := 0;
     tower := replicate (Z.to_nat maxHeight) 0 |}.

Record Arena : Type := mkArena {
  n : Z;
  shouldGrow : bool;
  buf : list byte;
  nodes : gmap Z node
}.

Definition newArena (sz : Z) : outcome Arena :=
  if sz <? 0 then Fatal RuntimePanic
  else Ret {| n := 1; shouldGrow := false;
              buf := replicate (Z.to_nat sz) x00; nodes := ∅ |}.

Definition allocate (s : Arena) (sz : Z) : outcome (Arena * Z) :=
  let offset := wrap32 (n s + sz) in
  let s := {| n := offset; shouldGrow := shouldGrow s; buf := buf s; nodes := nodes s |} in
  if negb (shouldGrow s) then
    _ ← AssertTrue (offset <=? len (buf s)) AssertArenaCapacity;
    Ret (s, wrap32 (offset - sz))
  else if offset >? len (buf s) - MaxNodeSize then
    let growBy := wrap32 (len (buf s)) in
    let growBy := if growBy >? 2 ^ 30 then 2 ^ 30 else growBy in
    let growBy := if growBy <? sz then sz else growBy in
    let newBuf := replicate (Z.to_nat (len (buf s) + growBy)) x00 in
    let '(newBuf, copied) := copy newBuf (buf s) in
    _ ← AssertTrue (len (buf s) =? copied) AssertCopyLength;
    Ret ({| n := offset; shouldGrow := shouldGrow s; buf := newBuf; nodes := nodes s |},
         wrap32 (offset - sz))
  else Ret (s, wrap32 (offset - sz)).

(** Writing [bytes] over [b] from index [lo] on, for a slice
    [b[lo:hi]] whose new contents are [bytes]. *)
Definition splice_bytes (b : list byte) (lo : Z) (bytes : list byte) : list byte :=
  take (Z.to_nat lo) b ++ bytes ++ drop (Z.to_nat lo + length bytes) b.

Definition with_buf (s : Arena) (b : list byte) : Arena :=
  {| n := n s; shouldGrow := shouldGrow s; buf := b; nodes := nodes s |}.

Definition with_node (s : Arena) (p : Z) (nd : node) : Arena :=
  {| n := n s; shouldGrow := shouldGrow s; buf := buf s; nodes := <[p := nd]> (nodes s) |}.

Definition putKey (s : Arena) (key : list byte) : outcome (Arena * Z) :=
  let keySz := wrap32 (len key) in
  '(s, offset) ← allocate s keySz;
  dst ← slice (buf s) offset (wrap32 (offset + keySz));
  let '(dst, copied) := copy dst key in
  _ ← AssertTrue (len key =? copied) AssertCopyLength;
  Ret (with_buf s (splice_bytes (buf s) offset dst), offset).

Definition putVal (s : Arena) (v : ValueStruct) : outcome (Arena * Z) :=
  let l := wrap32 (EncodedSize v) in
  '(s, offset) ← allocate s l;
  dst ← slice_from (buf s) offset;
  '(dst, _) ← EncodeValue v dst;
  Ret (with_buf s (splice_bytes (buf s) offset dst), offset).

(** A [*node] is the arena offset it points at; [None] is [nil].
    [&s.buf[offset]] checks the index. *)
Definition getNode (s : Arena) (offset : Z) : outcome (option Z) :=
  if offset =? 0 then Ret None
  else if (0 <=? offset) && (offset <? len (buf s)) then Ret (Some offset)
  else Fatal RuntimePanic.

Definition getKey (s : Arena) (offset size : Z) : outcome (list byte) :=
  slice (buf s) offset (wrap32 (offset + size)).

Definition getVal (s : Arena) (offset size : Z) : outcome ValueStruct :=
  b ← slice (buf s) offset (wrap32 (offset + size));
  DecodeValue b.

Definition putNode (s : Arena) (h : Z) : outcome (Arena * Z) :=
  let unusedSize := (maxHeight - h) * offsetSize in
  let l := wrap32 (MaxNodeSize - unusedSize + nodeAlign) in
  '(s, off) ← allocate s l;
  let m := Z.land (wrap32 (off + nodeAlign)) (MaxUint32 - nodeAlign) in
  Ret (s, m).

Definition size (s : Arena) : Z := n s.

Definition getNodeOffset (s : Arena) (nd : option Z) : Z :=
  match nd with
  | None => 0
  | Some p => wrap32 p
  end.

(** Reading the node record behind a [*node]. *)
Definition load (s : Arena) (nd : option Z) : outcome node :=
  match nd with
  | None => Fatal RuntimePanic
  | Some p =>
      match nodes s !! p with
      | Some x => Ret x
      | None => Fatal UntypedAccess
      end
  end.

(** ** The skiplist *)

Record Skiplist : Type := mkSkiplist {
  sl_height : Z;
  headOffset : Z;
  ref : Z;
  arena : option Arena;
  OnClose : option nat
}.

(** What a reference count operation does besides changing [ref]: it
    runs the close hook (identified by its tag) and drops the arena. *)
Inductive event : Type :=
  | OnCloseCalled (hook : nat)
  | ArenaReleased.

Definition with_arena (s : Skiplist) (a : Arena) : Skiplist :=
  {| sl_height := sl_height s; headOffset := headOffset s; ref := ref s;
     arena := Some a; OnClose := OnClose s |}.

Definition with_height (s : Skiplist) (h : Z) : Skiplist :=
  {| sl_height := h; headOffset := headOffset s; ref := ref s;
     arena := arena s; OnClose := OnClose s |}.

Definition with_ref (s : Skiplist) (r : Z) : Skiplist :=
  {| sl_height := sl_height s; headOffset := headOffset s; ref := r;
     arena := arena s; OnClose := OnClose s |}.

(** Dereferencing [s.arena]. *)
Definition the_arena (s : Skiplist) : outcome Arena :=
  match arena s with
  | Some a => Ret a
  | None => Fatal RuntimePanic
  end.

Definition IncrRef (s : Skiplist) : Skiplist :=
  with_ref s (wrapi32 (ref s + 1)).

Definition DecrRef (s : Skiplist) : Skiplist * list event :=
  let newRef := wrapi32 (ref s - 1) in
  let s := with_ref s newRef in
  if newRef >? 0 then (s, [])
  else
    let called := match OnClose s with
                  | Some hook => [OnCloseCalled hook]
                  | None => []
                  end in
    ({| sl_height := sl_height s; headOffset := headOffset s; ref := ref s;
        arena := None; OnClose := OnClose s |},
     called ++ [ArenaReleased]).

Definition encodeValue (valOffset valSize : Z) : Z :=
  Z.lor (Z.shiftl valSize 32) valOffset.

Definition decodeValue (value : Z) : Z * Z :=
  (wrap32 value, wrap32 (Z.shiftr value 32)).

Definition newNode (a : Arena) (key : list byte) (v : ValueStruct) (h : Z)
  : outcome (Arena * option Z) :=
  '(a, nodeOffset) ← putNode a h;
  '(a, keyOff) ← putKey a key;
  '(a, valOff) ← putVal a v;
  let val := encodeValue valOff (EncodedSize v) in
  nd ← getNode a nodeOffset;
  match nd with
  | None => Fatal RuntimePanic
  | Some p =>
      let old := default node_zero (nodes a !! p) in
      Ret (with_node a p {| value := val; keyOffset := keyOff;
                            keySize := wrap16 (len key);
                            height := wrap16 h;
                            tower := tower old |},
           Some p)
  end.

Definition NewSkiplist (arenaSize : Z) : outcome Skiplist :=
  a ← newArena arenaSize;
  '(a, head) ← newNode a [] ValueStruct_zero maxHeight;
  let ho := getNodeOffset a head in
  Ret {| sl_height := 1; headOffset := ho; ref := 1; arena := Some a; OnClose := None |}.

Definition getValueOffset (a : Arena) (nd : option Z) : outcome (Z * Z) :=
  x ← load a nd;
  Ret (decodeValue (value x)).

Definition key (a : Arena) (nd : option Z) : outcome (list byte) :=
  x ← load a nd;
  getKey a (keyOffset x) (keySize x).

Definition setValue (a : Arena) (nd : option Z) (vo : Z) : outcome Arena :=
  x ← load a nd;
  match nd with
  | None => Fatal RuntimePanic
  | Some p =>
      Ret (with_node a p {| value := vo; keyOffset := keyOffset x; keySize := keySize x;
                            height := height x; tower := tower x |})
  end.

(** [n.tower[h]]: the array has [maxHeight] slots, of which a node owns
    the first [height]; the slots above belong to later allocations. *)
Definition getNextOffset (a : Arena) (nd : option Z) (h : Z) : outcome Z :=
  x ← load a nd;
  if negb ((0 <=? h) && (h <? maxHeight)) then Fatal RuntimePanic
  else if h <? height x then arr_get (tower x) h
  else Fatal UntypedAccess.

(** [x.tower[h] = val], the plain store of [Add]. *)
Definition setTower (a : Arena) (nd : option Z) (h : Z) (val : Z) : outcome Arena :=
  x ← load a nd;
  if negb ((0 <=? h) && (h <? maxHeight)) then Fatal RuntimePanic
  else if h <? height x then
    t ← arr_set (tower x) h val;
    match nd with
    | None => Fatal RuntimePanic
    | Some p =>
        Ret (with_node a p {| value := value x; keyOffset := keyOffset x;
                              keySize := keySize x; height := height x; tower := t |})
    end
  else Fatal UntypedAccess.

(** [atomic.CompareAndSwapUint32(&n.tower[h], old, val)] in a
    sequential execution. *)
Definition casNextOffset (a : Arena) (nd : option Z) (h : Z) (old val : Z)
  : outcome (Arena * bool) :=
  cur ← getNextOffset a nd h;
  if cur =? old then
    a ← setTower a nd h val;
    Ret (a, true)
  else Ret (a, false).

Definition getVs (a : Arena) (nd : option Z) : outcome ValueStruct :=
  '(valOffset, valSize) ← getValueOffset a nd;
  getVal a valOffset valSize.

(** [FastRand] is the Go runtime's generator; [rnd j] is the value its
    [j]-th call returns during the operation at hand. *)
Fixpoint randomHeight_loop (budget : nat) (rnd : nat → Z) (j : nat) (h : Z) : Z :=
  match budget with
  | O => h
  | S budget' =>
      if (h <? maxHeight) && (rnd j <=? heightIncrease)
      then randomHeight_loop budget' rnd (S j) (h + 1)
      else h
  end.

Definition randomHeight (rnd : nat → Z) : Z :=
  randomHeight_loop (Z.to_nat maxHeight) rnd 0%nat 1.

Definition getNext (s : Skiplist) (nd : option Z) (h : Z) : outcome (option Z) :=
  a ← the_arena s;
  off ← getNextOffset a nd h;
  getNode a off.

Definition getHead (s : Skiplist) : outcome (option Z) :=
  a ← the_arena s;
  getNode a (headOffset s).

Definition getHeight (s : Skiplist) : Z := sl_height s.

(** Pointer equality [x == s.getHead()]. *)
Definition ptr_eqb (x y : option Z) : bool := bool_decide (x = y).

Fixpoint findNear_loop (fuel : nat) (s : Skiplist) (k : list byte)
    (less allowEqual : bool) (x : option Z) (level : Z)
  : outcome (option Z * bool) :=
  match fuel with
  | O => OutOfFuel
  | S fuel' =>
      next ← getNext s x level;
      match next with
      | None =>
          if level >? 0 then findNear_loop fuel' s k less allowEqual x (level - 1)
          else if negb less then Ret (None, false)
          else
            hd ← getHead s;
            if ptr_eqb x hd then Ret (None, false) else Ret (x, false)
      | Some _ =>
          a ← the_arena s;
          nextKey ← key a next;
          let cmp := CompareKeys k nextKey in
          if cmp >? 0 then findNear_loop fuel' s k less allowEqual next level
          else if cmp =? 0 then
            if allowEqual then Ret (next, true)
            else if negb less then
              nx ← getNext s next 0;
              Ret (nx, false)
            else if level >? 0 then findNear_loop fuel' s k less allowEqual x (level - 1)
            else
              hd ← getHead s;
              if ptr_eqb x hd then Ret (None, false) else Ret (x, false)
          else
            if level >? 0 then findNear_loop fuel' s k less allowEqual x (level - 1)
            else if negb less then Ret (next, false)
            else
              hd ← getHead s;
              if ptr_eqb x hd then Ret (None, false) else Ret (x, false)
      end
  end.

Definition findNear (fuel : nat) (s : Skiplist) (k : list byte)
    (less allowEqual : bool) : outcome (option Z * bool) :=
  x ← getHead s;
  let level := wrapi32 (getHeight s - 1) in
  findNear_loop fuel s k less allowEqual x level.

Fixpoint findSpliceForLevel (fuel : nat) (s : Skiplist) (k : list byte)
    (before : Z) (level : Z) : outcome (Z * Z) :=
  match fuel with
  | O => OutOfFuel
  | S fuel' =>
      a ← the_arena s;
      beforeNode ← getNode a before;
      next ← getNextOffset a beforeNode level;
      nextNode ← getNode a next;
      match nextNode with
      | None => Ret (before, next)
      | Some _ =>
          nextKey ← key a nextNode;
          let cmp := CompareKeys k nextKey in
          if cmp =? 0 then Ret (next, next)
          else if cmp <? 0 then Ret (before, next)
          else findSpliceForLevel fuel' s k next level
      end
  end.

Definition ValueStruct_of_Entry (e : Entry) : ValueStruct :=
  {| Meta := EMeta e; Value := EValue e; ExpiresAt := EExpiresAt e;
     Version := EVersion e |}.

(** The equal-key path of [Add]: a fresh encoded value is put in the
    arena and its packed word stored into the node at offset [p]. *)
Definition overwrite (s : Skiplist) (v : ValueStruct) (p : Z) : outcome Skiplist :=
  a ← the_arena s;
  '(a, vo) ← putVal a v;
  let encValue := encodeValue vo (EncodedSize v) in
  prevNode ← getNode a p;
  a ← setValue a prevNode encValue;
  Ret (with_arena s a).

(** How one of the loops of [Add] ends: it falls through with the
    skiplist and the [prev]/[next] arrays, or [Add] has returned. *)
Inductive loop_exit : Type :=
  | Continue (s : Skiplist) (prev next : list Z)
  | Returned (s : Skiplist).

(** The first loop of [Add], [for i := int(listHeight) - 1; i >= 0; i--];
    [cnt] is [i + 1]. *)
Fixpoint Add_descend (fuel : nat) (s : Skiplist) (k : list byte) (v : ValueStruct)
    (cnt : nat) (prev next : list Z) : outcome loop_exit :=
  match cnt with
  | O => Ret (Continue s prev next)
  | S cnt' =>
      let i := Z.of_nat cnt' in
      before ← arr_get prev (i + 1);
      '(p, nx) ← findSpliceForLevel fuel s k before i;
      prev ← arr_set prev i p;
      next ← arr_set next i nx;
      if p =? nx then
        s ← overwrite s v p;
        Ret (Returned s)
      else Add_descend fuel s k v cnt' prev next
  end.

(** [atomic.CompareAndSwapInt32(&s.height, old, new)] in a sequential
    execution. *)
Definition casHeight (s : Skiplist) (old new : Z) : Skiplist * bool :=
  if sl_height s =? old then (with_height s new, true)
  else (s, false).

(** The loop that raises [s.height]. *)
Fixpoint Add_raise (fuel : nat) (s : Skiplist) (h : Z) (listHeight : Z) : outcome Skiplist :=
  if h >? listHeight then
    match fuel with
    | O => OutOfFuel
    | S fuel' =>
        let '(s, swapped) := casHeight s listHeight (wrapi32 h) in
        if swapped then Ret s
        else Add_raise fuel' s h (getHeight s)
    end
  else Ret s.

(** The inner [for { ... }] of the publishing loop, at level [i]. *)
Fixpoint Add_publish_level (fuel : nat) (s : Skiplist) (k : list byte) (v : ValueStruct)
    (x : option Z) (i : Z) (prev next : list Z) : outcome loop_exit :=
  match fuel with
  | O => OutOfFuel
  | S fuel' =>
      a ← the_arena s;
      pi ← arr_get prev i;
      pn ← getNode a pi;
      '(prev, next) ←
        match pn with
        | None =>
            _ ← AssertTrue (i >? 1) AssertLevelAboveOne;
            '(p, nx) ← findSpliceForLevel fuel s k (headOffset s) i;
            prev ← arr_set prev i p;
            next ← arr_set next i nx;
            _ ← AssertTrue (negb (p =? nx)) AssertSpliceDistinct;
            Ret (prev, next)
        | Some _ => Ret (prev, next)
        end;
      ni ← arr_get next i;
      a ← setTower a x i ni;
      pi ← arr_get prev i;
      pnode ← getNode a pi;
      '(a, swapped) ← casNextOffset a pnode i ni (getNodeOffset a x);
      let s := with_arena s a in
      if (swapped : bool) then Ret (Continue s prev next)
      else
        '(p, nx) ← findSpliceForLevel fuel s k pi i;
        prev ← arr_set prev i p;
        next ← arr_set next i nx;
        if p =? nx then
          _ ← AssertTrue (i =? 0) AssertEqualityAtBase;
          s ← overwrite s v p;
          Ret (Returned s)
        else Add_publish_level fuel' s k v x i prev next
  end.

(** The outer [for i := 0; i < height; i++]; [cnt] is [height - i]. *)
Fixpoint Add_publish (fuel : nat) (s : Skiplist) (k : list byte) (v : ValueStruct)
    (x : option Z) (cnt : nat) (i : Z) (prev next : list Z) : outcome Skiplist :=
  match cnt with
  | O => Ret s
  | S cnt' =>
      r ← Add_publish_level fuel s k v x i prev next;
      match r with
      | Returned s => Ret s
      | Continue s prev next => Add_publish fuel s k v x cnt' (i + 1) prev next
      end
  end.

Definition Add (fuel : nat) (rnd : nat → Z) (s : Skiplist) (e : Entry) : outcome Skiplist :=
  let k := Key e in
  let v := ValueStruct_of_Entry e in
  let listHeight := getHeight s in
  let prev := replicate (Z.to_nat (maxHeight + 1)) 0 in
  let next := replicate (Z.to_nat (maxHeight + 1)) 0 in
  prev ← arr_set prev listHeight (headOffset s);
  r ← Add_descend fuel s k v (Z.to_nat listHeight) prev next;
  match r with
  | Returned s => Ret s
  | Continue s prev next =>
      let h := randomHeight rnd in
      a ← the_arena s;
      '(a, x) ← newNode a k v h;
      let s := with_arena s a in
      let listHeight := getHeight s in
      s ← Add_raise fuel s h listHeight;
      Add_publish fuel s k v x (Z.to_nat h) 0 prev next
  end.

(** [Add] called on each entry in turn; [rnds] gives every call its
    random draws. *)
Fixpoint AddAll (fuel : nat) (s : Skiplist) (es : list (Entry * (nat → Z)))
  : outcome Skiplist :=
  match es with
  | [] => Ret s
  | (e, rnd) :: es' =>
      s ← Add fuel rnd s e;
      AddAll fuel s es'
  end.

Fixpoint findLast_loop (fuel : nat) (s : Skiplist) (x : option Z) (level : Z)
  : outcome (option Z) :=
  match fuel with
  | O => OutOfFuel
  | S fuel' =>
      next ← getNext s x level;
      match next with
      | Some _ => findLast_loop fuel' s next level
      | None =>
          if level =? 0 then
            hd ← getHead s;
            if ptr_eqb x hd then Ret None else Ret x
          else findLast_loop fuel' s x (level - 1)
      end
  end.

Definition findLast (fuel : nat) (s : Skiplist) : outcome (option Z) :=
  x ← getHead s;
  findLast_loop fuel s x (getHeight s - 1).

Definition Empty (fuel : nat) (s : Skiplist) : outcome bool :=
  last ← findLast fuel s;
  Ret (bool_decide (last = None)).

Definition with_ExpiresAt (vs : ValueStruct) (e : Z) : ValueStruct :=
  {| Meta := Meta vs; Value := Value vs; ExpiresAt := e; Version := Version vs |}.

Definition Search (fuel : nat) (s : Skiplist) (k : list byte) : outcome ValueStruct :=
  '(nd, _) ← findNear fuel s k false true;
  match nd with
  | None => Ret ValueStruct_zero
  | Some _ =>
      a ← the_arena s;
      x ← load a nd;
      nextKey ← getKey a (keyOffset x) (keySize x);
      if negb (SameKey k nextKey) then Ret ValueStruct_zero
      else
        '(valOffset, valSize) ← getValueOffset a nd;
        vs ← getVal a valOffset valSize;
        Ret (with_ExpiresAt vs (ParseTs nextKey))
  end.

(** ** Iterators *)

(** The iterator's [list] field points at the skiplist, which the
    operations below take and return explicitly; [it_n] is the current
    node. *)
Record SkipListIterator : Type := mkIter { it_n : option Z }.

Definition NewSkipListIterator (s : Skiplist) : Skiplist * SkipListIterator :=
  (IncrRef s, {| it_n := None |}).

Definition Close (s : Skiplist) (it : SkipListIterator) : Skiplist * list event :=
  DecrRef s.

Definition MemSize (s : Skiplist) : outcome Z :=
  a ← the_arena s;
  Ret (size a).

Definition Valid (it : SkipListIterator) : bool := bool_decide (it_n it ≠ None).

Definition SeekToFirst (s : Skiplist) (it : SkipListIterator) : outcome SkipListIterator :=
  hd ← getHead s;
  nx ← getNext s hd 0;
  Ret {| it_n := nx |}.

Definition Next (s : Skiplist) (it : SkipListIterator) : outcome SkipListIterator :=
  _ ← AssertTrue (Valid it) AssertIterValid;
  nx ← getNext s (it_n it) 0;
  Ret {| it_n := nx |}.

Definition IterKey (s : Skiplist) (it : SkipListIterator) : outcome (list byte) :=
  a ← the_arena s;
  key a (it_n it).

Definition Seek (fuel : nat) (s : Skiplist) (it : SkipListIterator) (target : list byte)
  : outcome SkipListIterator :=
  '(nd, _) ← findNear fuel s target false true;
  Ret {| it_n := nd |}.

(** Scanning [tower[level]] from the head: the offsets of the nodes met,
    in order, up to the null link.  At level 0 this is what
    [SeekToFirst] followed by [Next] until [Valid] fails visits. *)
Fixpoint scan_from (fuel : nat) (s : Skiplist) (x : option Z) (level : Z)
  : outcome (list Z) :=
  match fuel with
  | O => OutOfFuel
  | S fuel' =>
      nx ← getNext s x level;
      match nx with
      | None => Ret []
      | Some p =>
          rest ← scan_from fuel' s nx level;
          Ret (p :: rest)
      end
  end.

Definition scan (fuel : nat) (s : Skiplist) (level : Z) : outcome (list Z) :=
  hd ← getHead s;
  scan_from fuel s hd level.

(** The stored internal key of the node at offset [p]. *)
Definition node_key (s : Skiplist) (p : Z) : outcome (list byte) :=
  a ← the_arena s;
  key a (Some p).

(** ** Definitions used to state the properties *)

(** The varint encoding of the specification's value layout
    [Meta | varint(ExpiresAt) | Value]: the groups of seven bits of [x],
    least significant first, each but the last with the top bit set. *)
Fixpoint varint_groups (budget : nat) (x : Z) : list byte :=
  if x <? 128 then [byte_of_Z x]
  else match budget with
       | O => []
       | S budget' => byte_of_Z (128 + x mod 128) :: varint_groups budget' (x / 128)
       end.

Definition varint (x : Z) : list byte := varint_groups 9 x.

(** [bytes_at b off cnt]: the [cnt] bytes of [b] from index [off] on. *)
Definition bytes_at (b : list byte) (off cnt : Z) : list byte :=
  take (Z.to_nat cnt) (drop (Z.to_nat off) b).

(** The arena after its cursor has advanced by [sz]. *)
Definition bump (a : Arena) (sz : Z) : Arena :=
  {| n := n a + sz; shouldGrow := shouldGrow a; buf := buf a; nodes := nodes a |}.

(** The bytes of an encoded value cell, [Meta | varint(ExpiresAt) | Value]. *)
Definition encoded (v : ValueStruct) : list byte :=
  Meta v :: varint (ExpiresAt v) ++ Value v.

(** Value cells whose fields fit their Go types and the arena's 32-bit
    offsets. *)
Definition cell_ok (v : ValueStruct) : Prop :=
  0 <= ExpiresAt v < 2 ^ 64 ∧ len (Value v) < 2 ^ 30.

(** Entries [Add] stores faithfully: the key length fits the [uint16]
    field [keySize], the value cell fits the arena. *)
Definition entry_ok (e : Entry) : Prop :=
  len (Key e) < 2 ^ 16 ∧ cell_ok (ValueStruct_of_Entry e).

(** Views of the node at offset [p]: its height, its stored internal
    key, and its forward link at level [L]. *)
Definition hgt (a : Arena) (p : Z) : Z :=
  match nodes a !! p with
  | Some nd => height nd
  | None => 0
  end.

Definition skey (a : Arena) (p : Z) : list byte :=
  match key a (Some p) with
  | Ret k => k
  | _ => []
  end.

Definition link (a : Arena) (p : Z) (L : Z) : option Z :=
  match nodes a !! p with
  | Some nd => tower nd !! Z.to_nat L
  | None => None
  end.

(** [chain a L x ys]: following [tower[L]] from the node at [x] visits
    exactly the nodes [ys], in order, and then reaches the null offset. *)
Fixpoint chain (a : Arena) (L : Z) (x : Z) (ys : list Z) : Prop :=
  match ys with
  | [] => link a x L = Some 0
  | y :: ys' => link a x L = Some y ∧ y ≠ 0 ∧ chain a L y ys'
  end.

(** The nodes of [l] that are tall enough to be linked at level [L]. *)
Definition above (a : Arena) (L : Z) (l : list Z) : list Z :=
  filter (λ p, L < hgt a p) l.

(** [key_lt a p q]: the stored key of [p] sorts strictly before that of [q]. *)
Definition key_lt (a : Arena) (p q : Z) : Prop :=
  CompareKeys (skey a p) (skey a q) < 0.

Record node_ok (a : Arena) (p : Z) (nd : node) : Prop := {
  nk_pos : 0 < p < n a;
  nk_height : 1 <= height nd <= maxHeight;
  nk_tower : length (tower nd) = Z.to_nat maxHeight;
  nk_key : 0 <= keyOffset nd ∧ 0 <= keySize nd < 2 ^ 16 ∧
           keyOffset nd + keySize nd <= n a;
  nk_value : ∃ vo v, value nd = encodeValue vo (EncodedSize v) ∧
             0 <= vo ∧ vo + EncodedSize v <= n a ∧ cell_ok v ∧
             bytes_at (buf a) vo (EncodedSize v) = encoded v
}.

Record arena_ok (a : Arena) : Prop := {
  ak_grow : shouldGrow a = false;
  ak_cursor : 1 <= n a <= len (buf a);
  ak_cap : len (buf a) <= 2 ^ 31;
  ak_nodes : ∀ p nd, nodes a !! p = Some nd → node_ok a p nd
}.

(** The representation invariant: [l] lists the offsets of the data
    nodes in level-0 order (the head sentinel excluded). *)
Record wf_at (s : Skiplist) (a : Arena) (l : list Z) : Prop := {
  wf_arena_ok : arena_ok a;
  wf_height : 1 <= sl_height s <= maxHeight;
  wf_head : hgt a (headOffset s) = maxHeight;
  wf_head_out : headOffset s ∉ l;
  wf_heights : Forall (λ p, 1 <= hgt a p <= sl_height s) l;
  wf_sorted : StronglySorted (key_lt a) l;
  wf_chains : ∀ L, 0 <= L < maxHeight → chain a L (headOffset s) (above a L l)
}.

Definition wf (s : Skiplist) (l : list Z) : Prop :=
  ∃ a, arena s = Some a ∧ wf_at s a l.

(** The last element of [x :: l] and the first element of [l], or the
    null offset. *)
Definition last_from (x : Z) (l : list Z) : Z := List.last l x.
Definition first_or_null (l : list Z) : Z := List.hd 0 l.

(** [extends a a']: [a'] is [a] after further allocations: the cursor
    has not moved back and the bytes below the old cursor are the same. *)
Definition extends (a a' : Arena) : Prop :=
  n a <= n a' ∧
  ∀ lo cnt, 0 <= lo → 0 <= cnt → lo + cnt <= n a →
    bytes_at (buf a') lo cnt = bytes_at (buf a) lo cnt.

(** The offset [putNode] returns for an allocation that starts at [off]. *)
Definition aligned (off : Z) : Z :=
  Z.land (wrap32 (off + nodeAlign)) (MaxUint32 - nodeAlign).

(** The arena after the store [tower[L] = v] into the node at [p]. *)
Definition set_link (a : Arena) (p : Z) (L : Z) (v : Z) : Arena :=
  match nodes a !! p with
  | Some nd =>
      with_node a p {| value := value nd; keyOffset := keyOffset nd;
                       keySize := keySize nd; height := height nd;
                       tower := <[Z.to_nat L := v]> (tower nd) |}
  | None => a
  end.

(** The arena after the store of the packed value word [w] into the
    node at [p]. *)
Definition set_value (a : Arena) (p : Z) (w : Z) : Arena :=
  match nodes a !! p with
  | Some nd =>
      with_node a p {| value := w; keyOffset := keyOffset nd;
                       keySize := keySize nd; height := height nd;
                       tower := tower nd |}
  | None => a
  end.

(** [same_but_towers a a']: the two arenas differ at most in the
    contents of the towers of their nodes. *)
Definition same_but_towers (a a' : Arena) : Prop :=
  n a' = n a ∧ shouldGrow a' = shouldGrow a ∧ buf a' = buf a ∧
  ∀ p, match nodes a !! p, nodes a' !! p with
       | Some nd, Some nd' =>
           value nd' = value nd ∧ keyOffset nd' = keyOffset nd ∧
           keySize nd' = keySize nd ∧ height nd' = height nd ∧
           length (tower nd') = length (tower nd)
       | None, None => True
       | _, _ => False
       end.

(** [split_at a l k lo hi]: [lo] holds the nodes of [l] whose key sorts
    before [k], [hi] the others. *)
Definition split_at (a : Arena) (l : list Z) (k : list byte) (lo hi : list Z) : Prop :=
  l = lo ++ hi ∧
  Forall (λ p, CompareKeys (skey a p) k < 0) lo ∧
  Forall (λ p, CompareKeys k (skey a p) <= 0) hi.

(** What [findSpliceForLevel] returns at level [L] for the key [k]:
    the equal node twice, or the last node before [k] and the first
    after it among those above level [L]. *)
Definition splice_of (a : Arena) (head : Z) (k : list byte) (lo hi : list Z) (L : Z) : Z * Z :=
  let nx := first_or_null (above a L hi) in
  if negb (nx =? 0) && (CompareKeys k (skey a nx) =? 0) then (nx, nx)
  else (last_from head (above a L lo), nx).

(** What [findNear] returns for the key [k], in terms of the nodes
    before [k] and those not before it. *)
Definition near_of (a : Arena) (k : list byte) (lo hi : list Z)
    (less allowEqual : bool) : option Z * bool :=
  let eq := match hi with
            | z :: _ => CompareKeys k (skey a z) =? 0
            | [] => false
            end in
  if less then
    if allowEqual && eq then (head hi, true) else (last lo, false)
  else if allowEqual then (head hi, eq)
  else if eq then (head (tail hi), false)
  else (head hi, false).

(** The condition [findNear] looks for, on the key [nk] of a node:
    [nk >= k], [nk > k], [nk <= k] or [nk < k]. *)
Definition wanted (less allowEqual : bool) (k nk : list byte) : Prop :=
  match less, allowEqual with
  | false, true => CompareKeys nk k >= 0
  | false, false => CompareKeys nk k > 0
  | true, true => CompareKeys nk k <= 0
  | true, false => CompareKeys nk k < 0
  end.

(** [kp] is at least as near to the target as [kq]: not greater when the
    least node is asked for, not smaller when the greatest is. *)
Definition nearer (less : bool) (kp kq : list byte) : Prop :=
  if less then CompareKeys kq kp <= 0 else CompareKeys kp kq <= 0.

(** The arena [newNode a k v h] leaves: node, key and value allocated in
    this order from the cursor on, the node record filled in. *)
Definition arena_with_node (a : Arena) (k : list byte) (v : ValueStruct) (h : Z) : Arena :=
  let ko := n a + (23 + 4 * h) in
  let vo := ko + len k in
  {| n := vo + EncodedSize v; shouldGrow := shouldGrow a;
     buf := splice_bytes (splice_bytes (buf a) ko k) vo (encoded v);
     nodes := <[aligned (n a) :=
                {| value := encodeValue vo (EncodedSize v); keyOffset := ko;
                   keySize := len k; height := h;
                   tower := tower (default node_zero (nodes a !! aligned (n a))) |}]>
              (nodes a) |}.

(** The arena the equal-key path of [Add] leaves: the encoded value
    appended at the cursor, its packed word stored into the node at [p]. *)
Definition arena_with_value (a : Arena) (v : ValueStruct) (p : Z) : Arena :=
  set_value (with_buf (bump a (EncodedSize v))
               (splice_bytes (buf a) (n a) (encoded v)))
            p (encodeValue (n a) (EncodedSize v)).

(** The state of the publishing loop of [Add] before level [i]: the new
    node [m] is linked in at the levels below [i] and at no other;
    [a1] is the arena right after [newNode], [ac] the current one. *)
Definition publishing (a0 a1 : Arena) (head : Z) (lo hi : list Z) (m : Z)
    (i : Z) (ac : Arena) : Prop :=
  same_but_towers a1 ac ∧
  (∀ L, 0 <= L < i → chain ac L head (above a0 L lo ++ m :: above a0 L hi)) ∧
  (∀ L, i <= L < maxHeight → chain ac L head (above a0 L lo ++ above a0 L hi)).

(** The [prev] and [next] arrays as the publishing loop needs them: at
    each level either the splice around the key, or a null [prev] above
    the height [H] that the descent started from. *)
Definition splices (a0 : Arena) (head : Z) (lo hi : list Z) (H : Z)
    (prev next : list Z) : Prop :=
  length prev = 21%nat ∧ length next = 21%nat ∧
  ∀ j : nat, (j < 20)%nat →
    (H < Z.of_nat j ∧ prev !! j = Some 0) ∨
    (prev !! j = Some (last_from head (above a0 (Z.of_nat j) lo)) ∧
     next !! j = Some (first_or_null (above a0 (Z.of_nat j) hi))).

(** [quiet_with P o]: the outcome [o] is not the failure of the
    assertion [i > 1] of [Add]; if it is a normal return, the result
    satisfies [P]. *)
Definition quiet_with {A : Type} (P : A → Prop) (o : outcome A) : Prop :=
  match o with
  | Ret x => P x
  | Fatal f => f ≠ AssertLevelAboveOne
  | OutOfFuel => True
  end.

(** [seeded H i prev]: the entries [prev[i..H]] are non-null offsets. *)
Definition seeded (H i : Z) (prev : list Z) : Prop :=
  ∀ j, i <= j <= H → default 0 (prev !! Z.to_nat j) ≠ 0.

(** [same_frame s s']: the two skiplists have the same height and head. *)
Definition same_frame (s s' : Skiplist) : Prop :=
  sl_height s' = sl_height s ∧ headOffset s' = headOffset s.

(** What a loop of [Add] leaves of the skiplist's height and head. *)
Definition exit_frame (s : Skiplist) (r : loop_exit) : Prop :=
  match r with
  | Continue s' _ _ => same_frame s s'
  | Returned s' => same_frame s s'
  end.

(** A skiplist made by [NewSkiplist] and filled by a sequence of [Add]
    calls. *)
Definition build (sz : Z) (fuel : nat) (es : list (Entry * (nat → Z))) : outcome Skiplist :=
  s0 ← NewSkiplist sz;
  AddAll fuel s0 es.

(** ** Sample data *)

(** The 8-byte suffix of an internal key for the timestamp [t]:
    [MaxUint64 - t], big-endian. *)
Definition stamp (t : Z) : list byte :=
  map (λ i : nat, byte_of_Z (Z.shiftr (MaxUint64 - t) (8 * (7 - Z.of_nat i)))) (seq 0 8).

Definition entry_of (k v : list byte) : Entry :=
  {| Key := k; EValue := v; EExpiresAt := 0; EMeta := x00; EVersion := 0;
     Offset := 0; Hlen := 0; ValThreshold := 0 |}.

(** Random draws that make [randomHeight] return 1, and draws that make
    it return 3. *)
Definition draws_low : nat → Z := λ _, MaxUint32.
Definition draws_high : nat → Z := λ j, if (j <? 2)%nat then 0 else MaxUint32.

(** Keys b, a, c (timestamp 1) and then b again with another value. *)
Definition sample_entries : list (Entry * (nat → Z)) :=
  [(entry_of (x62 :: stamp 1) [x42], draws_high);
   (entry_of (x61 :: stamp 1) [x41], draws_low);
   (entry_of (x63 :: stamp 1) [x43], draws_high);
   (entry_of (x62 :: stamp 1) [x5a], draws_low)].

Definition Skiplist_zero : Skiplist :=
  {| sl_height := 0; headOffset := 0; ref := 0; arena := None; OnClose := None |}.

Definition result_of (o : outcome Skiplist) : Skiplist :=
  match o with
  | Ret s => s
  | _ => Skiplist_zero
  end.

Definition sample_new : Skiplist := result_of (NewSkiplist 1000).
Definition sample_list : Skiplist := result_of (build 1000 40 sample_entries).

(** A new skiplist whose owner has set the exported field [OnClose]. *)
Definition hooked_new : Skiplist :=
  {| sl_height := sl_height sample_new; headOffset := headOffset sample_new;
     ref := ref sample_new; arena := arena sample_new; OnClose := Some 7%nat |}.

(** A key of 65545 bytes, and one of 65536 bytes. *)
Definition long_key : list byte := replicate (Z.to_nat 65537) x6b ++ stamp 1.
Definition wrapping_key : list byte := replicate (Z.to_nat 65528) x7a ++ stamp 1.

(** The same long key added twice; a short key followed by the key of
    65536 bytes. *)
Definition twice_entries : list (Entry * (nat → Z)) :=
  [(entry_of long_key [x76], draws_low); (entry_of long_key [x77], draws_low)].

Definition wrapping_entries : list (Entry * (nat → Z)) :=
  [(entry_of (x62 :: stamp 1) [x76], draws_low);
   (entry_of wrapping_key [x77], draws_low)].

(** The reachable nodes of [s] in level-0 order with their stored keys. *)
Definition reachable_keys (fuel : nat) (s : Skiplist) : outcome (list Z * list (list byte)) :=
  l ← scan fuel s 0;
  ks ← mapM (node_key s) l;
  Ret (l, ks).

(** The decoded value cell of the node at offset [p], as the iterator's
    [Value] reads it. *)
Definition node_value (s : Skiplist) (p : Z) : outcome ValueStruct :=
  a ← the_arena s;
  getVs a (Some p).

Definition sample_cell : ValueStruct :=
  {| Meta := x07; Value := [x61; x62]; ExpiresAt := 300; Version := 9 |}.

(** ** The rest of entry.go and of the iterator *)

(** [NewEntry]: every field but [Key] and [Value] has its zero value. *)
Definition NewEntry (key value : list byte) : Entry :=
  {| Key := key; EValue := value; EExpiresAt := 0; EMeta := x00; EVersion := 0;
     Offset := 0; Hlen := 0; ValThreshold := 0 |}.

Definition Rewind (s : Skiplist) (it : SkipListIterator) : outcome SkipListIterator :=
  SeekToFirst s it.

(** [Value]: the value cell of the current node; a [nil] node is
    dereferenced by [getValueOffset]. *)
Definition IterValue (s : Skiplist) (it : SkipListIterator) : outcome ValueStruct :=
  a ← the_arena s;
  getVs a (it_n it).

Definition ValueUint64 (s : Skiplist) (it : SkipListIterator) : outcome Z :=
  a ← the_arena s;
  x ← load a (it_n it);
  Ret (value x).

Definition Item (s : Skiplist) (it : SkipListIterator) : outcome Entry :=
  k ← IterKey s it;
  v ← IterValue s it;
  Ret {| Key := k; EValue := Value v; EExpiresAt := ExpiresAt v; EMeta := Meta v;
         EVersion := Version v; Offset := 0; Hlen := 0; ValThreshold := 0 |}.

Definition Prev (fuel : nat) (s : Skiplist) (it : SkipListIterator)
  : outcome SkipListIterator :=
  _ ← AssertTrue (Valid it) AssertIterValid;
  k ← IterKey s it;
  '(nd, _) ← findNear fuel s k true false;
  Ret {| it_n := nd |}.

Definition SeekForPrev (fuel : nat) (s : Skiplist) (it : SkipListIterator)
    (target : list byte) : outcome SkipListIterator :=
  '(nd, _) ← findNear fuel s target true true;
  Ret {| it_n := nd |}.

Definition SeekToLast (fuel : nat) (s : Skiplist) (it : SkipListIterator)
  : outcome SkipListIterator :=
  nd ← findLast fuel s;
  Ret {| it_n := nd |}.

(** The loop a client runs over an iterator,
    [for it.Rewind(); it.Valid(); it.Next()], collecting [it.Key()] and
    [it.Value()] at each position. *)
Fixpoint iterate_from (fuel : nat) (s : Skiplist) (it : SkipListIterator)
  : outcome (list (list byte * ValueStruct)) :=
  match fuel with
  | O => OutOfFuel
  | S fuel' =>
      if Valid it then
        k ← IterKey s it;
        v ← IterValue s it;
        it ← Next s it;
        rest ← iterate_from fuel' s it;
        Ret ((k, v) :: rest)
      else Ret []
  end.

Definition iterate (fuel : nat) (s : Skiplist) : outcome (list (list byte * ValueStruct)) :=
  it ← Rewind s {| it_n := None |};
  iterate_from fuel s it.

(** ** More sample data *)

Definition Arena_zero : Arena :=
  {| n := 0; shouldGrow := false; buf := []; nodes := ∅ |}.

Definition sample_arena : Arena :=
  match arena sample_list with
  | Some a => a
  | None => Arena_zero
  end.

(** A growing arena of 200 bytes with the cursor at 150. *)
Definition growing_arena : Arena :=
  {| n := 150; shouldGrow := true; buf := replicate 200 x00; nodes := ∅ |}.

Definition fixed_arena : Arena :=
  {| n := 150; shouldGrow := false; buf := replicate 200 x00; nodes := ∅ |}.

(** The bytes a [node] of height [h] occupies: 8 + 4 + 2 + 2 for
    [value], [keyOffset], [keySize] and [height], and 4 for each of the
    [h] tower slots it owns. *)
Definition node_bytes (h : Z) : Z := 16 + offsetSize * h.

(** The decoded value cell of the node at offset [p]. *)
Definition cell_of (a : Arena) (p : Z) : ValueStruct :=
  match getVs a (Some p) with
  | Ret c => c
  | _ => ValueStruct_zero
  end.

(** The value cell [Add] stores for the entry [e], as it is read back:
    [Version] is not encoded. *)
Definition stored_cell (e : Entry) : ValueStruct :=
  {| Meta := EMeta e; Value := EValue e; ExpiresAt := EExpiresAt e; Version := 0 |}.

(** The bytes [Add] takes from the arena for a new node of height [h]
    holding the entry [e]: the node block, the key and the encoded
    value. *)
Definition node_cost (e : Entry) (h : Z) : Z :=
  (MaxNodeSize - (maxHeight - h) * offsetSize + nodeAlign) + len (Key e) +
  EncodedSize (ValueStruct_of_Entry e).

(** [added a l e a' l' p]: in the arena [a'] with reachable nodes [l'],
    the node [p] holds the entry [e]; the arena [a] with reachable nodes
    [l] it came from is extended, and every node of [l] is still
    reachable with its key, and, if it is not [p], with its value. *)
Definition added (a : Arena) (l : list Z) (e : Entry) (a' : Arena) (l' : list Z) (p : Z)
  : Prop :=
  p ∈ l' ∧ skey a' p = Key e ∧ cell_of a' p = stored_cell e ∧ extends a a' ∧
  ∀ q, q ∈ l → q ∈ l' ∧ skey a' q = skey a q ∧ (q ≠ p → cell_of a' q = cell_of a q).

(** An entry with a key that the sample list does not hold, and one
    with a key that it holds. *)
Definition fresh_entry : Entry := NewEntry (x64 :: stamp 1) [x44].

(** A value cell with 300 bytes of value. *)
Definition wide_cell : ValueStruct :=
  {| Meta := x07; Value := replicate 300 x61; ExpiresAt := 300; Version := 0 |}.

(** Decide the boolean comparisons of the goal by the arithmetic facts at
    hand, as far as exactly one outcome is consistent with them. *)
Ltac decide_cmp :=
  repeat match goal with
         | |- context [?x <=? ?y] =>
             first [ replace (x <=? y) with true by (symmetry; apply Z.leb_le; lia)
                   | replace (x <=? y) with false by (symmetry; apply Z.leb_gt; lia) ]
         | |- context [?x <? ?y] =>
             first [ replace (x <? y) with true by (symmetry; apply Z.ltb_lt; lia)
                   | replace (x <? y) with false by (symmetry; apply Z.ltb_ge; lia) ]
         | |- context [?x >? ?y] =>
             first [ replace (x >? y) with true by (symmetry; rewrite Z.gtb_ltb; apply Z.ltb_lt; lia)
                   | replace (x >? y) with false by (symmetry; rewrite Z.gtb_ltb; apply Z.ltb_ge; lia) ]
         | |- context [?x =? ?y] =>
             first [ replace (x =? y) with true by (symmetry; apply Z.eqb_eq; lia)
                   | replace (x =? y) with false by (symmetry; apply Z.eqb_neq; lia) ]
         end.

(** * Bytes *)

Lemma byte_to_Z_range (b : byte) : 0 <= byte_to_Z b < 256.
Proof.
  unfold byte_to_Z. pose proof (Byte.to_N_bounded b) as H.
  apply N.leb_le in H. apply N.leb_le in H. lia.
Qed.

Lemma byte_to_of_Z (z : Z) : byte_to_Z (byte_of_Z z) = z mod 256.
Proof.
  unfold byte_to_Z, byte_of_Z.
  assert (Hr : 0 <= z mod 256 < 256) by (apply Z.mod_pos_bound; lia).
  destruct (Byte.of_N (Z.to_N (z mod 256))) as [b|] eqn:E.
  - apply Byte.to_of_N in E. rewrite E. lia.
  - apply Byte.of_N_None_iff in E. lia.
Qed.

Lemma byte_of_to_Z (b : byte) : byte_of_Z (byte_to_Z b) = b.
Proof.
  unfold byte_of_Z. pose proof (byte_to_Z_range b) as Hr.
  rewrite Z.mod_small by lia. unfold byte_to_Z. rewrite N2Z.id.
  now rewrite Byte.of_to_N.
Qed.

Lemma byte_to_Z_inj (a b : byte) : byte_to_Z a = byte_to_Z b → a = b.
Proof. intros H. rewrite <- (byte_of_to_Z a), <- (byte_of_to_Z b). now rewrite H. Qed.

Lemma len_nonneg {A} (l : list A) : 0 <= len l.
Proof. unfold len. lia. Qed.

Lemma len_app {A} (l1 l2 : list A) : len (l1 ++ l2) = len l1 + len l2.
Proof. unfold len. rewrite length_app. lia. Qed.

Lemma len_cons {A} (x : A) (l : list A) : len (x :: l) = 1 + len l.
Proof. unfold len. simpl. lia. Qed.

(** * The order on keys *)

Lemma bytes_Compare_values (a b : list byte) :
  bytes_Compare a b = -1 ∨ bytes_Compare a b = 0 ∨ bytes_Compare a b = 1.
Proof.
  revert b. induction a as [|x a IH]; intros [|y b]; simpl; auto.
  destruct (byte_to_Z x <? byte_to_Z y); auto.
  destruct (byte_to_Z y <? byte_to_Z x); auto.
Qed.

Lemma bytes_Compare_eq (a b : list byte) : bytes_Compare a b = 0 ↔ a = b.
Proof.
  revert b. induction a as [|x a IH]; intros [|y b]; simpl; try (split; [lia|congruence]).
  - tauto.
  - destruct (Z.ltb_spec (byte_to_Z x) (byte_to_Z y)).
    { split; [lia|]. intros [= -> ->]. lia. }
    destruct (Z.ltb_spec (byte_to_Z y) (byte_to_Z x)).
    { split; [lia|]. intros [= -> ->]. lia. }
    rewrite IH. assert (x = y) by (apply byte_to_Z_inj; lia). subst.
    split; [intros ->; reflexivity | intros [= ->]; reflexivity].
Qed.

Lemma bytes_Compare_antisym (a b : list byte) : bytes_Compare b a = - bytes_Compare a b.
Proof.
  revert b. induction a as [|x a IH]; intros [|y b]; simpl; try reflexivity.
  destruct (Z.ltb_spec (byte_to_Z x) (byte_to_Z y));
    destruct (Z.ltb_spec (byte_to_Z y) (byte_to_Z x)); try lia. apply IH.
Qed.

Lemma bytes_Compare_trans (a b c : list byte) :
  bytes_Compare a b < 0 → bytes_Compare b c < 0 → bytes_Compare a c < 0.
Proof.
  revert b c. induction a as [|x a IH]; intros [|y b] [|z c]; simpl; try lia.
  destruct (Z.ltb_spec (byte_to_Z x) (byte_to_Z y));
    destruct (Z.ltb_spec (byte_to_Z y) (byte_to_Z x));
    destruct (Z.ltb_spec (byte_to_Z y) (byte_to_Z z));
    destruct (Z.ltb_spec (byte_to_Z z) (byte_to_Z y));
    destruct (Z.ltb_spec (byte_to_Z x) (byte_to_Z z));
    destruct (Z.ltb_spec (byte_to_Z z) (byte_to_Z x)); try lia.
  apply IH.
Qed.

Lemma ParseKey_split (k : list byte) :
  ParseKey k ++ drop (length (ParseKey k)) k = k.
Proof.
  unfold ParseKey. destruct (len k <? 8).
  - rewrite drop_all. apply app_nil_r.
  - rewrite length_take. unfold len.
    replace (Z.to_nat (Z.of_nat (length k) - 8) `min` length k)%nat
      with (Z.to_nat (Z.of_nat (length k) - 8)) by lia.
    apply take_drop.
Qed.

Lemma CompareKeys_values (a b : list byte) :
  CompareKeys a b = -1 ∨ CompareKeys a b = 0 ∨ CompareKeys a b = 1.
Proof.
  unfold CompareKeys. destruct (_ =? 0); apply bytes_Compare_values.
Qed.

Lemma CompareKeys_eq (a b : list byte) : CompareKeys a b = 0 ↔ a = b.
Proof.
  unfold CompareKeys.
  destruct (Z.eqb_spec (bytes_Compare (ParseKey a) (ParseKey b)) 0) as [E|E].
  - rewrite bytes_Compare_eq. apply bytes_Compare_eq in E. split.
    + intros H. pose proof (ParseKey_split a) as Ha. pose proof (ParseKey_split b) as Hb.
      rewrite H, E in Ha. congruence.
    + intros ->. reflexivity.
  - split; [contradiction|]. intros ->. exfalso. apply E. now apply bytes_Compare_eq.
Qed.

Lemma CompareKeys_refl (a : list byte) : CompareKeys a a = 0.
Proof. now apply CompareKeys_eq. Qed.

Lemma CompareKeys_antisym (a b : list byte) : CompareKeys b a = - CompareKeys a b.
Proof.
  unfold CompareKeys.
  rewrite (bytes_Compare_antisym (ParseKey a) (ParseKey b)).
  destruct (Z.eqb_spec (bytes_Compare (ParseKey a) (ParseKey b)) 0) as [E|E].
  - rewrite E. simpl. apply bytes_Compare_antisym.
  - destruct (Z.eqb_spec (- bytes_Compare (ParseKey a) (ParseKey b)) 0); [lia|reflexivity].
Qed.

Lemma CompareKeys_trans (a b c : list byte) :
  CompareKeys a b < 0 → CompareKeys b c < 0 → CompareKeys a c < 0.
Proof.
  unfold CompareKeys.
  destruct (Z.eqb_spec (bytes_Compare (ParseKey a) (ParseKey b)) 0) as [E1|E1];
    destruct (Z.eqb_spec (bytes_Compare (ParseKey b) (ParseKey c)) 0) as [E2|E2].
  - apply bytes_Compare_eq in E1, E2.
    assert (E3 : bytes_Compare (ParseKey a) (ParseKey c) = 0)
      by (apply bytes_Compare_eq; congruence).
    rewrite E3. simpl. apply bytes_Compare_trans.
  - apply bytes_Compare_eq in E1.
    assert (E3 : bytes_Compare (ParseKey a) (ParseKey c) = bytes_Compare (ParseKey b) (ParseKey c))
      by (now rewrite E1).
    rewrite E3. destruct (Z.eqb_spec (bytes_Compare (ParseKey b) (ParseKey c)) 0); [contradiction|]. auto.
  - apply bytes_Compare_eq in E2.
    assert (E3 : bytes_Compare (ParseKey a) (ParseKey c) = bytes_Compare (ParseKey a) (ParseKey b))
      by (now rewrite E2).
    rewrite E3. destruct (Z.eqb_spec (bytes_Compare (ParseKey a) (ParseKey b)) 0); [contradiction|]. auto.
  - intros H1 H2.
    pose proof (bytes_Compare_trans _ _ _ H1 H2) as H3.
    destruct (Z.eqb_spec (bytes_Compare (ParseKey a) (ParseKey c)) 0); [lia|]. exact H3.
Qed.

(** [key_lt a b]: the internal key [a] sorts strictly before [b]. *)
Lemma CompareKeys_lt_gt (a b : list byte) : CompareKeys a b < 0 ↔ CompareKeys b a > 0.
Proof. rewrite (CompareKeys_antisym a b). lia. Qed.

Lemma CompareKeys_le_trans (a b c : list byte) :
  CompareKeys a b <= 0 → CompareKeys b c < 0 → CompareKeys a c < 0.
Proof.
  intros H1 H2. destruct (Z.eq_dec (CompareKeys a b) 0) as [E|E].
  - apply CompareKeys_eq in E. now subst.
  - apply CompareKeys_trans with b; [lia|assumption].
Qed.

Lemma CompareKeys_lt_le_trans (a b c : list byte) :
  CompareKeys a b < 0 → CompareKeys b c <= 0 → CompareKeys a c < 0.
Proof.
  intros H1 H2. destruct (Z.eq_dec (CompareKeys b c) 0) as [E|E].
  - apply CompareKeys_eq in E. now subst.
  - apply CompareKeys_trans with b; [assumption|lia].
Qed.

(** * Bit arithmetic *)

Lemma testbit_small (b k i : Z) : 0 <= b < 2 ^ k → k <= i → Z.testbit b i = false.
Proof.
  intros Hb Hi. destruct (Z.eq_dec b 0) as [->|Hne]; [apply Z.bits_0|].
  apply Z.bits_above_log2; [lia|].
  assert (0 <= k) by (destruct (Z.le_gt_cases 0 k); [assumption|]; rewrite Z.pow_neg_r in Hb; lia).
  assert (Z.log2 b < k) by (apply Z.log2_lt_pow2; lia). lia.
Qed.

Lemma land_shiftl_small (a b k : Z) : 0 <= k → 0 <= b < 2 ^ k → Z.land (Z.shiftl a k) b = 0.
Proof.
  intros Hk Hb. apply Z.bits_inj'. intros i Hi.
  rewrite Z.land_spec, Z.bits_0.
  destruct (Z.lt_ge_cases i k).
  - rewrite Z.shiftl_spec_low by assumption. reflexivity.
  - rewrite (testbit_small b k i) by lia. apply andb_false_r.
Qed.

Lemma lor_shiftl_add (a b k : Z) : 0 <= k → 0 <= b < 2 ^ k → Z.lor (Z.shiftl a k) b = a * 2 ^ k + b.
Proof.
  intros Hk Hb. pose proof (land_shiftl_small a b k Hk Hb) as H0.
  rewrite <- Z.lxor_lor by assumption.
  rewrite <- Z.add_nocarry_lxor by assumption.
  now rewrite Z.shiftl_mul_pow2.
Qed.

(** * Keys: [ParseKey], [ParseTs], [SameKey] *)

Lemma ParseKey_short (k : list byte) : len k < 8 → ParseKey k = k.
Proof. intros H. unfold ParseKey. destruct (Z.ltb_spec (len k) 8); [reflexivity|lia]. Qed.

Lemma ParseKey_app (u sfx : list byte) : length sfx = 8%nat → ParseKey (u ++ sfx) = u.
Proof.
  intros H. unfold ParseKey. rewrite len_app. unfold len. rewrite H.
  destruct (Z.ltb_spec (Z.of_nat (length u) + Z.of_nat 8) 8); [lia|].
  replace (Z.to_nat (Z.of_nat (length u) + Z.of_nat 8 - 8)) with (length u) by lia.
  now rewrite take_app_length.
Qed.

Lemma ParseTs_short (k : list byte) : len k <= 8 → ParseTs k = 0.
Proof. intros H. unfold ParseTs. destruct (Z.leb_spec (len k) 8); [reflexivity|lia]. Qed.

Lemma BigEndian_Uint64_eight (b0 b1 b2 b3 b4 b5 b6 b7 : byte) :
  BigEndian_Uint64 [b0; b1; b2; b3; b4; b5; b6; b7] =
  byte_to_Z b0 * 2 ^ 56 + byte_to_Z b1 * 2 ^ 48 + byte_to_Z b2 * 2 ^ 40 +
  byte_to_Z b3 * 2 ^ 32 + byte_to_Z b4 * 2 ^ 24 + byte_to_Z b5 * 2 ^ 16 +
  byte_to_Z b6 * 2 ^ 8 + byte_to_Z b7.
Proof.
  unfold BigEndian_Uint64. cbn [take fold_left].
  pose proof (byte_to_Z_range b0). pose proof (byte_to_Z_range b1).
  pose proof (byte_to_Z_range b2). pose proof (byte_to_Z_range b3).
  pose proof (byte_to_Z_range b4). pose proof (byte_to_Z_range b5).
  pose proof (byte_to_Z_range b6). pose proof (byte_to_Z_range b7).
  rewrite !(lor_shiftl_add _ _ 8) by lia. lia.
Qed.

Lemma ParseTs_app (u : list byte) (b0 b1 b2 b3 b4 b5 b6 b7 : byte) :
  u ≠ [] →
  ParseTs (u ++ [b0; b1; b2; b3; b4; b5; b6; b7]) =
  MaxUint64 - BigEndian_Uint64 [b0; b1; b2; b3; b4; b5; b6; b7].
Proof.
  intros Hu. unfold ParseTs. rewrite len_app. unfold len. cbn [length].
  assert (0 < length u)%nat by (destruct u; [contradiction|simpl; lia]).
  destruct (Z.leb_spec (Z.of_nat (length u) + Z.of_nat 8) 8); [lia|].
  replace (Z.to_nat (Z.of_nat (length u) + Z.of_nat 8 - 8)) with (length u) by lia.
  now rewrite drop_app_length.
Qed.

Lemma SameKey_length (a b : list byte) : length a ≠ length b → SameKey a b = false.
Proof.
  intros H. unfold SameKey. destruct (Z.eqb_spec (len a) (len b)) as [E|E]; [|reflexivity].
  unfold len in E. lia.
Qed.

Lemma SameKey_true (a b : list byte) :
  SameKey a b = true ↔ length a = length b ∧ ParseKey a = ParseKey b.
Proof.
  unfold SameKey, bytes_Equal. destruct (Z.eqb_spec (len a) (len b)) as [E|E]; simpl.
  - rewrite bool_decide_eq_true. unfold len in E. split; [intros; split; [lia|assumption] | tauto].
  - split; [discriminate|]. intros [H _]. unfold len in E. lia.
Qed.

(** * The value codec *)

Lemma continuation_byte (x : Z) : 0 <= x → Z.lor (x mod 256) 128 = 128 + x mod 128.
Proof.
  intros Hx.
  assert (Hl : 0 <= x mod 128 < 2 ^ 7) by (apply Z.mod_pos_bound; lia).
  assert (Hy : x mod 256 = x mod 128 ∨ x mod 256 = 128 + x mod 128).
  { pose proof (Z.mod_pos_bound x 256 ltac:(lia)).
    rewrite (Z.div_mod x 256) at 2 4 by lia.
    replace (256 * (x / 256)) with ((2 * (x / 256)) * 128) by lia.
    rewrite Z.add_comm, Z.mod_add by lia.
    pose proof (Z.div_mod (x mod 256) 128 ltac:(lia)).
    assert (0 <= x mod 256 / 128 < 2).
    { split; [apply Z.div_pos; lia | apply Z.div_lt_upper_bound; lia]. }
    assert (x mod 256 / 128 = 0 ∨ x mod 256 / 128 = 1) as [E|E] by lia; rewrite E in *; lia. }
  assert (H128 : Z.lor (Z.shiftl 1 7) (x mod 128) = 128 + x mod 128).
  { rewrite lor_shiftl_add by lia. lia. }
  destruct Hy as [E|E]; rewrite E.
  - rewrite Z.lor_comm. exact H128.
  - rewrite <- H128. rewrite Z.lor_comm, Z.lor_assoc.
    change (Z.lor 128 (Z.shiftl 1 7)) with (Z.shiftl 1 7). reflexivity.
Qed.

Lemma shiftr7 (x : Z) : Z.shiftr x 7 = x / 128.
Proof. rewrite Z.shiftr_div_pow2 by lia. reflexivity. Qed.

Lemma varint_groups_length (b : nat) (x c : Z) :
  0 <= x < 2 ^ (7 * (Z.of_nat b + 1)) →
  sizeVarint_loop b x c = c + len (varint_groups b x).
Proof.
  revert x c. induction b as [|b IH]; intros x c Hx; cbn [sizeVarint_loop varint_groups];
    rewrite shiftr7.
  - change (7 * (Z.of_nat 0 + 1)) with 7 in Hx. change (2 ^ 7) with 128 in Hx.
    destruct (Z.ltb_spec x 128); [|lia].
    rewrite Z.div_small by lia. simpl. unfold len; simpl. lia.
  - destruct (Z.ltb_spec x 128).
    + rewrite Z.div_small by lia. simpl. unfold len; simpl. lia.
    + assert (0 < x / 128) by (apply Z.div_str_pos; lia).
      destruct (Z.eqb_spec (x / 128) 0); [lia|].
      rewrite IH, len_cons; [lia|].
      split; [lia|]. apply Z.div_lt_upper_bound; [lia|].
      replace (7 * (Z.of_nat (S b) + 1)) with (7 + 7 * (Z.of_nat b + 1)) in Hx by lia.
      rewrite Z.pow_add_r in Hx by lia. change (2 ^ 7) with 128 in Hx. lia.
Qed.

Lemma sizeVarint_varint (x : Z) : 0 <= x < 2 ^ 64 → sizeVarint x = len (varint x).
Proof.
  intros Hx. unfold sizeVarint, varint. rewrite varint_groups_length; [lia|].
  change (7 * (Z.of_nat 9 + 1)) with 70. assert (2 ^ 64 < 2 ^ 70) by (vm_compute; reflexivity). lia.
Qed.

Lemma varint_groups_bounds (b : nat) (x : Z) :
  0 <= x < 2 ^ (7 * (Z.of_nat b + 1)) → 1 <= len (varint_groups b x) <= Z.of_nat b + 1.
Proof.
  revert x. induction b as [|b IH]; intros x Hx; cbn [varint_groups].
  - change (7 * (Z.of_nat 0 + 1)) with 7 in Hx. change (2 ^ 7) with 128 in Hx.
    destruct (Z.ltb_spec x 128); [|lia]. unfold len; simpl. lia.
  - destruct (Z.ltb_spec x 128); [unfold len; simpl; lia|].
    rewrite len_cons.
    assert (0 <= x / 128 < 2 ^ (7 * (Z.of_nat b + 1))) as Hq.
    { split; [apply Z.div_pos; lia|]. apply Z.div_lt_upper_bound; [lia|].
      replace (7 * (Z.of_nat (S b) + 1)) with (7 + 7 * (Z.of_nat b + 1)) in Hx by lia.
      rewrite Z.pow_add_r in Hx by lia. change (2 ^ 7) with 128 in Hx. lia. }
    specialize (IH _ Hq). lia.
Qed.

Lemma sizeVarint_bounds (x : Z) : 0 <= x < 2 ^ 64 → 1 <= sizeVarint x <= 10.
Proof.
  intros Hx. rewrite sizeVarint_varint by assumption. unfold varint.
  pose proof (varint_groups_bounds 9 x) as H. change (Z.of_nat 9 + 1) with 10 in H.
  apply H. assert (2 ^ 64 < 2 ^ (7 * 10)) by (vm_compute; reflexivity). lia.
Qed.

Lemma store_byte_ok (b : list byte) (i : nat) (x : byte) :
  (i < length b)%nat → store_byte b (Z.of_nat i) x = Ret (<[i := x]> b).
Proof.
  intros H. unfold store_byte, len.
  destruct (Z.leb_spec 0 (Z.of_nat i)); [|lia].
  destruct (Z.ltb_spec (Z.of_nat i) (Z.of_nat (length b))); [|lia].
  simpl. now rewrite Nat2Z.id.
Qed.

Lemma quotient_bound (x k : Z) : 0 <= k → 0 <= x < 2 ^ (7 + k) → 0 <= x / 128 < 2 ^ k.
Proof.
  intros Hk Hx. split; [apply Z.div_pos; lia|].
  apply Z.div_lt_upper_bound; [lia|].
  rewrite Z.pow_add_r in Hx by lia. change (2 ^ 7) with 128 in Hx. lia.
Qed.

Lemma PutUvarint_loop_spec (b : nat) (dst : list byte) (x : Z) (i : nat) :
  0 <= x < 2 ^ (7 * (Z.of_nat b + 1)) →
  (i + length (varint_groups b x) <= length dst)%nat →
  PutUvarint_loop b dst x (Z.of_nat i) =
  Ret (take i dst ++ varint_groups b x ++ drop (i + length (varint_groups b x)) dst,
       Z.of_nat (i + length (varint_groups b x))).
Proof.
  revert dst x i. induction b as [|b IH]; intros dst x i Hx Hfit;
    cbn [PutUvarint_loop varint_groups] in *.
  - change (7 * (Z.of_nat 0 + 1)) with 7 in Hx. change (2 ^ 7) with 128 in Hx.
    destruct (Z.ltb_spec x 128); [|lia]. destruct (Z.leb_spec 128 x); [lia|].
    cbn [length] in *. rewrite store_byte_ok by lia. cbn.
    replace (i + 1)%nat with (S i) by lia.
    rewrite insert_take_drop by lia. f_equal. f_equal. lia.
  - destruct (Z.ltb_spec x 128); destruct (Z.leb_spec 128 x); try lia.
    + cbn [length] in *. rewrite store_byte_ok by lia. cbn.
      replace (i + 1)%nat with (S i) by lia.
      rewrite insert_take_drop by lia. f_equal. f_equal. lia.
    + cbn [length] in *. rewrite store_byte_ok by lia. cbn [mbind outcome_bind].
      rewrite shiftr7, continuation_byte by lia.
      replace (Z.of_nat i + 1) with (Z.of_nat (S i)) by lia.
      rewrite IH.
      * f_equal. f_equal; [|f_equal; lia].
        rewrite (take_S_r _ i (byte_of_Z (128 + x mod 128)))
          by (apply list_lookup_insert_eq; lia).
        rewrite take_insert_ge by lia. rewrite <- app_assoc. cbn [app].
        do 3 f_equal. rewrite drop_insert_lt by lia. f_equal. lia.
      * apply quotient_bound; [lia|].
        replace (7 + 7 * (Z.of_nat b + 1)) with (7 * (Z.of_nat (S b) + 1)) by lia. exact Hx.
      * rewrite length_insert. lia.
Qed.

Lemma PutUvarint_spec (dst : list byte) (x : Z) :
  0 <= x < 2 ^ 64 →
  len (varint x) <= len dst →
  PutUvarint dst x = Ret (varint x ++ drop (length (varint x)) dst, len (varint x)).
Proof.
  intros Hx Hfit. unfold PutUvarint, varint in *. unfold len in Hfit.
  change (PutUvarint_loop 9 dst x 0) with (PutUvarint_loop 9 dst x (Z.of_nat 0)).
  rewrite PutUvarint_loop_spec.
  - reflexivity.
  - change (7 * (Z.of_nat 9 + 1)) with 70.
    assert (2 ^ 64 < 2 ^ 70) by (vm_compute; reflexivity). lia.
  - lia.
Qed.

Lemma lor_split7 (x s : Z) :
  0 <= x → 0 <= s →
  Z.lor (Z.shiftl (x mod 128) s) (Z.shiftl (x / 128) (s + 7)) = Z.shiftl x s.
Proof.
  intros Hx Hs.
  assert (Hl : 0 <= x mod 128 < 2 ^ 7) by (apply Z.mod_pos_bound; lia).
  assert (E : x = Z.lor (Z.shiftl (x / 128) 7) (x mod 128)).
  { rewrite lor_shiftl_add by lia. change (2 ^ 7) with 128.
    rewrite (Z.div_mod x 128) at 1 by lia. lia. }
  rewrite E at 3. rewrite Z.shiftl_lor, Z.shiftl_shiftl by lia.
  rewrite Z.lor_comm. f_equal. f_equal. lia.
Qed.

Lemma wrap64_small (z : Z) : 0 <= z < 2 ^ 64 → wrap64 z = z.
Proof. intros H. unfold wrap64. now apply Z.mod_small. Qed.

Lemma shiftl_bound (x s k : Z) : 0 <= s → s <= k → 0 <= x < 2 ^ (k - s) → 0 <= Z.shiftl x s < 2 ^ k.
Proof.
  intros Hs Hk Hx. rewrite Z.shiftl_mul_pow2 by lia.
  assert (E : 2 ^ k = 2 ^ (k - s) * 2 ^ s)
    by (rewrite <- Z.pow_add_r by lia; f_equal; lia).
  rewrite E. assert (0 < 2 ^ s) by (apply Z.pow_pos_nonneg; lia). nia.
Qed.

Lemma Uvarint_loop_spec (b : nat) (x : Z) (rest : list byte) (i acc : Z) :
  0 <= i → i + Z.of_nat b = 9 → 0 <= x < 2 ^ (64 - 7 * i) →
  Uvarint_loop (varint_groups b x ++ rest) i acc (7 * i) =
  (Z.lor acc (Z.shiftl x (7 * i)), i + len (varint_groups b x)).
Proof.
  revert x i acc. induction b as [|b IH]; intros x i acc Hi Hb Hx;
    cbn [varint_groups].
  - assert (i = 9) by lia. subst i. change (2 ^ (64 - 7 * 9)) with 2 in Hx.
    destruct (Z.ltb_spec x 128); [|lia]. cbn [app Uvarint_loop].
    rewrite byte_to_of_Z, Z.mod_small by lia.
    change (9 =? 10) with false. cbv iota.
    destruct (Z.ltb_spec x 128); [|lia]. destruct (Z.ltb_spec 1 x); [lia|].
    rewrite andb_false_r. rewrite wrap64_small; [reflexivity|].
    apply shiftl_bound; [lia|lia|]. change (2 ^ (64 - 7 * 9)) with 2. lia.
  - assert (Hi8 : i <= 8) by lia.
    assert (Hp : 2 ^ (64 - 7 * i) = 128 * 2 ^ (64 - 7 * (i + 1))).
    { replace (64 - 7 * i) with (7 + (64 - 7 * (i + 1))) by lia.
      rewrite Z.pow_add_r by lia. reflexivity. }
    destruct (Z.ltb_spec x 128).
    + cbn [app Uvarint_loop]. rewrite byte_to_of_Z, Z.mod_small by lia.
      destruct (Z.eqb_spec i 10); [lia|]. destruct (Z.ltb_spec x 128); [|lia].
      destruct (Z.eqb_spec i 9); [lia|]. cbn [andb].
      rewrite wrap64_small; [reflexivity|]. apply shiftl_bound; lia.
    + assert (Hl : 0 <= x mod 128 < 128) by (apply Z.mod_pos_bound; lia).
      cbn [app Uvarint_loop]. rewrite byte_to_of_Z, Z.mod_small by lia.
      destruct (Z.eqb_spec i 10); [lia|].
      destruct (Z.ltb_spec (128 + x mod 128) 128); [lia|].
      change 127 with (Z.ones 7). rewrite Z.land_ones by lia. change (2 ^ 7) with 128.
      replace ((128 + x mod 128) mod 128) with (x mod 128).
      2:{ replace (128 + x mod 128) with (x mod 128 + 1 * 128) by lia.
          rewrite Z.mod_add by lia. now rewrite Z.mod_mod by lia. }
      replace (7 * i + 7) with (7 * (i + 1)) by lia.
      rewrite IH.
      * rewrite len_cons. rewrite wrap64_small.
        2:{ apply shiftl_bound; [lia|lia|].
            assert (2 ^ 7 <= 2 ^ (64 - 7 * i)) by (apply Z.pow_le_mono_r; lia).
            change (2 ^ 7) with 128 in *. lia. }
        f_equal; [|lia]. rewrite <- Z.lor_assoc. f_equal.
        replace (7 * (i + 1)) with (7 * i + 7) by lia. apply lor_split7; lia.
      * lia.
      * lia.
      * apply quotient_bound; [lia|].
        replace (7 + (64 - 7 * (i + 1))) with (64 - 7 * i) by lia. exact Hx.
Qed.

Lemma Uvarint_varint (x : Z) (rest : list byte) :
  0 <= x < 2 ^ 64 → Uvarint (varint x ++ rest) = (x, len (varint x)).
Proof.
  intros Hx. unfold Uvarint, varint.
  pose proof (Uvarint_loop_spec 9 x rest 0 0) as H. change (7 * 0) with 0 in H.
  rewrite H; [|lia|reflexivity|exact Hx].
  rewrite Z.shiftl_0_r, Z.lor_0_l. f_equal.
Qed.

Lemma slice_ok (s : list byte) (lo hi : Z) :
  0 <= lo → lo <= hi → hi <= len s →
  slice s lo hi = Ret (take (Z.to_nat (hi - lo)) (drop (Z.to_nat lo) s)).
Proof.
  intros H1 H2 H3. unfold slice.
  destruct (Z.leb_spec 0 lo); [|lia]. destruct (Z.leb_spec lo hi); [|lia].
  destruct (Z.leb_spec hi (len s)); [|lia]. reflexivity.
Qed.

Lemma slice_from_ok (s : list byte) (lo : Z) :
  0 <= lo → lo <= len s → slice_from s lo = Ret (drop (Z.to_nat lo) s).
Proof.
  intros H1 H2. unfold slice_from. rewrite slice_ok by lia. f_equal.
  apply take_ge. rewrite length_drop. unfold len. lia.
Qed.

Lemma wrap32_small (z : Z) : 0 <= z < 2 ^ 32 → wrap32 z = z.
Proof. intros H. unfold wrap32. now apply Z.mod_small. Qed.

Lemma EncodedSize_eq (v : ValueStruct) :
  0 <= ExpiresAt v < 2 ^ 64 → len (Value v) < 2 ^ 32 - 11 →
  EncodedSize v = 1 + len (varint (ExpiresAt v)) + len (Value v).
Proof.
  intros He Hv. unfold EncodedSize.
  pose proof (sizeVarint_bounds _ He). pose proof (len_nonneg (Value v)).
  rewrite wrap32_small by lia. rewrite sizeVarint_varint by assumption. lia.
Qed.

Lemma EncodeValue_spec (v : ValueStruct) (b : list byte) :
  0 <= ExpiresAt v < 2 ^ 64 → len (Value v) < 2 ^ 32 - 11 →
  EncodedSize v <= len b →
  EncodeValue v b =
  Ret (Meta v :: varint (ExpiresAt v) ++ Value v ++ drop (Z.to_nat (EncodedSize v)) b,
       EncodedSize v).
Proof.
  intros He Hv Hfit. rewrite EncodedSize_eq in * by assumption.
  pose proof (sizeVarint_bounds _ He) as Hk. rewrite sizeVarint_varint in Hk by assumption.
  pose proof (len_nonneg (Value v)) as Hlv.
  destruct b as [|c b]; [unfold len in Hfit; simpl in Hfit; lia|].
  rewrite len_cons in Hfit.
  unfold EncodeValue. change 0 with (Z.of_nat 0) at 1.
  rewrite store_byte_ok by (simpl; lia). cbn [mbind outcome_bind].
  change (<[0%nat:=Meta v]> (c :: b)) with (Meta v :: b).
  rewrite slice_from_ok by (rewrite ?len_cons; lia).
  change (drop (Z.to_nat 1) (Meta v :: b)) with b. cbn [mbind outcome_bind].
  rewrite PutUvarint_spec by (assumption || lia). cbn [mbind outcome_bind].
  rewrite slice_from_ok.
  2: lia.
  2:{ rewrite len_app. unfold len at 3. rewrite length_drop. unfold len in *. lia. }
  cbn [mbind outcome_bind].
  replace (Z.to_nat (len (varint (ExpiresAt v)))) with (length (varint (ExpiresAt v)))
    by (unfold len; lia).
  rewrite drop_app_length. unfold copy.
  assert (Hd : len (drop (length (varint (ExpiresAt v))) b)
               = len b - len (varint (ExpiresAt v)))
    by (unfold len in *; rewrite length_drop; lia).
  rewrite (take_ge (Value v)) by (unfold len in *; lia).
  rewrite Hd, Z.min_r by lia.
  rewrite wrap32_small by lia.
  f_equal. f_equal. change (take 1 (Meta v :: b)) with [Meta v]. cbn [app]. f_equal.
  rewrite take_app_length. f_equal. f_equal.
  rewrite drop_drop. unfold len.
  replace (Z.to_nat (1 + Z.of_nat (length (varint (ExpiresAt v))) + Z.of_nat (length (Value v))))
    with (S (length (varint (ExpiresAt v)) + length (Value v))) by lia.
  reflexivity.
Qed.

Lemma DecodeValue_spec (m : byte) (e : Z) (val : list byte) :
  0 <= e < 2 ^ 64 →
  DecodeValue (m :: varint e ++ val) =
  Ret {| Meta := m; Value := val; ExpiresAt := e; Version := 0 |}.
Proof.
  intros He. unfold DecodeValue.
  rewrite slice_from_ok by (rewrite ?len_cons; pose proof (len_nonneg (varint e ++ val)); lia).
  change (drop (Z.to_nat 1) (m :: varint e ++ val)) with (varint e ++ val).
  cbn [mbind outcome_bind]. rewrite Uvarint_varint by assumption.
  pose proof (len_nonneg (varint e)). pose proof (len_nonneg val).
  rewrite slice_from_ok by (rewrite ?len_cons, ?len_app; lia).
  cbn [mbind outcome_bind]. f_equal. f_equal.
  replace (Z.to_nat (1 + len (varint e))) with (S (length (varint e))) by (unfold len; lia).
  cbn [drop]. apply drop_app_length.
Qed.

(** * The arena *)

Lemma slice_bytes_at (s : list byte) (lo hi : Z) :
  0 <= lo → lo <= hi → hi <= len s → slice s lo hi = Ret (bytes_at s lo (hi - lo)).
Proof. apply slice_ok. Qed.

Lemma bytes_at_length (b : list byte) (off cnt : Z) :
  0 <= off → 0 <= cnt → off + cnt <= len b → length (bytes_at b off cnt) = Z.to_nat cnt.
Proof.
  intros H1 H2 H3. unfold bytes_at. rewrite length_take, length_drop. unfold len in H3. lia.
Qed.

Lemma length_splice (b : list byte) (off : Z) (bytes : list byte) :
  0 <= off → off + len bytes <= len b → length (splice_bytes b off bytes) = length b.
Proof.
  intros H1 H2. unfold splice_bytes, len in *.
  rewrite !length_app, length_take, length_drop. lia.
Qed.

Lemma len_splice (b : list byte) (off : Z) (bytes : list byte) :
  0 <= off → off + len bytes <= len b → len (splice_bytes b off bytes) = len b.
Proof. intros H1 H2. unfold len at 1. now rewrite length_splice. Qed.

Lemma bytes_at_app_l (x y : list byte) (lo cnt : Z) :
  0 <= lo → 0 <= cnt → lo + cnt <= len x → bytes_at (x ++ y) lo cnt = bytes_at x lo cnt.
Proof.
  intros H1 H2 H3. unfold bytes_at, len in *.
  rewrite drop_app_le by lia. rewrite take_app_le by (rewrite length_drop; lia). reflexivity.
Qed.

Lemma bytes_at_splice_below (b : list byte) (off : Z) (bytes : list byte) (lo cnt : Z) :
  0 <= lo → 0 <= cnt → lo + cnt <= off → off <= len b →
  bytes_at (splice_bytes b off bytes) lo cnt = bytes_at b lo cnt.
Proof.
  intros H1 H2 H3 H4. unfold splice_bytes.
  assert (Hl : len (take (Z.to_nat off) b) = off)
    by (unfold len in *; rewrite length_take; lia).
  rewrite bytes_at_app_l by lia.
  rewrite <- (take_drop (Z.to_nat off) b) at 2.
  now rewrite bytes_at_app_l by lia.
Qed.

Lemma bytes_at_splice_at (b : list byte) (off : Z) (bytes : list byte) :
  0 <= off → off + len bytes <= len b →
  bytes_at (splice_bytes b off bytes) off (len bytes) = bytes.
Proof.
  intros H1 H2. unfold bytes_at, splice_bytes, len in *.
  rewrite drop_app_length' by (rewrite length_take; lia).
  rewrite Nat2Z.id. apply take_app_length.
Qed.

Lemma splice_bytes_tail (b : list byte) (off : Z) (bytes : list byte) :
  (Z.to_nat off + length bytes <= length b)%nat →
  splice_bytes b off (bytes ++ drop (length bytes) (drop (Z.to_nat off) b)) =
  splice_bytes b off bytes.
Proof.
  intros H. unfold splice_bytes. f_equal. rewrite <- app_assoc. f_equal.
  rewrite drop_drop.
  rewrite (drop_ge b (Z.to_nat off + length (bytes ++ _))).
  2:{ rewrite length_app, length_drop. lia. }
  now rewrite app_nil_r.
Qed.

Lemma allocate_cases (a : Arena) (sz : Z) :
  shouldGrow a = false → 0 <= n a <= len (buf a) → len (buf a) <= 2 ^ 31 → 0 <= sz < 2 ^ 31 →
  (n a + sz <= len (buf a) ∧ allocate a sz = Ret (bump a sz, n a)) ∨
  (len (buf a) < n a + sz ∧ allocate a sz = Fatal AssertArenaCapacity).
Proof.
  intros Hg Hn Hcap Hsz. unfold allocate. cbn [shouldGrow buf]. rewrite Hg. cbn [negb].
  assert (E : wrap32 (n a + sz) = n a + sz).
  { apply wrap32_small. change (2 ^ 32) with (2 ^ 31 + 2 ^ 31). lia. }
  rewrite E. destruct (Z.leb_spec (n a + sz) (len (buf a))).
  - left. split; [assumption|]. cbn. unfold bump. rewrite Hg. do 2 f_equal.
    replace (n a + sz - sz) with (n a) by lia. apply wrap32_small.
    assert (2 ^ 31 < 2 ^ 32) by reflexivity. lia.
  - right. split; [assumption|reflexivity].
Qed.

Lemma copy_exact (dst src : list byte) :
  length dst = length src → copy dst src = (src, len src).
Proof.
  intros H. unfold copy, len. rewrite H, take_ge, drop_ge, app_nil_r by lia.
  f_equal. lia.
Qed.

Lemma putKey_cases (a : Arena) (k : list byte) :
  shouldGrow a = false → 0 <= n a <= len (buf a) → len (buf a) <= 2 ^ 31 → len k < 2 ^ 31 →
  (n a + len k <= len (buf a) ∧
   putKey a k = Ret (with_buf (bump a (len k)) (splice_bytes (buf a) (n a) k), n a)) ∨
  (len (buf a) < n a + len k ∧ putKey a k = Fatal AssertArenaCapacity).
Proof.
  intros Hg Hn Hcap Hk. pose proof (len_nonneg k) as Hk0.
  assert (H231 : 2 ^ 31 < 2 ^ 32) by reflexivity.
  unfold putKey. rewrite (wrap32_small (len k)) by lia.
  destruct (allocate_cases a (len k) Hg Hn Hcap ltac:(lia)) as [[Hfit ->]|[Hfull ->]].
  - left. split; [assumption|]. cbn [mbind outcome_bind bump buf].
    rewrite (wrap32_small (n a + len k)) by lia.
    rewrite slice_bytes_at by lia. cbn [mbind outcome_bind].
    rewrite copy_exact.
    2:{ rewrite bytes_at_length by lia. unfold len. lia. }
    rewrite Z.eqb_refl. cbn. reflexivity.
  - right. split; [assumption|reflexivity].
Qed.

Lemma cell_ok_size (v : ValueStruct) :
  cell_ok v → EncodedSize v = len (encoded v) ∧ 2 <= EncodedSize v < 2 ^ 30 + 11.
Proof.
  intros [He Hv]. pose proof (len_nonneg (Value v)).
  assert (2 ^ 30 < 2 ^ 32 - 11) by reflexivity.
  rewrite EncodedSize_eq by (assumption || lia).
  pose proof (sizeVarint_bounds _ He) as Hk. rewrite sizeVarint_varint in Hk by assumption.
  unfold encoded. rewrite len_cons, len_app. lia.
Qed.

Lemma putVal_cases (a : Arena) (v : ValueStruct) :
  shouldGrow a = false → 0 <= n a <= len (buf a) → len (buf a) <= 2 ^ 31 → cell_ok v →
  (n a + EncodedSize v <= len (buf a) ∧
   putVal a v = Ret (with_buf (bump a (EncodedSize v)) (splice_bytes (buf a) (n a) (encoded v)),
                     n a)) ∨
  (len (buf a) < n a + EncodedSize v ∧ putVal a v = Fatal AssertArenaCapacity).
Proof.
  intros Hg Hn Hcap Hv. destruct (cell_ok_size v Hv) as [Hsz Hb].
  assert (H231 : 2 ^ 31 < 2 ^ 32) by reflexivity.
  assert (H230 : 2 ^ 30 + 11 < 2 ^ 31) by reflexivity.
  unfold putVal. rewrite (wrap32_small (EncodedSize v)) by lia.
  destruct (allocate_cases a (EncodedSize v) Hg Hn Hcap ltac:(lia)) as [[Hfit ->]|[Hfull ->]].
  - left. split; [assumption|]. cbn [mbind outcome_bind bump buf].
    rewrite slice_from_ok by lia. cbn [mbind outcome_bind].
    destruct Hv as [He Hl].
    rewrite EncodeValue_spec.
    2: assumption. 2: { assert (2 ^ 30 < 2 ^ 32 - 11) by reflexivity. lia. }
    2:{ unfold len at 1. rewrite length_drop. unfold len in *. lia. }
    cbn [mbind outcome_bind]. f_equal. f_equal. unfold with_buf. f_equal.
    replace (Meta v :: varint (ExpiresAt v) ++ Value v ++
             drop (Z.to_nat (EncodedSize v)) (drop (Z.to_nat (n a)) (buf a)))
      with (encoded v ++ drop (length (encoded v)) (drop (Z.to_nat (n a)) (buf a))).
    2:{ unfold encoded at 1. cbn [app]. rewrite <- app_assoc. do 3 f_equal.
        rewrite Hsz. unfold len. now rewrite Nat2Z.id. }
    apply splice_bytes_tail. unfold len in *. lia.
  - right. split; [assumption|reflexivity].
Qed.

Lemma aligned_spec (off : Z) :
  0 <= off < 2 ^ 31 → aligned off = 8 * ((off + 7) / 8).
Proof.
  intros H. unfold aligned, nodeAlign, MaxUint32.
  assert (H231 : 2 ^ 31 + 7 < 2 ^ 32) by reflexivity.
  rewrite wrap32_small by lia.
  set (x := off + 7). assert (Hx : 0 <= x < 2 ^ 32) by (unfold x; lia).
  assert (Hq : 0 <= x / 8 < 2 ^ 29).
  { split; [apply Z.div_pos; lia|]. apply Z.div_lt_upper_bound; [lia|].
    change (8 * 2 ^ 29) with (2 ^ 32). lia. }
  assert (Hr : 0 <= x mod 8 < 2 ^ 3) by (apply Z.mod_pos_bound; lia).
  assert (E : x = Z.lor (Z.shiftl (x / 8) 3) (x mod 8)).
  { rewrite lor_shiftl_add by lia. change (2 ^ 3) with 8.
    rewrite (Z.div_mod x 8) at 1 by lia. lia. }
  rewrite E at 1.
  change (2 ^ 32 - 1 - 7) with (Z.shiftl (Z.ones 29) 3).
  rewrite Z.land_lor_distr_l.
  rewrite <- Z.shiftl_land, Z.land_ones by lia.
  rewrite (Z.mod_small (x / 8)) by lia.
  rewrite (Z.land_comm (x mod 8)), land_shiftl_small by lia.
  rewrite Z.lor_0_r, Z.shiftl_mul_pow2 by lia. change (2 ^ 3) with 8. lia.
Qed.

Lemma aligned_range (off : Z) : 0 <= off < 2 ^ 31 → off <= aligned off <= off + 7.
Proof.
  intros H. rewrite aligned_spec by assumption.
  pose proof (Z.div_mod (off + 7) 8 ltac:(lia)).
  pose proof (Z.mod_pos_bound (off + 7) 8 ltac:(lia)). lia.
Qed.

Lemma putNode_cases (a : Arena) (h : Z) :
  shouldGrow a = false → 0 <= n a <= len (buf a) → len (buf a) <= 2 ^ 31 →
  1 <= h <= maxHeight →
  (n a + (23 + 4 * h) <= len (buf a) ∧
   putNode a h = Ret (bump a (23 + 4 * h), aligned (n a))) ∨
  (len (buf a) < n a + (23 + 4 * h) ∧ putNode a h = Fatal AssertArenaCapacity).
Proof.
  intros Hg Hn Hcap Hh. unfold maxHeight in Hh. unfold putNode.
  unfold maxHeight, offsetSize, MaxNodeSize, nodeAlign.
  replace (96 - (20 - h) * 4 + 7) with (23 + 4 * h) by lia.
  assert (H231 : 2 ^ 31 < 2 ^ 32) by reflexivity.
  rewrite (wrap32_small (23 + 4 * h)) by lia.
  destruct (allocate_cases a (23 + 4 * h) Hg Hn Hcap ltac:(lia)) as [[Hfit ->]|[Hfull ->]].
  - left. split; [assumption|reflexivity].
  - right. split; [assumption|reflexivity].
Qed.

(** The node [newNode] builds and the arena it leaves. *)
Lemma newNode_cases (a : Arena) (k : list byte) (v : ValueStruct) (h : Z) :
  shouldGrow a = false → 1 <= n a <= len (buf a) → len (buf a) <= 2 ^ 31 →
  1 <= h <= maxHeight → len k < 2 ^ 16 → cell_ok v →
  let ko := n a + (23 + 4 * h) in
  let vo := ko + len k in
  (vo + EncodedSize v <= len (buf a) ∧
   newNode a k v h =
   Ret ({| n := vo + EncodedSize v; shouldGrow := shouldGrow a;
           buf := splice_bytes (splice_bytes (buf a) ko k) vo (encoded v);
           nodes := <[aligned (n a) :=
                      {| value := encodeValue vo (EncodedSize v); keyOffset := ko;
                         keySize := len k; height := h;
                         tower := tower (default node_zero (nodes a !! aligned (n a))) |}]>
                    (nodes a) |},
        Some (aligned (n a)))) ∨
  (len (buf a) < vo + EncodedSize v ∧ newNode a k v h = Fatal AssertArenaCapacity).
Proof.
  intros Hg Hn Hcap Hh Hk Hv ko vo. pose proof (len_nonneg k) as Hk0.
  destruct (cell_ok_size v Hv) as [Hsz Hb].
  assert (H216 : 2 ^ 16 < 2 ^ 31) by reflexivity.
  unfold newNode.
  destruct (putNode_cases a h Hg ltac:(lia) Hcap Hh) as [[Hfit1 ->]|[Hfull ->]].
  2:{ right. split; [unfold vo, ko; lia|reflexivity]. }
  cbn [mbind outcome_bind].
  destruct (putKey_cases (bump a (23 + 4 * h)) k Hg) as [[Hfit2 ->]|[Hfull ->]];
    cbn [bump n buf] in *; try lia.
  2:{ right. split; [unfold vo, ko; lia|reflexivity]. }
  cbn [mbind outcome_bind].
  assert (Hls : len (splice_bytes (buf a) (n a + (23 + 4 * h)) k) = len (buf a)).
  { unfold len at 1. rewrite length_splice by (unfold maxHeight in *; lia). reflexivity. }
  destruct (putVal_cases (with_buf (bump (bump a (23 + 4 * h)) (len k))
                            (splice_bytes (buf a) (n a + (23 + 4 * h)) k)) v)
    as [[Hfit3 ->]|[Hfull ->]]; cbn [with_buf bump n buf shouldGrow] in *;
    rewrite ?Hls in *; try (assumption || (unfold maxHeight in *; lia)).
  2:{ right. split; [unfold vo, ko; lia|reflexivity]. }
  left. split; [unfold vo, ko; lia|]. cbn [mbind outcome_bind].
  unfold maxHeight in Hh.
  pose proof (aligned_range (n a) ltac:(lia)) as Hal.
  unfold getNode. cbn [buf].
  destruct (Z.eqb_spec (aligned (n a)) 0) as [E0|_]; [lia|].
  assert (Hl2 : len (splice_bytes (splice_bytes (buf a) (n a + (23 + 4 * h)) k)
                       (n a + (23 + 4 * h) + len k) (encoded v)) = len (buf a)).
  { unfold len at 1. rewrite length_splice; [exact Hls| lia |]. rewrite Hls. lia. }
  cbn [buf with_buf bump n shouldGrow nodes]. rewrite Hl2.
  destruct (Z.leb_spec 0 (aligned (n a))); [|lia].
  destruct (Z.ltb_spec (aligned (n a)) (len (buf a))); [|lia].
  cbn [andb mbind outcome_bind nodes]. unfold with_node. cbn [n shouldGrow buf nodes].
  unfold vo, ko. do 4 f_equal.
  unfold wrap16. rewrite !Z.mod_small by lia. reflexivity.
Qed.

(** * Reading nodes *)

Lemma getNode_null (a : Arena) : getNode a 0 = Ret None.
Proof. reflexivity. Qed.

Lemma getNode_some (a : Arena) (p : Z) :
  0 < p < len (buf a) → getNode a p = Ret (Some p).
Proof.
  intros H. unfold getNode. destruct (Z.eqb_spec p 0); [lia|].
  destruct (Z.leb_spec 0 p); [|lia]. destruct (Z.ltb_spec p (len (buf a))); [|lia].
  reflexivity.
Qed.

Lemma load_some (a : Arena) (p : Z) (nd : node) :
  nodes a !! p = Some nd → load a (Some p) = Ret nd.
Proof. intros H. unfold load. now rewrite H. Qed.

Lemma hgt_some (a : Arena) (p : Z) (nd : node) :
  nodes a !! p = Some nd → hgt a p = height nd.
Proof. intros H. unfold hgt. now rewrite H. Qed.

Lemma hgt_pos_node (a : Arena) (p : Z) :
  0 < hgt a p → ∃ nd, nodes a !! p = Some nd ∧ height nd = hgt a p.
Proof.
  unfold hgt. destruct (nodes a !! p) as [nd|]; [eauto|lia].
Qed.

Lemma key_some (a : Arena) (p : Z) (nd : node) :
  arena_ok a → nodes a !! p = Some nd →
  key a (Some p) = Ret (bytes_at (buf a) (keyOffset nd) (keySize nd)).
Proof.
  intros Ha Hp. unfold key. rewrite (load_some _ _ _ Hp). cbn [mbind outcome_bind].
  destruct (ak_nodes a Ha p nd Hp) as [_ _ _ (Hk1 & Hk2 & Hk3) _].
  pose proof (ak_cursor a Ha). pose proof (ak_cap a Ha).
  assert (2 ^ 31 < 2 ^ 32) by reflexivity.
  unfold getKey. rewrite wrap32_small by lia. rewrite slice_bytes_at by lia.
  do 2 f_equal. lia.
Qed.

Lemma skey_some (a : Arena) (p : Z) (nd : node) :
  arena_ok a → nodes a !! p = Some nd →
  skey a p = bytes_at (buf a) (keyOffset nd) (keySize nd).
Proof. intros Ha Hp. unfold skey. now rewrite (key_some a p nd Ha Hp). Qed.

Lemma key_skey (a : Arena) (p : Z) :
  arena_ok a → 0 < hgt a p → key a (Some p) = Ret (skey a p).
Proof.
  intros Ha Hh. destruct (hgt_pos_node a p Hh) as (nd & Hp & _).
  rewrite (skey_some a p nd Ha Hp). now apply key_some.
Qed.

Lemma link_lookup (a : Arena) (p L q : Z) :
  link a p L = Some q → ∃ nd, nodes a !! p = Some nd ∧ tower nd !! Z.to_nat L = Some q.
Proof. unfold link. destruct (nodes a !! p) as [nd|]; [eauto|discriminate]. Qed.

Lemma getNextOffset_link (a : Arena) (p L q : Z) :
  link a p L = Some q → 0 <= L < hgt a p → hgt a p <= maxHeight →
  getNextOffset a (Some p) L = Ret q.
Proof.
  intros Hl HL Hh. destruct (link_lookup a p L q Hl) as (nd & Hp & Ht).
  rewrite (hgt_some a p nd Hp) in *.
  unfold getNextOffset. rewrite (load_some a p nd Hp). cbn [mbind outcome_bind].
  apply lookup_lt_Some in Ht as Hlt. unfold arr_get, len.
  decide_cmp. cbn [andb negb]. now rewrite Ht.
Qed.

Lemma node_ok_extends (a a' : Arena) (p : Z) (nd : node) :
  extends a a' → node_ok a p nd → node_ok a' p nd.
Proof.
  intros [Hn Hb] [H1 H2 H3 (H4 & H5 & H6) (vo & v & H7 & H8 & H9 & H10 & H11)].
  destruct (cell_ok_size v H10) as [_ Hsz].
  split; try assumption; try lia.
  exists vo, v. split; [assumption|]. split; [assumption|]. split; [lia|].
  split; [assumption|]. rewrite Hb by lia. assumption.
Qed.

Lemma extends_refl (a : Arena) : extends a a.
Proof. split; [lia|auto]. Qed.

Lemma extends_trans (a b c : Arena) : extends a b → extends b c → extends a c.
Proof.
  intros [H1 H2] [H3 H4]. split; [lia|]. intros lo cnt ? ? ?.
  rewrite H4 by lia. apply H2; lia.
Qed.

Lemma extends_splice (a : Arena) (sz : Z) (bytes : list byte) :
  0 <= n a <= len (buf a) → 0 <= sz →
  extends a (with_buf (bump a sz) (splice_bytes (buf a) (n a) bytes)).
Proof.
  intros Hn Hsz. split; cbn [with_buf bump n buf]; [lia|].
  intros lo cnt ? ? ?. apply bytes_at_splice_below; lia.
Qed.

(** * Lists: last, first, and the nodes above a level *)

Lemma last_from_nil (x : Z) : last_from x [] = x.
Proof. reflexivity. Qed.

Lemma last_from_cons (x y : Z) (A : list Z) : last_from x (y :: A) = last_from y A.
Proof.
  unfold last_from. revert x y. induction A as [|z A IH]; intros x y; [reflexivity|].
  change (List.last (y :: z :: A) x) with (List.last (z :: A) x).
  now rewrite (IH x z), (IH y z).
Qed.

Lemma last_from_snoc (x y : Z) (A : list Z) : last_from x (A ++ [y]) = y.
Proof.
  revert x. induction A as [|z A IH]; intros x; [reflexivity|].
  cbn [app]. rewrite last_from_cons. apply IH.
Qed.

Lemma last_from_app (x : Z) (A B : list Z) :
  last_from x (A ++ B) = last_from (last_from x A) B.
Proof.
  revert x. induction A as [|z A IH]; intros x; [reflexivity|].
  cbn [app]. rewrite !last_from_cons. apply IH.
Qed.

Lemma last_from_elem (x : Z) (A : list Z) : A ≠ [] → last_from x A ∈ A.
Proof.
  revert x. induction A as [|z A IH]; intros x H; [contradiction|].
  rewrite last_from_cons. destruct A as [|w A]; [left|].
  right. apply IH. discriminate.
Qed.

Lemma last_from_in_cons (x : Z) (A : list Z) : last_from x A ∈ x :: A.
Proof.
  destruct A as [|z A]; [left|]. right. apply last_from_elem. discriminate.
Qed.

Lemma snoc_cases (A : list Z) : A = [] ∨ ∃ A' y, A = A' ++ [y].
Proof.
  destruct A as [|z A]; [left; reflexivity|right].
  destruct (@exists_last _ (z :: A)) as (A' & y & E); [discriminate|]. eauto.
Qed.

Lemma above_app (a : Arena) (L : Z) (l1 l2 : list Z) :
  above a L (l1 ++ l2) = above a L l1 ++ above a L l2.
Proof. apply filter_app. Qed.

Lemma above_cons_in (a : Arena) (L p : Z) (l : list Z) :
  L < hgt a p → above a L (p :: l) = p :: above a L l.
Proof. intros H. unfold above. now rewrite filter_cons_True. Qed.

Lemma above_cons_out (a : Arena) (L p : Z) (l : list Z) :
  ¬ L < hgt a p → above a L (p :: l) = above a L l.
Proof. intros H. unfold above. now rewrite filter_cons_False. Qed.

Lemma above_ext (a a' : Arena) (L : Z) (l : list Z) :
  (∀ p, p ∈ l → hgt a' p = hgt a p) → above a' L l = above a L l.
Proof.
  intros H. induction l as [|p l IH]; [reflexivity|].
  assert (Hp : hgt a' p = hgt a p) by (apply H; left).
  assert (Hl : above a' L l = above a L l) by (apply IH; intros q Hq; apply H; now right).
  destruct (Z.lt_ge_cases L (hgt a p)).
  - rewrite !above_cons_in by lia. now rewrite Hl.
  - rewrite !above_cons_out by lia. exact Hl.
Qed.

Lemma above_all (a : Arena) (L : Z) (l : list Z) :
  Forall (λ p, L < hgt a p) l → above a L l = l.
Proof.
  induction 1 as [|p l Hp _ IH]; [reflexivity|].
  rewrite above_cons_in by assumption. now rewrite IH.
Qed.

Lemma above_none (a : Arena) (L : Z) (l : list Z) :
  Forall (λ p, hgt a p <= L) l → above a L l = [].
Proof.
  induction 1 as [|p l Hp _ IH]; [reflexivity|].
  rewrite above_cons_out by lia. exact IH.
Qed.

Lemma above_elem (a : Arena) (L p : Z) (l : list Z) :
  p ∈ above a L l ↔ p ∈ l ∧ L < hgt a p.
Proof. unfold above. rewrite list_elem_of_filter. tauto. Qed.

(** The first node above level [L], if there is one. *)
Lemma above_first (a : Arena) (L : Z) (l : list Z) :
  above a L l = [] ∨
  ∃ l1 y l2, l = l1 ++ y :: l2 ∧ above a L l1 = [] ∧ L < hgt a y ∧
             above a L l = y :: above a L l2.
Proof.
  induction l as [|p l IH]; [left; reflexivity|].
  destruct (Z.lt_ge_cases L (hgt a p)) as [Hp|Hp].
  - right. exists [], p, l. rewrite above_cons_in by assumption. auto.
  - rewrite above_cons_out by lia. destruct IH as [IH|(l1 & y & l2 & -> & H1 & H2 & H3)].
    + left. exact IH.
    + right. exists (p :: l1), y, l2. rewrite above_cons_out by lia. auto.
Qed.

Lemma last_from_above (a : Arena) (L x : Z) (B : list Z) :
  (B = [] ∨ L < hgt a (last_from x B)) → last_from x (above a L B) = last_from x B.
Proof.
  intros H. destruct (snoc_cases B) as [->|(B' & y & ->)]; [reflexivity|].
  rewrite last_from_snoc in *. destruct H as [H|H].
  - destruct B'; discriminate.
  - rewrite above_app, above_cons_in by assumption. apply last_from_snoc.
Qed.

(** * Chains *)

Lemma chain_head (a : Arena) (L x : Z) (ys : list Z) :
  chain a L x ys → link a x L = Some (first_or_null ys).
Proof. destruct ys; simpl; tauto. Qed.

Lemma chain_app (a : Arena) (L x : Z) (A B : list Z) :
  chain a L x (A ++ B) → chain a L (last_from x A) B.
Proof.
  revert x. induction A as [|y A IH]; intros x H; [exact H|].
  rewrite last_from_cons. apply IH. destruct H as (_ & _ & H). exact H.
Qed.

Lemma chain_nonzero (a : Arena) (L x : Z) (ys : list Z) :
  chain a L x ys → Forall (λ p, p ≠ 0) ys.
Proof.
  revert x. induction ys as [|y ys IH]; intros x H; [constructor|].
  destruct H as (_ & Hy & H). constructor; [assumption|now apply IH with y].
Qed.

Lemma chain_frame (a a' : Arena) (L x : Z) (ys : list Z) :
  (∀ p, p ∈ x :: ys → link a' p L = link a p L) → chain a L x ys → chain a' L x ys.
Proof.
  revert x. induction ys as [|y ys IH]; intros x Hf H; cbn [chain] in *.
  - rewrite Hf by left. exact H.
  - destruct H as (H1 & H2 & H3). rewrite Hf by left.
    split; [assumption|]. split; [assumption|].
    apply IH; [|assumption]. intros p Hp. apply Hf. now right.
Qed.

(** Linking the node [m] in after the last node of [A]. *)
Lemma chain_insert (a a' : Arena) (L x m : Z) (A B : list Z) :
  chain a L x (A ++ B) → NoDup (x :: A ++ B) → m ∉ x :: A ++ B → m ≠ 0 →
  link a' (last_from x A) L = Some m →
  link a' m L = Some (first_or_null B) →
  (∀ p, p ∈ x :: A ++ B → p ≠ last_from x A → link a' p L = link a p L) →
  chain a' L x (A ++ m :: B).
Proof.
  revert x. induction A as [|y A IH]; intros x Hc Hnd Hm Hm0 Hl1 Hl2 Hf; cbn [app] in *.
  - rewrite last_from_nil in *. cbn [chain]. split; [assumption|]. split; [assumption|].
    assert (HB : chain a' L m B → chain a' L m B) by auto.
    destruct B as [|z B]; cbn [chain first_or_null hd] in *; [assumption|].
    destruct Hc as (Hc1 & Hc2 & Hc3). split; [assumption|]. split; [assumption|].
    apply chain_frame with a; [|assumption].
    intros p Hp. apply Hf; [now right|].
    intros ->. apply NoDup_cons in Hnd as [Hnd _]. contradiction.
  - rewrite last_from_cons in *. destruct Hc as (Hc1 & Hc2 & Hc3).
    apply NoDup_cons in Hnd as [Hx Hnd].
    cbn [chain]. split; [|split; [assumption|]].
    + rewrite Hf; [assumption|left|].
      intros E. apply Hx. rewrite E.
      pose proof (last_from_in_cons y A) as Hin.
      apply elem_of_cons in Hin as [->|Hin]; [left|].
      right. apply elem_of_app. now left.
    + apply IH; try assumption.
      * intros Hin. apply Hm. now right.
      * intros p Hp Hne. apply Hf; [now right|assumption].
Qed.

(** * Consequences of the representation invariant *)

Lemma key_lt_irrefl (a : Arena) (p : Z) : ¬ key_lt a p p.
Proof. unfold key_lt. rewrite CompareKeys_refl. lia. Qed.

Lemma sorted_NoDup (a : Arena) (l : list Z) : StronglySorted (key_lt a) l → NoDup l.
Proof.
  induction 1 as [|p l _ IH Hp]; constructor; [|assumption].
  intros Hin. rewrite Forall_forall in Hp. apply (key_lt_irrefl a p). now apply Hp.
Qed.

Lemma key_split (a : Arena) (l : list Z) (k : list byte) :
  StronglySorted (key_lt a) l → ∃ lo hi, split_at a l k lo hi.
Proof.
  induction 1 as [|p l Hs IH Hp].
  - exists [], []. repeat split; constructor.
  - destruct (Z.lt_ge_cases (CompareKeys (skey a p) k) 0) as [Hlt|Hge].
    + destruct IH as (lo & hi & -> & Hlo & Hhi).
      exists (p :: lo), hi. repeat split; [|assumption]. now constructor.
    + exists [], (p :: l). repeat split; [constructor|].
      assert (Hk : CompareKeys k (skey a p) <= 0)
        by (rewrite CompareKeys_antisym; lia).
      constructor; [assumption|].
      rewrite Forall_forall in *. intros q Hq.
      pose proof (CompareKeys_le_trans _ _ _ Hk (Hp q Hq)). lia.
Qed.

Section invariant_facts.
Context (s : Skiplist) (a : Arena) (l : list Z).
Hypothesis Hwf : wf_at s a l.

Lemma wf_bounds : 1 <= n a <= len (buf a) ∧ len (buf a) <= 2 ^ 31.
Proof.
  destruct Hwf as [Ha _ _ _ _ _ _]. split; [apply ak_cursor|apply ak_cap]; assumption.
Qed.

Lemma wf_node_pos (p : Z) : 0 < hgt a p → 0 < p < len (buf a).
Proof.
  intros Hh. destruct (hgt_pos_node a p Hh) as (nd & Hp & _).
  destruct Hwf as [Ha _ _ _ _ _ _].
  destruct (ak_nodes a Ha p nd Hp) as [Hpos _ _ _ _].
  pose proof (ak_cursor a Ha). lia.
Qed.

Lemma wf_hgt_max (p : Z) : hgt a p <= maxHeight.
Proof.
  unfold hgt. destruct (nodes a !! p) as [nd|] eqn:Hp; [|unfold maxHeight; lia].
  destruct Hwf as [Ha _ _ _ _ _ _].
  destruct (ak_nodes a Ha p nd Hp) as [_ Hh _ _ _]. lia.
Qed.

Lemma wf_elem (p : Z) :
  p ∈ l → 1 <= hgt a p <= sl_height s ∧ 0 < p < len (buf a) ∧ p ≠ headOffset s.
Proof.
  intros Hp. destruct Hwf as [_ _ _ Hout Hhs _ _].
  rewrite Forall_forall in Hhs. specialize (Hhs p Hp).
  split; [assumption|]. split; [apply wf_node_pos; lia|].
  intros ->. contradiction.
Qed.

Lemma wf_head_pos : 0 < headOffset s < len (buf a).
Proof.
  apply wf_node_pos. destruct Hwf as [_ _ Hh _ _ _ _]. rewrite Hh. reflexivity.
Qed.

Lemma wf_NoDup : NoDup (headOffset s :: l).
Proof.
  destruct Hwf as [_ _ _ Hout _ Hs _]. constructor; [assumption|].
  now apply sorted_NoDup with a.
Qed.

Lemma wf_key (p : Z) : 0 < hgt a p → key a (Some p) = Ret (skey a p).
Proof. destruct Hwf as [Ha _ _ _ _ _ _]. now apply key_skey. Qed.

Lemma wf_above_zero : above a 0 l = l.
Proof.
  apply above_all. rewrite Forall_forall. intros p Hp.
  destruct (wf_elem p Hp). lia.
Qed.

Lemma wf_above_top (L : Z) : sl_height s <= L → above a L l = [].
Proof.
  intros HL. apply above_none. rewrite Forall_forall. intros p Hp.
  destruct (wf_elem p Hp). lia.
Qed.

(** The chain at level [L] from a position inside the list. *)
Lemma wf_chain_from (L : Z) (B A : list Z) :
  l = B ++ A → 0 <= L < maxHeight →
  (B = [] ∨ L < hgt a (last_from (headOffset s) B)) →
  chain a L (last_from (headOffset s) B) (above a L A).
Proof.
  intros -> HL HB. destruct Hwf as [_ _ _ _ _ _ Hc].
  specialize (Hc L HL). rewrite above_app in Hc.
  apply chain_app in Hc. now rewrite last_from_above in Hc.
Qed.

Lemma wf_getNode (p : Z) : 0 < hgt a p → getNode a p = Ret (Some p).
Proof. intros H. apply getNode_some. now apply wf_node_pos. Qed.

Lemma wf_getNextOffset (p L : Z) (ys : list Z) :
  chain a L p ys → 0 <= L < hgt a p →
  getNextOffset a (Some p) L = Ret (first_or_null ys).
Proof.
  intros Hc HL. apply getNextOffset_link; [now apply chain_head|assumption|apply wf_hgt_max].
Qed.
End invariant_facts.

Lemma the_arena_some (s : Skiplist) (a : Arena) : arena s = Some a → the_arena s = Ret a.
Proof. intros H. unfold the_arena. now rewrite H. Qed.

Lemma first_or_null_elem (ys : list Z) : ys ≠ [] → first_or_null ys ∈ ys.
Proof. destruct ys; [contradiction|]. intros _. left. Qed.

(** * [findSpliceForLevel] *)

Lemma findSplice_spec (s : Skiplist) (a : Arena) (l lo hi : list Z) (k : list byte) (L : Z) :
  arena s = Some a → wf_at s a l → split_at a l k lo hi → 0 <= L < maxHeight →
  ∀ (fuel : nat) (B R : list Z),
    lo = B ++ R → (B = [] ∨ L < hgt a (last_from (headOffset s) B)) →
    (length R < fuel)%nat →
    findSpliceForLevel fuel s k (last_from (headOffset s) B) L =
    Ret (splice_of a (headOffset s) k lo hi L).
Proof.
  intros Hs Hwf (Hl & Hlo & Hhi) HL.
  induction fuel as [|fuel IH]; intros B R HB Hx Hfuel; [lia|].
  set (x := last_from (headOffset s) B) in *.
  assert (HLx : L < hgt a x).
  { destruct Hx as [->|Hx]; [|assumption]. unfold x. rewrite last_from_nil.
    rewrite (wf_head s a l Hwf). lia. }
  assert (Hc : chain a L x (above a L (R ++ hi))).
  { apply (wf_chain_from s a l Hwf); [|assumption|assumption].
    rewrite Hl, HB. now rewrite <- app_assoc. }
  cbn [findSpliceForLevel]. rewrite (the_arena_some s a Hs). cbn [mbind outcome_bind].
  rewrite (wf_getNode s a l Hwf x) by lia. cbn [mbind outcome_bind].
  rewrite (wf_getNextOffset s a l Hwf x L _ Hc) by lia. cbn [mbind outcome_bind].
  rewrite above_app.
  destruct (above_first a L R) as [HR|(r1 & y & r2 & -> & Hr1 & Hy & HR)]; rewrite HR.
  - (* nothing before [k] is left at this level *)
    cbn [app]. unfold splice_of.
    assert (Hlast : last_from (headOffset s) (above a L lo) = x).
    { rewrite HB, above_app, HR, app_nil_r. now apply last_from_above. }
    rewrite Hlast.
    destruct (above a L hi) as [|z zs] eqn:Hz; cbn [first_or_null hd].
    + rewrite getNode_null. reflexivity.
    + assert (Hzin : z ∈ hi ∧ L < hgt a z).
      { apply above_elem. rewrite Hz. left. }
      destruct Hzin as [Hzin HLz].
      rewrite (wf_getNode s a l Hwf z) by lia. cbn [mbind outcome_bind].
      rewrite (wf_key s a l Hwf z) by lia. cbn [mbind outcome_bind].
      assert (Hz0 : z ≠ 0) by (pose proof (wf_node_pos s a l Hwf z); lia).
      rewrite Forall_forall in Hhi. specialize (Hhi z Hzin).
      destruct (Z.eqb_spec z 0); [contradiction|]. cbn [negb andb].
      destruct (Z.eqb_spec (CompareKeys k (skey a z)) 0); [reflexivity|].
      destruct (Z.ltb_spec (CompareKeys k (skey a z)) 0); [reflexivity|lia].
  - (* move right to [y] *)
    cbn [app first_or_null hd].
    assert (Hyin : y ∈ lo) by (rewrite HB; rewrite !elem_of_app, elem_of_cons; auto).
    rewrite (wf_getNode s a l Hwf y) by lia. cbn [mbind outcome_bind].
    rewrite (wf_key s a l Hwf y) by lia. cbn [mbind outcome_bind].
    rewrite Forall_forall in Hlo. specialize (Hlo y Hyin).
    rewrite CompareKeys_antisym in Hlo.
    destruct (Z.eqb_spec (CompareKeys k (skey a y)) 0); [lia|].
    destruct (Z.ltb_spec (CompareKeys k (skey a y)) 0); [lia|].
    replace y with (last_from (headOffset s) (B ++ r1 ++ [y])) at 1
      by (now rewrite app_assoc, last_from_snoc).
    apply IH with r2.
    + rewrite HB. now rewrite <- !app_assoc.
    + right. now rewrite app_assoc, last_from_snoc.
    + rewrite length_app in Hfuel. cbn [length] in Hfuel. lia.
Qed.

(** * [findNear] *)

Lemma last_last_from (x : Z) (B : list Z) : B ≠ [] → last B = Some (last_from x B).
Proof.
  intros H. destruct (snoc_cases B) as [->|(B' & y & ->)]; [contradiction|].
  now rewrite last_snoc, last_from_snoc.
Qed.

Lemma head_first_or_null (ys : list Z) :
  Forall (λ p, p ≠ 0) ys →
  head ys = if first_or_null ys =? 0 then None else Some (first_or_null ys).
Proof.
  intros H. destruct ys as [|y ys]; [reflexivity|]. cbn [head first_or_null hd].
  apply Forall_cons in H as [Hy _]. destruct (Z.eqb_spec y 0); [contradiction|reflexivity].
Qed.

Section near.
Context (s : Skiplist) (a : Arena) (l lo hi : list Z) (k : list byte).
Hypothesis Hs : arena s = Some a.
Hypothesis Hwf : wf_at s a l.
Hypothesis Hsplit : split_at a l k lo hi.

Lemma getNode_first (ys : list Z) :
  Forall (λ p, 0 < hgt a p) ys → getNode a (first_or_null ys) = Ret (head ys).
Proof.
  intros H. destruct ys as [|y ys]; [reflexivity|]. cbn [first_or_null hd head].
  apply Forall_cons in H as [Hy _]. now apply (wf_getNode s a l Hwf).
Qed.

Lemma above_heights (L : Z) (ys : list Z) : 0 <= L → Forall (λ p, 0 < hgt a p) (above a L ys).
Proof.
  intros HL. rewrite Forall_forall. intros p Hp. apply above_elem in Hp. lia.
Qed.

Lemma getNext_chain (x L : Z) (ys : list Z) :
  chain a L x (above a L ys) → 0 <= L < hgt a x →
  getNext s (Some x) L = Ret (head (above a L ys)).
Proof.
  intros Hc HL. unfold getNext. rewrite (the_arena_some s a Hs). cbn [mbind outcome_bind].
  rewrite (wf_getNextOffset s a l Hwf x L _ Hc) by lia. cbn [mbind outcome_bind].
  apply getNode_first. apply above_heights. lia.
Qed.

Lemma getHead_ok : getHead s = Ret (Some (headOffset s)).
Proof.
  unfold getHead. rewrite (the_arena_some s a Hs). cbn [mbind outcome_bind].
  apply getNode_some. apply (wf_head_pos s a l Hwf).
Qed.

Lemma lo_elem (p : Z) : p ∈ lo → p ∈ l.
Proof. pose proof Hsplit as (E & _). rewrite E, elem_of_app. auto. Qed.

Lemma hi_elem (p : Z) : p ∈ hi → p ∈ l.
Proof. pose proof Hsplit as (E & _). rewrite E, elem_of_app. auto. Qed.

Lemma above_zero_sub (ys : list Z) : (∀ p, p ∈ ys → p ∈ l) → above a 0 ys = ys.
Proof.
  intros H. apply above_all. rewrite Forall_forall. intros p Hp.
  destruct (wf_elem s a l Hwf p (H p Hp)). lia.
Qed.

(** A node of [hi] whose key equals [k] is the first node of [hi]. *)
Lemma equal_is_first (z : Z) :
  z ∈ hi → CompareKeys k (skey a z) = 0 → ∃ hi', hi = z :: hi'.
Proof.
  intros Hz Hk. pose proof Hsplit as (Hl & _ & Hhi).
  destruct hi as [|z' hi'] eqn:E; [apply elem_of_nil in Hz; contradiction|].
  apply elem_of_cons in Hz as [->|Hz]; [eauto|]. exfalso.
  destruct Hwf as [_ _ _ _ _ Hsorted _]. rewrite Hl in Hsorted.
  apply StronglySorted_app_1_r in Hsorted.
  apply StronglySorted_inv in Hsorted as [_ Hall].
  rewrite Forall_forall in Hall. specialize (Hall z Hz). unfold key_lt in Hall.
  apply Forall_cons in Hhi as [Hz' _].
  apply CompareKeys_eq in Hk. rewrite <- Hk in Hall.
  rewrite CompareKeys_antisym in Hall. lia.
Qed.

(** The result of the case "return [x], unless it is the head". *)
Lemma back_to_x (B : list Z) :
  lo = B →
  (hd ← getHead s;
   if ptr_eqb (Some (last_from (headOffset s) B)) hd
   then Ret (None, false) else Ret (Some (last_from (headOffset s) B), false)) =
  Ret (last lo, false).
Proof.
  intros E. rewrite E, getHead_ok. cbn [mbind outcome_bind]. unfold ptr_eqb.
  destruct (snoc_cases B) as [EB|(B' & y & EB)]; rewrite EB in *.
  - rewrite last_from_nil. rewrite bool_decide_eq_true_2 by reflexivity. reflexivity.
  - rewrite last_from_snoc, last_snoc.
    rewrite bool_decide_eq_false_2; [reflexivity|].
    intros [= Ey]. apply (wf_head_out s a l Hwf). apply lo_elem.
    rewrite E, elem_of_app, list_elem_of_singleton. auto.
Qed.

Lemma findNear_loop_spec (less allowEqual : bool) :
  ∀ (fuel : nat) (level : Z) (B R : list Z),
    0 <= level < maxHeight → lo = B ++ R →
    (B = [] ∨ level < hgt a (last_from (headOffset s) B)) →
    (length R + Z.to_nat level < fuel)%nat →
    findNear_loop fuel s k less allowEqual (Some (last_from (headOffset s) B)) level =
    Ret (near_of a k lo hi less allowEqual).
Proof.
  pose proof Hsplit as (Hl & Hlo & Hhi).
  induction fuel as [|fuel IH]; intros level B R HL HB Hx Hfuel; [lia|].
  set (x := last_from (headOffset s) B) in *.
  assert (HLx : level < hgt a x).
  { destruct Hx as [->|Hx]; [|assumption]. unfold x. rewrite last_from_nil.
    rewrite (wf_head s a l Hwf). lia. }
  assert (Hc : chain a level x (above a level (R ++ hi))).
  { apply (wf_chain_from s a l Hwf); [|assumption|assumption].
    rewrite Hl, HB. now rewrite <- app_assoc. }
  cbn [findNear_loop]. rewrite (getNext_chain x level _ Hc) by lia.
  cbn [mbind outcome_bind]. rewrite above_app.
  destruct (above_first a level R) as [HR|(r1 & y & r2 & -> & Hr1 & Hy & HR)]; rewrite HR.
  - cbn [app].
    (* at level 0 nothing of [lo] is left after [x] *)
    assert (HR0 : level = 0 → R = []).
    { intros ->. rewrite <- HR. symmetry. apply above_zero_sub.
      intros p Hp. apply lo_elem. rewrite HB, elem_of_app. auto. }
    assert (Hdown : 0 < level →
              findNear_loop fuel s k less allowEqual (Some x) (level - 1) =
              Ret (near_of a k lo hi less allowEqual)).
    { intros Hpos. apply IH with R; [lia|assumption| |lia].
      destruct Hx as [Hx|Hx]; [now left|right; fold x; lia]. }
    destruct (above a level hi) as [|z zs] eqn:Hz; cbn [head].
    + (* the level ends after [x] *)
      destruct (Z.gtb_spec level 0) as [Hpos|Hzero]; [apply Hdown; lia|].
      assert (level = 0) by lia. subst level. specialize (HR0 eq_refl). subst R.
      rewrite app_nil_r in HB.
      assert (Hhi0 : hi = []) by (rewrite <- Hz; symmetry; apply above_zero_sub, hi_elem).
      unfold near_of. rewrite Hhi0. rewrite andb_false_r.
      destruct less; cbn [negb]; [unfold x; rewrite back_to_x by congruence; reflexivity|].
      destruct allowEqual; reflexivity.
    + assert (Hzin : z ∈ hi ∧ level < hgt a z) by (apply above_elem; rewrite Hz; left).
      destruct Hzin as [Hzin HLz].
      rewrite (the_arena_some s a Hs). cbn [mbind outcome_bind].
      rewrite (wf_key s a l Hwf z) by lia. cbn [mbind outcome_bind].
      rewrite Forall_forall in Hhi. pose proof (Hhi z Hzin) as Hkz.
      destruct (Z.gtb_spec (CompareKeys k (skey a z)) 0) as [|_]; [lia|].
      destruct (Z.eqb_spec (CompareKeys k (skey a z)) 0) as [Heq|Hne].
      * (* exact match *)
        destruct (equal_is_first z Hzin Heq) as (hi' & Ehi).
        unfold near_of. rewrite Ehi. rewrite Heq. cbn [Z.eqb head tail].
        destruct allowEqual; cbn [andb negb]; [destruct less; reflexivity|].
        destruct less; cbn [negb].
        -- destruct (Z.gtb_spec level 0) as [Hpos|Hzero].
           ++ rewrite Hdown by lia. unfold near_of. rewrite Ehi, Heq. reflexivity.
           ++ assert (level = 0) by lia. subst level. specialize (HR0 eq_refl). subst R.
              rewrite app_nil_r in HB. unfold x. now rewrite back_to_x by congruence.
        -- assert (Hc0 : chain a 0 z (above a 0 hi')).
           { replace z with (last_from (headOffset s) (lo ++ [z]))
               by apply last_from_snoc.
             apply (wf_chain_from s a l Hwf).
             - rewrite Hl, Ehi. now rewrite <- app_assoc.
             - unfold maxHeight. lia.
             - right. rewrite last_from_snoc. lia. }
           rewrite (getNext_chain z 0 hi' Hc0) by lia. cbn [mbind outcome_bind].
           rewrite above_zero_sub; [reflexivity|].
           intros p Hp. apply hi_elem. rewrite Ehi. now right.
      * (* the next key is greater *)
        assert (Heqb : (CompareKeys k (skey a z) =? 0) = false) by now apply Z.eqb_neq.
        destruct (Z.gtb_spec level 0) as [Hpos|Hzero]; [apply Hdown; lia|].
        assert (level = 0) by lia. subst level. specialize (HR0 eq_refl). subst R.
        rewrite app_nil_r in HB.
        assert (Ehi : hi = z :: zs).
        { rewrite <- Hz. symmetry. apply above_zero_sub, hi_elem. }
        unfold near_of. rewrite Ehi, Heqb. cbn [head]. rewrite andb_false_r.
        destruct less; cbn [negb]; [unfold x; now rewrite back_to_x by congruence|].
        destruct allowEqual; reflexivity.
  - (* move right to [y] *)
    cbn [app head].
    assert (Hyin : y ∈ lo) by (rewrite HB; rewrite !elem_of_app, elem_of_cons; auto).
    rewrite (the_arena_some s a Hs). cbn [mbind outcome_bind].
    rewrite (wf_key s a l Hwf y) by lia. cbn [mbind outcome_bind].
    rewrite Forall_forall in Hlo. specialize (Hlo y Hyin).
    rewrite CompareKeys_antisym in Hlo.
    destruct (Z.gtb_spec (CompareKeys k (skey a y)) 0) as [_|]; [|lia].
    replace y with (last_from (headOffset s) (B ++ r1 ++ [y])) at 1
      by (now rewrite app_assoc, last_from_snoc).
    apply IH with r2.
    + assumption.
    + rewrite HB. now rewrite <- !app_assoc.
    + right. now rewrite app_assoc, last_from_snoc.
    + rewrite length_app in Hfuel. cbn [length] in Hfuel. lia.
Qed.
End near.

Lemma wrapi32_small (z : Z) : - 2 ^ 31 <= z < 2 ^ 31 → wrapi32 z = z.
Proof.
  intros H. unfold wrapi32. rewrite Z.mod_small; [lia|].
  change (2 ^ 32) with (2 ^ 31 + 2 ^ 31). lia.
Qed.

Lemma findNear_near_of (s : Skiplist) (a : Arena) (l lo hi : list Z) (k : list byte)
    (less allowEqual : bool) (fuel : nat) :
  arena s = Some a → wf_at s a l → split_at a l k lo hi →
  (length l + 20 < fuel)%nat →
  findNear fuel s k less allowEqual = Ret (near_of a k lo hi less allowEqual).
Proof.
  intros Hs Hwf Hsplit Hfuel. unfold findNear.
  rewrite (getHead_ok s a l Hs Hwf). cbn [mbind outcome_bind]. unfold getHeight.
  pose proof (wf_height s a l Hwf) as Hh. unfold maxHeight in Hh.
  assert (2 ^ 31 = 2147483648) by reflexivity.
  rewrite wrapi32_small by lia.
  change (headOffset s) with (last_from (headOffset s) []).
  apply (findNear_loop_spec s a l lo hi k Hs Hwf Hsplit less allowEqual) with lo.
  - unfold maxHeight. lia.
  - reflexivity.
  - now left.
  - destruct Hsplit as (-> & _). rewrite length_app in Hfuel. lia.
Qed.

Lemma list_cases {A} (l : list A) : l = [] ∨ ∃ x l', l = x :: l'.
Proof. destruct l; eauto. Qed.

Section near_meaning.
Context (s : Skiplist) (a : Arena) (l lo hi : list Z) (k : list byte).
Hypothesis Hwf : wf_at s a l.
Hypothesis Hsplit : split_at a l k lo hi.

Lemma lo_before (p : Z) : p ∈ lo → CompareKeys (skey a p) k < 0.
Proof. pose proof Hsplit as (_ & H & _). rewrite Forall_forall in H. apply H. Qed.

Lemma hi_not_before (p : Z) : p ∈ hi → CompareKeys (skey a p) k >= 0.
Proof.
  pose proof Hsplit as (_ & _ & H). rewrite Forall_forall in H. intros Hp.
  specialize (H p Hp). rewrite CompareKeys_antisym. lia.
Qed.

Lemma split_elem (p : Z) : p ∈ l ↔ p ∈ lo ∨ p ∈ hi.
Proof. pose proof Hsplit as (E & _). rewrite E. apply elem_of_app. Qed.

Lemma hi_first_least (z : Z) (hi' : list Z) (q : Z) :
  hi = z :: hi' → q ∈ hi → CompareKeys (skey a z) (skey a q) <= 0.
Proof.
  intros E Hq. rewrite E in Hq. apply elem_of_cons in Hq as [->|Hq].
  - rewrite CompareKeys_refl. lia.
  - pose proof Hsplit as (El & _). pose proof (wf_sorted s a l Hwf) as Hsorted.
    rewrite El, E in Hsorted. apply StronglySorted_app_1_r in Hsorted.
    apply StronglySorted_inv in Hsorted as [_ Hall].
    rewrite Forall_forall in Hall. specialize (Hall q Hq). unfold key_lt in Hall. lia.
Qed.

Lemma hi_second_least (z w : Z) (hi' : list Z) (q : Z) :
  hi = z :: w :: hi' → q ∈ w :: hi' → CompareKeys (skey a w) (skey a q) <= 0.
Proof.
  intros E Hq. apply elem_of_cons in Hq as [->|Hq].
  - rewrite CompareKeys_refl. lia.
  - pose proof Hsplit as (El & _). pose proof (wf_sorted s a l Hwf) as Hsorted.
    rewrite El, E in Hsorted. apply StronglySorted_app_1_r in Hsorted.
    apply StronglySorted_inv in Hsorted as [Hsorted _].
    apply StronglySorted_inv in Hsorted as [_ Hall].
    rewrite Forall_forall in Hall. specialize (Hall q Hq). unfold key_lt in Hall. lia.
Qed.

Lemma hi_rest_greater (z : Z) (hi' : list Z) (q : Z) :
  hi = z :: hi' → q ∈ hi' → CompareKeys (skey a z) (skey a q) < 0.
Proof.
  intros E Hq. pose proof Hsplit as (El & _). pose proof (wf_sorted s a l Hwf) as Hsorted.
  rewrite El, E in Hsorted. apply StronglySorted_app_1_r in Hsorted.
  apply StronglySorted_inv in Hsorted as [_ Hall].
  rewrite Forall_forall in Hall. now apply Hall.
Qed.

Lemma lo_last_greatest (lo' : list Z) (x q : Z) :
  lo = lo' ++ [x] → q ∈ lo → CompareKeys (skey a q) (skey a x) <= 0.
Proof.
  intros E Hq. rewrite E in Hq. apply elem_of_app in Hq as [Hq|Hq].
  - pose proof Hsplit as (El & _). pose proof (wf_sorted s a l Hwf) as Hsorted.
    rewrite El, E in Hsorted. apply StronglySorted_app_1_l in Hsorted.
    pose proof (StronglySorted_app_1_elem_of _ _ _ _ _ Hsorted Hq
                  ltac:(apply list_elem_of_singleton; reflexivity)) as H.
    unfold key_lt in H. lia.
  - apply list_elem_of_singleton in Hq as ->. rewrite CompareKeys_refl. lia.
Qed.

(** When the first node of [hi] does not carry [k], no node of [hi] does. *)
Lemma hi_strictly_after (q : Z) :
  match hi with
  | z :: _ => CompareKeys k (skey a z) ≠ 0
  | [] => True
  end →
  q ∈ hi → CompareKeys (skey a q) k > 0.
Proof.
  intros Hne Hq. pose proof (hi_not_before q Hq) as Hge.
  destruct (Z.eq_dec (CompareKeys (skey a q) k) 0) as [E|E]; [|lia]. exfalso.
  apply CompareKeys_eq in E.
  destruct (list_cases hi) as [Ehi|(z & hi' & Ehi)]; rewrite Ehi in Hne.
  { rewrite Ehi in Hq. apply elem_of_nil in Hq. contradiction. }
  pose proof (hi_first_least z hi' q Ehi Hq) as Hle.
  pose proof (hi_not_before z ltac:(rewrite Ehi; left)) as Hz.
  rewrite E in Hle. assert (H0 : CompareKeys (skey a z) k = 0) by lia.
  apply CompareKeys_eq in H0. apply Hne. rewrite H0. apply CompareKeys_refl.
Qed.

Lemma near_of_meaning (less allowEqual : bool) (r : option Z) (b : bool) :
  near_of a k lo hi less allowEqual = (r, b) →
  match r with
  | Some p =>
      p ∈ l ∧ wanted less allowEqual k (skey a p) ∧
      ∀ q, q ∈ l → wanted less allowEqual k (skey a q) →
           nearer less (skey a p) (skey a q)
  | None => ∀ q, q ∈ l → ¬ wanted less allowEqual k (skey a q)
  end ∧
  (b = true ↔ ∃ p, r = Some p ∧ skey a p = k).
Proof.
  unfold near_of.
  set (eq := match hi with
             | z :: _ => CompareKeys k (skey a z) =? 0
             | [] => false
             end).
  assert (Heq_true : eq = true → ∃ z hi', hi = z :: hi' ∧ skey a z = k).
  { unfold eq. destruct (list_cases hi) as [Ehi|(z & hi' & Ehi)]; rewrite Ehi;
      [discriminate|]. intros H. apply Z.eqb_eq, CompareKeys_eq in H. eauto. }
  assert (Heq_false : eq = false → ∀ q, q ∈ hi → CompareKeys (skey a q) k > 0).
  { unfold eq. intros H q. apply hi_strictly_after.
    destruct (list_cases hi) as [Ehi|(z & hi' & Ehi)]; rewrite Ehi in *;
      [exact I|]. now apply Z.eqb_neq. }
  assert (Hlast : ∀ x, last lo = Some x → ∃ lo', lo = lo' ++ [x]).
  { intros x Hx. destruct (snoc_cases lo) as [E|(lo' & y & E)]; rewrite E in Hx.
    - discriminate.
    - rewrite last_snoc in Hx. injection Hx as ->. eauto. }
  assert (Hlast_none : last lo = None → lo = []).
  { intros Hx. destruct (snoc_cases lo) as [E|(lo' & y & E)]; [assumption|].
    rewrite E, last_snoc in Hx. discriminate. }
  destruct less, allowEqual; cbn [andb]; unfold wanted, nearer.
  - (* greatest node with key <= k *)
    destruct eq eqn:E.
    + destruct (Heq_true eq_refl) as (z & hi' & Ehi & Hz). rewrite Ehi. cbn [head].
      intros [= <- <-]. split; [|split; eauto].
      split; [apply split_elem; right; rewrite Ehi; left|].
      split; [rewrite Hz, CompareKeys_refl; lia|].
      intros q Hq Hw. apply split_elem in Hq as [Hq|Hq].
      * pose proof (lo_before q Hq). rewrite Hz. lia.
      * rewrite Ehi in Hq. apply elem_of_cons in Hq as [->|Hq];
          [rewrite CompareKeys_refl; lia|].
        pose proof (hi_rest_greater z hi' q Ehi Hq) as H. rewrite Hz in H.
        rewrite CompareKeys_antisym in H. lia.
    + intros [= <- <-]. split.
      2:{ split; [discriminate|]. intros (p & Hp & Hk).
          destruct (Hlast p Hp) as (lo' & Elo).
          pose proof (lo_before p ltac:(rewrite Elo, elem_of_app, list_elem_of_singleton; auto)) as H.
          rewrite Hk, CompareKeys_refl in H. lia. }
      destruct (last lo) as [x|] eqn:Ex.
      * destruct (Hlast x eq_refl) as (lo' & Elo).
        assert (Hxlo : x ∈ lo) by (rewrite Elo, elem_of_app, list_elem_of_singleton; auto).
        split; [apply split_elem; now left|].
        split; [pose proof (lo_before x Hxlo); lia|].
        intros q Hq Hw. apply split_elem in Hq as [Hq|Hq].
        -- now apply lo_last_greatest with lo'.
        -- pose proof (Heq_false eq_refl q Hq). lia.
      * intros q Hq Hw. apply split_elem in Hq as [Hq|Hq].
        -- rewrite (Hlast_none eq_refl) in Hq. apply elem_of_nil in Hq. contradiction.
        -- pose proof (Heq_false eq_refl q Hq). lia.
  - (* greatest node with key < k *)
    intros [= <- <-]. split.
    2:{ split; [discriminate|]. intros (p & Hp & Hk).
        destruct (Hlast p Hp) as (lo' & Elo).
        pose proof (lo_before p ltac:(rewrite Elo, elem_of_app, list_elem_of_singleton; auto)) as H.
        rewrite Hk, CompareKeys_refl in H. lia. }
    destruct (last lo) as [x|] eqn:Ex.
    + destruct (Hlast x eq_refl) as (lo' & Elo).
      assert (Hxlo : x ∈ lo) by (rewrite Elo, elem_of_app, list_elem_of_singleton; auto).
      split; [apply split_elem; now left|].
      split; [apply lo_before; assumption|].
      intros q Hq Hw. apply split_elem in Hq as [Hq|Hq].
      * now apply lo_last_greatest with lo'.
      * pose proof (hi_not_before q Hq). lia.
    + intros q Hq Hw. apply split_elem in Hq as [Hq|Hq].
      * rewrite (Hlast_none eq_refl) in Hq. apply elem_of_nil in Hq. contradiction.
      * pose proof (hi_not_before q Hq). lia.
  - (* least node with key >= k *)
    intros [= <- <-]. split.
    2:{ split.
        - intros E. destruct (Heq_true E) as (z & hi' & Ehi & Hz). rewrite Ehi. eauto.
        - intros (p & Hp & Hk). unfold eq.
          destruct (list_cases hi) as [Ehi|(z & hi' & Ehi)]; rewrite Ehi in *;
            [discriminate|].
          injection Hp as ->. apply Z.eqb_eq. rewrite Hk. apply CompareKeys_refl. }
    destruct (list_cases hi) as [Ehi|(z & hi' & Ehi)]; rewrite Ehi; cbn [head].
    + intros q Hq Hw. apply split_elem in Hq as [Hq|Hq].
      * pose proof (lo_before q Hq). lia.
      * rewrite Ehi in Hq. apply elem_of_nil in Hq. contradiction.
    + split; [apply split_elem; right; rewrite Ehi; left|].
      split; [apply hi_not_before; rewrite Ehi; left|].
      intros q Hq Hw. apply split_elem in Hq as [Hq|Hq].
      * pose proof (lo_before q Hq). lia.
      * now apply hi_first_least with hi'.
  - (* least node with key > k *)
    destruct eq eqn:E.
    + destruct (Heq_true eq_refl) as (z & hi' & Ehi & Hz). rewrite Ehi. cbn [tail].
      intros [= <- <-]. split.
      2:{ split; [discriminate|]. intros (p & Hp & Hk).
          destruct hi' as [|w hi'']; [discriminate|]. injection Hp as ->.
          pose proof (hi_rest_greater z (p :: hi'') p Ehi ltac:(left)) as H.
          rewrite Hz, Hk, CompareKeys_refl in H. lia. }
      destruct hi' as [|w hi'']; cbn [head].
      * intros q Hq Hw. apply split_elem in Hq as [Hq|Hq].
        -- pose proof (lo_before q Hq). lia.
        -- rewrite Ehi in Hq. apply list_elem_of_singleton in Hq as ->.
           rewrite Hz, CompareKeys_refl in Hw. lia.
      * split; [apply split_elem; right; rewrite Ehi; right; left|].
        pose proof (hi_rest_greater z (w :: hi'') w Ehi ltac:(left)) as Hzw.
        rewrite Hz in Hzw.
        split; [rewrite CompareKeys_antisym; lia|].
        intros q Hq Hw. apply split_elem in Hq as [Hq|Hq].
        -- pose proof (lo_before q Hq). lia.
        -- rewrite Ehi in Hq. apply elem_of_cons in Hq as [->|Hq].
           ++ rewrite Hz, CompareKeys_refl in Hw. lia.
           ++ now apply hi_second_least with z hi''.
    + intros [= <- <-]. split.
      2:{ split; [discriminate|]. intros (p & Hp & Hk).
          destruct (list_cases hi) as [Ehi|(z & hi' & Ehi)]; rewrite Ehi in Hp;
            [discriminate|]. injection Hp as ->.
          pose proof (Heq_false eq_refl p ltac:(rewrite Ehi; left)) as H.
          rewrite Hk, CompareKeys_refl in H. lia. }
      destruct (list_cases hi) as [Ehi|(z & hi' & Ehi)]; rewrite Ehi; cbn [head].
      * intros q Hq Hw. apply split_elem in Hq as [Hq|Hq].
        -- pose proof (lo_before q Hq). lia.
        -- rewrite Ehi in Hq. apply elem_of_nil in Hq. contradiction.
      * split; [apply split_elem; right; rewrite Ehi; left|].
        split; [apply (Heq_false eq_refl); rewrite Ehi; left|].
        intros q Hq Hw. apply split_elem in Hq as [Hq|Hq].
        -- pose proof (lo_before q Hq). lia.
        -- now apply hi_first_least with hi'.
Qed.
End near_meaning.

(** * Arenas that differ in their towers only *)

Lemma same_but_towers_refl (a : Arena) : same_but_towers a a.
Proof.
  repeat split. intros p. destruct (nodes a !! p); auto.
Qed.

Lemma same_but_towers_trans (a b c : Arena) :
  same_but_towers a b → same_but_towers b c → same_but_towers a c.
Proof.
  intros (H1 & H2 & H3 & H4) (G1 & G2 & G3 & G4).
  split; [congruence|]. split; [congruence|]. split; [congruence|].
  intros p. specialize (H4 p). specialize (G4 p).
  destruct (nodes a !! p), (nodes b !! p), (nodes c !! p); try contradiction; auto.
  destruct H4 as (?&?&?&?&?), G4 as (?&?&?&?&?). repeat split; congruence.
Qed.

Lemma same_but_towers_hgt (a a' : Arena) (p : Z) :
  same_but_towers a a' → hgt a' p = hgt a p.
Proof.
  intros (_ & _ & _ & H). specialize (H p). unfold hgt.
  destruct (nodes a !! p), (nodes a' !! p); try contradiction; [|reflexivity].
  tauto.
Qed.

Lemma same_but_towers_key (a a' : Arena) (nd : option Z) :
  same_but_towers a a' → key a' nd = key a nd.
Proof.
  intros (_ & _ & Hb & H). unfold key, load. destruct nd as [p|]; [|reflexivity].
  specialize (H p).
  destruct (nodes a !! p), (nodes a' !! p); try contradiction; [|reflexivity].
  destruct H as (_ & H1 & H2 & _). cbn [mbind outcome_bind]. unfold getKey.
  now rewrite Hb, H1, H2.
Qed.

Lemma same_but_towers_skey (a a' : Arena) (p : Z) :
  same_but_towers a a' → skey a' p = skey a p.
Proof. intros H. unfold skey. now rewrite (same_but_towers_key a a' _ H). Qed.

Lemma same_but_towers_arena_ok (a a' : Arena) :
  same_but_towers a a' → arena_ok a → arena_ok a'.
Proof.
  intros (Hn & Hg & Hb & H) [G1 G2 G3 G4].
  split; [congruence | rewrite Hn, Hb; assumption | rewrite Hb; assumption |].
  intros p nd' Hp. specialize (H p). rewrite Hp in H.
  destruct (nodes a !! p) as [nd|] eqn:Hq; [|contradiction].
  destruct H as (H1 & H2 & H3 & H4 & H5).
  destruct (G4 p nd Hq) as [K1 K2 K3 K4 K5].
  split; rewrite ?Hn, ?H2, ?H3, ?H4, ?H5, ?Hb; try assumption.
  destruct K5 as (vo & v & ?). exists vo, v. now rewrite H1.
Qed.

Lemma same_but_towers_above (a a' : Arena) (L : Z) (l : list Z) :
  same_but_towers a a' → above a' L l = above a L l.
Proof. intros H. apply above_ext. intros p _. now apply same_but_towers_hgt. Qed.

(** * Stores into one tower slot *)

Section set_link.
Context (a : Arena) (p : Z) (nd : node) (L v : Z).
Hypothesis Hp : nodes a !! p = Some nd.
Hypothesis HL : 0 <= L < len (tower nd).

Lemma set_link_nodes (q : Z) :
  q ≠ p → nodes (set_link a p L v) !! q = nodes a !! q.
Proof.
  intros Hq. unfold set_link. rewrite Hp. cbn [with_node nodes].
  now rewrite lookup_insert_ne.
Qed.

Lemma set_link_same : same_but_towers a (set_link a p L v).
Proof.
  unfold set_link. rewrite Hp. repeat split. intros q. cbn [with_node nodes].
  destruct (decide (q = p)) as [->|Hq].
  - rewrite Hp, lookup_insert_eq. cbn. repeat split. apply length_insert.
  - rewrite lookup_insert_ne by congruence. destruct (nodes a !! q); auto.
Qed.

Lemma link_set_link_eq : link (set_link a p L v) p L = Some v.
Proof.
  unfold link, set_link. rewrite Hp. cbn [with_node nodes].
  rewrite lookup_insert_eq. cbn [tower]. apply list_lookup_insert_eq.
  unfold len in HL. lia.
Qed.

Lemma link_set_link_ne (q L' : Z) :
  0 <= L' → (q ≠ p ∨ L' ≠ L) → link (set_link a p L v) q L' = link a q L'.
Proof.
  intros HL' Hne. unfold link, set_link. rewrite Hp. cbn [with_node nodes].
  destruct (decide (q = p)) as [->|Hq].
  - rewrite lookup_insert_eq, Hp. cbn [tower]. apply list_lookup_insert_ne.
    destruct Hne as [?|?]; [contradiction|]. lia.
  - now rewrite lookup_insert_ne by congruence.
Qed.

Lemma setTower_set_link :
  L < height nd → L < maxHeight → setTower a (Some p) L v = Ret (set_link a p L v).
Proof.
  intros H1 H2. unfold setTower, set_link. rewrite (load_some a p nd Hp), Hp.
  cbn [mbind outcome_bind]. unfold arr_set. decide_cmp. reflexivity.
Qed.
End set_link.

Lemma casNextOffset_swap (a : Arena) (p L old v : Z) :
  link a p L = Some old → 0 <= L < hgt a p → hgt a p <= maxHeight →
  casNextOffset a (Some p) L old v = Ret (set_link a p L v, true).
Proof.
  intros Hl HL Hh. unfold casNextOffset.
  rewrite (getNextOffset_link a p L old Hl HL Hh). cbn [mbind outcome_bind].
  rewrite Z.eqb_refl.
  destruct (link_lookup a p L old Hl) as (nd & Hp & Ht).
  rewrite (hgt_some a p nd Hp) in *.
  rewrite (setTower_set_link a p nd L v Hp); try lia; [reflexivity|].
  apply lookup_lt_Some in Ht. unfold len. lia.
Qed.

(** * Carrying the invariant over to a changed arena *)

Lemma sorted_ext (a a' : Arena) (l : list Z) :
  (∀ p, p ∈ l → skey a' p = skey a p) →
  StronglySorted (key_lt a) l → StronglySorted (key_lt a') l.
Proof.
  intros H Hs. induction Hs as [|p l Hs IH Hp]; constructor.
  - apply IH. intros q Hq. apply H. now right.
  - rewrite Forall_forall in *. intros q Hq. unfold key_lt.
    rewrite (H p) by left. rewrite (H q) by now right. now apply Hp.
Qed.

Lemma wf_at_transfer (s s' : Skiplist) (a a' : Arena) (l : list Z) :
  wf_at s a l → arena_ok a' →
  sl_height s' = sl_height s → headOffset s' = headOffset s →
  (∀ p, 0 < hgt a p → hgt a' p = hgt a p) →
  (∀ p L, 0 < hgt a p → 0 <= L → link a' p L = link a p L) →
  (∀ p, 0 < hgt a p → skey a' p = skey a p) →
  wf_at s' a' l.
Proof.
  intros Hwf Ha' Hh Hhd Hhgt Hlink Hkey.
  assert (Hl : ∀ p, p ∈ l → 0 < hgt a p).
  { intros p Hp. destruct (wf_elem s a l Hwf p Hp). lia. }
  assert (Hhead : 0 < hgt a (headOffset s)).
  { rewrite (wf_head s a l Hwf). reflexivity. }
  split.
  - assumption.
  - rewrite Hh. apply (wf_height s a l Hwf).
  - rewrite Hhd, Hhgt by assumption. apply (wf_head s a l Hwf).
  - rewrite Hhd. apply (wf_head_out s a l Hwf).
  - pose proof (wf_heights s a l Hwf) as H. rewrite Forall_forall in *.
    intros p Hp. rewrite Hh, Hhgt by auto. now apply H.
  - apply sorted_ext with a; [|apply (wf_sorted s a l Hwf)]. auto.
  - intros L HL. rewrite Hhd.
    rewrite (above_ext a a') by auto.
    apply chain_frame with a; [|now apply (wf_chains s a l Hwf)].
    intros p Hp. apply Hlink; [|lia].
    apply elem_of_cons in Hp as [->|Hp]; [assumption|].
    apply above_elem in Hp as [Hp _]. auto.
Qed.

(** * The arena after [newNode] *)

Section new_node.
Context (a : Arena) (k : list byte) (v : ValueStruct) (h : Z).
Hypothesis Ha : arena_ok a.
Hypothesis Hh : 1 <= h <= maxHeight.
Hypothesis Hk : len k < 2 ^ 16.
Hypothesis Hv : cell_ok v.
Hypothesis Hfit : n a + (23 + 4 * h) + len k + EncodedSize v <= len (buf a).

Let m := aligned (n a).
Let a1 := arena_with_node a k v h.

Lemma new_node_range : n a <= m <= n a + 7.
Proof.
  pose proof (ak_cursor a Ha). pose proof (ak_cap a Ha). unfold maxHeight in Hh.
  pose proof (len_nonneg k). destruct (cell_ok_size v Hv).
  apply aligned_range. lia.
Qed.

Lemma new_node_fresh : nodes a !! m = None.
Proof.
  destruct (nodes a !! m) as [nd|] eqn:E; [|reflexivity].
  destruct (ak_nodes a Ha m nd E) as [Hpos _ _ _ _].
  pose proof new_node_range. lia.
Qed.

Lemma new_node_old (p : Z) : p ≠ m → nodes a1 !! p = nodes a !! p.
Proof. intros Hp. unfold a1, arena_with_node. cbn [nodes]. now rewrite lookup_insert_ne. Qed.

Lemma new_node_lookup :
  nodes a1 !! m =
  Some {| value := encodeValue (n a + (23 + 4 * h) + len k) (EncodedSize v);
          keyOffset := n a + (23 + 4 * h); keySize := len k; height := h;
          tower := replicate (Z.to_nat maxHeight) 0 |}.
Proof.
  unfold a1, arena_with_node. cbn [nodes]. fold m.
  rewrite lookup_insert_eq, new_node_fresh. reflexivity.
Qed.

Lemma new_node_buf_len : len (buf a1) = len (buf a).
Proof.
  pose proof (ak_cursor a Ha). unfold maxHeight in Hh.
  pose proof (len_nonneg k). destruct (cell_ok_size v Hv) as [Hsz ?].
  unfold a1, arena_with_node. cbn [buf].
  rewrite len_splice; [rewrite len_splice; lia | lia | rewrite len_splice; lia].
Qed.

Lemma new_node_extends : extends a a1.
Proof.
  pose proof (ak_cursor a Ha). unfold maxHeight in Hh.
  pose proof (len_nonneg k). destruct (cell_ok_size v Hv) as [Hsz ?].
  split; [unfold a1, arena_with_node; cbn [n]; lia|].
  intros lo cnt Hlo1 Hlo2 Hlo3. unfold a1, arena_with_node. cbn [buf].
  rewrite bytes_at_splice_below; try lia.
  - apply bytes_at_splice_below; lia.
  - rewrite len_splice; lia.
Qed.

Lemma new_node_ok : arena_ok a1.
Proof.
  pose proof (ak_cursor a Ha) as Hc. pose proof (ak_cap a Ha). unfold maxHeight in Hh.
  pose proof (len_nonneg k). destruct (cell_ok_size v Hv) as [Hsz ?].
  pose proof new_node_range as Hm. pose proof new_node_buf_len as Hlen.
  split.
  - exact (ak_grow a Ha).
  - rewrite Hlen. unfold a1, arena_with_node. cbn [n]. lia.
  - now rewrite Hlen.
  - intros p nd Hp. destruct (decide (p = m)) as [->|Hne].
    + rewrite new_node_lookup in Hp. injection Hp as <-.
      split; cbn [value keyOffset keySize height tower];
        unfold a1, arena_with_node; cbn [n buf]; fold m.
      * lia.
      * unfold maxHeight. lia.
      * reflexivity.
      * lia.
      * exists (n a + (23 + 4 * h) + len k), v.
        split; [reflexivity|]. split; [lia|]. split; [lia|]. split; [assumption|].
        rewrite Hsz. apply bytes_at_splice_at; [lia|].
        rewrite len_splice; lia.
    + rewrite new_node_old in Hp by assumption.
      apply node_ok_extends with a; [apply new_node_extends|now apply (ak_nodes a Ha)].
Qed.

Lemma new_node_hgt : hgt a1 m = h.
Proof. unfold hgt. now rewrite new_node_lookup. Qed.

Lemma new_node_hgt_old (p : Z) : p ≠ m → hgt a1 p = hgt a p.
Proof. intros Hp. unfold hgt. now rewrite new_node_old. Qed.

Lemma new_node_link (L : Z) : 0 <= L < maxHeight → link a1 m L = Some 0.
Proof.
  intros HL. unfold link. rewrite new_node_lookup. cbn [tower].
  apply lookup_replicate_2. lia.
Qed.

Lemma new_node_link_old (p L : Z) : p ≠ m → link a1 p L = link a p L.
Proof. intros Hp. unfold link. now rewrite new_node_old. Qed.

Lemma new_node_skey : skey a1 m = k.
Proof.
  pose proof (ak_cursor a Ha) as Hc. unfold maxHeight in Hh.
  pose proof (len_nonneg k). destruct (cell_ok_size v Hv) as [Hsz ?].
  rewrite (skey_some a1 m _ new_node_ok new_node_lookup). cbn [keyOffset keySize].
  unfold a1, arena_with_node. cbn [buf].
  rewrite bytes_at_splice_below; try lia.
  - apply bytes_at_splice_at; lia.
  - rewrite len_splice; lia.
Qed.

Lemma new_node_skey_old (p : Z) : 0 < hgt a p → skey a1 p = skey a p.
Proof.
  intros Hp. destruct (hgt_pos_node a p Hp) as (nd & Hnd & _).
  assert (Hne : p ≠ m) by (intros ->; rewrite new_node_fresh in Hnd; discriminate).
  rewrite (skey_some a p nd Ha Hnd).
  rewrite (skey_some a1 p nd new_node_ok) by (now rewrite new_node_old).
  destruct (ak_nodes a Ha p nd Hnd) as [_ _ _ (K1 & K2 & K3) _].
  destruct new_node_extends as [_ Hb]. apply Hb; lia.
Qed.

Lemma newNode_result :
  newNode a k v h = Ret (a1, Some m).
Proof.
  pose proof (ak_cursor a Ha) as Hc. pose proof (ak_cap a Ha).
  destruct (newNode_cases a k v h (ak_grow a Ha) Hc ltac:(assumption) Hh Hk Hv)
    as [[_ E]|[Hfull _]]; [exact E|lia].
Qed.
End new_node.

Lemma newNode_full (a : Arena) (k : list byte) (v : ValueStruct) (h : Z) :
  arena_ok a → 1 <= h <= maxHeight → len k < 2 ^ 16 → cell_ok v →
  len (buf a) < n a + (23 + 4 * h) + len k + EncodedSize v →
  newNode a k v h = Fatal AssertArenaCapacity.
Proof.
  intros Ha Hh Hk Hv Hfull.
  pose proof (ak_cursor a Ha) as Hc. pose proof (ak_cap a Ha).
  destruct (newNode_cases a k v h (ak_grow a Ha) Hc ltac:(assumption) Hh Hk Hv)
    as [[Hfit _]|[_ E]]; [lia|exact E].
Qed.

(** * The arena after an equal-key update *)

Section new_value.
Context (a : Arena) (v : ValueStruct) (z : Z) (nd : node).
Hypothesis Ha : arena_ok a.
Hypothesis Hz : nodes a !! z = Some nd.
Hypothesis Hv : cell_ok v.
Hypothesis Hfit : n a + EncodedSize v <= len (buf a).

Let a2 := arena_with_value a v z.

Lemma new_value_lookup :
  nodes a2 !! z =
  Some {| value := encodeValue (n a) (EncodedSize v); keyOffset := keyOffset nd;
          keySize := keySize nd; height := height nd; tower := tower nd |}.
Proof.
  unfold a2, arena_with_value, set_value. cbn [with_buf bump nodes]. rewrite Hz.
  cbn [with_node nodes]. now rewrite lookup_insert_eq.
Qed.

Lemma new_value_old (p : Z) : p ≠ z → nodes a2 !! p = nodes a !! p.
Proof.
  intros Hp. unfold a2, arena_with_value, set_value. cbn [with_buf bump nodes]. rewrite Hz.
  cbn [with_node nodes]. now rewrite lookup_insert_ne.
Qed.

Lemma new_value_n : n a2 = n a + EncodedSize v.
Proof.
  unfold a2, arena_with_value, set_value. cbn [with_buf bump nodes]. now rewrite Hz.
Qed.

Lemma new_value_buf : buf a2 = splice_bytes (buf a) (n a) (encoded v).
Proof.
  unfold a2, arena_with_value, set_value. cbn [with_buf bump nodes]. now rewrite Hz.
Qed.

Lemma new_value_extends : extends a a2.
Proof.
  pose proof (ak_cursor a Ha). destruct (cell_ok_size v Hv) as [Hsz ?].
  split; [rewrite new_value_n; lia|]. intros lo cnt ? ? ?.
  rewrite new_value_buf. apply bytes_at_splice_below; lia.
Qed.

Lemma new_value_ok : arena_ok a2.
Proof.
  pose proof (ak_cursor a Ha) as Hc. pose proof (ak_cap a Ha) as Hcap.
  destruct (cell_ok_size v Hv) as [Hsz ?].
  assert (Hlen : len (buf a2) = len (buf a))
    by (rewrite new_value_buf; apply len_splice; lia).
  split.
  - unfold a2, arena_with_value, set_value. cbn [with_buf bump nodes]. rewrite Hz.
    exact (ak_grow a Ha).
  - rewrite Hlen, new_value_n. lia.
  - now rewrite Hlen.
  - intros p nd' Hp. destruct (decide (p = z)) as [->|Hne].
    + rewrite new_value_lookup in Hp. injection Hp as <-.
      destruct (ak_nodes a Ha z nd Hz) as [K1 K2 K3 K4 K5].
      split; cbn [value keyOffset keySize height tower]; rewrite ?new_value_n;
        try assumption; try lia.
      exists (n a), v. split; [reflexivity|]. split; [lia|]. split; [lia|].
      split; [assumption|]. rewrite new_value_buf, Hsz.
      apply bytes_at_splice_at; lia.
    + rewrite new_value_old in Hp by assumption.
      apply node_ok_extends with a; [apply new_value_extends|now apply (ak_nodes a Ha)].
Qed.

Lemma new_value_hgt (p : Z) : hgt a2 p = hgt a p.
Proof.
  unfold hgt. destruct (decide (p = z)) as [->|Hne].
  - now rewrite new_value_lookup, Hz.
  - now rewrite new_value_old.
Qed.

Lemma new_value_link (p L : Z) : link a2 p L = link a p L.
Proof.
  unfold link. destruct (decide (p = z)) as [->|Hne].
  - now rewrite new_value_lookup, Hz.
  - now rewrite new_value_old.
Qed.

Lemma new_value_skey (p : Z) : 0 < hgt a p → skey a2 p = skey a p.
Proof.
  intros Hp. destruct (hgt_pos_node a p Hp) as (np & Hnp & _).
  rewrite (skey_some a p np Ha Hnp).
  destruct (ak_nodes a Ha p np Hnp) as [_ _ _ (K1 & K2 & K3) _].
  destruct new_value_extends as [_ Hb].
  destruct (decide (p = z)) as [->|Hne].
  - rewrite (skey_some a2 z _ new_value_ok new_value_lookup). cbn [keyOffset keySize].
    rewrite Hz in Hnp. injection Hnp as <-. apply Hb; lia.
  - rewrite (skey_some a2 p np new_value_ok) by (now rewrite new_value_old).
    apply Hb; lia.
Qed.
End new_value.

Lemma overwrite_cases (s : Skiplist) (a : Arena) (l : list Z) (v : ValueStruct) (z : Z) :
  arena s = Some a → wf_at s a l → z ∈ l → cell_ok v →
  (n a + EncodedSize v <= len (buf a) ∧
   overwrite s v z = Ret (with_arena s (arena_with_value a v z)) ∧
   wf_at (with_arena s (arena_with_value a v z)) (arena_with_value a v z) l) ∨
  (len (buf a) < n a + EncodedSize v ∧ overwrite s v z = Fatal AssertArenaCapacity).
Proof.
  intros Hs Hwf Hz Hv. pose proof (wf_arena_ok s a l Hwf) as Ha.
  pose proof (ak_cursor a Ha) as Hc. pose proof (ak_cap a Ha) as Hcap.
  destruct (wf_elem s a l Hwf z Hz) as (Hhz & Hpos & _).
  destruct (hgt_pos_node a z ltac:(lia)) as (nd & Hnd & _).
  destruct (cell_ok_size v Hv) as [Hsz ?].
  unfold overwrite. rewrite (the_arena_some s a Hs). cbn [mbind outcome_bind].
  destruct (putVal_cases a v (ak_grow a Ha) ltac:(lia) Hcap Hv) as [[Hfit ->]|[Hfull ->]].
  2:{ right. split; [assumption|reflexivity]. }
  left. split; [assumption|]. cbn [mbind outcome_bind].
  split.
  - rewrite getNode_some
      by (cbn [with_buf bump buf]; rewrite len_splice by lia; assumption).
    cbn [mbind outcome_bind]. unfold setValue, load. cbn [with_buf bump nodes].
    rewrite Hnd. cbn [mbind outcome_bind].
    unfold arena_with_value, set_value. cbn [with_buf bump nodes]. now rewrite Hnd.
  - apply wf_at_transfer with s a; try assumption; try reflexivity.
    + now apply new_value_ok with nd.
    + intros p _. now apply new_value_hgt with nd.
    + intros p L _ _. now apply new_value_link with nd.
    + intros p Hp. now apply new_value_skey with nd.
Qed.

(** * The [prev] and [next] arrays *)

Lemma arr_get_lookup (arr : list Z) (i : nat) (v : Z) :
  arr !! i = Some v → arr_get arr (Z.of_nat i) = Ret v.
Proof.
  intros H. apply lookup_lt_Some in H as Hlt. unfold arr_get, len.
  decide_cmp. cbn [andb]. now rewrite Nat2Z.id, H.
Qed.

Lemma arr_set_insert (arr : list Z) (i : nat) (v : Z) :
  (i < length arr)%nat → arr_set arr (Z.of_nat i) v = Ret (<[i := v]> arr).
Proof.
  intros H. unfold arr_set, len. decide_cmp. cbn [andb]. now rewrite Nat2Z.id.
Qed.

Lemma arr_get_at (arr : list Z) (i v : Z) :
  0 <= i → arr !! Z.to_nat i = Some v → arr_get arr i = Ret v.
Proof.
  intros Hi H. rewrite <- (Z2Nat.id i) by assumption. now apply arr_get_lookup.
Qed.

Lemma arr_set_at (arr : list Z) (i v : Z) :
  0 <= i < len arr → arr_set arr i v = Ret (<[Z.to_nat i := v]> arr).
Proof.
  intros Hi. rewrite <- (Z2Nat.id i) at 1 by lia. apply arr_set_insert.
  unfold len in Hi. lia.
Qed.

(** * The descent of [Add] *)

Section descent.
Context (s : Skiplist) (a : Arena) (l lo hi : list Z) (k : list byte).
Hypothesis Hs : arena s = Some a.
Hypothesis Hwf : wf_at s a l.
Hypothesis Hsplit : split_at a l k lo hi.

Let head := headOffset s.

Lemma position_at_level (L : Z) :
  ∃ B R, lo = B ++ R ∧
         last_from head B = last_from head (above a L lo) ∧
         (B = [] ∨ L < hgt a (last_from head B)).
Proof.
  destruct (snoc_cases (above a L lo)) as [E|(F & x & E)].
  - exists [], lo. rewrite E. auto.
  - assert (Hx : x ∈ lo ∧ L < hgt a x).
    { apply above_elem. rewrite E, elem_of_app, list_elem_of_singleton. auto. }
    destruct Hx as [Hx HLx].
    destruct (list_elem_of_split lo x Hx) as (B0 & R & Elo).
    exists (B0 ++ [x]), R. rewrite E, !last_from_snoc.
    split; [rewrite Elo; now rewrite <- app_assoc|]. auto.
Qed.

Lemma findSplice_from_level (fuel : nat) (L L' : Z) :
  0 <= L < maxHeight → L <= L' → (length l < fuel)%nat →
  findSpliceForLevel fuel s k (last_from head (above a L' lo)) L =
  Ret (splice_of a head k lo hi L).
Proof.
  intros HL HL' Hfuel. destruct (position_at_level L') as (B & R & Elo & <- & HB).
  apply (findSplice_spec s a l lo hi k L Hs Hwf Hsplit HL fuel B R Elo).
  - destruct HB as [HB|HB]; [now left|right; fold head; lia].
  - pose proof Hsplit as (El & _). rewrite El, Elo, !length_app in Hfuel. lia.
Qed.

Lemma last_above_elem (L : Z) : last_from head (above a L lo) ∈ head :: lo.
Proof.
  pose proof (last_from_in_cons head (above a L lo)) as H.
  apply elem_of_cons in H as [H|H]; [rewrite H; left|].
  right. apply above_elem in H. tauto.
Qed.

Lemma first_above_elem (L : Z) :
  first_or_null (above a L hi) = 0 ∨ first_or_null (above a L hi) ∈ hi.
Proof.
  destruct (list_cases (above a L hi)) as [E|(x & r & E)]; rewrite E; [now left|].
  right. cbn [first_or_null hd].
  assert (H : x ∈ above a L hi) by (rewrite E; left). apply above_elem in H. tauto.
Qed.

Lemma splice_distinct (L : Z) :
  last_from head (above a L lo) ≠ first_or_null (above a L hi).
Proof.
  pose proof (last_above_elem L) as Hp. pose proof (first_above_elem L) as Hn.
  pose proof (wf_NoDup s a l Hwf) as Hnd. pose proof Hsplit as (El & _).
  fold head in Hnd. rewrite El in Hnd.
  assert (Hpos : 0 < last_from head (above a L lo)).
  { apply elem_of_cons in Hp as [->|Hp].
    - apply (wf_head_pos s a l Hwf).
    - apply (wf_elem s a l Hwf). rewrite El, elem_of_app. auto. }
  destruct Hn as [Hn|Hn]; [lia|]. intros E. rewrite <- E in Hn.
  apply NoDup_cons in Hnd as [Hh Hnd]. apply NoDup_app in Hnd as (_ & Hd & _).
  apply elem_of_cons in Hp as [Hp|Hp].
  - apply Hh. rewrite <- Hp. rewrite elem_of_app. auto.
  - now apply (Hd _ Hp).
Qed.

(** Without a node of key [k], every level yields its splice. *)
Lemma Add_descend_splices (v : ValueStruct) (fuel : nat) :
  (∀ q, q ∈ hi → CompareKeys k (skey a q) ≠ 0) → (length l < fuel)%nat →
  ∀ (cnt : nat) (prev next : list Z),
    Z.of_nat cnt <= sl_height s →
    length prev = 21%nat → length next = 21%nat →
    prev !! cnt = Some (last_from head (above a (Z.of_nat cnt) lo)) →
    ∃ prev' next',
      Add_descend fuel s k v cnt prev next = Ret (Continue s prev' next') ∧
      length prev' = 21%nat ∧ length next' = 21%nat ∧
      (∀ i, (i < cnt)%nat →
            prev' !! i = Some (last_from head (above a (Z.of_nat i) lo)) ∧
            next' !! i = Some (first_or_null (above a (Z.of_nat i) hi))) ∧
      (∀ i, (cnt <= i)%nat → prev' !! i = prev !! i ∧ next' !! i = next !! i).
Proof.
  intros Hne Hfuel. pose proof (wf_height s a l Hwf) as HH. unfold maxHeight in HH.
  induction cnt as [|cnt IH]; intros prev next Hcnt Hlp Hln Hprev.
  - exists prev, next. cbn [Add_descend]. repeat split; try assumption; lia.
  - cbn [Add_descend].
    replace (Z.of_nat cnt + 1) with (Z.of_nat (S cnt)) by lia.
    rewrite (arr_get_lookup _ _ _ Hprev). cbn [mbind outcome_bind].
    rewrite findSplice_from_level; [|unfold maxHeight; lia|lia|assumption].
    cbn [mbind outcome_bind]. unfold splice_of.
    set (p := last_from head (above a (Z.of_nat cnt) lo)).
    set (nx := first_or_null (above a (Z.of_nat cnt) hi)).
    assert (Hnoeq : negb (nx =? 0) && (CompareKeys k (skey a nx) =? 0) = false).
    { destruct (first_above_elem (Z.of_nat cnt)) as [E|E]; fold nx in E.
      - rewrite E. reflexivity.
      - apply Hne in E. apply Z.eqb_neq in E. rewrite E. apply andb_false_r. }
    rewrite Hnoeq. rewrite !arr_set_insert by lia. cbn [mbind outcome_bind].
    pose proof (splice_distinct (Z.of_nat cnt)) as Hd. fold p nx in Hd.
    apply Z.eqb_neq in Hd. rewrite Hd.
    destruct (IH (<[cnt := p]> prev) (<[cnt := nx]> next)) as
      (prev' & next' & E & Hlp' & Hln' & Hlow & Hhigh).
    + lia.
    + now rewrite length_insert.
    + now rewrite length_insert.
    + apply list_lookup_insert_eq. lia.
    + exists prev', next'. split; [exact E|]. split; [assumption|]. split; [assumption|].
      split.
      * intros i Hi. destruct (decide (i = cnt)) as [->|Hic].
        -- destruct (Hhigh cnt ltac:(lia)) as [-> ->].
           rewrite !list_lookup_insert_eq by lia. auto.
        -- apply Hlow. lia.
      * intros i Hi. destruct (Hhigh i ltac:(lia)) as [-> ->].
        rewrite !list_lookup_insert_ne by lia. auto.
Qed.

(** With a node [z] of key [k], the descent ends at level
    [height z - 1] in the equal-key update. *)
Lemma Add_descend_equal (v : ValueStruct) (fuel : nat) (z : Z) (hi' : list Z) :
  hi = z :: hi' → CompareKeys k (skey a z) = 0 → (length l < fuel)%nat →
  ∀ (cnt : nat) (prev next : list Z),
    hgt a z <= Z.of_nat cnt <= sl_height s →
    length prev = 21%nat → length next = 21%nat →
    prev !! cnt = Some (last_from head (above a (Z.of_nat cnt) lo)) →
    Add_descend fuel s k v cnt prev next =
    (s' ← overwrite s v z; Ret (Returned s')).
Proof.
  intros Ehi Hz Hfuel. pose proof (wf_height s a l Hwf) as HH. unfold maxHeight in HH.
  assert (Hzl : z ∈ l) by (apply (hi_elem a l lo hi k Hsplit); rewrite Ehi; left).
  destruct (wf_elem s a l Hwf z Hzl) as (Hhz & Hzpos & _).
  induction cnt as [|cnt IH]; intros prev next Hcnt Hlp Hln Hprev; [lia|].
  cbn [Add_descend].
  replace (Z.of_nat cnt + 1) with (Z.of_nat (S cnt)) by lia.
  rewrite (arr_get_lookup _ _ _ Hprev). cbn [mbind outcome_bind].
  rewrite findSplice_from_level; [|unfold maxHeight; lia|lia|assumption].
  cbn [mbind outcome_bind]. unfold splice_of.
  destruct (Z.lt_ge_cases (Z.of_nat cnt) (hgt a z)) as [Hin|Hout].
  - (* level [height z - 1] *)
    rewrite Ehi, above_cons_in by assumption. cbn [first_or_null hd].
    rewrite Hz. destruct (Z.eqb_spec z 0); [lia|]. cbn [negb andb Z.eqb].
    rewrite !arr_set_insert by lia. cbn [mbind outcome_bind].
    now rewrite Z.eqb_refl.
  - (* above it *)
    set (p := last_from head (above a (Z.of_nat cnt) lo)).
    set (nx := first_or_null (above a (Z.of_nat cnt) hi)).
    assert (Hnoeq : negb (nx =? 0) && (CompareKeys k (skey a nx) =? 0) = false).
    { unfold nx. rewrite Ehi, above_cons_out by lia.
      destruct (list_cases (above a (Z.of_nat cnt) hi')) as [E|(x & r & E)]; rewrite E;
        [reflexivity|]. cbn [first_or_null hd].
      assert (Hx : x ∈ hi') by (apply (above_elem a (Z.of_nat cnt)); rewrite E; left).
      pose proof (hi_rest_greater s a l lo hi k Hwf Hsplit z hi' x Ehi Hx) as Hlt.
      apply CompareKeys_eq in Hz. rewrite <- Hz in Hlt.
      destruct (Z.eqb_spec (CompareKeys k (skey a x)) 0); [lia|]. apply andb_false_r. }
    rewrite Hnoeq. rewrite !arr_set_insert by lia. cbn [mbind outcome_bind].
    pose proof (splice_distinct (Z.of_nat cnt)) as Hd. fold p nx in Hd.
    apply Z.eqb_neq in Hd. rewrite Hd.
    apply IH.
    + lia.
    + now rewrite length_insert.
    + now rewrite length_insert.
    + apply list_lookup_insert_eq. lia.
Qed.
End descent.

(** * The publishing loop of [Add] *)

Section publish.
Context (s0 : Skiplist) (a0 : Arena) (l lo hi : list Z) (k : list byte)
        (v : ValueStruct) (hx : Z).
Hypothesis Hs0 : arena s0 = Some a0.
Hypothesis Hwf : wf_at s0 a0 l.
Hypothesis Hsplit : split_at a0 l k lo hi.
Hypothesis Hhx : 1 <= hx <= maxHeight.
Hypothesis Hk : len k < 2 ^ 16.
Hypothesis Hv : cell_ok v.
Hypothesis Hfit : n a0 + (23 + 4 * hx) + len k + EncodedSize v <= len (buf a0).

Let head := headOffset s0.
Let m := aligned (n a0).
Let a1 := arena_with_node a0 k v hx.
Let Ha0 := wf_arena_ok s0 a0 l Hwf.

Lemma m_not_old (p : Z) : 0 < hgt a0 p → p ≠ m.
Proof.
  intros Hp ->. destruct (hgt_pos_node a0 m Hp) as (nd & Hnd & _).
  fold m in Hnd. unfold m in Hnd.
  rewrite (new_node_fresh a0 k v hx Ha0 Hhx Hv Hfit) in Hnd. discriminate.
Qed.

Lemma m_pos : 0 < m < len (buf a0).
Proof.
  pose proof (new_node_range a0 k v hx Ha0 Hhx Hv Hfit) as H. fold m in H.
  pose proof (ak_cursor a0 Ha0). pose proof (len_nonneg k).
  destruct (cell_ok_size v Hv). unfold maxHeight in Hhx. lia.
Qed.

Lemma old_hgt_pos (p : Z) : p ∈ head :: lo ++ hi → 0 < hgt a0 p.
Proof.
  intros Hp. apply elem_of_cons in Hp as [->|Hp].
  - unfold head. rewrite (wf_head s0 a0 l Hwf). reflexivity.
  - pose proof Hsplit as (El & _). rewrite <- El in Hp.
    destruct (wf_elem s0 a0 l Hwf p Hp). lia.
Qed.

Lemma level_NoDup (L : Z) : NoDup (head :: above a0 L lo ++ above a0 L hi).
Proof.
  pose proof (wf_NoDup s0 a0 l Hwf) as Hnd. pose proof Hsplit as (El & _).
  fold head in Hnd. rewrite El in Hnd. apply NoDup_cons in Hnd as [Hh Hnd].
  rewrite <- above_app. apply NoDup_cons. split.
  - intros Hin. apply above_elem in Hin. tauto.
  - unfold above. now apply NoDup_filter.
Qed.

Lemma level_elem (L p : Z) :
  p ∈ head :: above a0 L lo ++ above a0 L hi → p ∈ head :: lo ++ hi.
Proof.
  rewrite <- above_app. intros Hp. apply elem_of_cons in Hp as [->|Hp]; [left|right].
  apply above_elem in Hp. tauto.
Qed.

Section level.
Context (ac : Arena) (i : Z).
Hypothesis Hpub : publishing a0 a1 head lo hi m i ac.
Hypothesis Hi : 0 <= i < hx.

Let p := last_from head (above a0 i lo).
Let nx := first_or_null (above a0 i hi).
Let ac1 := set_link ac m i nx.
Let ac2 := set_link ac1 p i m.

Lemma cur_same : same_but_towers a1 ac.
Proof. destruct Hpub as (H & _). exact H. Qed.

Lemma cur_ok : arena_ok ac.
Proof.
  apply same_but_towers_arena_ok with a1; [exact cur_same|].
  now apply new_node_ok.
Qed.

Lemma cur_hgt_old (q : Z) : 0 < hgt a0 q → hgt ac q = hgt a0 q.
Proof.
  intros Hq. rewrite (same_but_towers_hgt a1 ac q cur_same).
  apply new_node_hgt_old; try assumption. now apply m_not_old.
Qed.

Lemma cur_hgt_m : hgt ac m = hx.
Proof.
  rewrite (same_but_towers_hgt a1 ac m cur_same).
  now apply new_node_hgt.
Qed.

Lemma cur_buf_len : len (buf ac) = len (buf a0).
Proof.
  destruct cur_same as (_ & _ & -> & _). now apply new_node_buf_len.
Qed.

Lemma cur_node (q : Z) :
  0 < hgt ac q →
  ∃ nd, nodes ac !! q = Some nd ∧ height nd = hgt ac q ∧ len (tower nd) = maxHeight.
Proof.
  intros Hq. destruct (hgt_pos_node ac q Hq) as (nd & Hnd & Hh).
  exists nd. split; [assumption|]. split; [assumption|].
  destruct (ak_nodes ac cur_ok q nd Hnd) as [_ _ Ht _ _].
  unfold len. rewrite Ht. unfold maxHeight. reflexivity.
Qed.

Lemma p_old : p ∈ head :: lo ++ hi.
Proof.
  pose proof (last_above_elem s0 a0 lo i) as H. fold head in H.
  apply elem_of_cons in H as [H|H].
  - unfold p. rewrite H. left.
  - right. apply elem_of_app. now left.
Qed.

Lemma p_above : i < hgt a0 p.
Proof.
  pose proof (last_from_in_cons head (above a0 i lo)) as H.
  apply elem_of_cons in H as [H|H].
  - unfold p. rewrite H. unfold head. rewrite (wf_head s0 a0 l Hwf).
    unfold maxHeight in *. lia.
  - apply above_elem in H. tauto.
Qed.

Lemma cur_chain : chain ac i p (above a0 i hi).
Proof.
  destruct Hpub as (_ & _ & Hc). apply chain_app. apply Hc. lia.
Qed.

Lemma ac1_same : same_but_towers ac ac1.
Proof.
  destruct (cur_node m) as (nd & Hnd & Hh & Ht); [rewrite cur_hgt_m; lia|].
  now apply set_link_same with nd.
Qed.

Lemma ac2_same : same_but_towers ac1 ac2.
Proof.
  pose proof p_above as Hp. pose proof (old_hgt_pos p p_old) as Hp0.
  pose proof (same_but_towers_hgt ac ac1 p ac1_same) as E1.
  rewrite cur_hgt_old in E1 by assumption.
  destruct (hgt_pos_node ac1 p ltac:(lia)) as (nd & Hnd & Hh).
  now apply set_link_same with nd.
Qed.

Lemma link_ac1 (q L : Z) : 0 <= L → (q ≠ m ∨ L ≠ i) → link ac1 q L = link ac q L.
Proof.
  intros HL Hne.
  destruct (cur_node m) as (nd & Hnd & Hh & Ht); [rewrite cur_hgt_m; lia|].
  apply link_set_link_ne with nd; try assumption. unfold maxHeight in *. lia.
Qed.

Lemma link_ac2 (q L : Z) :
  0 <= L → (q ≠ m ∨ L ≠ i) → (q ≠ p ∨ L ≠ i) → link ac2 q L = link ac q L.
Proof.
  intros HL H1 H2. rewrite <- link_ac1 by assumption.
  pose proof (old_hgt_pos p p_old) as Hp0.
  pose proof (same_but_towers_hgt ac ac1 p ac1_same) as E1.
  rewrite cur_hgt_old in E1 by assumption.
  pose proof p_above as Hp.
  destruct (hgt_pos_node ac1 p ltac:(lia)) as (nd & Hnd & Hh).
  apply link_set_link_ne with nd; try assumption.
  pose proof (same_but_towers_arena_ok ac ac1 ac1_same cur_ok) as Hok.
  destruct (ak_nodes ac1 Hok p nd Hnd) as [_ _ Ht _ _].
  unfold len. rewrite Ht. unfold maxHeight in *. lia.
Qed.

Lemma link_ac2_p : link ac2 p i = Some m.
Proof.
  pose proof p_above as Hp. pose proof (old_hgt_pos p p_old) as Hp0.
  pose proof (same_but_towers_hgt ac ac1 p ac1_same) as E1.
  rewrite cur_hgt_old in E1 by assumption.
  destruct (hgt_pos_node ac1 p ltac:(lia)) as (nd & Hnd & Hh).
  apply link_set_link_eq with nd; [assumption|].
  pose proof (same_but_towers_arena_ok ac ac1 ac1_same cur_ok) as Hok.
  destruct (ak_nodes ac1 Hok p nd Hnd) as [_ _ Ht _ _].
  unfold len. rewrite Ht. unfold maxHeight in *. lia.
Qed.

Lemma link_ac2_m : link ac2 m i = Some nx.
Proof.
  pose proof (m_not_old p (old_hgt_pos p p_old)) as Hne.
  pose proof (old_hgt_pos p p_old) as Hp0.
  pose proof (same_but_towers_hgt ac ac1 p ac1_same) as E1.
  rewrite cur_hgt_old in E1 by assumption.
  pose proof p_above as Hp.
  destruct (hgt_pos_node ac1 p ltac:(lia)) as (nd & Hnd & Hh).
  pose proof (same_but_towers_arena_ok ac ac1 ac1_same cur_ok) as Hok.
  destruct (ak_nodes ac1 Hok p nd Hnd) as [_ _ Htp _ _].
  unfold ac2. rewrite (link_set_link_ne ac1 p nd i m Hnd) by
    (unfold len; rewrite ?Htp; unfold maxHeight in *; lia || auto).
  destruct (cur_node m) as (ndm & Hndm & Hhm & Htm); [rewrite cur_hgt_m; lia|].
  apply link_set_link_eq with ndm; [assumption|]. unfold maxHeight in *. lia.
Qed.

Lemma published : publishing a0 a1 head lo hi m (i + 1) ac2.
Proof.
  destruct Hpub as (Hsame & Hbelow & Habove). unfold maxHeight in *.
  split; [|split].
  - apply same_but_towers_trans with ac; [assumption|].
    apply same_but_towers_trans with ac1; [apply ac1_same|apply ac2_same].
  - intros L HL. destruct (Z.eq_dec L i) as [->|Hne].
    + apply chain_insert with ac.
      * apply Habove. lia.
      * apply level_NoDup.
      * intros Hin. apply level_elem in Hin. apply old_hgt_pos in Hin.
        now apply (m_not_old m).
      * pose proof m_pos. lia.
      * apply link_ac2_p.
      * apply link_ac2_m.
      * intros q Hq Hqp. apply link_ac2; [lia| |now left].
        left. apply m_not_old. now apply old_hgt_pos, level_elem with i.
    + apply chain_frame with ac; [|apply Hbelow; lia].
      intros q _. apply link_ac2; [lia| |]; now right.
  - intros L HL. unfold maxHeight in HL.
    apply chain_frame with ac; [|apply Habove; lia].
    intros q _. apply link_ac2; [lia| |]; right; lia.
Qed.

Lemma head_in_buf : 0 < head < len (buf ac).
Proof. rewrite cur_buf_len. apply (wf_head_pos s0 a0 l Hwf). Qed.

Lemma p_in_buf : 0 < p < len (buf ac).
Proof.
  rewrite cur_buf_len. apply (wf_node_pos s0 a0 l Hwf). apply old_hgt_pos, p_old.
Qed.

Lemma setTower_m : setTower ac (Some m) i nx = Ret ac1.
Proof.
  destruct (cur_node m) as (nd & Hnd & Hh & Ht); [rewrite cur_hgt_m; lia|].
  rewrite cur_hgt_m in Hh. unfold maxHeight in *.
  apply setTower_set_link with nd; try assumption; unfold maxHeight; lia.
Qed.

Lemma cas_p : casNextOffset ac1 (Some p) i nx m = Ret (ac2, true).
Proof.
  pose proof p_above as Hp. pose proof (old_hgt_pos p p_old) as Hp0.
  pose proof (same_but_towers_hgt ac ac1 p ac1_same) as E1.
  rewrite cur_hgt_old in E1 by assumption.
  apply casNextOffset_swap.
  - rewrite link_ac1; [|lia|left; now apply m_not_old].
    apply (chain_head ac i p _ cur_chain).
  - lia.
  - rewrite E1. apply (wf_hgt_max s0 a0 l Hwf).
Qed.

(** One pass through the body of the inner loop links [m] in at level
    [i]; the compare-and-swap succeeds at once. *)
Lemma Add_publish_level_run (s' : Skiplist) (prev next : list Z) (fuel : nat) :
  arena s' = Some ac → headOffset s' = head →
  splices a0 head lo hi (sl_height s0) prev next → (0 < fuel)%nat →
  ∃ prev' next',
    Add_publish_level fuel s' k v (Some m) i prev next =
    Ret (Continue (with_arena s' ac2) prev' next') ∧
    splices a0 head lo hi (sl_height s0) prev' next'.
Proof.
  intros Hs' Hhd (Hlp & Hln & Hsp) Hfuel.
  destruct fuel as [|fuel]; [lia|].
  pose proof (wf_height s0 a0 l Hwf) as HH. unfold maxHeight in HH, Hhx.
  assert (Hj : (Z.to_nat i < 20)%nat) by lia.
  assert (Hwrap : wrap32 m = m).
  { apply wrap32_small. pose proof m_pos. pose proof (ak_cap a0 Ha0).
    assert (2 ^ 31 < 2 ^ 32) by reflexivity. lia. }
  assert (Hbuf1 : len (buf ac1) = len (buf ac)).
  { destruct ac1_same as (_ & _ & -> & _). reflexivity. }
  (* the rest of the body, once [prev[i]] and [next[i]] hold the splice *)
  assert (Htail : ∀ prev1 next1 rest,
    prev1 !! Z.to_nat i = Some p → next1 !! Z.to_nat i = Some nx →
    (arr_get next1 i ≫= λ ni,
       setTower ac (Some m) i ni ≫= λ a,
         arr_get prev1 i ≫= λ pi,
           getNode a pi ≫= λ pnode,
             casNextOffset a pnode i ni (getNodeOffset a (Some m)) ≫= λ '(a', swapped),
               if (swapped : bool)
               then Ret (Continue (with_arena s' a') prev1 next1)
               else rest a' pi) =
    Ret (Continue (with_arena s' ac2) prev1 next1)).
  { intros prev1 next1 rest Hp1 Hn1.
    rewrite (arr_get_at next1 i nx ltac:(lia) Hn1), (arr_get_at prev1 i p ltac:(lia) Hp1).
    cbn [mbind outcome_bind]. rewrite setTower_m. cbn [mbind outcome_bind].
    rewrite getNode_some by (rewrite Hbuf1; apply p_in_buf).
    cbn [mbind outcome_bind getNodeOffset]. rewrite Hwrap, cas_p. reflexivity. }
  cbn [Add_publish_level]. rewrite (the_arena_some s' ac Hs').
  cbn [mbind outcome_bind].
  destruct (Hsp (Z.to_nat i) Hj) as [[Htop Hp0]|[Hp1 Hn1]].
  - (* [prev[i]] is null: the splice is taken from the head *)
    rewrite Z2Nat.id in Htop by lia.
    assert (Elo : above a0 i lo = []).
    { apply above_none. rewrite Forall_forall. intros q Hq.
      destruct (wf_elem s0 a0 l Hwf q) as (Hq1 & _);
        [apply (lo_elem a0 l lo hi k Hsplit); assumption|]. lia. }
    assert (Ehi : above a0 i hi = []).
    { apply above_none. rewrite Forall_forall. intros q Hq.
      destruct (wf_elem s0 a0 l Hwf q) as (Hq1 & _);
        [apply (hi_elem a0 l lo hi k Hsplit); assumption|]. lia. }
    assert (Ep : p = head) by (unfold p; rewrite Elo; reflexivity).
    assert (En : nx = 0) by (unfold nx; rewrite Ehi; reflexivity).
    rewrite (arr_get_at prev i 0 ltac:(lia) Hp0). cbn [mbind outcome_bind].
    rewrite getNode_null. cbn [mbind outcome_bind].
    unfold AssertTrue at 1. replace (i >? 1) with true
      by (symmetry; rewrite Z.gtb_ltb; apply Z.ltb_lt; lia).
    cbn [mbind outcome_bind].
    cbn [findSpliceForLevel]. rewrite (the_arena_some s' ac Hs').
    cbn [mbind outcome_bind]. rewrite Hhd.
    rewrite getNode_some by apply head_in_buf. cbn [mbind outcome_bind].
    assert (Hlink : getNextOffset ac (Some head) i = Ret 0).
    { apply getNextOffset_link.
      - pose proof cur_chain as Hc. rewrite Ehi in Hc. rewrite <- Ep. exact Hc.
      - rewrite cur_hgt_old by (rewrite <- Ep; apply old_hgt_pos, p_old).
        unfold head. rewrite (wf_head s0 a0 l Hwf). unfold maxHeight. lia.
      - rewrite cur_hgt_old by (rewrite <- Ep; apply old_hgt_pos, p_old).
        apply (wf_hgt_max s0 a0 l Hwf). }
    rewrite Hlink. cbn [mbind outcome_bind]. rewrite getNode_null.
    cbn [mbind outcome_bind].
    rewrite !arr_set_at by (unfold len; lia). cbn [mbind outcome_bind].
    unfold AssertTrue at 1.
    replace (head =? 0) with false
      by (symmetry; apply Z.eqb_neq; pose proof head_in_buf; lia).
    cbn [negb mbind outcome_bind].
    exists (<[Z.to_nat i := head]> prev), (<[Z.to_nat i := 0]> next).
    split.
    + apply Htail.
      * rewrite Ep. apply list_lookup_insert_eq. lia.
      * rewrite En. apply list_lookup_insert_eq. lia.
    + split; [now rewrite length_insert|]. split; [now rewrite length_insert|].
      intros j Hj'. destruct (decide (j = Z.to_nat i)) as [->|Hne].
      * right. rewrite !list_lookup_insert_eq by lia.
        rewrite Z2Nat.id by lia. rewrite Elo, Ehi. auto.
      * rewrite !list_lookup_insert_ne by lia. apply Hsp. assumption.
  - (* [prev[i]] is the node found by the descent *)
    rewrite Z2Nat.id in Hp1, Hn1 by lia. fold p in Hp1. fold nx in Hn1.
    rewrite (arr_get_at prev i p ltac:(lia) Hp1). cbn [mbind outcome_bind].
    rewrite getNode_some by apply p_in_buf. cbn [mbind outcome_bind].
    exists prev, next. split; [|repeat split; assumption].
    apply Htail; assumption.
Qed.
End level.
End publish.

(** * [randomHeight] and the height of the list *)

Lemma randomHeight_loop_range (budget : nat) (rnd : nat → Z) (j : nat) (h : Z) :
  1 <= h <= maxHeight → 1 <= randomHeight_loop budget rnd j h <= maxHeight.
Proof.
  revert j h. induction budget as [|budget IH]; intros j h Hh; cbn [randomHeight_loop];
    [assumption|].
  destruct (Z.ltb_spec h maxHeight); cbn [andb]; [|assumption].
  destruct (rnd j <=? heightIncrease); [|assumption]. apply IH. lia.
Qed.

Lemma randomHeight_range (rnd : nat → Z) : 1 <= randomHeight rnd <= maxHeight.
Proof. apply randomHeight_loop_range. unfold maxHeight. lia. Qed.

Lemma with_arena_id (s : Skiplist) (a : Arena) : arena s = Some a → with_arena s a = s.
Proof. destruct s. cbn. intros ->. reflexivity. Qed.

Lemma with_arena_twice (s : Skiplist) (a b : Arena) :
  with_arena (with_arena s a) b = with_arena s b.
Proof. reflexivity. Qed.

Lemma Add_raise_run (s : Skiplist) (h : Z) (fuel : nat) :
  (0 < fuel)%nat → 1 <= h <= maxHeight →
  Add_raise fuel s h (sl_height s) =
  Ret (if h >? sl_height s then with_height s h else s).
Proof.
  intros Hfuel Hh. unfold maxHeight in Hh. destruct fuel as [|fuel]; [lia|].
  cbn [Add_raise]. destruct (h >? sl_height s); [|reflexivity].
  unfold casHeight. rewrite Z.eqb_refl. rewrite wrapi32_small; [reflexivity|].
  assert (2 ^ 31 = 2147483648) by reflexivity. lia.
Qed.

(** * The publishing loop, all levels *)

Section publish_all.
Context (s0 : Skiplist) (a0 : Arena) (l lo hi : list Z) (k : list byte)
        (v : ValueStruct) (hx : Z).
Hypothesis Hs0 : arena s0 = Some a0.
Hypothesis Hwf : wf_at s0 a0 l.
Hypothesis Hsplit : split_at a0 l k lo hi.
Hypothesis Hhx : 1 <= hx <= maxHeight.
Hypothesis Hk : len k < 2 ^ 16.
Hypothesis Hv : cell_ok v.
Hypothesis Hfit : n a0 + (23 + 4 * hx) + len k + EncodedSize v <= len (buf a0).
Hypothesis Hnew : ∀ q, q ∈ hi → CompareKeys k (skey a0 q) ≠ 0.

Let head := headOffset s0.
Let m := aligned (n a0).
Let a1 := arena_with_node a0 k v hx.
Let Ha0 := wf_arena_ok s0 a0 l Hwf.

Lemma Add_publish_run (fuel : nat) :
  (0 < fuel)%nat →
  ∀ (cnt : nat) (i : Z) (ac : Arena) (s' : Skiplist) (prev next : list Z),
    publishing a0 a1 head lo hi m i ac → 0 <= i → i + Z.of_nat cnt = hx →
    arena s' = Some ac → headOffset s' = head →
    splices a0 head lo hi (sl_height s0) prev next →
    ∃ af, Add_publish fuel s' k v (Some m) cnt i prev next = Ret (with_arena s' af) ∧
          publishing a0 a1 head lo hi m hx af.
Proof.
  intros Hfuel. induction cnt as [|cnt IH]; intros i ac s' prev next Hpub Hi Hcnt Hs' Hhd Hsp.
  - exists ac. cbn [Add_publish]. rewrite with_arena_id by assumption.
    split; [reflexivity|]. replace hx with i by lia. exact Hpub.
  - cbn [Add_publish].
    destruct (Add_publish_level_run s0 a0 l lo hi k v hx Hwf Hsplit Hhx Hk Hv Hfit
                ac i Hpub ltac:(lia) s' prev next fuel Hs' Hhd Hsp Hfuel)
      as (prev' & next' & E1 & Hsp').
    change (aligned (n a0)) with m in E1. rewrite E1.
    cbn [mbind outcome_bind].
    pose proof (published s0 a0 l lo hi k v hx Hwf Hsplit Hhx Hk Hv Hfit
                  ac i Hpub ltac:(lia)) as Hpub'.
    destruct (IH (i + 1) _ (with_arena s' _) prev' next' Hpub' ltac:(lia) ltac:(lia)
                eq_refl Hhd Hsp') as (af & E & Hf).
    exists af. split; [exact E|exact Hf].
Qed.

(** The chains right after [newNode] are those of the old list. *)
Lemma published_none : publishing a0 a1 head lo hi m 0 a1.
Proof.
  split; [apply same_but_towers_refl|]. split; [intros L HL; lia|].
  intros L HL. pose proof Hsplit as (El & _).
  rewrite <- above_app, <- El.
  apply chain_frame with a0; [|apply (wf_chains s0 a0 l Hwf); lia].
  intros p Hp. apply new_node_link_old.
  apply (m_not_old s0 a0 l k v hx Hwf Hhx Hv Hfit).
  apply elem_of_cons in Hp as [->|Hp].
  - unfold head. rewrite (wf_head s0 a0 l Hwf). reflexivity.
  - apply above_elem in Hp as [Hp _]. destruct (wf_elem s0 a0 l Hwf p Hp). lia.
Qed.

(** The invariant once every level below [hx] has been linked. *)
Lemma published_wf (af : Arena) (sf : Skiplist) :
  publishing a0 a1 head lo hi m hx af →
  headOffset sf = head → sl_height sf = Z.max (sl_height s0) hx →
  wf_at sf af (lo ++ m :: hi).
Proof.
  intros (Hsame & Hbelow & Habove) Hhd Hht.
  pose proof Hsplit as (El & Hlo & Hhi).
  pose proof (wf_height s0 a0 l Hwf) as HH. unfold maxHeight in *.
  assert (Hok1 : arena_ok a1) by (now apply new_node_ok).
  assert (Hold : ∀ p, p ∈ l → hgt af p = hgt a0 p ∧ skey af p = skey a0 p ∧ p ≠ m).
  { intros p Hp. destruct (wf_elem s0 a0 l Hwf p Hp) as (Hp1 & _).
    assert (Hne : p ≠ m) by (apply (m_not_old s0 a0 l k v hx Hwf Hhx Hv Hfit); lia).
    split; [|split; [|assumption]].
    - rewrite (same_but_towers_hgt a1 af p Hsame). now apply new_node_hgt_old.
    - rewrite (same_but_towers_skey a1 af p Hsame).
      apply new_node_skey_old; try assumption. lia. }
  assert (Hm_hgt : hgt af m = hx).
  { rewrite (same_but_towers_hgt a1 af m Hsame). now apply new_node_hgt. }
  assert (Hm_key : skey af m = k).
  { rewrite (same_but_towers_skey a1 af m Hsame). now apply new_node_skey. }
  assert (Hlo_l : ∀ p, p ∈ lo → p ∈ l) by (intros p Hp; rewrite El, elem_of_app; auto).
  assert (Hhi_l : ∀ p, p ∈ hi → p ∈ l) by (intros p Hp; rewrite El, elem_of_app; auto).
  assert (Hab_lo : ∀ L, above af L lo = above a0 L lo).
  { intros L. apply above_ext. intros p Hp. now apply Hold, Hlo_l. }
  assert (Hab_hi : ∀ L, above af L hi = above a0 L hi).
  { intros L. apply above_ext. intros p Hp. now apply Hold, Hhi_l. }
  split.
  - now apply same_but_towers_arena_ok with a1.
  - rewrite Hht. unfold maxHeight. lia.
  - rewrite Hhd. rewrite (same_but_towers_hgt a1 af head Hsame).
    transitivity (hgt a0 head); [|apply (wf_head s0 a0 l Hwf)].
    apply new_node_hgt_old.
    apply (m_not_old s0 a0 l k v hx Hwf Hhx Hv Hfit).
    unfold head. rewrite (wf_head s0 a0 l Hwf). reflexivity.
  - rewrite Hhd. intros Hin. apply elem_of_app in Hin as [Hin|Hin].
    + apply (wf_head_out s0 a0 l Hwf). now apply Hlo_l.
    + apply elem_of_cons in Hin as [Hin|Hin].
      * apply (m_not_old s0 a0 l k v hx Hwf Hhx Hv Hfit head); [|exact Hin].
        unfold head. rewrite (wf_head s0 a0 l Hwf). reflexivity.
      * apply (wf_head_out s0 a0 l Hwf). now apply Hhi_l.
  - rewrite Forall_forall. intros p Hp. rewrite Hht.
    assert (Hcase : p = m ∨ p ∈ l).
    { rewrite !elem_of_app, elem_of_cons in Hp. rewrite El, elem_of_app. tauto. }
    destruct Hcase as [->|Hpl]; [rewrite Hm_hgt; lia|].
    destruct (Hold p Hpl) as (-> & _). destruct (wf_elem s0 a0 l Hwf p Hpl). lia.
  - pose proof (wf_sorted s0 a0 l Hwf) as Hsorted. rewrite El in Hsorted.
    apply StronglySorted_app in Hsorted as (Hcross & Hslo & Hshi).
    apply StronglySorted_app. split; [|split].
    + intros x y Hx Hy. unfold key_lt.
      destruct (Hold x (Hlo_l x Hx)) as (_ & -> & _).
      rewrite Forall_forall in Hlo.
      apply elem_of_cons in Hy as [->|Hy].
      * rewrite Hm_key. now apply Hlo.
      * destruct (Hold y (Hhi_l y Hy)) as (_ & -> & _). now apply Hcross.
    + apply sorted_ext with a0; [|assumption]. intros p Hp. now apply Hold, Hlo_l.
    + constructor.
      * apply sorted_ext with a0; [|assumption]. intros p Hp. now apply Hold, Hhi_l.
      * rewrite Forall_forall in *. intros q Hq. unfold key_lt.
        rewrite Hm_key. destruct (Hold q (Hhi_l q Hq)) as (_ & -> & _).
        pose proof (Hhi q Hq). pose proof (Hnew q Hq). lia.
  - intros L HL. unfold maxHeight in HL. rewrite Hhd, above_app, Hab_lo.
    destruct (Z.lt_ge_cases L hx).
    + rewrite above_cons_in by (rewrite Hm_hgt; lia). rewrite Hab_hi. apply Hbelow. lia.
    + rewrite above_cons_out by (rewrite Hm_hgt; lia). rewrite Hab_hi. apply Habove. lia.
Qed.
End publish_all.

(** * [Add] on a well-formed list *)

Lemma split_cases (s : Skiplist) (a : Arena) (l lo hi : list Z) (k : list byte) :
  wf_at s a l → split_at a l k lo hi →
  (∃ z hi', hi = z :: hi' ∧ CompareKeys k (skey a z) = 0) ∨
  (∀ q, q ∈ hi → CompareKeys k (skey a q) ≠ 0).
Proof.
  intros Hwf Hsplit. destruct hi as [|z hi'] eqn:Ehi.
  - right. intros q Hq. apply elem_of_nil in Hq. contradiction.
  - destruct (Z.eq_dec (CompareKeys k (skey a z)) 0) as [E|E]; [left; eauto|right].
    intros q Hq.
    pose proof (hi_strictly_after s a l lo (z :: hi') k Hwf Hsplit q E Hq) as H.
    rewrite CompareKeys_antisym in H. lia.
Qed.

Section add.
Context (s : Skiplist) (a : Arena) (l lo hi : list Z) (e : Entry) (rnd : nat → Z)
        (fuel : nat).
Hypothesis Hs : arena s = Some a.
Hypothesis Hwf : wf_at s a l.
Hypothesis He : entry_ok e.
Hypothesis Hsplit : split_at a l (Key e) lo hi.
Hypothesis Hfuel : (length l < fuel)%nat.

Let k := Key e.
Let v := ValueStruct_of_Entry e.
Let hx := randomHeight rnd.
Let head := headOffset s.
Let H := sl_height s.
Let prev0 := <[Z.to_nat H := head]> (replicate (Z.to_nat (maxHeight + 1)) 0).
Let next0 := replicate (Z.to_nat (maxHeight + 1)) 0.

Lemma H_range : 1 <= H <= 20.
Proof. pose proof (wf_height s a l Hwf) as HH. unfold maxHeight in HH. exact HH. Qed.

Lemma Add_start :
  Add fuel rnd s e =
  (r ← Add_descend fuel s k v (Z.to_nat H) prev0 next0;
   match r with
   | Returned s => Ret s
   | Continue s prev next =>
       a ← the_arena s;
       '(a, x) ← newNode a k v hx;
       let s := with_arena s a in
       s ← Add_raise fuel s hx (getHeight s);
       Add_publish fuel s k v x (Z.to_nat hx) 0 prev next
   end).
Proof.
  pose proof H_range as HH. unfold H in HH. unfold Add, getHeight.
  rewrite arr_set_at by (unfold len; rewrite length_replicate; unfold maxHeight; lia).
  reflexivity.
Qed.

Lemma above_top_lo : above a H lo = [].
Proof.
  apply above_none. rewrite Forall_forall. intros q Hq.
  destruct (wf_elem s a l Hwf q) as (Hq1 & _);
    [apply (lo_elem a l lo hi k Hsplit); assumption|]. unfold H. lia.
Qed.

Lemma above_top_hi : above a H hi = [].
Proof.
  apply above_none. rewrite Forall_forall. intros q Hq.
  destruct (wf_elem s a l Hwf q) as (Hq1 & _);
    [apply (hi_elem a l lo hi k Hsplit); assumption|]. unfold H. lia.
Qed.

Lemma prev0_top :
  prev0 !! Z.to_nat H = Some (last_from head (above a (Z.of_nat (Z.to_nat H)) lo)).
Proof.
  pose proof H_range. rewrite Z2Nat.id by lia. rewrite above_top_lo.
  unfold prev0. apply list_lookup_insert_eq. rewrite length_replicate.
  unfold maxHeight. lia.
Qed.

Lemma prev0_length : length prev0 = 21%nat.
Proof. unfold prev0. rewrite length_insert. reflexivity. Qed.

(** The key is in the list: its node gets the new value. *)
Lemma Add_update (z : Z) (hi' : list Z) :
  hi = z :: hi' → CompareKeys k (skey a z) = 0 →
  Add fuel rnd s e = overwrite s v z.
Proof.
  intros Ehi Hz. pose proof H_range as HH. rewrite Add_start.
  assert (Hzl : z ∈ l) by (apply (hi_elem a l lo hi k Hsplit); rewrite Ehi; left).
  destruct (wf_elem s a l Hwf z Hzl) as (Hhz & _).
  rewrite (Add_descend_equal s a l lo hi k Hs Hwf Hsplit v fuel z hi' Ehi Hz Hfuel).
  - destruct (overwrite s v z); reflexivity.
  - fold H. lia.
  - apply prev0_length.
  - reflexivity.
  - apply prev0_top.
Qed.

(** The key is new: a node is linked in between [lo] and [hi]. *)
Lemma Add_insert :
  (∀ q, q ∈ hi → CompareKeys k (skey a q) ≠ 0) →
  (n a + (23 + 4 * hx) + len k + EncodedSize v <= len (buf a) ∧
   ∃ af, Add fuel rnd s e =
           Ret (with_arena (if hx >? H then with_height s hx else s) af) ∧
         wf_at (with_arena (if hx >? H then with_height s hx else s) af) af
               (lo ++ aligned (n a) :: hi) ∧
         same_but_towers (arena_with_node a k v hx) af) ∨
  (len (buf a) < n a + (23 + 4 * hx) + len k + EncodedSize v ∧
   Add fuel rnd s e = Fatal AssertArenaCapacity).
Proof.
  intros Hnew. pose proof H_range as HH. destruct He as [Hk Hv]. fold k in Hk. fold v in Hv.
  pose proof (randomHeight_range rnd) as Hhx. fold hx in Hhx.
  pose proof (wf_arena_ok s a l Hwf) as Ha.
  rewrite Add_start.
  destruct (Add_descend_splices s a l lo hi k Hs Hwf Hsplit v fuel Hnew Hfuel
              (Z.to_nat H) prev0 next0) as (prev & next & -> & Hlp & Hln & Hlow & Hhigh).
  { fold H. lia. }
  { apply prev0_length. }
  { reflexivity. }
  { apply prev0_top. }
  cbn [mbind outcome_bind]. rewrite (the_arena_some s a Hs). cbn [mbind outcome_bind].
  destruct (Z.le_gt_cases (n a + (23 + 4 * hx) + len k + EncodedSize v) (len (buf a)))
    as [Hfit|Hfull].
  2:{ right. split; [lia|]. rewrite newNode_full by (assumption || lia). reflexivity. }
  left. split; [assumption|].
  rewrite newNode_result by assumption. cbn [mbind outcome_bind].
  unfold getHeight. cbn [with_arena sl_height].
  change (sl_height s) with (sl_height (with_arena s (arena_with_node a k v hx))) at 1.
  rewrite Add_raise_run by (assumption || lia). cbn [mbind outcome_bind].
  cbn [with_arena sl_height]. fold H.
  assert (Hsp : splices a head lo hi H prev next).
  { split; [assumption|]. split; [assumption|]. intros j Hj.
    destruct (Z.lt_ge_cases H (Z.of_nat j)) as [Hgt|Hle].
    - left. split; [assumption|]. destruct (Hhigh j ltac:(lia)) as [-> _].
      unfold prev0. rewrite list_lookup_insert_ne by lia.
      apply lookup_replicate_2. unfold maxHeight. lia.
    - right. destruct (Z.eq_dec (Z.of_nat j) H) as [Ej|Ej].
      + destruct (Hhigh j ltac:(lia)) as [-> ->]. rewrite Ej.
        rewrite above_top_lo, above_top_hi. split.
        * unfold prev0. replace (Z.to_nat H) with j by lia.
          apply list_lookup_insert_eq. rewrite length_replicate. unfold maxHeight. lia.
        * apply lookup_replicate_2. unfold maxHeight. lia.
      + apply Hlow. lia. }
  set (s2 := if hx >? H
             then with_height (with_arena s (arena_with_node a k v hx)) hx
             else with_arena s (arena_with_node a k v hx)).
  assert (Hs2 : arena s2 = Some (arena_with_node a k v hx) ∧ headOffset s2 = head ∧
                sl_height s2 = Z.max H hx).
  { unfold s2. destruct (Z.gtb_spec hx H); cbn; repeat split; lia. }
  destruct Hs2 as (Hs2a & Hs2h & Hs2m).
  destruct (Add_publish_run s a l lo hi k v hx Hwf Hsplit Hhx Hk Hv Hfit fuel
              ltac:(lia) (Z.to_nat hx) 0 (arena_with_node a k v hx) s2 prev next)
    as (af & E & Hpub).
  { apply (published_none s a l lo hi k v hx Hwf Hsplit Hhx Hv Hfit). }
  { lia. }
  { lia. }
  { exact Hs2a. }
  { exact Hs2h. }
  { exact Hsp. }
  exists af.
  assert (Esf : with_arena s2 af =
                with_arena (if hx >? H then with_height s hx else s) af).
  { unfold s2. destruct (hx >? H); reflexivity. }
  rewrite <- Esf. split; [exact E|]. split.
  - apply (published_wf s a l lo hi k v hx Hwf Hsplit Hhx Hk Hv Hfit Hnew af).
    + exact Hpub.
    + exact Hs2h.
    + exact Hs2m.
  - destruct Hpub as (Hsame & _). exact Hsame.
Qed.
End add.

(** * [NewSkiplist] *)

Lemma cell_ok_zero : cell_ok ValueStruct_zero.
Proof. split; cbn; [lia|reflexivity]. Qed.

Lemma NewSkiplist_cases (sz : Z) :
  0 <= sz <= 2 ^ 31 →
  (106 <= sz ∧
   ∃ s a, NewSkiplist sz = Ret s ∧ arena s = Some a ∧ wf_at s a [] ∧
          sl_height s = 1 ∧ ref s = 1 ∧ headOffset s = 8 ∧ OnClose s = None) ∨
  (sz < 106 ∧ NewSkiplist sz = Fatal AssertArenaCapacity).
Proof.
  intros Hsz. unfold NewSkiplist, newArena.
  destruct (Z.ltb_spec sz 0); [lia|]. cbn [mbind outcome_bind].
  destruct (Z.eq_dec sz 0) as [->|Hne]; [right; split; [lia|reflexivity]|].
  set (a0 := {| n := 1; shouldGrow := false; buf := replicate (Z.to_nat sz) x00;
                nodes := ∅ |}).
  assert (Hlen : len (buf a0) = sz).
  { unfold a0, len. cbn [buf]. rewrite length_replicate. lia. }
  assert (Ha0 : arena_ok a0).
  { split.
    - reflexivity.
    - rewrite Hlen. change (n a0) with 1. lia.
    - rewrite Hlen. lia.
    - intros p nd Hp. change (nodes a0) with (∅ : gmap Z node) in Hp.
      rewrite lookup_empty in Hp. discriminate. }
  assert (Hh : 1 <= maxHeight <= maxHeight) by (unfold maxHeight; lia).
  assert (Hk : len (@nil byte) < 2 ^ 16) by reflexivity.
  assert (Esz : n a0 + (23 + 4 * maxHeight) + len (@nil byte) + EncodedSize ValueStruct_zero
                = 106) by reflexivity.
  destruct (Z.le_gt_cases 106 sz) as [Hfit|Hfull].
  - left. split; [assumption|].
    assert (Hfit' : n a0 + (23 + 4 * maxHeight) + len (@nil byte) +
                    EncodedSize ValueStruct_zero <= len (buf a0)) by (rewrite Esz, Hlen; lia).
    rewrite (newNode_result a0 [] ValueStruct_zero maxHeight Ha0 Hh Hk cell_ok_zero Hfit').
    cbn [mbind outcome_bind getNodeOffset].
    change (aligned (n a0)) with 8. change (wrap32 8) with 8.
    eexists _, _. split; [reflexivity|]. cbn [arena sl_height ref headOffset OnClose].
    split; [reflexivity|]. split; [|auto].
    split; cbn [sl_height headOffset].
    + now apply new_node_ok.
    + unfold maxHeight. lia.
    + apply (new_node_hgt a0 [] ValueStruct_zero maxHeight Ha0 Hh cell_ok_zero Hfit').
    + intros Hin. apply elem_of_nil in Hin. contradiction.
    + constructor.
    + constructor.
    + intros L HL. cbn [above filter chain]. unfold above. rewrite filter_nil. cbn [chain].
      apply (new_node_link a0 [] ValueStruct_zero maxHeight Ha0 Hh cell_ok_zero Hfit' L HL).
  - right. split; [lia|].
    rewrite newNode_full; [reflexivity|assumption|assumption|assumption|apply cell_ok_zero|].
    rewrite Esz, Hlen. lia.
Qed.

(** * One [Add], and a sequence of them *)

Lemma Add_total (s : Skiplist) (a : Arena) (l : list Z) (e : Entry) (rnd : nat → Z)
    (fuel : nat) :
  arena s = Some a → wf_at s a l → entry_ok e → (length l < fuel)%nat →
  Add fuel rnd s e = Fatal AssertArenaCapacity ∨
  ∃ s' a' l', Add fuel rnd s e = Ret s' ∧ arena s' = Some a' ∧ wf_at s' a' l' ∧
              (length l' <= S (length l))%nat ∧
              headOffset s' = headOffset s ∧ ref s' = ref s ∧ OnClose s' = OnClose s.
Proof.
  intros Hs Hwf He Hfuel.
  destruct (key_split a l (Key e) (wf_sorted s a l Hwf)) as (lo & hi & Hsplit).
  destruct (split_cases s a l lo hi (Key e) Hwf Hsplit) as [(z & hi' & Ehi & Hz)|Hnew].
  - rewrite (Add_update s a l lo hi e rnd fuel Hs Hwf Hsplit Hfuel z hi' Ehi Hz).
    assert (Hzl : z ∈ l) by (apply (hi_elem a l lo hi (Key e) Hsplit); rewrite Ehi; left).
    destruct He as [_ Hv].
    destruct (overwrite_cases s a l (ValueStruct_of_Entry e) z Hs Hwf Hzl Hv)
      as [(_ & -> & Hwf')|(_ & ->)]; [right|now left].
    eexists _, _, l. split; [reflexivity|]. split; [reflexivity|]. split; [exact Hwf'|].
    split; [lia|]. auto.
  - destruct (Add_insert s a l lo hi e rnd fuel Hs Hwf He Hsplit Hfuel Hnew)
      as [(_ & af & -> & Hwf' & _)|(_ & ->)]; [right|now left].
    eexists _, af, _. split; [reflexivity|]. split; [reflexivity|]. split; [exact Hwf'|].
    split.
    + destruct Hsplit as (-> & _). rewrite !length_app. cbn [length]. lia.
    + destruct (randomHeight rnd >? sl_height s); auto.
Qed.

Lemma AddAll_total (fuel : nat) (es : list (Entry * (nat → Z))) :
  ∀ (s : Skiplist) (a : Arena) (l : list Z),
    arena s = Some a → wf_at s a l → Forall (λ er, entry_ok er.1) es →
    (length l + length es < fuel)%nat →
    AddAll fuel s es = Fatal AssertArenaCapacity ∨
    ∃ s' a' l', AddAll fuel s es = Ret s' ∧ arena s' = Some a' ∧ wf_at s' a' l' ∧
                (length l' <= length l + length es)%nat ∧
                headOffset s' = headOffset s ∧ ref s' = ref s ∧ OnClose s' = OnClose s.
Proof.
  induction es as [|[e rnd] es IH]; intros s a l Hs Hwf Hes Hfuel.
  - right. exists s, a, l. cbn [AddAll length].
    split; [reflexivity|]. split; [assumption|]. split; [assumption|].
    split; [lia|]. auto.
  - apply Forall_cons in Hes as [He Hes]. cbn [fst] in He. cbn [length] in Hfuel.
    cbn [AddAll].
    destruct (Add_total s a l e rnd fuel Hs Hwf He ltac:(lia))
      as [->|(s1 & a1 & l1 & -> & Hs1 & Hwf1 & Hl1 & Hhd1 & Hr1 & Hc1)]; [now left|].
    cbn [mbind outcome_bind].
    destruct (IH s1 a1 l1 Hs1 Hwf1 Hes ltac:(lia))
      as [->|(s2 & a2 & l2 & -> & Hs2 & Hwf2 & Hl2 & Hhd2 & Hr2 & Hc2)]; [now left|].
    right. exists s2, a2, l2.
    split; [reflexivity|]. split; [assumption|]. split; [assumption|].
    split; [cbn [length]; lia|]. repeat split; congruence.
Qed.

(** * Scanning a level *)

Lemma scan_from_chain (s : Skiplist) (a : Arena) (l : list Z) (L : Z) :
  arena s = Some a → wf_at s a l → 0 <= L < maxHeight →
  ∀ (ys : list Z) (x : Z) (fuel : nat),
    chain a L x ys → L < hgt a x → Forall (λ p, L < hgt a p) ys →
    (length ys < fuel)%nat →
    scan_from fuel s (Some x) L = Ret ys.
Proof.
  intros Hs Hwf HL. induction ys as [|y ys IH]; intros x fuel Hc Hx Hys Hfuel;
    (destruct fuel as [|fuel]; [cbn [length] in Hfuel; lia|]); cbn [scan_from];
    unfold getNext; rewrite (the_arena_some s a Hs); cbn [mbind outcome_bind];
    rewrite (getNextOffset_link a x L _ (chain_head a L x _ Hc))
      by (lia || apply (wf_hgt_max s a l Hwf));
    cbn [mbind outcome_bind first_or_null hd].
  - rewrite getNode_null. reflexivity.
  - apply Forall_cons in Hys as [Hy Hys]. destruct Hc as (_ & _ & Hc).
    rewrite (wf_getNode s a l Hwf y) by lia. cbn [mbind outcome_bind].
    rewrite (IH y fuel Hc Hy Hys) by (cbn [length] in Hfuel; lia). reflexivity.
Qed.

Lemma scan_level (s : Skiplist) (a : Arena) (l : list Z) (L : Z) (fuel : nat) :
  arena s = Some a → wf_at s a l → 0 <= L < maxHeight → (length l < fuel)%nat →
  scan fuel s L = Ret (above a L l).
Proof.
  intros Hs Hwf HL Hfuel. unfold scan. rewrite (getHead_ok s a l Hs Hwf).
  cbn [mbind outcome_bind].
  apply (scan_from_chain s a l L Hs Hwf HL).
  - now apply (wf_chains s a l Hwf).
  - rewrite (wf_head s a l Hwf). lia.
  - rewrite Forall_forall. intros p Hp. apply above_elem in Hp. tauto.
  - pose proof (length_filter (λ p, L < hgt a p) l) as Hlen. unfold above. lia.
Qed.

Lemma above_sorted (a : Arena) (L : Z) (l : list Z) :
  StronglySorted (key_lt a) l → StronglySorted (key_lt a) (above a L l).
Proof.
  induction 1 as [|p l Hs IH Hp]; [constructor|].
  destruct (Z.lt_ge_cases L (hgt a p)).
  - rewrite above_cons_in by assumption. constructor; [assumption|].
    rewrite Forall_forall in *. intros q Hq. apply above_elem in Hq. apply Hp. tauto.
  - rewrite above_cons_out by lia. assumption.
Qed.

(** Every link of a reachable node leads to a greater key or is null. *)
Lemma wf_link_order (s : Skiplist) (a : Arena) (l : list Z) (p L : Z) :
  wf_at s a l → p ∈ l → 0 <= L < hgt a p →
  ∃ q, getNextOffset a (Some p) L = Ret q ∧ (q = 0 ∨ (q ∈ l ∧ key_lt a p q)).
Proof.
  intros Hwf Hp HL.
  destruct (list_elem_of_split l p Hp) as (B0 & A & El).
  pose proof (wf_hgt_max s a l Hwf p) as Hmax.
  assert (Hc : chain a L p (above a L A)).
  { replace p with (last_from (headOffset s) (B0 ++ [p])) by apply last_from_snoc.
    apply (wf_chain_from s a l Hwf).
    - rewrite El. now rewrite <- app_assoc.
    - lia.
    - right. rewrite last_from_snoc. lia. }
  exists (first_or_null (above a L A)).
  split; [apply (wf_getNextOffset s a l Hwf p L _ Hc); lia|].
  destruct (above a L A) as [|q r] eqn:E; [now left|right]. cbn [first_or_null hd].
  assert (Hq : q ∈ A) by (apply (above_elem a L); rewrite E; left).
  split; [rewrite El, elem_of_app, elem_of_cons; auto|].
  pose proof (wf_sorted s a l Hwf) as Hsorted. rewrite El in Hsorted.
  apply StronglySorted_app_1_r in Hsorted. apply StronglySorted_inv in Hsorted as [_ Hall].
  rewrite Forall_forall in Hall. now apply Hall.
Qed.

(** * The packed value word and [Search] *)

Lemma decode_encode (off sz : Z) :
  0 <= off < 2 ^ 32 → 0 <= sz < 2 ^ 32 → decodeValue (encodeValue off sz) = (off, sz).
Proof.
  intros Hoff Hsz. unfold decodeValue, encodeValue.
  rewrite lor_shiftl_add by lia.
  rewrite Z.shiftr_div_pow2 by lia. unfold wrap32.
  rewrite (Z.add_comm (sz * 2 ^ 32) off).
  rewrite Z.mod_add, Z.div_add by lia.
  rewrite (Z.mod_small off), (Z.div_small off) by lia.
  f_equal. rewrite Z.mod_small by lia. lia.
Qed.

Lemma getVs_stored (a : Arena) (p : Z) (nd : node) :
  arena_ok a → nodes a !! p = Some nd →
  ∃ vo v, cell_ok v ∧
          getValueOffset a (Some p) = Ret (vo, EncodedSize v) ∧
          getVal a vo (EncodedSize v) =
          Ret {| Meta := Meta v; Value := Value v; ExpiresAt := ExpiresAt v; Version := 0 |}.
Proof.
  intros Ha Hp. destruct (ak_nodes a Ha p nd Hp) as [_ _ _ _ (vo & v & Hw & Hvo & Hend & Hv & Hb)].
  pose proof (ak_cursor a Ha). pose proof (ak_cap a Ha).
  destruct (cell_ok_size v Hv) as [Hsz Hrange].
  assert (2 ^ 31 < 2 ^ 32) by reflexivity.
  exists vo, v. split; [assumption|]. split.
  - unfold getValueOffset. rewrite (load_some a p nd Hp). cbn [mbind outcome_bind].
    rewrite Hw, decode_encode by lia. reflexivity.
  - unfold getVal. rewrite wrap32_small by lia. rewrite slice_bytes_at by lia.
    cbn [mbind outcome_bind]. replace (vo + EncodedSize v - vo) with (EncodedSize v) by lia.
    rewrite Hb. unfold encoded. apply DecodeValue_spec. apply Hv.
Qed.

Lemma getVs_split (a : Arena) (nd : option Z) (vo sz : Z) :
  getValueOffset a nd = Ret (vo, sz) → getVs a nd = getVal a vo sz.
Proof. intros H. unfold getVs. now rewrite H. Qed.

Lemma Search_spec (s : Skiplist) (a : Arena) (l : list Z) (k : list byte) (fuel : nat) :
  arena s = Some a → wf_at s a l → (length l + 20 < fuel)%nat →
  ∃ r b, findNear fuel s k false true = Ret (r, b) ∧
         match r with
         | Some p =>
             p ∈ l ∧
             ∃ cell, getVs a (Some p) = Ret cell ∧
                     Search fuel s k =
                     Ret (if SameKey k (skey a p)
                          then with_ExpiresAt cell (ParseTs (skey a p))
                          else ValueStruct_zero)
         | None => Search fuel s k = Ret ValueStruct_zero
         end.
Proof.
  intros Hs Hwf Hfuel. pose proof (wf_arena_ok s a l Hwf) as Ha.
  destruct (key_split a l k (wf_sorted s a l Hwf)) as (lo & hi & Hsplit).
  pose proof (findNear_near_of s a l lo hi k false true fuel Hs Hwf Hsplit Hfuel) as Hnear.
  destruct (near_of a k lo hi false true) as [r b] eqn:Er.
  exists r, b. split; [exact Hnear|].
  destruct (near_of_meaning s a l lo hi k Hwf Hsplit false true r b Er) as [Hr _].
  unfold Search. rewrite Hnear. cbn [mbind outcome_bind].
  destruct r as [p|]; [|reflexivity].
  destruct Hr as (Hp & _). split; [assumption|].
  destruct (wf_elem s a l Hwf p Hp) as (Hh & _).
  destruct (hgt_pos_node a p ltac:(lia)) as (nd & Hnd & _).
  destruct (getVs_stored a p nd Ha Hnd) as (vo & v & Hv & Hoff & Hval).
  eexists. split; [rewrite (getVs_split a (Some p) _ _ Hoff); exact Hval|].
  rewrite (the_arena_some s a Hs). cbn [mbind outcome_bind].
  rewrite (load_some a p nd Hnd). cbn [mbind outcome_bind].
  pose proof (key_some a p nd Ha Hnd) as Hkey. unfold key in Hkey.
  rewrite (load_some a p nd Hnd) in Hkey. cbn [mbind outcome_bind] in Hkey.
  rewrite Hkey. cbn [mbind outcome_bind].
  rewrite <- (skey_some a p nd Ha Hnd).
  destruct (SameKey k (skey a p)); cbn [negb]; [|reflexivity].
  rewrite Hoff. cbn [mbind outcome_bind]. rewrite Hval. reflexivity.
Qed.

(** * Reference counting *)

Lemma DecrRef_positive (s : Skiplist) :
  1 < ref s < 2 ^ 31 →
  DecrRef s = (with_ref s (ref s - 1), []).
Proof.
  intros H. unfold DecrRef. rewrite wrapi32_small by lia.
  cbn [with_ref ref]. destruct (Z.gtb_spec (ref s - 1) 0); [reflexivity|lia].
Qed.

Lemma DecrRef_released (s : Skiplist) :
  - 2 ^ 31 < ref s <= 1 →
  DecrRef s =
  ({| sl_height := sl_height s; headOffset := headOffset s; ref := ref s - 1;
      arena := None; OnClose := OnClose s |},
   match OnClose s with
   | Some hook => [OnCloseCalled hook]
   | None => []
   end ++ [ArenaReleased]).
Proof.
  intros H. unfold DecrRef. rewrite wrapi32_small by lia.
  cbn [with_ref ref sl_height headOffset OnClose].
  destruct (Z.gtb_spec (ref s - 1) 0); [lia|]. reflexivity.
Qed.

Lemma DecrRef_last (s : Skiplist) :
  ref s = 1 →
  DecrRef s =
  ({| sl_height := sl_height s; headOffset := headOffset s; ref := 0; arena := None;
      OnClose := OnClose s |},
   match OnClose s with
   | Some hook => [OnCloseCalled hook]
   | None => []
   end ++ [ArenaReleased]).
Proof.
  intros H. unfold DecrRef. rewrite H. reflexivity.
Qed.

(** * The height field along [Add], on any state *)

Lemma bind_ret_inv {A B : Type} (m : outcome A) (f : A → outcome B) (y : B) :
  m ≫= f = Ret y → ∃ x, m = Ret x ∧ f x = Ret y.
Proof. destruct m as [x| |]; cbn; [eauto|discriminate..]. Qed.

Lemma same_frame_refl (s : Skiplist) : same_frame s s.
Proof. split; reflexivity. Qed.

Lemma same_frame_trans (s1 s2 s3 : Skiplist) :
  same_frame s1 s2 → same_frame s2 s3 → same_frame s1 s3.
Proof. intros [H1 H2] [H3 H4]. split; congruence. Qed.

Lemma same_frame_with_arena (s : Skiplist) (a : Arena) : same_frame s (with_arena s a).
Proof. split; reflexivity. Qed.

Lemma overwrite_frame (s s' : Skiplist) (v : ValueStruct) (p : Z) :
  overwrite s v p = Ret s' → same_frame s s'.
Proof.
  unfold overwrite. intros H.
  apply bind_ret_inv in H as (a & _ & H).
  apply bind_ret_inv in H as ([a1 vo] & _ & H).
  apply bind_ret_inv in H as (nd & _ & H).
  apply bind_ret_inv in H as (a2 & _ & H).
  injection H as <-. apply same_frame_with_arena.
Qed.

Lemma Add_descend_frame (fuel : nat) (s : Skiplist) (k : list byte) (v : ValueStruct)
    (cnt : nat) :
  ∀ prev next r, Add_descend fuel s k v cnt prev next = Ret r → exit_frame s r.
Proof.
  induction cnt as [|cnt IH]; intros prev next r H; cbn [Add_descend] in H.
  - injection H as <-. apply same_frame_refl.
  - apply bind_ret_inv in H as (before & _ & H).
    apply bind_ret_inv in H as ([p nx] & _ & H).
    apply bind_ret_inv in H as (prev' & _ & H).
    apply bind_ret_inv in H as (next' & _ & H).
    destruct (p =? nx).
    + apply bind_ret_inv in H as (s' & Hs' & H). injection H as <-.
      exact (overwrite_frame _ _ _ _ Hs').
    + exact (IH _ _ _ H).
Qed.

Lemma Add_descend_continue (fuel : nat) (s : Skiplist) (k : list byte) (v : ValueStruct)
    (cnt : nat) :
  ∀ prev next s' prev' next',
    Add_descend fuel s k v cnt prev next = Ret (Continue s' prev' next') → s' = s.
Proof.
  induction cnt as [|cnt IH]; intros prev next s' prev' next' H; cbn [Add_descend] in H.
  - now injection H as <- _ _.
  - apply bind_ret_inv in H as (before & _ & H).
    apply bind_ret_inv in H as ([p nx] & _ & H).
    apply bind_ret_inv in H as (prev1 & _ & H).
    apply bind_ret_inv in H as (next1 & _ & H).
    destruct (p =? nx).
    + apply bind_ret_inv in H as (s1 & _ & H). discriminate.
    + exact (IH _ _ _ _ _ H).
Qed.

Lemma Add_raise_result (fuel : nat) (s s' : Skiplist) (h : Z) :
  Add_raise fuel s h (sl_height s) = Ret s' →
  s' = if h >? sl_height s then with_height s (wrapi32 h) else s.
Proof.
  destruct fuel as [|fuel]; cbn [Add_raise]; destruct (h >? sl_height s); intros H;
    try discriminate; try (now injection H).
  unfold casHeight in H. rewrite Z.eqb_refl in H. now injection H.
Qed.

Lemma Add_publish_level_frame (fuel : nat) (k : list byte) (v : ValueStruct)
    (x : option Z) (i : Z) :
  ∀ s prev next r, Add_publish_level fuel s k v x i prev next = Ret r → exit_frame s r.
Proof.
  induction fuel as [|fuel IH]; intros s prev next r H; cbn [Add_publish_level] in H;
    [discriminate|].
  apply bind_ret_inv in H as (a & _ & H).
  apply bind_ret_inv in H as (pi & _ & H).
  apply bind_ret_inv in H as (pn & _ & H).
  apply bind_ret_inv in H as ([prev1 next1] & _ & H).
  apply bind_ret_inv in H as (ni & _ & H).
  apply bind_ret_inv in H as (a1 & _ & H).
  apply bind_ret_inv in H as (pi1 & _ & H).
  apply bind_ret_inv in H as (pnode & _ & H).
  apply bind_ret_inv in H as ([a2 swapped] & _ & H).
  destruct swapped.
  - injection H as <-. apply same_frame_with_arena.
  - apply bind_ret_inv in H as ([p nx] & _ & H).
    apply bind_ret_inv in H as (prev2 & _ & H).
    apply bind_ret_inv in H as (next2 & _ & H).
    destruct (p =? nx).
    + apply bind_ret_inv in H as (u & _ & H).
      apply bind_ret_inv in H as (s1 & Hs1 & H). injection H as <-.
      apply overwrite_frame in Hs1. destruct Hs1 as [E1 E2]. split; assumption.
    + apply IH in H. destruct r as [s1 ? ?|s1]; destruct H as [E1 E2]; split; assumption.
Qed.

Lemma Add_publish_frame (fuel : nat) (k : list byte) (v : ValueStruct) (x : option Z)
    (cnt : nat) :
  ∀ s i prev next s', Add_publish fuel s k v x cnt i prev next = Ret s' → same_frame s s'.
Proof.
  induction cnt as [|cnt IH]; intros s i prev next s' H; cbn [Add_publish] in H.
  - injection H as <-. apply same_frame_refl.
  - apply bind_ret_inv in H as (r & Hr & H).
    apply Add_publish_level_frame in Hr.
    destruct r as [s1 prev1 next1|s1]; cbn [exit_frame] in Hr.
    + apply IH in H. exact (same_frame_trans _ _ _ Hr H).
    + injection H as <-. assumption.
Qed.

Lemma wrapi32_height (h : Z) : 1 <= h <= maxHeight → wrapi32 h = h.
Proof.
  unfold maxHeight. intros H. apply wrapi32_small.
  assert (2 ^ 31 = 2147483648) by reflexivity. lia.
Qed.

(** What [Add] does to the height field and to the head offset. *)
Lemma Add_frame (fuel : nat) (rnd : nat → Z) (s s' : Skiplist) (e : Entry) :
  Add fuel rnd s e = Ret s' →
  headOffset s' = headOffset s ∧
  (sl_height s' = sl_height s ∨
   (sl_height s < sl_height s' ∧ sl_height s' = randomHeight rnd)).
Proof.
  unfold Add. intros H.
  apply bind_ret_inv in H as (prev & _ & H).
  apply bind_ret_inv in H as (r & Hr & H).
  destruct r as [s1 prev1 next1|s1].
  - apply Add_descend_continue in Hr. subst s1.
    apply bind_ret_inv in H as (a & _ & H).
    apply bind_ret_inv in H as ([a1 x] & _ & H).
    apply bind_ret_inv in H as (s2 & Hs2 & H).
    unfold getHeight in Hs2.
    apply (Add_raise_result fuel (with_arena s a1)) in Hs2.
    apply Add_publish_frame in H. destruct H as [E1 E2].
    pose proof (randomHeight_range rnd) as Hh.
    rewrite (wrapi32_height _ Hh) in Hs2. cbn [with_arena sl_height] in Hs2.
    destruct (Z.gtb_spec (randomHeight rnd) (sl_height s)) as [Hgt|Hle]; subst s2;
      cbn [with_height with_arena sl_height headOffset] in E1, E2.
    + split; [assumption|]. right. lia.
    + split; [assumption|]. left. assumption.
  - injection H as <-. apply Add_descend_frame in Hr. destruct Hr as [E1 E2].
    split; [assumption|]. left. assumption.
Qed.

Lemma AddAll_frame (fuel : nat) (es : list (Entry * (nat → Z))) :
  ∀ s s', 1 <= sl_height s <= maxHeight → AddAll fuel s es = Ret s' →
          headOffset s' = headOffset s ∧ sl_height s <= sl_height s' <= maxHeight.
Proof.
  induction es as [|[e rnd] es IH]; intros s s' Hs H; cbn [AddAll] in H.
  - injection H as <-. split; [reflexivity|lia].
  - apply bind_ret_inv in H as (s1 & Hs1 & H).
    apply Add_frame in Hs1. destruct Hs1 as [E1 E2].
    pose proof (randomHeight_range rnd) as Hh.
    apply IH in H; [|lia]. destruct H as [E3 E4].
    split; [congruence|lia].
Qed.

Lemma NewSkiplist_frame (sz : Z) (s : Skiplist) :
  NewSkiplist sz = Ret s → sl_height s = 1 ∧ ref s = 1 ∧ OnClose s = None.
Proof.
  unfold NewSkiplist. intros H.
  apply bind_ret_inv in H as (a & _ & H).
  apply bind_ret_inv in H as ([a1 hd] & _ & H).
  injection H as <-. repeat split.
Qed.

(** * The assertion [i > 1] of the publishing loop *)

Lemma quiet_with_bind {A B : Type} (Q : A → Prop) (P : B → Prop)
    (m : outcome A) (f : A → outcome B) :
  quiet_with Q m → (∀ x, Q x → quiet_with P (f x)) → quiet_with P (m ≫= f).
Proof. destruct m as [x| |]; cbn; eauto. Qed.

Lemma quiet_with_mono {A : Type} (P Q : A → Prop) (o : outcome A) :
  quiet_with P o → (∀ x, P x → Q x) → quiet_with Q o.
Proof. destruct o as [x| |]; cbn; eauto. Qed.

Lemma quiet_with_ret {A : Type} (P Q : A → Prop) (o : outcome A) :
  quiet_with P o → (∀ x, o = Ret x → Q x) → quiet_with Q o.
Proof. destruct o as [x| |]; cbn; eauto. Qed.

Lemma quiet_with_elim {A : Type} (P : A → Prop) (o : outcome A) :
  quiet_with P o → o ≠ Fatal AssertLevelAboveOne.
Proof. destruct o as [x|f|]; cbn; congruence. Qed.

Create HintDb quiet.

(** Outcomes built from binds, conditionals and primitives already known
    to be quiet. *)
Ltac quiet_auto :=
  repeat first
    [ solve [eauto 2 with quiet]
    | match goal with
      | |- quiet_with _ (Ret _) => exact I
      | |- quiet_with _ (Fatal _) => cbn; discriminate
      | |- quiet_with _ OutOfFuel => exact I
      | |- quiet_with _ (_ ≫= _) =>
          apply (quiet_with_bind (λ _, True)); [|intros ? _]
      | |- quiet_with _ (if ?b then _ else _) => destruct b
      | |- quiet_with _ (match ?x with _ => _ end) => destruct x
      end ].

Lemma quiet_weaken {A : Type} (P : A → Prop) (o : outcome A) :
  quiet_with P o → quiet_with (λ _, True) o.
Proof. intros H. apply (quiet_with_mono P); auto. Qed.

Lemma quiet_AssertTrue (b : bool) (site : failure) :
  site ≠ AssertLevelAboveOne → quiet_with (λ _, True) (AssertTrue b site).
Proof. intros H. destruct b; cbn; auto. Qed.

Lemma quiet_arr_get (arr : list Z) (i : Z) :
  quiet_with (λ x, x = default 0 (arr !! Z.to_nat i)) (arr_get arr i).
Proof. unfold arr_get. destruct (_ && _); cbn; [reflexivity|discriminate]. Qed.

Lemma quiet_arr_set (arr : list Z) (i v : Z) :
  quiet_with (λ arr', 0 <= i < len arr ∧ arr' = <[Z.to_nat i := v]> arr) (arr_set arr i v).
Proof.
  unfold arr_set. destruct (Z.leb_spec 0 i); destruct (Z.ltb_spec i (len arr)); cbn;
    try discriminate. split; [lia|reflexivity].
Qed.

Lemma quiet_slice (s : list byte) (lo hi : Z) : quiet_with (λ _, True) (slice s lo hi).
Proof. unfold slice. quiet_auto. Qed.

Lemma quiet_store_byte (b : list byte) (i : Z) (x : byte) :
  quiet_with (λ _, True) (store_byte b i x).
Proof. unfold store_byte. quiet_auto. Qed.

#[local] Hint Resolve quiet_slice quiet_store_byte : quiet.
#[local] Hint Extern 1 (quiet_with _ (AssertTrue _ _)) =>
  apply quiet_AssertTrue; discriminate : quiet.
#[local] Hint Extern 1 (quiet_with (λ _, True) (arr_get _ _)) =>
  apply (quiet_weaken _ _ (quiet_arr_get _ _)) : quiet.
#[local] Hint Extern 1 (quiet_with (λ _, True) (arr_set _ _ _)) =>
  apply (quiet_weaken _ _ (quiet_arr_set _ _ _)) : quiet.

Lemma quiet_slice_from (s : list byte) (lo : Z) : quiet_with (λ _, True) (slice_from s lo).
Proof. unfold slice_from. quiet_auto. Qed.

#[local] Hint Resolve quiet_slice_from : quiet.

Lemma quiet_PutUvarint_loop (budget : nat) :
  ∀ b x i, quiet_with (λ _, True) (PutUvarint_loop budget b x i).
Proof.
  induction budget as [|budget IH]; intros b x i; cbn [PutUvarint_loop]; quiet_auto.
Qed.

#[local] Hint Resolve quiet_PutUvarint_loop : quiet.

Lemma quiet_EncodeValue (v : ValueStruct) (b : list byte) :
  quiet_with (λ _, True) (EncodeValue v b).
Proof. unfold EncodeValue, PutUvarint. quiet_auto. Qed.

Lemma quiet_allocate (a : Arena) (sz : Z) : quiet_with (λ _, True) (allocate a sz).
Proof. unfold allocate. cbn [shouldGrow buf]. quiet_auto. Qed.

#[local] Hint Resolve quiet_EncodeValue quiet_allocate : quiet.

Lemma quiet_putKey (a : Arena) (k : list byte) : quiet_with (λ _, True) (putKey a k).
Proof. unfold putKey. quiet_auto. Qed.

Lemma quiet_putVal (a : Arena) (v : ValueStruct) : quiet_with (λ _, True) (putVal a v).
Proof. unfold putVal. quiet_auto. Qed.

Lemma quiet_putNode (a : Arena) (h : Z) : quiet_with (λ _, True) (putNode a h).
Proof. unfold putNode. quiet_auto. Qed.

(** [getNode] returns [nil] for the null offset only. *)
Lemma quiet_getNode (a : Arena) (off : Z) :
  quiet_with (λ r, match r with None => off = 0 | Some _ => off ≠ 0 end) (getNode a off).
Proof.
  unfold getNode. destruct (Z.eqb_spec off 0) as [E|E]; [exact E|].
  destruct (_ && _); cbn; [exact E|discriminate].
Qed.

(** A node that could be read is not [nil]. *)
Lemma quiet_load (a : Arena) (nd : option Z) : quiet_with (λ _, nd ≠ None) (load a nd).
Proof.
  unfold load. destruct nd as [p|]; [|cbn; discriminate].
  destruct (nodes a !! p); cbn; discriminate.
Qed.

Lemma quiet_the_arena (s : Skiplist) : quiet_with (λ _, True) (the_arena s).
Proof. unfold the_arena. quiet_auto. Qed.

#[local] Hint Resolve quiet_putKey quiet_putVal quiet_putNode quiet_the_arena : quiet.
#[local] Hint Extern 1 (quiet_with (λ _, True) (getNode _ _)) =>
  apply (quiet_weaken _ _ (quiet_getNode _ _)) : quiet.
#[local] Hint Extern 1 (quiet_with (λ _, True) (load _ _)) =>
  apply (quiet_weaken _ _ (quiet_load _ _)) : quiet.

Lemma quiet_getKey (a : Arena) (off sz : Z) : quiet_with (λ _, True) (getKey a off sz).
Proof. unfold getKey. quiet_auto. Qed.

#[local] Hint Resolve quiet_getKey : quiet.

Lemma quiet_key (a : Arena) (nd : option Z) : quiet_with (λ _, True) (key a nd).
Proof. unfold key. quiet_auto. Qed.

Lemma quiet_setValue (a : Arena) (nd : option Z) (vo : Z) :
  quiet_with (λ _, True) (setValue a nd vo).
Proof. unfold setValue. quiet_auto. Qed.

Lemma quiet_getNextOffset (a : Arena) (nd : option Z) (h : Z) :
  quiet_with (λ _, nd ≠ None) (getNextOffset a nd h).
Proof.
  unfold getNextOffset. apply (quiet_with_bind (λ _, nd ≠ None)); [apply quiet_load|].
  intros x Hx. destruct (negb _); [cbn; discriminate|].
  destruct (h <? height x); [|cbn; discriminate].
  apply (quiet_with_mono _ _ _ (quiet_arr_get _ _)). auto.
Qed.

Lemma quiet_setTower (a : Arena) (nd : option Z) (h val : Z) :
  quiet_with (λ _, True) (setTower a nd h val).
Proof. unfold setTower. quiet_auto. Qed.

#[local] Hint Resolve quiet_key quiet_setValue quiet_setTower : quiet.
#[local] Hint Extern 1 (quiet_with (λ _, True) (getNextOffset _ _ _)) =>
  apply (quiet_weaken _ _ (quiet_getNextOffset _ _ _)) : quiet.

Lemma quiet_casNextOffset (a : Arena) (nd : option Z) (h old val : Z) :
  quiet_with (λ _, True) (casNextOffset a nd h old val).
Proof. unfold casNextOffset. quiet_auto. Qed.

Lemma quiet_newNode (a : Arena) (k : list byte) (v : ValueStruct) (h : Z) :
  quiet_with (λ _, True) (newNode a k v h).
Proof. unfold newNode. quiet_auto. Qed.

Lemma quiet_overwrite (s : Skiplist) (v : ValueStruct) (p : Z) :
  quiet_with (λ _, True) (overwrite s v p).
Proof. unfold overwrite. quiet_auto. Qed.

#[local] Hint Resolve quiet_casNextOffset quiet_newNode quiet_overwrite : quiet.

(** The first offset [findSpliceForLevel] returns is never null: it is
    [before], which was dereferenced, or an offset at which [getNode]
    found a node. *)
Lemma quiet_findSplice (s : Skiplist) (k : list byte) (level : Z) (fuel : nat) :
  ∀ before, quiet_with (λ r, r.1 ≠ 0) (findSpliceForLevel fuel s k before level).
Proof.
  induction fuel as [|fuel IH]; intros before; cbn [findSpliceForLevel]; [exact I|].
  apply (quiet_with_bind (λ _, True)); [apply quiet_the_arena|]. intros a _.
  eapply quiet_with_bind; [apply quiet_getNode|]. intros bn Hbn.
  eapply quiet_with_bind; [apply quiet_getNextOffset|]. intros next Hnext.
  assert (Hb : before ≠ 0) by (destruct bn; [assumption|congruence]).
  eapply quiet_with_bind; [apply quiet_getNode|]. intros nn Hnn.
  destruct nn as [q|]; [|exact Hb].
  apply (quiet_with_bind (λ _, True)); [apply quiet_key|]. intros nextKey _.
  destruct (_ =? 0); [exact Hnn|]. destruct (_ <? 0); [exact Hb|]. apply IH.
Qed.

#[local] Hint Extern 1 (quiet_with (λ _, True) (findSpliceForLevel _ _ _ _ _)) =>
  apply (quiet_weaken _ _ (quiet_findSplice _ _ _ _ _)) : quiet.

Lemma quiet_Add_raise (fuel : nat) (h : Z) :
  ∀ s lh, quiet_with (λ _, True) (Add_raise fuel s h lh).
Proof.
  induction fuel as [|fuel IH]; intros s lh; cbn [Add_raise]; destruct (h >? lh);
    try exact I.
  unfold casHeight. destruct (sl_height s =? lh); [exact I|apply IH].
Qed.

Lemma seeded_weaken (H i i' : Z) (prev : list Z) :
  i <= i' → seeded H i prev → seeded H i' prev.
Proof. intros Hi Hs j Hj. apply Hs. lia. Qed.

Lemma seeded_set (H i p : Z) (prev : list Z) :
  0 <= i < len prev → p ≠ 0 → seeded H (i + 1) prev →
  seeded H i (<[Z.to_nat i := p]> prev).
Proof.
  intros Hi Hp Hs j Hj. destruct (Z.eq_dec j i) as [->|Hne].
  - rewrite list_lookup_insert_eq by (unfold len in Hi; lia). exact Hp.
  - rewrite list_lookup_insert_ne by lia. apply Hs. lia.
Qed.

Lemma seeded_set_same (H i p : Z) (prev : list Z) :
  0 <= i < len prev → p ≠ 0 → seeded H i prev →
  seeded H i (<[Z.to_nat i := p]> prev).
Proof.
  intros Hi Hp Hs. apply seeded_set; [assumption..|].
  apply (seeded_weaken H i); [lia|assumption].
Qed.

(** The descent leaves non-null offsets in [prev[0..H]]. *)
Lemma quiet_Add_descend (fuel : nat) (s : Skiplist) (k : list byte) (v : ValueStruct)
    (H : Z) (cnt : nat) :
  ∀ prev next, seeded H (Z.of_nat cnt) prev →
    quiet_with (λ r, match r with
                     | Continue _ prev' _ => seeded H 0 prev'
                     | Returned _ => True
                     end)
               (Add_descend fuel s k v cnt prev next).
Proof.
  induction cnt as [|cnt IH]; intros prev next Hs; cbn [Add_descend]; [exact Hs|].
  apply (quiet_with_bind (λ _, True)); [quiet_auto|]. intros before _.
  eapply quiet_with_bind; [apply quiet_findSplice|]. intros [p nx] Hp. cbn [fst] in Hp.
  eapply quiet_with_bind; [apply quiet_arr_set|]. intros prev' [Hi ->].
  apply (quiet_with_bind (λ _, True)); [quiet_auto|]. intros next' _.
  destruct (p =? nx).
  - apply (quiet_with_bind (λ _, True)); [quiet_auto|]. intros s' _. exact I.
  - apply IH. apply seeded_set; [assumption..|].
    replace (Z.of_nat cnt + 1) with (Z.of_nat (S cnt)) by lia. exact Hs.
Qed.

(** One level of the publishing loop: with [prev[i..H]] non-null and
    [H >= 1], a null [prev[i]] means [i > H >= 1]. *)
Lemma quiet_Add_publish_level (k : list byte) (v : ValueStruct) (x : option Z)
    (H i : Z) (fuel : nat) :
  1 <= H → 0 <= i →
  ∀ s prev next, seeded H i prev →
    quiet_with (λ r, match r with
                     | Continue _ prev' _ => seeded H i prev'
                     | Returned _ => True
                     end)
               (Add_publish_level fuel s k v x i prev next).
Proof.
  intros HH Hi. induction fuel as [|fuel IH]; intros s prev next Hs;
    cbn [Add_publish_level]; [exact I|].
  apply (quiet_with_bind (λ _, True)); [quiet_auto|]. intros a _.
  eapply quiet_with_bind; [apply quiet_arr_get|]. intros pi Epi.
  eapply quiet_with_bind; [apply quiet_getNode|]. intros pn Hpn.
  apply (quiet_with_bind (λ pr : list Z * list Z, seeded H i pr.1)).
  { destruct pn as [q|]; [exact Hs|].
    assert (Hgt : H < i).
    { destruct (Z.lt_ge_cases H i) as [Hlt|Hge]; [assumption|].
      exfalso. apply (Hs i); [lia|]. congruence. }
    destruct (Z.gtb_spec i 1) as [_|Hle]; [|lia]. cbn [AssertTrue mbind outcome_bind].
    eapply quiet_with_bind; [apply quiet_findSplice|]. intros [p nx] Hp. cbn [fst] in Hp.
    eapply quiet_with_bind; [apply quiet_arr_set|]. intros prev' [Hr ->].
    apply (quiet_with_bind (λ _, True)); [quiet_auto|]. intros next' _.
    apply (quiet_with_bind (λ _, True)); [quiet_auto|]. intros _ _.
    cbn [quiet_with fst]. now apply seeded_set_same. }
  intros [prev1 next1] Hs1. cbn [fst] in Hs1.
  apply (quiet_with_bind (λ _, True)); [quiet_auto|]. intros ni _.
  apply (quiet_with_bind (λ _, True)); [quiet_auto|]. intros a1 _.
  apply (quiet_with_bind (λ _, True)); [quiet_auto|]. intros pi1 _.
  apply (quiet_with_bind (λ _, True)); [quiet_auto|]. intros pnode _.
  apply (quiet_with_bind (λ _, True)); [quiet_auto|]. intros [a2 swapped] _.
  destruct swapped; [exact Hs1|].
  eapply quiet_with_bind; [apply quiet_findSplice|]. intros [p nx] Hp. cbn [fst] in Hp.
  eapply quiet_with_bind; [apply quiet_arr_set|]. intros prev2 [Hr ->].
  apply (quiet_with_bind (λ _, True)); [quiet_auto|]. intros next2 _.
  destruct (p =? nx).
  - quiet_auto.
  - apply IH. now apply seeded_set_same.
Qed.

Lemma quiet_Add_publish (k : list byte) (v : ValueStruct) (x : option Z) (H : Z)
    (fuel : nat) (cnt : nat) :
  1 <= H →
  ∀ s i prev next, 0 <= i → seeded H i prev →
    quiet_with (λ _, True) (Add_publish fuel s k v x cnt i prev next).
Proof.
  intros HH. induction cnt as [|cnt IH]; intros s i prev next Hi Hs;
    cbn [Add_publish]; [exact I|].
  eapply quiet_with_bind; [apply (quiet_Add_publish_level k v x H i fuel HH Hi); exact Hs|].
  intros [s1 prev1 next1|s1] Hr; [|exact I].
  apply IH; [lia|]. apply (seeded_weaken H i); [lia|assumption].
Qed.

(** In [Add], the assertion [i > 1] holds whenever it is reached. *)
Lemma quiet_Add (fuel : nat) (rnd : nat → Z) (s : Skiplist) (e : Entry) :
  headOffset s ≠ 0 → 1 <= sl_height s →
  quiet_with (λ _, True) (Add fuel rnd s e).
Proof.
  intros Hhead Hh. unfold Add, getHeight.
  eapply quiet_with_bind; [apply quiet_arr_set|]. intros prev [Hr ->].
  eapply quiet_with_bind.
  { apply (quiet_Add_descend fuel s (Key e) (ValueStruct_of_Entry e) (sl_height s)).
    intros j Hj. replace j with (sl_height s) by lia.
    rewrite list_lookup_insert_eq by (unfold len in Hr; lia). exact Hhead. }
  intros [s1 prev1 next1|s1] Hs1; [|exact I].
  apply (quiet_with_bind (λ _, True)); [quiet_auto|]. intros a _.
  apply (quiet_with_bind (λ _, True)); [quiet_auto|]. intros [a1 x] _.
  apply (quiet_with_bind (λ _, True)); [apply quiet_Add_raise|]. intros s2 _.
  apply (quiet_Add_publish _ _ _ (sl_height s)); [assumption|lia|assumption].
Qed.

Lemma quiet_NewSkiplist (sz : Z) : quiet_with (λ _, True) (NewSkiplist sz).
Proof. unfold NewSkiplist, newArena. quiet_auto. Qed.

(** The head of a new skiplist sits at offset 8. *)
Lemma NewSkiplist_head (sz : Z) (s : Skiplist) :
  NewSkiplist sz = Ret s → headOffset s = 8.
Proof.
  unfold NewSkiplist, newArena. destruct (sz <? 0); [discriminate|].
  cbn [mbind outcome_bind]. intros H.
  apply bind_ret_inv in H as ([a1 hd] & Hn & H). injection H as <-. cbn [headOffset].
  unfold newNode in Hn.
  apply bind_ret_inv in Hn as ([a2 off] & Hp & Hn).
  apply bind_ret_inv in Hn as ([a3 ko] & _ & Hn).
  apply bind_ret_inv in Hn as ([a4 vo] & _ & Hn).
  apply bind_ret_inv in Hn as (nd & Hg & Hn).
  unfold putNode, allocate in Hp. cbn [negb shouldGrow n buf] in Hp.
  apply bind_ret_inv in Hp as ([a5 off5] & Hp5 & Hp).
  apply bind_ret_inv in Hp5 as (u & _ & Hp5).
  injection Hp5 as _ <-. injection Hp as _ <-.
  change (Z.land _ _) with 8 in Hg.
  unfold getNode in Hg. change (8 =? 0) with false in Hg. cbn iota in Hg.
  destruct (_ && _); [|discriminate]. injection Hg as <-.
  injection Hn as _ <-. reflexivity.
Qed.

Lemma quiet_AddAll (fuel : nat) (es : list (Entry * (nat → Z))) :
  ∀ s, headOffset s ≠ 0 → 1 <= sl_height s →
       quiet_with (λ _, True) (AddAll fuel s es).
Proof.
  induction es as [|[e rnd] es IH]; intros s Hhead Hh; cbn [AddAll]; [exact I|].
  apply (quiet_with_bind (λ s1, headOffset s1 ≠ 0 ∧ 1 <= sl_height s1)).
  - apply (quiet_with_ret (λ _, True)); [now apply quiet_Add|].
    intros s1 Hs1. apply Add_frame in Hs1 as [E1 E2]. split; [congruence|lia].
  - intros s1 [H1 H2]. now apply IH.
Qed.

(** * Skiplists built by [NewSkiplist] and [Add] *)

Lemma build_wf (sz : Z) (fuel : nat) (es : list (Entry * (nat → Z))) :
  0 <= sz <= 2 ^ 31 → Forall (λ er, entry_ok er.1) es → (length es < fuel)%nat →
  build sz fuel es = Fatal AssertArenaCapacity ∨
  ∃ s a l, build sz fuel es = Ret s ∧ arena s = Some a ∧ wf_at s a l ∧
           (length l <= length es)%nat ∧
           headOffset s = 8 ∧ ref s = 1 ∧ OnClose s = None.
Proof.
  intros Hsz Hes Hfuel. unfold build.
  destruct (NewSkiplist_cases sz Hsz) as [(_ & s0 & a0 & -> & Hs0 & Hwf0 & _ & Hr & Hh & Hc)
                                         |(_ & ->)]; [|left; reflexivity].
  cbn [mbind outcome_bind].
  destruct (AddAll_total fuel es s0 a0 [] Hs0 Hwf0 Hes) as
    [->|(s & a & l & -> & Hs & Hwf & Hl & E1 & E2 & E3)];
    [cbn [length]; lia|left; reflexivity|].
  right. exists s, a, l. cbn [length] in Hl.
  split; [reflexivity|]. split; [assumption|]. split; [assumption|].
  split; [lia|]. split; [congruence|]. split; congruence.
Qed.

Lemma sorted_keys_NoDup (a : Arena) (l : list Z) :
  StronglySorted (key_lt a) l → NoDup (skey a <$> l).
Proof.
  induction 1 as [|p l Hs IH Hp]; cbn [fmap list_fmap]; constructor; [|assumption].
  intros Hin. apply list_elem_of_fmap in Hin as (q & E & Hq).
  rewrite Forall_forall in Hp. specialize (Hp q Hq). unfold key_lt in Hp.
  rewrite E, CompareKeys_refl in Hp. lia.
Qed.

Lemma sorted_key_inj (a : Arena) (l : list Z) (p q : Z) :
  StronglySorted (key_lt a) l → p ∈ l → q ∈ l → skey a p = skey a q → p = q.
Proof.
  induction 1 as [|x l Hs IH Hx]; intros Hp Hq E; [now apply elem_of_nil in Hp|].
  rewrite Forall_forall in Hx.
  apply elem_of_cons in Hp as [->|Hp]; apply elem_of_cons in Hq as [->|Hq].
  - reflexivity.
  - specialize (Hx q Hq). unfold key_lt in Hx. rewrite E, CompareKeys_refl in Hx. lia.
  - specialize (Hx p Hp). unfold key_lt in Hx. rewrite E, CompareKeys_refl in Hx. lia.
  - now apply IH.
Qed.

Lemma wf_scan (s : Skiplist) (a : Arena) (l : list Z) (fuel : nat) :
  arena s = Some a → wf_at s a l → (length l < fuel)%nat → scan fuel s 0 = Ret l.
Proof.
  intros Hs Hwf Hfuel.
  rewrite (scan_level s a l 0 fuel Hs Hwf) by (unfold maxHeight; lia || assumption).
  now rewrite (wf_above_zero s a l Hwf).
Qed.

Lemma wf_node_key (s : Skiplist) (a : Arena) (l : list Z) (p : Z) :
  arena s = Some a → wf_at s a l → p ∈ l → node_key s p = Ret (skey a p).
Proof.
  intros Hs Hwf Hp. unfold node_key. rewrite (the_arena_some s a Hs).
  cbn [mbind outcome_bind]. apply (wf_key s a l Hwf).
  destruct (wf_elem s a l Hwf p Hp) as (Hh & _). lia.
Qed.

Lemma Ret_inj {A : Type} (x y : A) : Ret x = Ret y → x = y.
Proof. intros H. now injection H. Qed.

Lemma sample_entries_ok : Forall (λ er : Entry * (nat → Z), entry_ok er.1) sample_entries.
Proof.
  unfold sample_entries, entry_ok, cell_ok.
  repeat (constructor; [vm_compute; intuition (discriminate || reflexivity)|]). constructor.
Qed.

Lemma sample_build : build 1000 40 sample_entries = Ret sample_list.
Proof. vm_compute. reflexivity. Qed.

Lemma sample_wf : wf sample_list [160; 112; 192].
Proof.
  assert (Hsz : 0 <= 1000 <= 2 ^ 31) by lia.
  assert (Hfuel : (length sample_entries < 40)%nat) by (cbn [length sample_entries]; lia).
  destruct (build_wf 1000 40 sample_entries Hsz sample_entries_ok Hfuel)
    as [E|(s & a & l & E & Hs & Hwf & Hl & _)]; rewrite sample_build in E;
    [discriminate|].
  apply Ret_inj in E. subst s. exists a. split; [assumption|].
  assert (Hscan : scan 40 sample_list 0 = Ret l) by (apply (wf_scan _ a); [assumption..|lia]).
  assert (Hc : scan 40 sample_list 0 = Ret [160; 112; 192]) by (vm_compute; reflexivity).
  rewrite Hc in Hscan. apply Ret_inj in Hscan. subst l. assumption.
Qed.

(** * The properties of the specification *)

(** ** Nearest-neighbour queries *)

(** C1: on a skiplist [s] whose reachable data nodes are [l] (the
    level-0 scan from the head) and that satisfies the representation
    invariant, [findNear k less allowEqual] returns, given enough fuel
    for its loop: the least node with key [>= k] ([less = false],
    [allowEqual = true]), the least with key [> k] ([false], [false]),
    the greatest with key [<= k] ([true], [true]) or the greatest with
    key [< k] ([true], [false]); [nil] exactly when no node qualifies;
    never the head sentinel; and the boolean is true iff the node
    returned carries exactly the key [k]. *)
Theorem findNear_correct (s : Skiplist) (l : list Z) (k : list byte)
    (less allowEqual : bool) (fuel : nat) :
  wf s l → (length l + 20 < fuel)%nat →
  ∃ a r b,
    arena s = Some a ∧ scan fuel s 0 = Ret l ∧
    (∀ q, q ∈ l → node_key s q = Ret (skey a q)) ∧
    findNear fuel s k less allowEqual = Ret (r, b) ∧
    r ≠ Some (headOffset s) ∧
    match r with
    | Some p =>
        p ∈ l ∧ wanted less allowEqual k (skey a p) ∧
        ∀ q, q ∈ l → wanted less allowEqual k (skey a q) →
             nearer less (skey a p) (skey a q)
    | None => ∀ q, q ∈ l → ¬ wanted less allowEqual k (skey a q)
    end ∧
    (b = true ↔ ∃ p, r = Some p ∧ skey a p = k).
Proof.
  intros (a & Hs & Hwf) Hfuel.
  destruct (key_split a l k (wf_sorted s a l Hwf)) as (lo & hi & Hsplit).
  pose proof (findNear_near_of s a l lo hi k less allowEqual fuel Hs Hwf Hsplit Hfuel) as Hrun.
  destruct (near_of a k lo hi less allowEqual) as [r b] eqn:E.
  destruct (near_of_meaning s a l lo hi k Hwf Hsplit less allowEqual r b E) as [Hr Hb].
  exists a, r, b.
  split; [assumption|].
  split; [apply (wf_scan s a l fuel Hs Hwf); lia|].
  split; [intros q Hq; now apply (wf_node_key s a l)|].
  split; [assumption|].
  split; [|split; assumption].
  destruct r as [p|]; [|discriminate].
  destruct Hr as (Hp & _). intros Ep. injection Ep as ->.
  now apply (wf_head_out s a l Hwf).
Qed.

Lemma findNear_correct_witness :
  wf sample_list [160; 112; 192] ∧ (length [160; 112; 192] + 20 < 40)%nat ∧
  ∃ a r b,
    arena sample_list = Some a ∧ scan 40 sample_list 0 = Ret [160; 112; 192] ∧
    (∀ q, q ∈ [160; 112; 192] → node_key sample_list q = Ret (skey a q)) ∧
    findNear 40 sample_list (x62 :: stamp 1) true false = Ret (r, b) ∧
    r ≠ Some (headOffset sample_list) ∧
    match r with
    | Some p =>
        p ∈ [160; 112; 192] ∧ wanted true false (x62 :: stamp 1) (skey a p) ∧
        ∀ q, q ∈ [160; 112; 192] → wanted true false (x62 :: stamp 1) (skey a q) →
             nearer true (skey a p) (skey a q)
    | None => ∀ q, q ∈ [160; 112; 192] → ¬ wanted true false (x62 :: stamp 1) (skey a q)
    end ∧
    (b = true ↔ ∃ p, r = Some p ∧ skey a p = x62 :: stamp 1).
Proof.
  split; [exact sample_wf|]. split; [simpl; lia|].
  apply (findNear_correct sample_list [160; 112; 192] (x62 :: stamp 1) true false 40).
  - exact sample_wf.
  - simpl. lia.
Defined.

(** ** Insertion *)

(** C2 (amended): take a skiplist made by [NewSkiplist] (arena of at
    most 2^31 bytes) and any sequence of [Add] calls whose keys are
    shorter than 65536 bytes and whose values are shorter than 2^30
    bytes.  Either the run aborts because the arena is full, or it ends
    in a skiplist in which no two reachable nodes carry the same stored
    key.  On such a skiplist an [Add] whose key equals the stored key of
    a reachable node [z] either aborts for lack of space or returns with
    the arena changed as follows only: the encoded value is written at
    the old cursor, the cursor advances by its size, and the node [z]
    holds the new packed value word; no other node changes and the scan
    of every level visits the same nodes. *)
Theorem Add_keeps_keys_distinct (sz : Z) (fuel : nat) (es : list (Entry * (nat → Z))) :
  0 <= sz <= 2 ^ 31 → Forall (λ er, entry_ok er.1) es → (length es < fuel)%nat →
  build sz fuel es = Fatal AssertArenaCapacity ∨
  ∃ s a l,
    build sz fuel es = Ret s ∧ arena s = Some a ∧ scan fuel s 0 = Ret l ∧
    (∀ q, q ∈ l → node_key s q = Ret (skey a q)) ∧
    NoDup (skey a <$> l) ∧
    ∀ e rnd z, entry_ok e → z ∈ l → skey a z = Key e →
      let v := ValueStruct_of_Entry e in
      (len (buf a) < n a + EncodedSize v ∧
       Add fuel rnd s e = Fatal AssertArenaCapacity) ∨
      ∃ a' nd,
        Add fuel rnd s e = Ret (with_arena s a') ∧
        n a' = n a + EncodedSize v ∧
        bytes_at (buf a') (n a) (EncodedSize v) = encoded v ∧
        extends a a' ∧
        nodes a !! z = Some nd ∧
        nodes a' = <[z := {| value := encodeValue (n a) (EncodedSize v);
                             keyOffset := keyOffset nd; keySize := keySize nd;
                             height := height nd; tower := tower nd |}]> (nodes a) ∧
        ∀ L, 0 <= L < maxHeight → scan fuel (with_arena s a') L = scan fuel s L.
Proof.
  intros Hsz Hes Hfuel.
  destruct (build_wf sz fuel es Hsz Hes Hfuel) as [E|(s & a & l & E & Hs & Hwf & Hl & _)];
    [left; assumption|right].
  exists s, a, l.
  split; [assumption|]. split; [assumption|].
  split; [apply (wf_scan s a l fuel Hs Hwf); lia|].
  split; [intros q Hq; now apply (wf_node_key s a l)|].
  split; [apply sorted_keys_NoDup, (wf_sorted s a l Hwf)|].
  intros e rnd z He Hz Hkey v.
  pose proof (wf_arena_ok s a l Hwf) as Ha.
  destruct (key_split a l (Key e) (wf_sorted s a l Hwf)) as (lo & hi & Hsplit).
  assert (Hadd : Add fuel rnd s e = overwrite s v z).
  { destruct (split_cases s a l lo hi (Key e) Hwf Hsplit) as [(z' & hi' & Ehi & Hz')|Hnew].
    - assert (Hz'l : z' ∈ l) by (apply (hi_elem a l lo hi (Key e) Hsplit); rewrite Ehi; left).
      apply CompareKeys_eq in Hz'.
      assert (z' = z).
      { apply (sorted_key_inj a l); [apply (wf_sorted s a l Hwf)|assumption..|congruence]. }
      subst z'.
      apply (Add_update s a l lo hi e rnd fuel Hs Hwf Hsplit ltac:(lia) z hi' Ehi).
      apply CompareKeys_eq. assumption.
    - exfalso. destruct Hsplit as (El & Hlo & Hhi). rewrite El in Hz.
      apply elem_of_app in Hz as [Hz|Hz].
      + rewrite Forall_forall in Hlo. specialize (Hlo z Hz).
        rewrite Hkey, CompareKeys_refl in Hlo. lia.
      + apply (Hnew z Hz). rewrite Hkey. apply CompareKeys_refl. }
  destruct He as [_ Hv]. fold v in Hv.
  destruct (overwrite_cases s a l v z Hs Hwf Hz Hv) as [(Hfit & Eo & Hwf')|(Hfull & Eo)].
  2:{ left. split; [assumption|]. now rewrite Hadd. }
  right.
  destruct (wf_elem s a l Hwf z Hz) as (Hhz & _).
  destruct (hgt_pos_node a z ltac:(lia)) as (nd & Hnd & _).
  destruct (cell_ok_size v Hv) as [Esz Hrange].
  pose proof (ak_cursor a Ha) as Hcur.
  exists (arena_with_value a v z), nd.
  split; [now rewrite Hadd|].
  split; [apply (new_value_n a v z nd Hnd)|].
  split.
  { rewrite (new_value_buf a v z nd Hnd), Esz.
    apply bytes_at_splice_at; lia. }
  split; [apply (new_value_extends a v z nd Ha Hnd Hv)|].
  split; [assumption|].
  split.
  { unfold arena_with_value, set_value. cbn [nodes with_buf bump].
    rewrite Hnd. reflexivity. }
  intros L HL.
  rewrite (scan_level (with_arena s (arena_with_value a v z)) (arena_with_value a v z)
             l L fuel eq_refl Hwf' HL) by lia.
  rewrite (scan_level s a l L fuel Hs Hwf HL) by lia.
  f_equal. apply above_ext. intros p _.
  apply (new_value_hgt a v z nd Hnd).
Qed.

Lemma Add_keeps_keys_distinct_witness :
  0 <= 1000 <= 2 ^ 31 ∧ Forall (λ er : Entry * (nat → Z), entry_ok er.1) sample_entries ∧
  (length sample_entries < 40)%nat ∧
  (build 1000 40 sample_entries = Fatal AssertArenaCapacity ∨
   ∃ s a l, build 1000 40 sample_entries = Ret s ∧ arena s = Some a ∧
            scan 40 s 0 = Ret l ∧ NoDup (skey a <$> l)).
Proof.
  assert (H1 : 0 <= 1000 <= 2 ^ 31) by lia.
  assert (H2 : (length sample_entries < 40)%nat) by (simpl; lia).
  split; [exact H1|]. split; [exact sample_entries_ok|]. split; [exact H2|].
  destruct (Add_keeps_keys_distinct 1000 40 sample_entries H1 sample_entries_ok H2)
    as [E|(s & a & l & E & Hs & Hscan & _ & Hnd & _)].
  - left. exact E.
  - right. exists s, a, l. auto.
Defined.

(** Not as stated in C2: [newNode] stores the key length in the
    [uint16] field [keySize].  A key of 65545 bytes is stored with length
    9; added twice, it is not recognised the second time, and two
    reachable nodes carry the same stored key. *)
Lemma long_key_added_twice :
  len long_key = 65545 ∧
  (s ← build 140000 9 twice_entries; reachable_keys 9 s) =
  Ret ([112; 65688], [replicate 9 x6b; replicate 9 x6b]).
Proof. split; vm_compute; reflexivity. Qed.

(** C3 (amended): under the conditions of C2 (keys shorter than 65536
    bytes, values shorter than 2^30 bytes, arena of at most 2^31 bytes),
    a run of [NewSkiplist] followed by [Add] calls either aborts because
    the arena is full or ends in a skiplist in which every link
    [tower[L]], [0 <= L < height], of every reachable node [p] is null
    or leads to a reachable node with a strictly greater stored key, and
    the scan of every level from the head returns reachable nodes in
    strictly increasing key order. *)
Theorem Add_keeps_levels_sorted (sz : Z) (fuel : nat) (es : list (Entry * (nat → Z))) :
  0 <= sz <= 2 ^ 31 → Forall (λ er, entry_ok er.1) es → (length es < fuel)%nat →
  build sz fuel es = Fatal AssertArenaCapacity ∨
  ∃ s a l,
    build sz fuel es = Ret s ∧ arena s = Some a ∧ scan fuel s 0 = Ret l ∧
    (∀ q, q ∈ l → node_key s q = Ret (skey a q)) ∧
    (∀ p L, p ∈ l → 0 <= L < hgt a p →
       ∃ q, getNextOffset a (Some p) L = Ret q ∧
            (q = 0 ∨ (q ∈ l ∧ CompareKeys (skey a p) (skey a q) < 0))) ∧
    (∀ L, 0 <= L < maxHeight →
       ∃ lL, scan fuel s L = Ret lL ∧ lL ⊆ l ∧ StronglySorted (key_lt a) lL).
Proof.
  intros Hsz Hes Hfuel.
  destruct (build_wf sz fuel es Hsz Hes Hfuel) as [E|(s & a & l & E & Hs & Hwf & Hl & _)];
    [left; assumption|right].
  exists s, a, l.
  split; [assumption|]. split; [assumption|].
  split; [apply (wf_scan s a l fuel Hs Hwf); lia|].
  split; [intros q Hq; now apply (wf_node_key s a l)|].
  split.
  - intros p L Hp HL. exact (wf_link_order s a l p L Hwf Hp HL).
  - intros L HL. exists (above a L l).
    split; [apply (scan_level s a l L fuel Hs Hwf HL); lia|].
    split; [intros p Hp; apply above_elem in Hp; tauto|].
    apply above_sorted, (wf_sorted s a l Hwf).
Qed.

Lemma Add_keeps_levels_sorted_witness :
  0 <= 1000 <= 2 ^ 31 ∧ Forall (λ er : Entry * (nat → Z), entry_ok er.1) sample_entries ∧
  (length sample_entries < 40)%nat ∧
  (build 1000 40 sample_entries = Fatal AssertArenaCapacity ∨
   ∃ s a l, build 1000 40 sample_entries = Ret s ∧ arena s = Some a ∧
            scan 40 s 0 = Ret l ∧
            ∀ L, 0 <= L < maxHeight →
              ∃ lL, scan 40 s L = Ret lL ∧ lL ⊆ l ∧ StronglySorted (key_lt a) lL).
Proof.
  assert (H1 : 0 <= 1000 <= 2 ^ 31) by lia.
  assert (H2 : (length sample_entries < 40)%nat) by (simpl; lia).
  split; [exact H1|]. split; [exact sample_entries_ok|]. split; [exact H2|].
  destruct (Add_keeps_levels_sorted 1000 40 sample_entries H1 sample_entries_ok H2)
    as [E|(s & a & l & E & Hs & Hscan & _ & _ & Hlev)].
  - left. exact E.
  - right. exists s, a, l. auto.
Defined.

(** Not as stated in C3: a key of 65536 bytes is stored with length 0.
    Added after a shorter key it is linked behind that key's node, whose
    level-0 link then leads to a node with a smaller stored key. *)
Lemma wrapped_key_breaks_order :
  len wrapping_key = 65536 ∧
  (s ← build 70000 9 wrapping_entries; reachable_keys 9 s) =
  Ret ([112; 152], [x62 :: stamp 1; []]) ∧
  (s ← build 70000 9 wrapping_entries; a ← the_arena s; getNextOffset a (Some 112) 0) =
  Ret 152 ∧
  CompareKeys (x62 :: stamp 1) [] = 1.
Proof. split; [|split; [|split]]; vm_compute; reflexivity. Qed.

(** ** Point lookup *)

Lemma Search_found (s : Skiplist) (a : Arena) (l : list Z) (k : list byte) (fuel : nat) :
  arena s = Some a → wf_at s a l → (length l + 20 < fuel)%nat →
  ∃ r b, findNear fuel s k false true = Ret (r, b) ∧
    match r with
    | Some p =>
        ∃ cell, node_key s p = Ret (skey a p) ∧ node_value s p = Ret cell ∧
                Search fuel s k =
                Ret (if SameKey k (skey a p)
                     then with_ExpiresAt cell (ParseTs (skey a p))
                     else ValueStruct_zero)
    | None => Search fuel s k = Ret ValueStruct_zero
    end.
Proof.
  intros Hs Hwf Hfuel.
  destruct (Search_spec s a l k fuel Hs Hwf Hfuel) as (r & b & Hrun & Hr).
  exists r, b. split; [assumption|].
  destruct r as [p|]; [|assumption].
  destruct Hr as (Hp & cell & Hcell & Hsearch).
  exists cell. split; [now apply (wf_node_key s a l)|]. split; [|assumption].
  unfold node_value. rewrite (the_arena_some s a Hs). exact Hcell.
Qed.

(** C4 (amended): on a skiplist that satisfies the representation
    invariant, [Search k] runs [findNear k false true] and always returns
    normally: if a node is found and its stored key has the same length
    as [k] and the same user-key part ([ParseKey]), the result is that
    node's decoded value cell with [ExpiresAt] replaced by [ParseTs] of
    the stored key; in every other case it is the empty [ValueStruct]. *)
Theorem Search_correct (s : Skiplist) (l : list Z) (k : list byte) (fuel : nat) :
  wf s l → (length l + 20 < fuel)%nat →
  ∃ r b, findNear fuel s k false true = Ret (r, b) ∧
    match r with
    | Some p =>
        ∃ stored cell,
          node_key s p = Ret stored ∧ node_value s p = Ret cell ∧
          (length k = length stored ∧ ParseKey k = ParseKey stored →
           Search fuel s k = Ret (with_ExpiresAt cell (ParseTs stored))) ∧
          (¬ (length k = length stored ∧ ParseKey k = ParseKey stored) →
           Search fuel s k = Ret ValueStruct_zero)
    | None => Search fuel s k = Ret ValueStruct_zero
    end.
Proof.
  intros (a & Hs & Hwf) Hfuel.
  destruct (Search_found s a l k fuel Hs Hwf Hfuel) as (r & b & Hrun & Hr).
  exists r, b. split; [assumption|].
  destruct r as [p|]; [|assumption].
  destruct Hr as (cell & Hkey & Hcell & Hsearch).
  exists (skey a p), cell. split; [assumption|]. split; [assumption|].
  pose proof (SameKey_true k (skey a p)) as Hsame.
  destruct (SameKey k (skey a p)).
  - split; [intros _; assumption|]. intros Hn. exfalso. apply Hn, Hsame. reflexivity.
  - split; [|intros _; assumption]. intros Heq. apply Hsame in Heq. discriminate.
Qed.

Lemma Search_correct_witness :
  wf sample_list [160; 112; 192] ∧ (length [160; 112; 192] + 20 < 40)%nat ∧
  ∃ r b, findNear 40 sample_list (x62 :: stamp 1) false true = Ret (r, b) ∧
    match r with
    | Some p =>
        ∃ stored cell,
          node_key sample_list p = Ret stored ∧ node_value sample_list p = Ret cell ∧
          (length (x62 :: stamp 1) = length stored ∧
           ParseKey (x62 :: stamp 1) = ParseKey stored →
           Search 40 sample_list (x62 :: stamp 1) =
           Ret (with_ExpiresAt cell (ParseTs stored))) ∧
          (¬ (length (x62 :: stamp 1) = length stored ∧
              ParseKey (x62 :: stamp 1) = ParseKey stored) →
           Search 40 sample_list (x62 :: stamp 1) = Ret ValueStruct_zero)
    | None => Search 40 sample_list (x62 :: stamp 1) = Ret ValueStruct_zero
    end.
Proof.
  split; [exact sample_wf|]. split; [simpl; lia|].
  apply (Search_correct sample_list [160; 112; 192] (x62 :: stamp 1) 40).
  - exact sample_wf.
  - simpl. lia.
Defined.

(** Not as stated in C4: equal user-key parts are not enough.  The
    sample list stores the key [b] with timestamp 1; a search for the
    bare user key [b] finds that node, whose user-key part is [b] as
    well, and still returns the empty value. *)
Lemma bare_user_key_search :
  findNear 40 sample_list [x62] false true = Ret (Some 112, false) ∧
  node_key sample_list 112 = Ret (x62 :: stamp 1) ∧
  ParseKey (x62 :: stamp 1) = ParseKey [x62] ∧
  node_value sample_list 112 =
  Ret {| Meta := x00; Value := [x5a]; ExpiresAt := 0; Version := 0 |} ∧
  Search 40 sample_list [x62] = Ret ValueStruct_zero.
Proof. split; [|split; [|split; [|split]]]; vm_compute; reflexivity. Qed.

(** C10: [SameKey a b] is false whenever the lengths differ, also when
    the user-key parts are equal; so on a skiplist that satisfies the
    representation invariant, [Search k] returns the empty [ValueStruct]
    whenever the node [findNear k false true] finds stores a key whose
    length differs from that of [k]. *)
Theorem SameKey_needs_equal_length :
  (∀ a b : list byte, length a ≠ length b → SameKey a b = false) ∧
  (∃ a b : list byte, ParseKey a = ParseKey b ∧ SameKey a b = false) ∧
  (∀ s l k fuel p b stored,
     wf s l → (length l + 20 < fuel)%nat →
     findNear fuel s k false true = Ret (Some p, b) →
     node_key s p = Ret stored → length k ≠ length stored →
     Search fuel s k = Ret ValueStruct_zero).
Proof.
  split; [exact SameKey_length|]. split.
  { exists [x62], (x62 :: stamp 1). split; vm_compute; reflexivity. }
  intros s l k fuel p b stored (a & Hs & Hwf) Hfuel Hrun Hkey Hlen.
  destruct (Search_found s a l k fuel Hs Hwf Hfuel) as (r' & b' & Hrun' & Hr).
  rewrite Hrun in Hrun'. apply Ret_inj in Hrun'. injection Hrun' as <- <-.
  destruct Hr as (cell & Hkey' & _ & Hsearch).
  rewrite Hkey in Hkey'. apply Ret_inj in Hkey'. subst stored.
  rewrite Hsearch. now rewrite (SameKey_length k (skey a p) Hlen).
Qed.

Lemma SameKey_needs_equal_length_witness :
  wf sample_list [160; 112; 192] ∧ (length [160; 112; 192] + 20 < 40)%nat ∧
  findNear 40 sample_list [x61] false true = Ret (Some 160, false) ∧
  node_key sample_list 160 = Ret (x61 :: stamp 1) ∧
  length [x61] ≠ length (x61 :: stamp 1) ∧
  Search 40 sample_list [x61] = Ret ValueStruct_zero.
Proof.
  assert (H1 : (length [160; 112; 192] + 20 < 40)%nat) by (simpl; lia).
  assert (H2 : findNear 40 sample_list [x61] false true = Ret (Some 160, false))
    by (vm_compute; reflexivity).
  assert (H3 : node_key sample_list 160 = Ret (x61 :: stamp 1))
    by (vm_compute; reflexivity).
  assert (H4 : length [x61] ≠ length (x61 :: stamp 1)) by (simpl; lia).
  split; [exact sample_wf|]. split; [exact H1|]. split; [exact H2|].
  split; [exact H3|]. split; [exact H4|].
  exact (proj2 (proj2 SameKey_needs_equal_length) sample_list [160; 112; 192] [x61] 40%nat
           160 false (x61 :: stamp 1) sample_wf H1 H2 H3 H4).
Defined.

(** ** Reference counting *)

(** C5: [NewSkiplist] returns with [ref = 1]; [NewSkipListIterator]
    adds one to [ref] and leaves the arena in place; [Close] takes one
    from [ref]; whenever that leaves [ref] at 0 or below (so on the
    decrement that makes it 0 and on every decrement after it), the close
    hook, when set, is called and then the arena is dropped; if [ref]
    stays positive nothing is called and the arena stays. *)
Theorem refcount_lifecycle :
  (∀ sz s, NewSkiplist sz = Ret s → ref s = 1) ∧
  (∀ s, - 2 ^ 31 <= ref s < 2 ^ 31 - 1 →
     ref (NewSkipListIterator s).1 = ref s + 1 ∧
     arena (NewSkipListIterator s).1 = arena s) ∧
  (∀ s it, - 2 ^ 31 < ref s < 2 ^ 31 →
     ref (Close s it).1 = ref s - 1 ∧
     (ref s <= 1 →
      arena (Close s it).1 = None ∧
      (Close s it).2 = match OnClose s with
                       | Some hook => [OnCloseCalled hook]
                       | None => []
                       end ++ [ArenaReleased]) ∧
     (1 < ref s → arena (Close s it).1 = arena s ∧ (Close s it).2 = [])).
Proof.
  split; [intros sz s H; now apply NewSkiplist_frame in H|]. split.
  - intros s Hr. unfold NewSkipListIterator, IncrRef. cbn [fst with_ref ref arena].
    split; [|reflexivity]. apply wrapi32_small. lia.
  - intros s it Hr. unfold Close.
    destruct (Z.le_gt_cases (ref s) 1) as [Hle|Hgt].
    + rewrite (DecrRef_released s) by lia. cbn [fst snd ref arena].
      split; [reflexivity|]. split; [intros _; split; reflexivity|]. lia.
    + rewrite (DecrRef_positive s) by lia. cbn [fst snd with_ref ref arena].
      split; [reflexivity|]. split; [lia|]. intros _. split; reflexivity.
Qed.

Lemma refcount_lifecycle_witness :
  - 2 ^ 31 < ref sample_new < 2 ^ 31 ∧ ref sample_new <= 1 ∧
  ref (Close sample_new {| it_n := None |}).1 = ref sample_new - 1 ∧
  arena (Close sample_new {| it_n := None |}).1 = None ∧
  (Close sample_new {| it_n := None |}).2 =
  match OnClose sample_new with
  | Some hook => [OnCloseCalled hook]
  | None => []
  end ++ [ArenaReleased].
Proof.
  assert (H1 : - 2 ^ 31 < ref sample_new < 2 ^ 31) by (vm_compute; split; reflexivity).
  assert (H2 : ref sample_new <= 1) by (vm_compute; discriminate).
  destruct (proj2 (proj2 refcount_lifecycle) sample_new {| it_n := None |} H1)
    as (E1 & E2 & _).
  destruct (E2 H2) as [E3 E4].
  split; [exact H1|]. split; [exact H2|]. split; [exact E1|]. split; [exact E3|exact E4].
Defined.

(** The decrement that takes the count from 0 to -1 releases again: on
    a new skiplist with a close hook, the first [DecrRef] leaves the count
    at 0, calls the hook and drops the arena; an iterator [Close] after it
    leaves the count at -1, not 0, and calls the hook once more. *)
Lemma release_repeats_below_zero :
  ref hooked_new = 1 ∧
  ref (DecrRef hooked_new).1 = 0 ∧
  arena (DecrRef hooked_new).1 = None ∧
  (DecrRef hooked_new).2 = [OnCloseCalled 7; ArenaReleased] ∧
  ref (Close (DecrRef hooked_new).1 {| it_n := None |}).1 = -1 ∧
  (Close (DecrRef hooked_new).1 {| it_n := None |}).2 = [OnCloseCalled 7; ArenaReleased].
Proof.
  split; [|split; [|split; [|split; [|split]]]]; vm_compute; reflexivity.
Qed.

(** ** The value codec and the key helpers *)

(** C6: for a value cell [v] whose fields fit their Go types and whose
    size fits the [uint32] result of [EncodedSize]: the encoded size is
    1 plus the number of varint bytes of [ExpiresAt] plus the length of
    [Value]; [EncodeValue] writes exactly that many bytes at the front of
    its buffer, namely [Meta], the varint of [ExpiresAt] and the bytes of
    [Value], and returns that count; [DecodeValue] on those bytes gives
    back [Meta], [ExpiresAt] and [Value]. *)
Theorem value_codec_round_trip (v : ValueStruct) :
  0 <= ExpiresAt v < 2 ^ 64 → len (Value v) < 2 ^ 32 - 11 →
  EncodedSize v = 1 + len (varint (ExpiresAt v)) + len (Value v) ∧
  len (encoded v) = EncodedSize v ∧
  (∀ b, EncodedSize v <= len b →
     EncodeValue v b =
     Ret (encoded v ++ drop (Z.to_nat (EncodedSize v)) b, EncodedSize v)) ∧
  DecodeValue (encoded v) =
  Ret {| Meta := Meta v; Value := Value v; ExpiresAt := ExpiresAt v; Version := 0 |}.
Proof.
  intros He Hv. pose proof (EncodedSize_eq v He Hv) as Esz.
  split; [assumption|]. split.
  { rewrite Esz. unfold encoded. rewrite len_cons, len_app. lia. }
  split.
  - intros b Hb. rewrite (EncodeValue_spec v b He Hv Hb). unfold encoded.
    now rewrite <- app_comm_cons, <- app_assoc.
  - unfold encoded. now apply DecodeValue_spec.
Qed.

Lemma value_codec_round_trip_witness :
  0 <= ExpiresAt sample_cell < 2 ^ 64 ∧ len (Value sample_cell) < 2 ^ 32 - 11 ∧
  EncodedSize sample_cell = 1 + len (varint (ExpiresAt sample_cell)) + len (Value sample_cell) ∧
  len (encoded sample_cell) = EncodedSize sample_cell ∧
  (∀ b, EncodedSize sample_cell <= len b →
     EncodeValue sample_cell b =
     Ret (encoded sample_cell ++ drop (Z.to_nat (EncodedSize sample_cell)) b,
          EncodedSize sample_cell)) ∧
  DecodeValue (encoded sample_cell) =
  Ret {| Meta := Meta sample_cell; Value := Value sample_cell;
         ExpiresAt := ExpiresAt sample_cell; Version := 0 |}.
Proof.
  assert (H1 : 0 <= ExpiresAt sample_cell < 2 ^ 64) by (simpl; lia).
  assert (H2 : len (Value sample_cell) < 2 ^ 32 - 11) by (vm_compute; reflexivity).
  split; [exact H1|]. split; [exact H2|].
  exact (value_codec_round_trip sample_cell H1 H2).
Defined.

Lemma eight_bytes (sfx : list byte) :
  length sfx = 8%nat → ∃ b0 b1 b2 b3 b4 b5 b6 b7, sfx = [b0; b1; b2; b3; b4; b5; b6; b7].
Proof.
  intros H. do 8 (destruct sfx as [|? sfx]; [discriminate|]).
  destruct sfx; [|discriminate]. eauto 10.
Qed.

(** C7: [ParseTs] is 0 on keys of at most 8 bytes and otherwise
    [MaxUint64] minus the big-endian value of the last 8 bytes;
    [ParseKey] is the whole key when it is shorter than 8 bytes and
    otherwise the key without its last 8 bytes; on a key of exactly 8
    bytes [ParseKey] gives the empty user key and [ParseTs] gives 0. *)
Theorem ParseTs_ParseKey_cases :
  (∀ key, len key <= 8 → ParseTs key = 0) ∧
  (∀ u sfx, u ≠ [] → length sfx = 8%nat →
     ParseTs (u ++ sfx) = MaxUint64 - BigEndian_Uint64 sfx) ∧
  (∀ b0 b1 b2 b3 b4 b5 b6 b7,
     BigEndian_Uint64 [b0; b1; b2; b3; b4; b5; b6; b7] =
     byte_to_Z b0 * 2 ^ 56 + byte_to_Z b1 * 2 ^ 48 + byte_to_Z b2 * 2 ^ 40 +
     byte_to_Z b3 * 2 ^ 32 + byte_to_Z b4 * 2 ^ 24 + byte_to_Z b5 * 2 ^ 16 +
     byte_to_Z b6 * 2 ^ 8 + byte_to_Z b7) ∧
  (∀ key, len key < 8 → ParseKey key = key) ∧
  (∀ u sfx, length sfx = 8%nat → ParseKey (u ++ sfx) = u) ∧
  (∀ key, length key = 8%nat → ParseKey key = [] ∧ ParseTs key = 0).
Proof.
  split; [exact ParseTs_short|]. split.
  { intros u sfx Hu Hs.
    destruct (eight_bytes sfx Hs) as (b0 & b1 & b2 & b3 & b4 & b5 & b6 & b7 & ->).
    now apply ParseTs_app. }
  split; [exact BigEndian_Uint64_eight|].
  split; [exact ParseKey_short|].
  split; [exact ParseKey_app|].
  intros key Hk. split.
  - exact (ParseKey_app [] key Hk).
  - apply ParseTs_short. unfold len. lia.
Qed.

Lemma ParseTs_ParseKey_cases_witness :
  [x62] ≠ [] ∧ length (stamp 5) = 8%nat ∧
  ParseTs ([x62] ++ stamp 5) = MaxUint64 - BigEndian_Uint64 (stamp 5) ∧
  ParseKey ([x62] ++ stamp 5) = [x62] ∧
  ParseKey (stamp 5) = [] ∧ ParseTs (stamp 5) = 0.
Proof.
  assert (H1 : [x62] ≠ []) by discriminate.
  assert (H2 : length (stamp 5) = 8%nat) by reflexivity.
  destruct ParseTs_ParseKey_cases as (_ & Hts & _ & _ & Hkey & Height).
  split; [exact H1|]. split; [exact H2|].
  split; [exact (Hts [x62] (stamp 5) H1 H2)|].
  split; [exact (Hkey [x62] (stamp 5) H2)|].
  exact (Height (stamp 5) H2).
Defined.

(** ** The height field *)

(** C8: [maxHeight] is 20; [NewSkiplist] sets the height to 1;
    [randomHeight] returns a value between 1 and 20; an [Add] that
    returns leaves the height as it was or has raised it to the height
    drawn for the new node, which is then strictly larger; so along any
    run of [Add] calls on a new skiplist the height never decreases and
    stays between 1 and 20. *)
Theorem height_never_decreases :
  maxHeight = 20 ∧
  (∀ sz s, NewSkiplist sz = Ret s → sl_height s = 1) ∧
  (∀ rnd, 1 <= randomHeight rnd <= maxHeight) ∧
  (∀ fuel rnd s e s', Add fuel rnd s e = Ret s' →
     sl_height s' = sl_height s ∨
     (sl_height s < sl_height s' ∧ sl_height s' = randomHeight rnd)) ∧
  (∀ sz fuel es1 es2 s1 s2,
     build sz fuel es1 = Ret s1 → AddAll fuel s1 es2 = Ret s2 →
     1 <= sl_height s1 ∧ sl_height s1 <= sl_height s2 ∧ sl_height s2 <= maxHeight).
Proof.
  split; [reflexivity|].
  split; [intros sz s H; now apply NewSkiplist_frame in H|].
  split; [exact randomHeight_range|].
  split; [intros fuel rnd s e s' H; now apply Add_frame in H|].
  intros sz fuel es1 es2 s1 s2 H1 H2. unfold build in H1.
  apply bind_ret_inv in H1 as (s0 & Hnew & H1).
  apply NewSkiplist_frame in Hnew as (Hh & _).
  apply AddAll_frame in H1 as (_ & Hm1); [|unfold maxHeight; lia].
  apply AddAll_frame in H2 as (_ & Hm2); [|lia]. lia.
Qed.

Lemma height_never_decreases_witness :
  build 1000 40 [] = Ret sample_new ∧ AddAll 40 sample_new sample_entries = Ret sample_list ∧
  1 <= sl_height sample_new ∧ sl_height sample_new <= sl_height sample_list ∧
  sl_height sample_list <= maxHeight.
Proof.
  assert (H1 : build 1000 40 [] = Ret sample_new) by (vm_compute; reflexivity).
  assert (H2 : AddAll 40 sample_new sample_entries = Ret sample_list)
    by (vm_compute; reflexivity).
  split; [exact H1|]. split; [exact H2|].
  destruct height_never_decreases as (_ & _ & _ & _ & Hrun).
  exact (Hrun 1000 40%nat [] sample_entries sample_new sample_list H1 H2).
Defined.

(** C9: in [Add], on a skiplist with a non-null head offset and a
    height of at least 1, the assertion [i > 1] of the publishing loop
    never fails: the descent leaves non-null offsets in
    [prev[0..listHeight]] ([prev[listHeight]] is the head offset, the
    entries below come from [findSpliceForLevel]), so [prev[i]] is null
    only at levels above [listHeight >= 1].  In particular no run of
    [Add] calls on a new skiplist fails this assertion. *)
Theorem Add_level_assertion_holds :
  (∀ fuel rnd s e,
     headOffset s ≠ 0 → 1 <= sl_height s →
     Add fuel rnd s e ≠ Fatal AssertLevelAboveOne) ∧
  (∀ fuel s k level before p nx,
     findSpliceForLevel fuel s k before level = Ret (p, nx) → p ≠ 0) ∧
  (∀ fuel s k v H cnt prev next s' prev' next',
     seeded H (Z.of_nat cnt) prev →
     Add_descend fuel s k v cnt prev next = Ret (Continue s' prev' next') →
     seeded H 0 prev') ∧
  (∀ sz fuel es, build sz fuel es ≠ Fatal AssertLevelAboveOne).
Proof.
  split.
  { intros fuel rnd s e Hhead Hh.
    exact (quiet_with_elim _ _ (quiet_Add fuel rnd s e Hhead Hh)). }
  split.
  { intros fuel s k level before p nx H.
    pose proof (quiet_findSplice s k level fuel before) as Hq.
    rewrite H in Hq. exact Hq. }
  split.
  { intros fuel s k v H cnt prev next s' prev' next' Hs Hrun.
    pose proof (quiet_Add_descend fuel s k v H cnt prev next Hs) as Hq.
    rewrite Hrun in Hq. exact Hq. }
  intros sz fuel es. apply (quiet_with_elim (λ _, True)). unfold build.
  apply (quiet_with_bind (λ s0, headOffset s0 ≠ 0 ∧ 1 <= sl_height s0)).
  - apply (quiet_with_ret (λ _, True)).
    + apply quiet_NewSkiplist.
    + intros s0 Hs0. rewrite (NewSkiplist_head sz s0 Hs0).
      apply NewSkiplist_frame in Hs0 as (-> & _). split; lia.
  - intros s0 [H1 H2]. now apply quiet_AddAll.
Qed.

Lemma Add_level_assertion_holds_witness :
  headOffset sample_list ≠ 0 ∧ 1 <= sl_height sample_list ∧
  Add 40 draws_high sample_list (entry_of (x64 :: stamp 1) [x44]) ≠
  Fatal AssertLevelAboveOne.
Proof.
  assert (H1 : headOffset sample_list ≠ 0) by (vm_compute; discriminate).
  assert (H2 : 1 <= sl_height sample_list) by (vm_compute; discriminate).
  split; [exact H1|]. split; [exact H2|].
  exact (proj1 Add_level_assertion_holds 40%nat draws_high sample_list
           (entry_of (x64 :: stamp 1) [x44]) H1 H2).
Defined.

(** * Further properties of the arena *)

(** X1: with growth disabled, [allocate sz] returns the cursor as it
    was and advances it by [sz], leaving the buffer and the nodes alone,
    when the advanced cursor stays within the buffer; otherwise it fails
    the capacity assertion. *)
Theorem allocate_fixed_capacity (a : Arena) (sz : Z) :
  shouldGrow a = false → 0 <= n a <= len (buf a) → len (buf a) <= 2 ^ 31 →
  0 <= sz < 2 ^ 31 →
  (n a + sz <= len (buf a) →
   allocate a sz =
   Ret ({| n := n a + sz; shouldGrow := false; buf := buf a; nodes := nodes a |}, n a)) ∧
  (len (buf a) < n a + sz → allocate a sz = Fatal AssertArenaCapacity).
Proof.
  intros Hg Hn Hcap Hsz.
  destruct (allocate_cases a sz Hg Hn Hcap Hsz) as [[Hfit E]|[Hfull E]].
  - split; [|lia]. intros _. rewrite E. unfold bump. now rewrite Hg.
  - split; [lia|]. intros _. exact E.
Qed.

Lemma allocate_fixed_capacity_witness :
  allocate fixed_arena 50 =
  Ret ({| n := 150 + 50; shouldGrow := false; buf := buf fixed_arena;
          nodes := nodes fixed_arena |}, 150) ∧
  allocate fixed_arena 51 = Fatal AssertArenaCapacity.
Proof.
  assert (H1 : shouldGrow fixed_arena = false) by reflexivity.
  assert (H2 : 0 <= n fixed_arena <= len (buf fixed_arena)) by (vm_compute; split; discriminate).
  assert (H3 : len (buf fixed_arena) <= 2 ^ 31) by (vm_compute; discriminate).
  split.
  - apply (allocate_fixed_capacity fixed_arena 50 H1 H2 H3); [lia|].
    vm_compute. discriminate.
  - apply (allocate_fixed_capacity fixed_arena 51 H1 H2 H3); [lia|].
    vm_compute. reflexivity.
Defined.

Lemma copy_grown (b : list byte) (g : nat) :
  copy (replicate (length b + g) x00) b = (b ++ replicate g x00, len b).
Proof.
  unfold copy. rewrite length_replicate.
  rewrite take_ge by lia. rewrite drop_replicate.
  replace (length b + g - length b)%nat with g by lia.
  f_equal. unfold len. rewrite length_replicate. lia.
Qed.

(** X2: with growth enabled, [allocate sz] never fails: it returns the
    cursor as it was and advances it by [sz]; when the advanced cursor
    passes [len(buf) - MaxNodeSize] the buffer is extended by
    [max(min(len(buf), 2^30), sz)] zero bytes behind its old contents.
    The cursor stays within the buffer. *)
Theorem allocate_growth (a : Arena) (sz : Z) :
  shouldGrow a = true → 0 <= n a <= len (buf a) → len (buf a) < 2 ^ 32 →
  0 <= sz → n a + sz < 2 ^ 32 →
  ∃ b', allocate a sz =
        Ret ({| n := n a + sz; shouldGrow := true; buf := b'; nodes := nodes a |}, n a) ∧
        b' = (if n a + sz >? len (buf a) - MaxNodeSize
              then buf a ++ replicate (Z.to_nat (Z.max (Z.min (len (buf a)) (2 ^ 30)) sz)) x00
              else buf a) ∧
        n a + sz <= len b'.
Proof.
  intros Hg Hn Hcap Hsz Hfit. unfold allocate. cbn [shouldGrow buf]. rewrite Hg. cbn [negb].
  rewrite (wrap32_small (n a + sz)) by lia.
  replace (n a + sz - sz) with (n a) by lia.
  rewrite (wrap32_small (n a)) by lia.
  rewrite (wrap32_small (len (buf a))) by (unfold len in *; lia).
  assert (H230 : 2 ^ 30 = 1073741824) by reflexivity.
  destruct (Z.gtb_spec (n a + sz) (len (buf a) - MaxNodeSize)) as [Hgrow|Hstay].
  - set (g1 := if len (buf a) >? 2 ^ 30 then 2 ^ 30 else len (buf a)).
    set (g2 := if g1 <? sz then sz else g1).
    assert (Eg : g2 = Z.max (Z.min (len (buf a)) (2 ^ 30)) sz).
    { unfold g2, g1. destruct (Z.gtb_spec (len (buf a)) (2 ^ 30));
        match goal with |- context [?x <? sz] => destruct (Z.ltb_spec x sz) end; lia. }
    assert (Hg2 : 0 <= g2) by lia.
    replace (Z.to_nat (len (buf a) + g2)) with (length (buf a) + Z.to_nat g2)%nat
      by (unfold len; lia).
    rewrite copy_grown. rewrite Z.eqb_refl. cbn [AssertTrue mbind outcome_bind].
    eexists. split; [reflexivity|]. rewrite Eg. split; [reflexivity|].
    rewrite len_app. unfold len at 2. rewrite length_replicate. lia.
  - eexists. split; [reflexivity|]. split; [reflexivity|]. unfold MaxNodeSize in Hstay. lia.
Qed.

Lemma allocate_growth_witness :
  ∃ b', allocate growing_arena 60 =
        Ret ({| n := 150 + 60; shouldGrow := true; buf := b'; nodes := nodes growing_arena |},
             150) ∧
        b' = (if 150 + 60 >? len (buf growing_arena) - MaxNodeSize
              then buf growing_arena ++
                   replicate (Z.to_nat (Z.max (Z.min (len (buf growing_arena)) (2 ^ 30)) 60)) x00
              else buf growing_arena) ∧
        150 + 60 <= len b'.
Proof.
  apply (allocate_growth growing_arena 60).
  - reflexivity.
  - vm_compute. split; discriminate.
  - vm_compute. reflexivity.
  - lia.
  - vm_compute. reflexivity.
Defined.

(** X3: with growth disabled, [putKey k] stores the key at the old
    cursor when it fits, so that [getKey] with the returned offset and the
    key's length reads [k] back, and the bytes below the old cursor are
    unchanged; when it does not fit it fails the capacity assertion. *)
Theorem putKey_getKey_round_trip (a : Arena) (k : list byte) :
  shouldGrow a = false → 0 <= n a <= len (buf a) → len (buf a) <= 2 ^ 31 →
  len k < 2 ^ 16 →
  (n a + len k <= len (buf a) →
   ∃ a', putKey a k = Ret (a', n a) ∧ n a' = n a + len k ∧
         getKey a' (n a) (len k) = Ret k ∧ extends a a' ∧ nodes a' = nodes a) ∧
  (len (buf a) < n a + len k → putKey a k = Fatal AssertArenaCapacity).
Proof.
  intros Hg Hn Hcap Hk. pose proof (len_nonneg k) as Hk0.
  assert (H216 : 2 ^ 16 < 2 ^ 31) by reflexivity.
  assert (H231 : 2 ^ 31 < 2 ^ 32) by reflexivity.
  destruct (putKey_cases a k Hg Hn Hcap ltac:(lia)) as [[Hfit E]|[Hfull E]].
  - split; [|lia]. intros _. eexists. split; [exact E|].
    cbn [n bump with_buf buf nodes]. split; [reflexivity|].
    split.
    + unfold getKey. cbn [buf with_buf]. rewrite wrap32_small by lia.
      rewrite slice_bytes_at; [|lia|lia|rewrite len_splice; lia].
      replace (n a + len k - n a) with (len k) by lia.
      now rewrite bytes_at_splice_at by lia.
    + split; [|reflexivity]. split; [cbn [n bump with_buf]; lia|].
      intros lo cnt Hlo Hcnt Hend. cbn [buf with_buf].
      apply bytes_at_splice_below; lia.
  - split; [lia|]. intros _. exact E.
Qed.

Lemma putKey_getKey_round_trip_witness :
  ∃ a', putKey fixed_arena (stamp 7) = Ret (a', n fixed_arena) ∧
        n a' = n fixed_arena + len (stamp 7) ∧
        getKey a' (n fixed_arena) (len (stamp 7)) = Ret (stamp 7) ∧
        extends fixed_arena a' ∧ nodes a' = nodes fixed_arena.
Proof.
  apply (putKey_getKey_round_trip fixed_arena (stamp 7)).
  - reflexivity.
  - vm_compute. split; discriminate.
  - vm_compute. discriminate.
  - vm_compute. reflexivity.
  - vm_compute. discriminate.
Defined.

(** X4: with growth disabled, [putVal v] writes the encoded cell at the
    old cursor when it fits, and [getVal] with the returned offset and
    [EncodedSize v] decodes [Meta], [Value] and [ExpiresAt] back
    ([Version] is not stored); when the cell does not fit [putVal] fails
    the capacity assertion. *)
Theorem putVal_getVal_round_trip (a : Arena) (v : ValueStruct) :
  shouldGrow a = false → 0 <= n a <= len (buf a) → len (buf a) <= 2 ^ 31 →
  0 <= ExpiresAt v < 2 ^ 64 → len (Value v) < 2 ^ 30 →
  (n a + EncodedSize v <= len (buf a) →
   ∃ a', putVal a v = Ret (a', n a) ∧ n a' = n a + EncodedSize v ∧
         getVal a' (n a) (EncodedSize v) =
         Ret {| Meta := Meta v; Value := Value v; ExpiresAt := ExpiresAt v; Version := 0 |} ∧
         extends a a' ∧ nodes a' = nodes a) ∧
  (len (buf a) < n a + EncodedSize v → putVal a v = Fatal AssertArenaCapacity).
Proof.
  intros Hg Hn Hcap He Hlen. assert (Hv : cell_ok v) by (split; assumption).
  destruct (cell_ok_size v Hv) as [Esz Hrange].
  assert (H230 : 2 ^ 30 + 11 < 2 ^ 31) by reflexivity.
  assert (H231 : 2 ^ 31 < 2 ^ 32) by reflexivity.
  destruct (putVal_cases a v Hg Hn Hcap Hv) as [[Hfit E]|[Hfull E]].
  - split; [|lia]. intros _. eexists. split; [exact E|].
    cbn [n bump with_buf buf nodes]. split; [reflexivity|].
    split.
    + unfold getVal. cbn [buf with_buf]. rewrite wrap32_small by lia.
      rewrite slice_bytes_at; [|lia|lia|rewrite len_splice; lia].
      replace (n a + EncodedSize v - n a) with (EncodedSize v) by lia.
      rewrite Esz, bytes_at_splice_at by lia. cbn [mbind outcome_bind].
      unfold encoded. now apply DecodeValue_spec.
    + split; [|reflexivity]. split; [cbn [n bump with_buf]; lia|].
      intros lo cnt Hlo Hcnt Hend. cbn [buf with_buf].
      apply bytes_at_splice_below; lia.
  - split; [lia|]. intros _. exact E.
Qed.

Lemma putVal_getVal_round_trip_witness :
  ∃ a', putVal fixed_arena sample_cell = Ret (a', n fixed_arena) ∧
        n a' = n fixed_arena + EncodedSize sample_cell ∧
        getVal a' (n fixed_arena) (EncodedSize sample_cell) =
        Ret {| Meta := Meta sample_cell; Value := Value sample_cell;
               ExpiresAt := ExpiresAt sample_cell; Version := 0 |} ∧
        extends fixed_arena a' ∧ nodes a' = nodes fixed_arena.
Proof.
  apply (putVal_getVal_round_trip fixed_arena sample_cell).
  - reflexivity.
  - vm_compute. split; discriminate.
  - vm_compute. discriminate.
  - vm_compute. split; [discriminate|reflexivity].
  - vm_compute. reflexivity.
  - vm_compute. discriminate.
Defined.

(** X5: with growth disabled, [putNode h] for a height between 1 and
    [maxHeight] takes [MaxNodeSize - (maxHeight - h) * offsetSize +
    nodeAlign] bytes when they fit and returns an offset that is a
    multiple of 8, not below the old cursor, and such that the bytes of a
    node of height [h] placed there end within the bytes taken; when they
    do not fit it fails the capacity assertion. *)
Theorem putNode_aligned_block (a : Arena) (h : Z) :
  shouldGrow a = false → 0 <= n a <= len (buf a) → len (buf a) <= 2 ^ 31 →
  1 <= h <= maxHeight →
  let block := MaxNodeSize - (maxHeight - h) * offsetSize + nodeAlign in
  (n a + block <= len (buf a) →
   ∃ a' m, putNode a h = Ret (a', m) ∧ n a' = n a + block ∧ buf a' = buf a ∧
           m mod 8 = 0 ∧ n a <= m ∧ m + node_bytes h <= n a') ∧
  (len (buf a) < n a + block → putNode a h = Fatal AssertArenaCapacity).
Proof.
  intros Hg Hn Hcap Hh block.
  assert (Eb : block = 23 + 4 * h).
  { unfold block, MaxNodeSize, maxHeight, offsetSize, nodeAlign. lia. }
  rewrite Eb.
  destruct (putNode_cases a h Hg Hn Hcap Hh) as [[Hfit E]|[Hfull E]].
  - split; [|lia]. intros _. exists (bump a (23 + 4 * h)), (aligned (n a)).
    split; [exact E|]. cbn [n bump buf]. split; [reflexivity|]. split; [reflexivity|].
    assert (Hr : 0 <= n a < 2 ^ 31) by (unfold maxHeight in Hh; lia).
    pose proof (aligned_range (n a) Hr) as Hrange.
    rewrite (aligned_spec (n a) Hr) in *.
    split; [rewrite Z.mul_comm; apply Z.mod_mul; lia|].
    split; [lia|]. unfold node_bytes, offsetSize. lia.
  - split; [lia|]. intros _. exact E.
Qed.

Lemma putNode_aligned_block_witness :
  ∃ a' m, putNode fixed_arena 3 = Ret (a', m) ∧
          n a' = n fixed_arena + (MaxNodeSize - (maxHeight - 3) * offsetSize + nodeAlign) ∧
          buf a' = buf fixed_arena ∧
          m mod 8 = 0 ∧ n fixed_arena <= m ∧ m + node_bytes 3 <= n a'.
Proof.
  apply (putNode_aligned_block fixed_arena 3).
  - reflexivity.
  - vm_compute. split; discriminate.
  - vm_compute. discriminate.
  - vm_compute. split; discriminate.
  - vm_compute. discriminate.
Defined.

(** X6: [decodeValue] undoes [encodeValue]: for an offset and a size
    that fit 32 bits, the packed word fits 64 bits and unpacks to the
    same offset and size. *)
Theorem value_word_round_trip (off sz : Z) :
  0 <= off < 2 ^ 32 → 0 <= sz < 2 ^ 32 →
  0 <= encodeValue off sz < 2 ^ 64 ∧ decodeValue (encodeValue off sz) = (off, sz).
Proof.
  intros Hoff Hsz. split; [|now apply decode_encode].
  unfold encodeValue. rewrite lor_shiftl_add by lia.
  change (2 ^ 64) with (2 ^ 32 * 2 ^ 32). nia.
Qed.

Lemma value_word_round_trip_witness :
  0 <= encodeValue 133 12 < 2 ^ 64 ∧ decodeValue (encodeValue 133 12) = (133, 12).
Proof. apply (value_word_round_trip 133 12); lia. Defined.

(** * The last node, iteration, and reading back what [Add] stored *)

Lemma sorted_snoc_lt (R : Z → Z → Prop) (B : list Z) (y q : Z) :
  StronglySorted R (B ++ [y]) → q ∈ B → R q y.
Proof.
  induction B as [|b B IH]; intros Hsorted Hq; [now apply elem_of_nil in Hq|].
  cbn [app] in Hsorted. apply StronglySorted_inv in Hsorted as [Hs' Hall].
  apply elem_of_cons in Hq as [->|Hq].
  - rewrite Forall_forall in Hall. apply Hall.
    rewrite elem_of_app, list_elem_of_singleton. auto.
  - now apply IH.
Qed.

Section walks.
Context (s : Skiplist) (a : Arena) (l : list Z).
Hypothesis Hs : arena s = Some a.
Hypothesis Hwf : wf_at s a l.

Lemma suffix_above_zero (B A : list Z) : l = B ++ A → above a 0 A = A.
Proof.
  intros E. apply above_all. rewrite Forall_forall. intros p Hp.
  assert (Hpl : p ∈ l) by (rewrite E, elem_of_app; auto).
  destruct (wf_elem s a l Hwf p Hpl). lia.
Qed.

Lemma back_or_nil (B : list Z) :
  l = B →
  (hd ← getHead s;
   if ptr_eqb (Some (last_from (headOffset s) B)) hd
   then Ret None else Ret (Some (last_from (headOffset s) B))) = Ret (last l).
Proof.
  intros E. rewrite (getHead_ok s a l Hs Hwf). cbn [mbind outcome_bind]. unfold ptr_eqb.
  destruct (snoc_cases B) as [EB|(B' & y & EB)]; rewrite E, EB.
  - rewrite last_from_nil. rewrite bool_decide_eq_true_2 by reflexivity. reflexivity.
  - rewrite last_from_snoc, last_snoc.
    rewrite bool_decide_eq_false_2; [reflexivity|].
    intros [= Ey]. apply (wf_head_out s a l Hwf).
    rewrite E, EB, elem_of_app, list_elem_of_singleton. auto.
Qed.

Lemma findLast_loop_spec :
  ∀ (fuel : nat) (level : Z) (B A : list Z),
    0 <= level < maxHeight → l = B ++ A →
    (B = [] ∨ level < hgt a (last_from (headOffset s) B)) →
    (length A + Z.to_nat level < fuel)%nat →
    findLast_loop fuel s (Some (last_from (headOffset s) B)) level = Ret (last l).
Proof.
  induction fuel as [|fuel IH]; intros level B A HL HB Hx Hfuel; [lia|].
  set (x := last_from (headOffset s) B) in *.
  assert (HLx : level < hgt a x).
  { destruct Hx as [->|Hx]; [|assumption]. unfold x. rewrite last_from_nil.
    rewrite (wf_head s a l Hwf). lia. }
  assert (Hc : chain a level x (above a level A)).
  { apply (wf_chain_from s a l Hwf); assumption. }
  cbn [findLast_loop]. rewrite (getNext_chain s a l Hs Hwf x level _ Hc) by lia.
  cbn [mbind outcome_bind].
  destruct (above_first a level A) as [HA|(r1 & y & r2 & EA & Hr1 & Hy & HA)]; rewrite HA;
    cbn [head].
  - destruct (Z.eqb_spec level 0) as [E0|Hne].
    + subst level. rewrite (suffix_above_zero B A HB) in HA. subst A.
      rewrite app_nil_r in HB. unfold x. now apply back_or_nil.
    + apply IH with A; [lia|assumption| |lia].
      destruct Hx as [Hx|Hx]; [now left|right; fold x; lia].
  - replace y with (last_from (headOffset s) (B ++ r1 ++ [y]))
      by (now rewrite app_assoc, last_from_snoc).
    apply IH with r2.
    + assumption.
    + rewrite HB, EA. now rewrite <- !app_assoc.
    + right. now rewrite app_assoc, last_from_snoc.
    + rewrite EA, length_app in Hfuel. cbn [length] in Hfuel. lia.
Qed.

Lemma findLast_last (fuel : nat) :
  (length l + 20 < fuel)%nat → findLast fuel s = Ret (last l).
Proof.
  intros Hfuel. unfold findLast, getHeight.
  rewrite (getHead_ok s a l Hs Hwf). cbn [mbind outcome_bind].
  pose proof (wf_height s a l Hwf) as Hh. unfold maxHeight in Hh.
  change (headOffset s) with (last_from (headOffset s) []).
  apply findLast_loop_spec with l; [unfold maxHeight; lia|reflexivity|now left|lia].
Qed.

(** The cell the iterator reads at a reachable node. *)
Lemma getVs_cell_of (p : Z) : p ∈ l → getVs a (Some p) = Ret (cell_of a p).
Proof.
  intros Hp. destruct (wf_elem s a l Hwf p Hp) as (Hh & _).
  destruct (hgt_pos_node a p ltac:(lia)) as (nd & Hnd & _).
  destruct (getVs_stored a p nd (wf_arena_ok s a l Hwf) Hnd) as (vo & v & Hv & Hoff & Hval).
  unfold cell_of. rewrite (getVs_split a (Some p) _ _ Hoff), Hval. reflexivity.
Qed.

Lemma iterate_from_spec (A : list Z) :
  ∀ (B : list Z) (fuel : nat),
    l = B ++ A → (length A < fuel)%nat →
    iterate_from fuel s {| it_n := head A |} =
    Ret ((λ p, (skey a p, cell_of a p)) <$> A).
Proof.
  induction A as [|p A IH]; intros B fuel HB Hfuel;
    (destruct fuel as [|fuel]; [cbn [length] in Hfuel; lia|]); cbn [iterate_from].
  - reflexivity.
  - cbn [head]. unfold Valid. cbn [it_n].
    rewrite bool_decide_eq_true_2 by discriminate.
    assert (Hp : p ∈ l) by (rewrite HB, elem_of_app, elem_of_cons; auto).
    destruct (wf_elem s a l Hwf p Hp) as (Hh & _).
    unfold IterKey, IterValue. cbn [it_n].
    rewrite (the_arena_some s a Hs). cbn [mbind outcome_bind].
    rewrite (wf_key s a l Hwf p) by lia. cbn [mbind outcome_bind].
    rewrite (getVs_cell_of p Hp). cbn [mbind outcome_bind].
    unfold Next, Valid. cbn [it_n].
    rewrite bool_decide_eq_true_2 by discriminate. cbn [AssertTrue mbind outcome_bind].
    assert (Hc : chain a 0 p (above a 0 A)).
    { replace p with (last_from (headOffset s) (B ++ [p])) by apply last_from_snoc.
      apply (wf_chain_from s a l Hwf).
      - rewrite HB. now rewrite <- app_assoc.
      - unfold maxHeight. lia.
      - right. rewrite last_from_snoc. lia. }
    rewrite (getNext_chain s a l Hs Hwf p 0 A Hc) by lia. cbn [mbind outcome_bind].
    rewrite (suffix_above_zero (B ++ [p]) A) by (rewrite HB; now rewrite <- app_assoc).
    rewrite (IH (B ++ [p]) fuel); [reflexivity|rewrite HB; now rewrite <- app_assoc|].
    cbn [length] in Hfuel. lia.
Qed.

Lemma iterate_all (fuel : nat) :
  (length l < fuel)%nat →
  iterate fuel s = Ret ((λ p, (skey a p, cell_of a p)) <$> l).
Proof.
  intros Hfuel. unfold iterate, Rewind, SeekToFirst.
  rewrite (getHead_ok s a l Hs Hwf). cbn [mbind outcome_bind].
  assert (Hc : chain a 0 (headOffset s) (above a 0 l)).
  { apply (wf_chains s a l Hwf). unfold maxHeight. lia. }
  rewrite (getNext_chain s a l Hs Hwf (headOffset s) 0 l Hc)
    by (rewrite (wf_head s a l Hwf); unfold maxHeight; lia).
  cbn [mbind outcome_bind]. rewrite (wf_above_zero s a l Hwf).
  now apply (iterate_from_spec l []).
Qed.

(** The greatest key is that of the last node. *)
Lemma last_greatest (p q : Z) :
  last l = Some p → q ∈ l → CompareKeys (skey a q) (skey a p) <= 0.
Proof.
  intros Hlast Hq. destruct (snoc_cases l) as [E|(B & y & E)].
  - rewrite E in Hq. now apply elem_of_nil in Hq.
  - rewrite E, last_snoc in Hlast. injection Hlast as ->.
    pose proof (wf_sorted s a l Hwf) as Hsorted. rewrite E in Hsorted, Hq.
    apply elem_of_app in Hq as [Hq|Hq].
    + pose proof (sorted_snoc_lt (key_lt a) B p q Hsorted Hq) as Hlt.
      unfold key_lt in Hlt. lia.
    + apply list_elem_of_singleton in Hq. subst q. rewrite CompareKeys_refl. lia.
Qed.

(** [Search] for the stored key of a reachable node returns that
    node's cell. *)
Lemma least_at_or_after (k : list byte) (p : Z) (fuel : nat) :
  (length l + 20 < fuel)%nat →
  p ∈ l → CompareKeys k (skey a p) <= 0 →
  (∀ q, q ∈ l → CompareKeys k (skey a q) <= 0 →
        CompareKeys (skey a p) (skey a q) <= 0) →
  ∃ b, findNear fuel s k false true = Ret (Some p, b).
Proof.
  intros Hfuel Hp Hge Hleast.
  destruct (key_split a l k (wf_sorted s a l Hwf)) as (lo & hi & Hsplit).
  pose proof (findNear_near_of s a l lo hi k false true fuel Hs Hwf Hsplit Hfuel) as Hnear.
  destruct (near_of a k lo hi false true) as [r b] eqn:Er.
  destruct (near_of_meaning s a l lo hi k Hwf Hsplit false true r b Er) as [Hr _].
  exists b. rewrite Hnear. do 2 f_equal.
  destruct r as [r|].
  - destruct Hr as (Hrl & Hw & Hnearer). cbn [wanted nearer] in Hw, Hnearer.
    f_equal. apply (sorted_key_inj a l); [apply (wf_sorted s a l Hwf)|assumption..|].
    apply CompareKeys_eq.
    assert (H1 : CompareKeys (skey a r) (skey a p) <= 0).
    { apply Hnearer; [assumption|]. cbn [wanted]. rewrite CompareKeys_antisym. lia. }
    assert (H2 : CompareKeys (skey a p) (skey a r) <= 0).
    { apply Hleast; [assumption|]. rewrite CompareKeys_antisym. lia. }
    rewrite CompareKeys_antisym in H2. lia.
  - exfalso. apply (Hr p Hp). cbn [wanted]. rewrite CompareKeys_antisym. lia.
Qed.

Lemma Search_at (k : list byte) (p : Z) (b : bool) (fuel : nat) :
  (length l + 20 < fuel)%nat →
  findNear fuel s k false true = Ret (Some p, b) →
  Search fuel s k =
  Ret (if SameKey k (skey a p)
       then with_ExpiresAt (cell_of a p) (ParseTs (skey a p))
       else ValueStruct_zero).
Proof.
  intros Hfuel Hrun.
  destruct (Search_spec s a l k fuel Hs Hwf Hfuel) as (r' & b' & Hrun' & Hr).
  rewrite Hrun in Hrun'. apply Ret_inj in Hrun'. injection Hrun' as <- <-.
  destruct Hr as (Hp & cell & Hcell & Hsearch).
  rewrite Hsearch. unfold cell_of. now rewrite Hcell.
Qed.

Lemma SameKey_refl (k : list byte) : SameKey k k = true.
Proof. apply SameKey_true. split; reflexivity. Qed.

Lemma Search_present (p : Z) (fuel : nat) :
  (length l + 20 < fuel)%nat → p ∈ l →
  Search fuel s (skey a p) =
  Ret (with_ExpiresAt (cell_of a p) (ParseTs (skey a p))).
Proof.
  intros Hfuel Hp.
  destruct (least_at_or_after (skey a p) p fuel Hfuel Hp) as (b & Hrun).
  - rewrite CompareKeys_refl. lia.
  - intros q _ Hq. exact Hq.
  - rewrite (Search_at _ p b fuel Hfuel Hrun). now rewrite SameKey_refl.
Qed.
End walks.

(** * What [Add] leaves in the arena *)

Lemma getVs_word (a : Arena) (p : Z) (nd : node) (vo : Z) (v : ValueStruct) :
  nodes a !! p = Some nd → value nd = encodeValue vo (EncodedSize v) →
  0 <= vo → vo + EncodedSize v <= len (buf a) → len (buf a) <= 2 ^ 31 → cell_ok v →
  bytes_at (buf a) vo (EncodedSize v) = encoded v →
  getVs a (Some p) =
  Ret {| Meta := Meta v; Value := Value v; ExpiresAt := ExpiresAt v; Version := 0 |}.
Proof.
  intros Hp Hw Hvo Hend Hcap Hv Hb.
  destruct (cell_ok_size v Hv) as [Hsz Hrange].
  assert (2 ^ 31 < 2 ^ 32) by reflexivity.
  unfold getVs, getValueOffset. rewrite (load_some a p nd Hp). cbn [mbind outcome_bind].
  rewrite Hw, decode_encode by lia.
  unfold getVal. rewrite wrap32_small by lia. rewrite slice_bytes_at by lia.
  cbn [mbind outcome_bind]. replace (vo + EncodedSize v - vo) with (EncodedSize v) by lia.
  rewrite Hb. unfold encoded. apply DecodeValue_spec. apply Hv.
Qed.

Lemma getVs_ext (a a' : Arena) (q : Z) (nd nd' : node) :
  arena_ok a → arena_ok a' → nodes a !! q = Some nd → nodes a' !! q = Some nd' →
  value nd' = value nd → extends a a' →
  getVs a' (Some q) = getVs a (Some q).
Proof.
  intros Ha Ha' Hq Hq' Hval [Hn Hbytes].
  destruct (ak_nodes a Ha q nd Hq) as [_ _ _ _ (vo & v & Hw & Hvo & Hend & Hv & Hb)].
  pose proof (ak_cursor a Ha). pose proof (ak_cap a Ha).
  pose proof (ak_cursor a' Ha'). pose proof (ak_cap a' Ha').
  rewrite (getVs_word a q nd vo v Hq Hw Hvo ltac:(lia) ltac:(lia) Hv Hb).
  apply (getVs_word a' q nd' vo v Hq'); try lia; try assumption; try congruence.
  rewrite <- Hb. apply Hbytes; try lia.
  destruct (cell_ok_size v Hv). lia.
Qed.

Lemma cell_of_ext (a a' : Arena) (q : Z) (nd nd' : node) :
  arena_ok a → arena_ok a' → nodes a !! q = Some nd → nodes a' !! q = Some nd' →
  value nd' = value nd → extends a a' → cell_of a' q = cell_of a q.
Proof.
  intros Ha Ha' Hq Hq' Hval Hext. unfold cell_of.
  now rewrite (getVs_ext a a' q nd nd' Ha Ha' Hq Hq' Hval Hext).
Qed.

Lemma key_present_or_not (a : Arena) (l : list Z) (e : Entry) :
  (∃ z, z ∈ l ∧ skey a z = Key e) ∨ (∀ z, z ∈ l → skey a z ≠ Key e).
Proof.
  induction l as [|p l IH]; [right; intros z Hz; now apply elem_of_nil in Hz|].
  destruct (decide (skey a p = Key e)) as [E|Hne].
  - left. exists p. split; [left|assumption].
  - destruct IH as [(z & Hz & E)|Hno].
    + left. exists z. split; [now right|assumption].
    + right. intros z Hz. apply elem_of_cons in Hz as [->|Hz]; auto.
Qed.

Section after_add.
Context (s : Skiplist) (a : Arena) (l : list Z) (e : Entry) (rnd : nat → Z) (fuel : nat).
Hypothesis Hs : arena s = Some a.
Hypothesis Hwf : wf_at s a l.
Hypothesis He : entry_ok e.
Hypothesis Hfuel : (length l < fuel)%nat.

Lemma node_cost_eq (h : Z) :
  node_cost e h = 23 + 4 * h + len (Key e) + EncodedSize (ValueStruct_of_Entry e).
Proof. unfold node_cost, MaxNodeSize, maxHeight, offsetSize, nodeAlign. lia. Qed.

Lemma stored_cell_eq :
  {| Meta := Meta (ValueStruct_of_Entry e); Value := Value (ValueStruct_of_Entry e);
     ExpiresAt := ExpiresAt (ValueStruct_of_Entry e); Version := 0 |} = stored_cell e.
Proof. reflexivity. Qed.

(** The key is there already: the value of its node is replaced. *)
Lemma Add_present (z : Z) :
  z ∈ l → skey a z = Key e →
  (n a + EncodedSize (ValueStruct_of_Entry e) <= len (buf a) ∧
   ∃ a', Add fuel rnd s e = Ret (with_arena s a') ∧ wf_at (with_arena s a') a' l ∧
         n a' = n a + EncodedSize (ValueStruct_of_Entry e) ∧ added a l e a' l z) ∨
  (len (buf a) < n a + EncodedSize (ValueStruct_of_Entry e) ∧
   Add fuel rnd s e = Fatal AssertArenaCapacity).
Proof.
  intros Hz Hkey. set (v := ValueStruct_of_Entry e).
  pose proof (wf_arena_ok s a l Hwf) as Ha.
  destruct (key_split a l (Key e) (wf_sorted s a l Hwf)) as (lo & hi & Hsplit).
  assert (Hadd : Add fuel rnd s e = overwrite s v z).
  { destruct (split_cases s a l lo hi (Key e) Hwf Hsplit) as [(z' & hi' & Ehi & Hz')|Hnew].
    - assert (Hz'l : z' ∈ l) by (apply (hi_elem a l lo hi (Key e) Hsplit); rewrite Ehi; left).
      apply CompareKeys_eq in Hz'.
      assert (z' = z).
      { apply (sorted_key_inj a l); [apply (wf_sorted s a l Hwf)|assumption..|congruence]. }
      subst z'.
      apply (Add_update s a l lo hi e rnd fuel Hs Hwf Hsplit Hfuel z hi' Ehi).
      apply CompareKeys_eq. congruence.
    - exfalso. pose proof Hsplit as (El & Hlo & Hhi). rewrite El in Hz.
      apply elem_of_app in Hz as [Hz|Hz].
      + rewrite Forall_forall in Hlo. specialize (Hlo z Hz).
        rewrite Hkey, CompareKeys_refl in Hlo. lia.
      + apply (Hnew z Hz). rewrite Hkey. apply CompareKeys_refl. }
  destruct He as [_ Hv]. fold v in Hv.
  destruct (overwrite_cases s a l v z Hs Hwf Hz Hv) as [(Hfit & Eo & Hwf')|(Hfull & Eo)].
  2:{ right. split; [assumption|]. now rewrite Hadd. }
  left. split; [assumption|].
  destruct (wf_elem s a l Hwf z Hz) as (Hhz & _).
  destruct (hgt_pos_node a z ltac:(lia)) as (nd & Hnd & _).
  destruct (cell_ok_size v Hv) as [Esz Hrange].
  pose proof (ak_cursor a Ha) as Hcur. pose proof (ak_cap a Ha) as Hcap.
  pose proof (wf_arena_ok _ _ l Hwf') as Ha2.
  set (a2 := arena_with_value a v z) in *.
  exists a2. split; [now rewrite Hadd|]. split; [assumption|].
  split; [apply (new_value_n a v z nd Hnd)|].
  assert (Hext : extends a a2) by apply (new_value_extends a v z nd Ha Hnd Hv).
  split; [assumption|].
  split; [rewrite <- Hkey; apply (new_value_skey a v z nd Ha Hnd Hv Hfit); lia|].
  split.
  { unfold cell_of.
    rewrite (getVs_word a2 z _ (n a) v (new_value_lookup a v z nd Hnd) eq_refl).
    - reflexivity.
    - lia.
    - unfold a2. rewrite (new_value_buf a v z nd Hnd), len_splice; lia.
    - unfold a2. rewrite (new_value_buf a v z nd Hnd), len_splice; lia.
    - assumption.
    - unfold a2. rewrite (new_value_buf a v z nd Hnd), Esz.
      apply bytes_at_splice_at; lia. }
  split; [assumption|].
  intros q Hq. split; [assumption|].
  destruct (wf_elem s a l Hwf q Hq) as (Hhq & _).
  split; [apply (new_value_skey a v z nd Ha Hnd Hv Hfit); lia|].
  intros Hne. destruct (hgt_pos_node a q ltac:(lia)) as (ndq & Hndq & _).
  apply (cell_of_ext a a2 q ndq ndq Ha Ha2 Hndq); [|reflexivity|assumption].
  unfold a2. now rewrite (new_value_old a v z nd Hnd q Hne).
Qed.

(** The key is new: a node is linked in at its place. *)
Lemma Add_absent :
  (∀ z, z ∈ l → skey a z ≠ Key e) →
  (n a + node_cost e (randomHeight rnd) <= len (buf a) ∧
   ∃ s' a' lo hi m,
     Add fuel rnd s e = Ret s' ∧ arena s' = Some a' ∧ l = lo ++ hi ∧ (m ∉ l) ∧
     wf_at s' a' (lo ++ m :: hi) ∧
     n a' = n a + node_cost e (randomHeight rnd) ∧
     added a l e a' (lo ++ m :: hi) m) ∨
  (len (buf a) < n a + node_cost e (randomHeight rnd) ∧
   Add fuel rnd s e = Fatal AssertArenaCapacity).
Proof.
  intros Hnone. set (v := ValueStruct_of_Entry e). set (h := randomHeight rnd).
  pose proof (wf_arena_ok s a l Hwf) as Ha.
  pose proof (randomHeight_range rnd) as Hh. fold h in Hh.
  rewrite node_cost_eq. fold v. fold h.
  destruct (key_split a l (Key e) (wf_sorted s a l Hwf)) as (lo & hi & Hsplit).
  assert (Hnew : ∀ q, q ∈ hi → CompareKeys (Key e) (skey a q) ≠ 0).
  { intros q Hq Hc. apply CompareKeys_eq in Hc.
    apply (Hnone q); [apply (hi_elem a l lo hi (Key e) Hsplit q Hq)|congruence]. }
  destruct (Add_insert s a l lo hi e rnd fuel Hs Hwf He Hsplit Hfuel Hnew)
    as [(Hfit & af & Eadd & Hwf' & Hsame)|(Hfull & Eadd)].
  2:{ right. fold v h in Hfull. split; [lia|assumption]. }
  fold v h in Hfit, Eadd, Hwf', Hsame.
  left. split; [lia|].
  destruct He as [Hk Hv]. fold v in Hv.
  set (m := aligned (n a)) in *.
  set (awn := arena_with_node a (Key e) v h) in *.
  assert (Hfit' : n a + (23 + 4 * h) + len (Key e) + EncodedSize v <= len (buf a)) by lia.
  pose proof Hsame as (En & _ & Ebuf & Hnodes).
  pose proof (wf_arena_ok _ _ _ Hwf') as Haf.
  pose proof (ak_cursor a Ha) as Hcur. pose proof (ak_cap a Ha) as Hcap.
  destruct (cell_ok_size v Hv) as [Esz Hrange].
  pose proof (len_nonneg (Key e)) as Hk0.
  pose proof Hsplit as (El & _ & _).
  assert (Hm : m ∉ l).
  { intros Hin. destruct (wf_elem s a l Hwf m Hin) as (Hhm & _).
    destruct (hgt_pos_node a m ltac:(lia)) as (ndm & Hndm & _).
    unfold m in Hndm. rewrite (new_node_fresh a (Key e) v h Ha Hh Hv Hfit') in Hndm.
    discriminate. }
  assert (Hext : extends a af).
  { destruct (new_node_extends a (Key e) v h Ha Hh Hv Hfit') as [H1 H2].
    fold awn in H1, H2. split; [rewrite En; assumption|].
    intros lo0 cnt H3 H4 H5. rewrite Ebuf. now apply H2. }
  eexists _, af, lo, hi, m. split; [exact Eadd|]. split; [reflexivity|].
  split; [assumption|]. split; [assumption|]. split; [assumption|].
  split; [rewrite En; unfold awn; cbn [n arena_with_node]; lia|].
  split; [rewrite elem_of_app, elem_of_cons; auto|].
  split.
  { rewrite (same_but_towers_skey awn af m Hsame).
    now apply (new_node_skey a (Key e) v h Ha Hh Hk Hv Hfit'). }
  split.
  { pose proof (new_node_lookup a (Key e) v h Ha Hh Hv Hfit') as Hlk. fold awn m in Hlk.
    specialize (Hnodes m). rewrite Hlk in Hnodes.
    destruct (nodes af !! m) as [ndm|] eqn:Hndm; [|contradiction].
    destruct Hnodes as (Hval & _). cbn [value] in Hval.
    unfold cell_of.
    rewrite (getVs_word af m ndm (n a + (23 + 4 * h) + len (Key e)) v Hndm Hval).
    - reflexivity.
    - lia.
    - rewrite Ebuf. unfold awn. rewrite (new_node_buf_len a (Key e) v h Ha Hh Hv Hfit'). lia.
    - rewrite Ebuf. unfold awn. rewrite (new_node_buf_len a (Key e) v h Ha Hh Hv Hfit'). lia.
    - assumption.
    - rewrite Ebuf. unfold awn. cbn [buf arena_with_node]. rewrite Esz.
      apply bytes_at_splice_at; [lia|]. rewrite len_splice; lia. }
  split; [assumption|].
  intros q Hq. destruct (wf_elem s a l Hwf q Hq) as (Hhq & _).
  split; [rewrite El in Hq; rewrite elem_of_app, elem_of_cons;
          apply elem_of_app in Hq; tauto|].
  split.
  { rewrite (same_but_towers_skey awn af q Hsame).
    apply (new_node_skey_old a (Key e) v h Ha Hh Hk Hv Hfit'). lia. }
  intros Hne. destruct (hgt_pos_node a q ltac:(lia)) as (ndq & Hndq & _).
  specialize (Hnodes q). unfold awn in Hnodes.
  rewrite (new_node_old a (Key e) v h q Hne), Hndq in Hnodes.
  destruct (nodes af !! q) as [ndq'|] eqn:Hndq'; [|contradiction].
  destruct Hnodes as (Hval & _).
  exact (cell_of_ext a af q ndq ndq' Ha Haf Hndq Hndq' Hval Hext).
Qed.
End after_add.

(** * Further properties of the skiplist *)

Lemma sample_arena_eq : arena sample_list = Some sample_arena.
Proof. vm_compute. reflexivity. Qed.

Lemma sample_wf_at : wf_at sample_list sample_arena [160; 112; 192].
Proof.
  destruct sample_wf as (a & Ha & Hwf). rewrite sample_arena_eq in Ha.
  apply (inj Some) in Ha. now subst a.
Qed.

Lemma fresh_entry_ok : entry_ok fresh_entry.
Proof. unfold entry_ok, cell_ok. vm_compute. intuition (discriminate || reflexivity). Qed.


Lemma NewSkiplist_cursor (sz : Z) (s : Skiplist) (a : Arena) :
  0 <= sz <= 2 ^ 31 → NewSkiplist sz = Ret s → arena s = Some a → n a = 106.
Proof.
  intros Hsz H Ha.
  destruct (NewSkiplist_cases sz Hsz) as [(Hfit & _)|(_ & E)]; [|rewrite E in H; discriminate].
  unfold NewSkiplist, newArena in H.
  destruct (Z.ltb_spec sz 0); [lia|]. cbn [mbind outcome_bind] in H.
  set (a0 := {| n := 1; shouldGrow := false; buf := replicate (Z.to_nat sz) x00;
                nodes := ∅ |}) in H.
  assert (Hlen : len (buf a0) = sz).
  { unfold a0, len. cbn [buf]. rewrite length_replicate. lia. }
  assert (Hh : 1 <= maxHeight <= maxHeight) by (unfold maxHeight; lia).
  assert (Hk : len (@nil byte) < 2 ^ 16) by reflexivity.
  assert (Esz : n a0 + (23 + 4 * maxHeight) + len (@nil byte) + EncodedSize ValueStruct_zero
                = 106) by reflexivity.
  assert (Ha0 : arena_ok a0).
  { split.
    - reflexivity.
    - rewrite Hlen. change (n a0) with 1. lia.
    - rewrite Hlen. lia.
    - intros p nd Hp. change (nodes a0) with (∅ : gmap Z node) in Hp.
      rewrite lookup_empty in Hp. discriminate. }
  assert (Hfit' : n a0 + (23 + 4 * maxHeight) + len (@nil byte) +
                  EncodedSize ValueStruct_zero <= len (buf a0)) by (rewrite Esz, Hlen; lia).
  rewrite (newNode_result a0 [] ValueStruct_zero maxHeight Ha0 Hh Hk cell_ok_zero Hfit') in H.
  cbn [mbind outcome_bind] in H. apply Ret_inj in H. rewrite <- H in Ha. cbn [arena] in Ha.
  apply (inj Some) in Ha. rewrite <- Ha. exact Esz.
Qed.

Lemma Search_none (s : Skiplist) (k : list byte) (b : bool) (fuel : nat) :
  findNear fuel s k false true = Ret (None, b) → Search fuel s k = Ret ValueStruct_zero.
Proof. intros H. unfold Search. now rewrite H. Qed.

Lemma nothing_at_or_after (s : Skiplist) (a : Arena) (l : list Z) (k : list byte)
    (fuel : nat) :
  arena s = Some a → wf_at s a l → (length l + 20 < fuel)%nat →
  (∀ q, q ∈ l → CompareKeys (skey a q) k < 0) →
  ∃ b, findNear fuel s k false true = Ret (None, b).
Proof.
  intros Hs Hwf Hfuel Hall.
  destruct (key_split a l k (wf_sorted s a l Hwf)) as (lo & hi & Hsplit).
  pose proof (findNear_near_of s a l lo hi k false true fuel Hs Hwf Hsplit Hfuel) as Hnear.
  destruct (near_of a k lo hi false true) as [r b] eqn:Er.
  destruct (near_of_meaning s a l lo hi k Hwf Hsplit false true r b Er) as [Hr _].
  exists b. rewrite Hnear. destruct r as [p|]; [|reflexivity].
  destruct Hr as (Hp & Hw & _). cbn [wanted] in Hw. specialize (Hall p Hp). lia.
Qed.

Lemma sorted_keys (a : Arena) (l : list Z) :
  StronglySorted (key_lt a) l →
  StronglySorted (λ x y, CompareKeys x y < 0) (skey a <$> l).
Proof.
  induction 1 as [|p l Hs IH Hp]; cbn [fmap list_fmap]; constructor; [assumption|].
  rewrite Forall_fmap. exact Hp.
Qed.

(** X7: [NewSkiplist] needs an arena of 106 bytes for the head node;
    with less it fails the capacity assertion.  The skiplist it returns
    has height 1, one reference and 106 bytes in use, and it is empty:
    [Empty] is true, the iteration visits nothing and [Search] returns
    the empty value for every key. *)
Theorem NewSkiplist_empty (sz : Z) :
  0 <= sz <= 2 ^ 31 →
  (sz < 106 → NewSkiplist sz = Fatal AssertArenaCapacity) ∧
  (106 <= sz →
   ∃ s, NewSkiplist sz = Ret s ∧ sl_height s = 1 ∧ ref s = 1 ∧ MemSize s = Ret 106 ∧
        ∀ fuel, (20 < fuel)%nat →
          Empty fuel s = Ret true ∧ iterate fuel s = Ret [] ∧
          ∀ k, Search fuel s k = Ret ValueStruct_zero).
Proof.
  intros Hsz.
  destruct (NewSkiplist_cases sz Hsz) as [(Hfit & s & a & E & Hs & Hwf & Hh & Hr & _)|(Hfull & E)].
  2:{ split; [intros _; exact E|lia]. }
  split; [lia|]. intros _. exists s.
  split; [assumption|]. split; [assumption|]. split; [assumption|].
  split.
  { unfold MemSize, size. rewrite (the_arena_some s a Hs). cbn [mbind outcome_bind].
    now rewrite (NewSkiplist_cursor sz s a Hsz E Hs). }
  intros fuel Hfuel. split.
  { unfold Empty. rewrite (findLast_last s a [] Hs Hwf fuel) by (cbn [length]; lia).
    reflexivity. }
  split.
  { rewrite (iterate_all s a [] Hs Hwf fuel) by (cbn [length]; lia). reflexivity. }
  intros k.
  destruct (nothing_at_or_after s a [] k fuel Hs Hwf) as (b & Hrun).
  - cbn [length]. lia.
  - intros q Hq. now apply elem_of_nil in Hq.
  - exact (Search_none s k b fuel Hrun).
Qed.

Lemma NewSkiplist_empty_witness :
  0 <= 1000 <= 2 ^ 31 ∧
  ∃ s, NewSkiplist 1000 = Ret s ∧ sl_height s = 1 ∧ ref s = 1 ∧ MemSize s = Ret 106 ∧
       ∀ fuel, (20 < fuel)%nat →
         Empty fuel s = Ret true ∧ iterate fuel s = Ret [] ∧
         ∀ k, Search fuel s k = Ret ValueStruct_zero.
Proof.
  assert (H : 0 <= 1000 <= 2 ^ 31) by lia.
  split; [exact H|]. apply (proj2 (NewSkiplist_empty 1000 H)). lia.
Defined.

(** X8: on a skiplist that satisfies the representation invariant with
    reachable nodes [l], [findLast] returns the last node of [l], which
    carries the greatest key, and [nil] when [l] is empty; [SeekToLast]
    positions the iterator there and [Empty] is true exactly when [l] is
    empty. *)
Theorem findLast_greatest (s : Skiplist) (a : Arena) (l : list Z) (it : SkipListIterator)
    (fuel : nat) :
  arena s = Some a → wf_at s a l → (length l + 20 < fuel)%nat →
  findLast fuel s = Ret (last l) ∧
  SeekToLast fuel s it = Ret {| it_n := last l |} ∧
  Empty fuel s = Ret (bool_decide (l = [])) ∧
  ∀ p q, last l = Some p → q ∈ l → CompareKeys (skey a q) (skey a p) <= 0.
Proof.
  intros Hs Hwf Hfuel. pose proof (findLast_last s a l Hs Hwf fuel Hfuel) as E.
  split; [assumption|]. split; [unfold SeekToLast; now rewrite E|].
  split.
  - unfold Empty. rewrite E. cbn [mbind outcome_bind]. do 2 f_equal.
    destruct (snoc_cases l) as [->|(B & y & ->)]; [reflexivity|].
    rewrite last_snoc. rewrite !bool_decide_eq_false_2; [reflexivity| |discriminate].
    intros Habs. apply (f_equal length) in Habs. rewrite length_app in Habs.
    cbn [length] in Habs. lia.
  - intros p q. apply (last_greatest s a l Hwf).
Qed.

Lemma findLast_greatest_witness :
  arena sample_list = Some sample_arena ∧ wf_at sample_list sample_arena [160; 112; 192] ∧
  (length [160; 112; 192] + 20 < 40)%nat ∧
  findLast 40 sample_list = Ret (last [160; 112; 192]) ∧
  SeekToLast 40 sample_list {| it_n := None |} = Ret {| it_n := last [160; 112; 192] |} ∧
  Empty 40 sample_list = Ret (bool_decide ([160; 112; 192] = [])) ∧
  ∀ p q, last [160; 112; 192] = Some p → q ∈ [160; 112; 192] →
         CompareKeys (skey sample_arena q) (skey sample_arena p) <= 0.
Proof.
  assert (H : (length [160; 112; 192] + 20 < 40)%nat) by (simpl; lia).
  split; [exact sample_arena_eq|]. split; [exact sample_wf_at|]. split; [exact H|].
  exact (findLast_greatest sample_list sample_arena [160; 112; 192] {| it_n := None |} 40%nat
           sample_arena_eq sample_wf_at H).
Defined.

(** X9: on a skiplist that satisfies the representation invariant, the
    client loop [Rewind], then [Key], [Value] and [Next] while [Valid],
    visits each reachable node once, in level-0 order, and the keys it
    reads are strictly increasing; [Next] on an iterator that is not
    valid fails its assertion. *)
Theorem iterate_sorted (s : Skiplist) (a : Arena) (l : list Z) (fuel : nat) :
  arena s = Some a → wf_at s a l → (length l < fuel)%nat →
  iterate fuel s = Ret ((λ p, (skey a p, cell_of a p)) <$> l) ∧
  StronglySorted (λ x y, CompareKeys x y < 0) (skey a <$> l) ∧
  (∀ p, p ∈ l → node_key s p = Ret (skey a p) ∧ node_value s p = Ret (cell_of a p)) ∧
  Next s {| it_n := None |} = Fatal AssertIterValid.
Proof.
  intros Hs Hwf Hfuel.
  split; [now apply iterate_all|].
  split; [apply sorted_keys, (wf_sorted s a l Hwf)|].
  split; [|reflexivity].
  intros p Hp. split; [now apply (wf_node_key s a l)|].
  unfold node_value. rewrite (the_arena_some s a Hs). cbn [mbind outcome_bind].
  now apply (getVs_cell_of s a l Hwf).
Qed.

Lemma iterate_sorted_witness :
  arena sample_list = Some sample_arena ∧ wf_at sample_list sample_arena [160; 112; 192] ∧
  (length [160; 112; 192] < 40)%nat ∧
  iterate 40 sample_list =
  Ret ((λ p, (skey sample_arena p, cell_of sample_arena p)) <$> [160; 112; 192]) ∧
  StronglySorted (λ x y, CompareKeys x y < 0) (skey sample_arena <$> [160; 112; 192]).
Proof.
  assert (H : (length [160; 112; 192] < 40)%nat) by (simpl; lia).
  split; [exact sample_arena_eq|]. split; [exact sample_wf_at|]. split; [exact H|].
  destruct (iterate_sorted sample_list sample_arena [160; 112; 192] 40%nat
              sample_arena_eq sample_wf_at H) as (H1 & H2 & _).
  split; [exact H1|exact H2].
Defined.

(** X10: on a skiplist that satisfies the representation invariant, an
    [Add] of an entry whose key is shorter than 65536 bytes and whose
    value is shorter than 2^30 bytes either fails the arena capacity
    assertion or returns a skiplist on which [Search] for the entry's key
    returns the entry's [Meta] and [Value], with [ExpiresAt] set to the
    timestamp parsed from the key (not to the entry's [ExpiresAt]) and
    [Version] 0. *)
Theorem Add_then_Search (s : Skiplist) (a : Arena) (l : list Z) (e : Entry)
    (rnd : nat → Z) (fuel : nat) :
  arena s = Some a → wf_at s a l → entry_ok e → (length l + 21 < fuel)%nat →
  Add fuel rnd s e = Fatal AssertArenaCapacity ∨
  ∃ s', Add fuel rnd s e = Ret s' ∧
        Search fuel s' (Key e) =
        Ret {| Meta := EMeta e; Value := EValue e; ExpiresAt := ParseTs (Key e);
               Version := 0 |}.
Proof.
  intros Hs Hwf He Hfuel.
  assert (Hf : (length l < fuel)%nat) by lia.
  destruct (key_present_or_not a l e) as [(z & Hz & Hkey)|Hnone].
  - destruct (Add_present s a l e rnd fuel Hs Hwf He Hf z Hz Hkey)
      as [(_ & a' & E & Hwf' & _ & Hadded)|(_ & E)]; [|left; assumption].
    right. eexists. split; [exact E|].
    destruct Hadded as (Hp & Hk & Hc & _).
    rewrite <- Hk at 1.
    rewrite (Search_present (with_arena s a') a' l eq_refl Hwf' z fuel) by (assumption || lia).
    rewrite Hc, Hk. reflexivity.
  - destruct (Add_absent s a l e rnd fuel Hs Hwf He Hf Hnone)
      as [(_ & s' & a' & lo & hi & m & E & Hs' & El & Hm & Hwf' & _ & Hadded)|(_ & E)];
      [|left; assumption].
    right. exists s'. split; [exact E|].
    destruct Hadded as (Hp & Hk & Hc & _).
    rewrite <- Hk at 1.
    rewrite (Search_present s' a' _ Hs' Hwf' m fuel); [|
      rewrite El in Hfuel; rewrite length_app in *; cbn [length]; lia|assumption].
    rewrite Hc, Hk. reflexivity.
Qed.

Lemma Add_then_Search_witness :
  arena sample_list = Some sample_arena ∧ wf_at sample_list sample_arena [160; 112; 192] ∧
  entry_ok fresh_entry ∧ (length [160; 112; 192] + 21 < 40)%nat ∧
  (Add 40 draws_high sample_list fresh_entry = Fatal AssertArenaCapacity ∨
   ∃ s', Add 40 draws_high sample_list fresh_entry = Ret s' ∧
         Search 40 s' (Key fresh_entry) =
         Ret {| Meta := EMeta fresh_entry; Value := EValue fresh_entry;
                ExpiresAt := ParseTs (Key fresh_entry); Version := 0 |}).
Proof.
  assert (H : (length [160; 112; 192] + 21 < 40)%nat) by (simpl; lia).
  split; [exact sample_arena_eq|]. split; [exact sample_wf_at|].
  split; [exact fresh_entry_ok|]. split; [exact H|].
  exact (Add_then_Search sample_list sample_arena [160; 112; 192] fresh_entry draws_high
           40%nat sample_arena_eq sample_wf_at fresh_entry_ok H).
Defined.



(** X12: the arena space an [Add] takes, on a skiplist that satisfies
    the representation invariant: [EncodedSize] of the value when the key
    is already stored, and otherwise the node block for the height drawn,
    the key and the encoded value.  [Add] returns, with [MemSize] grown
    by exactly that much, when that many bytes are free behind the
    cursor, and fails the capacity assertion when they are not. *)
Theorem Add_space_needed (s : Skiplist) (a : Arena) (l : list Z) (e : Entry)
    (rnd : nat → Z) (fuel : nat) :
  arena s = Some a → wf_at s a l → entry_ok e → (length l < fuel)%nat →
  let need := if bool_decide (Key e ∈ skey a <$> l)
              then EncodedSize (ValueStruct_of_Entry e)
              else node_cost e (randomHeight rnd) in
  MemSize s = Ret (n a) ∧
  (n a + need <= len (buf a) →
   ∃ s', Add fuel rnd s e = Ret s' ∧ MemSize s' = Ret (n a + need)) ∧
  (len (buf a) < n a + need → Add fuel rnd s e = Fatal AssertArenaCapacity).
Proof.
  intros Hs Hwf He Hfuel need.
  split; [unfold MemSize, size; now rewrite (the_arena_some s a Hs)|].
  destruct (key_present_or_not a l e) as [(z & Hz & Hkey)|Hnone].
  - assert (En : need = EncodedSize (ValueStruct_of_Entry e)).
    { unfold need. rewrite bool_decide_eq_true_2; [reflexivity|].
      apply list_elem_of_fmap. exists z. auto. }
    rewrite En.
    destruct (Add_present s a l e rnd fuel Hs Hwf He Hfuel z Hz Hkey)
      as [(Hfit & a' & E & _ & Hn & _)|(Hfull & E)].
    + split; [|lia]. intros _. eexists. split; [exact E|].
      unfold MemSize, size. cbn [the_arena with_arena arena mbind outcome_bind].
      now rewrite Hn.
    + split; [lia|]. intros _. exact E.
  - assert (En : need = node_cost e (randomHeight rnd)).
    { unfold need. rewrite bool_decide_eq_false_2; [reflexivity|].
      intros Hin. apply list_elem_of_fmap in Hin as (z & Hk & Hz). now apply (Hnone z). }
    rewrite En.
    destruct (Add_absent s a l e rnd fuel Hs Hwf He Hfuel Hnone)
      as [(Hfit & s' & a' & lo & hi & m & E & Hs' & _ & _ & _ & Hn & _)|(Hfull & E)].
    + split; [|lia]. intros _. exists s'. split; [exact E|].
      unfold MemSize, size. rewrite (the_arena_some s' a' Hs'). cbn [mbind outcome_bind].
      now rewrite Hn.
    + split; [lia|]. intros _. exact E.
Qed.

Lemma Add_space_needed_witness :
  arena sample_list = Some sample_arena ∧ wf_at sample_list sample_arena [160; 112; 192] ∧
  entry_ok fresh_entry ∧ (length [160; 112; 192] < 40)%nat ∧
  MemSize sample_list = Ret (n sample_arena) ∧
  ∃ s', Add 40 draws_high sample_list fresh_entry = Ret s' ∧
        MemSize s' = Ret (n sample_arena + node_cost fresh_entry (randomHeight draws_high)).
Proof.
  assert (H : (length [160; 112; 192] < 40)%nat) by (simpl; lia).
  split; [exact sample_arena_eq|]. split; [exact sample_wf_at|].
  split; [exact fresh_entry_ok|]. split; [exact H|].
  destruct (Add_space_needed sample_list sample_arena [160; 112; 192] fresh_entry draws_high
              40%nat sample_arena_eq sample_wf_at fresh_entry_ok H) as (H1 & H2 & _).
  split; [exact H1|].
  assert (Hk : bool_decide (Key fresh_entry ∈ skey sample_arena <$> [160; 112; 192]) = false)
    by (vm_compute; reflexivity).
  rewrite Hk in H2. apply H2. vm_compute. discriminate.
Defined.

(** X13: on a skiplist that satisfies the representation invariant,
    [Search k] reads the least reachable node whose key is not below
    [k]: it returns that node's value cell, with [ExpiresAt] replaced by
    the timestamp of the stored key, when the stored key has the length
    and user-key part of [k], and the empty value otherwise; when every
    key is below [k] it returns the empty value.  Two keys with the same
    user-key part and 8-byte suffixes pass the test, so a search with a
    newer timestamp reads the newest version stored. *)
Theorem Search_least_version (s : Skiplist) (a : Arena) (l : list Z) (k : list byte)
    (fuel : nat) :
  arena s = Some a → wf_at s a l → (length l + 20 < fuel)%nat →
  (∀ p, p ∈ l → CompareKeys k (skey a p) <= 0 →
     (∀ q, q ∈ l → CompareKeys k (skey a q) <= 0 →
           CompareKeys (skey a p) (skey a q) <= 0) →
     Search fuel s k =
     Ret (if SameKey k (skey a p)
          then with_ExpiresAt (cell_of a p) (ParseTs (skey a p))
          else ValueStruct_zero)) ∧
  ((∀ q, q ∈ l → CompareKeys (skey a q) k < 0) → Search fuel s k = Ret ValueStruct_zero) ∧
  (∀ u sfx1 sfx2 : list byte,
     length sfx1 = 8%nat → length sfx2 = 8%nat → SameKey (u ++ sfx2) (u ++ sfx1) = true).
Proof.
  intros Hs Hwf Hfuel. split.
  { intros p Hp Hge Hleast.
    destruct (least_at_or_after s a l Hs Hwf k p fuel Hfuel Hp Hge Hleast) as (b & Hrun).
    exact (Search_at s a l Hs Hwf k p b fuel Hfuel Hrun). }
  split.
  { intros Hall. destruct (nothing_at_or_after s a l k fuel Hs Hwf Hfuel Hall) as (b & Hrun).
    exact (Search_none s k b fuel Hrun). }
  intros u sfx1 sfx2 H1 H2. apply SameKey_true. split.
  - rewrite !length_app. lia.
  - now rewrite !ParseKey_app.
Qed.

Lemma Search_least_version_witness :
  arena sample_list = Some sample_arena ∧ wf_at sample_list sample_arena [160; 112; 192] ∧
  (length [160; 112; 192] + 20 < 40)%nat ∧
  Search 40 sample_list (x62 :: stamp 5) =
  Ret (if SameKey (x62 :: stamp 5) (skey sample_arena 112)
       then with_ExpiresAt (cell_of sample_arena 112) (ParseTs (skey sample_arena 112))
       else ValueStruct_zero) ∧
  SameKey (x62 :: stamp 5) (skey sample_arena 112) = true ∧
  ParseTs (skey sample_arena 112) = 1.
Proof.
  assert (H : (length [160; 112; 192] + 20 < 40)%nat) by (simpl; lia).
  split; [exact sample_arena_eq|]. split; [exact sample_wf_at|]. split; [exact H|].
  split; [|split; vm_compute; reflexivity].
  apply (proj1 (Search_least_version sample_list sample_arena [160; 112; 192]
                  (x62 :: stamp 5) 40%nat sample_arena_eq sample_wf_at H) 112).
  - apply elem_of_cons. right. apply elem_of_cons. left. reflexivity.
  - vm_compute. discriminate.
  - intros q Hq.
    apply elem_of_cons in Hq as [->|Hq];
      [vm_compute; intros H0; first [discriminate|exfalso; apply H0; reflexivity]|].
    apply elem_of_cons in Hq as [->|Hq];
      [vm_compute; intros H0; first [discriminate|exfalso; apply H0; reflexivity]|].
    apply elem_of_cons in Hq as [->|Hq];
      [vm_compute; intros H0; first [discriminate|exfalso; apply H0; reflexivity]|].
    now apply elem_of_nil in Hq.
Defined.

(** X14: opening an iterator and closing it again leaves a skiplist in
    use as it was: the count returns to its value, the arena stays and no
    close hook runs. *)
Theorem iterator_open_close (s : Skiplist) :
  0 < ref s < 2 ^ 31 - 1 →
  Close (NewSkipListIterator s).1 (NewSkipListIterator s).2 = (s, []).
Proof.
  intros Hr. unfold Close, NewSkipListIterator, IncrRef, DecrRef. cbn [fst snd].
  rewrite (wrapi32_small (ref s + 1)) by lia. cbn [with_ref ref].
  replace (ref s + 1 - 1) with (ref s) by lia.
  rewrite (wrapi32_small (ref s)) by lia.
  destruct (Z.gtb_spec (ref s) 0); [|lia]. destruct s. reflexivity.
Qed.

Lemma iterator_open_close_witness :
  0 < ref sample_new < 2 ^ 31 - 1 ∧
  Close (NewSkipListIterator sample_new).1 (NewSkipListIterator sample_new).2 =
  (sample_new, []).
Proof.
  assert (H : 0 < ref sample_new < 2 ^ 31 - 1) by (vm_compute; split; reflexivity).
  split; [exact H|]. exact (iterator_open_close sample_new H).
Defined.

(** X15: [DecrRef] runs the close hook and clears the arena whenever
    the count it leaves is not positive: also on a skiplist whose count
    had reached 0 before, so every further [DecrRef] (or iterator
    [Close]) calls the hook again. *)
Theorem DecrRef_after_release (s : Skiplist) :
  - 2 ^ 31 < ref s <= 1 →
  DecrRef s =
  ({| sl_height := sl_height s; headOffset := headOffset s; ref := ref s - 1;
      arena := None; OnClose := OnClose s |},
   match OnClose s with
   | Some hook => [OnCloseCalled hook]
   | None => []
   end ++ [ArenaReleased]).
Proof.
  intros Hr. unfold DecrRef. rewrite wrapi32_small by lia. cbn [with_ref ref].
  destruct (Z.gtb_spec (ref s - 1) 0); [lia|]. reflexivity.
Qed.

Lemma DecrRef_after_release_witness :
  - 2 ^ 31 < ref (DecrRef sample_new).1 <= 1 ∧
  (DecrRef sample_new).2 = [ArenaReleased] ∧
  DecrRef (DecrRef sample_new).1 =
  ({| sl_height := sl_height (DecrRef sample_new).1;
      headOffset := headOffset (DecrRef sample_new).1;
      ref := ref (DecrRef sample_new).1 - 1;
      arena := None; OnClose := OnClose (DecrRef sample_new).1 |},
   match OnClose (DecrRef sample_new).1 with
   | Some hook => [OnCloseCalled hook]
   | None => []
   end ++ [ArenaReleased]).
Proof.
  assert (H : - 2 ^ 31 < ref (DecrRef sample_new).1 <= 1)
    by (vm_compute; split; [reflexivity|discriminate]).
  split; [exact H|]. split; [vm_compute; reflexivity|].
  exact (DecrRef_after_release (DecrRef sample_new).1 H).
Defined.

(** X16: [SameKey] is an equivalence on keys: reflexive, symmetric and
    transitive; keys it relates have the same length and the same
    user-key part. *)
Theorem SameKey_equivalence :
  (∀ k, SameKey k k = true) ∧
  (∀ k1 k2, SameKey k1 k2 = SameKey k2 k1) ∧
  (∀ k1 k2 k3, SameKey k1 k2 = true → SameKey k2 k3 = true → SameKey k1 k3 = true) ∧
  (∀ k1 k2, SameKey k1 k2 = true → length k1 = length k2 ∧ ParseKey k1 = ParseKey k2).
Proof.
  split; [exact SameKey_refl|]. split.
  { intros k1 k2. destruct (SameKey k1 k2) eqn:E1; destruct (SameKey k2 k1) eqn:E2;
      try reflexivity.
    - apply SameKey_true in E1 as [H1 H2].
      assert (SameKey k2 k1 = true) by (apply SameKey_true; split; congruence). congruence.
    - apply SameKey_true in E2 as [H1 H2].
      assert (SameKey k1 k2 = true) by (apply SameKey_true; split; congruence). congruence. }
  split.
  { intros k1 k2 k3 H12 H23. apply SameKey_true in H12 as [H1 H2].
    apply SameKey_true in H23 as [H3 H4]. apply SameKey_true. split; congruence. }
  intros k1 k2 H. now apply SameKey_true.
Qed.

Lemma SameKey_equivalence_witness :
  SameKey (x62 :: stamp 5) (x62 :: stamp 1) = true ∧
  SameKey (x62 :: stamp 1) (x62 :: stamp 9) = true ∧
  SameKey (x62 :: stamp 5) (x62 :: stamp 9) = true.
Proof.
  assert (H1 : SameKey (x62 :: stamp 5) (x62 :: stamp 1) = true) by (vm_compute; reflexivity).
  assert (H2 : SameKey (x62 :: stamp 1) (x62 :: stamp 9) = true) by (vm_compute; reflexivity).
  split; [exact H1|]. split; [exact H2|].
  exact (proj1 (proj2 (proj2 SameKey_equivalence)) _ _ _ H1 H2).
Defined.

(** * Splices, neighbours and the varint size *)

Lemma sorted_app_lt (R : Z → Z → Prop) (B C : list Z) (q c : Z) :
  StronglySorted R (B ++ C) → q ∈ B → c ∈ C → R q c.
Proof.
  induction B as [|b B IH]; intros Hsorted Hq Hc; [now apply elem_of_nil in Hq|].
  cbn [app] in Hsorted. apply StronglySorted_inv in Hsorted as [Hs' Hall].
  apply elem_of_cons in Hq as [->|Hq].
  - rewrite Forall_forall in Hall. apply Hall. rewrite elem_of_app. auto.
  - now apply IH.
Qed.

Section neighbours.
Context (s : Skiplist) (a : Arena) (l : list Z).
Hypothesis Hs : arena s = Some a.
Hypothesis Hwf : wf_at s a l.

(** Between the last node of [lo] that is linked at level [L] and the
    end of [lo] no node is linked at level [L]. *)
Lemma level_gap (L : Z) (lo hi B R : list Z) :
  l = lo ++ hi → lo = B ++ R →
  last_from (headOffset s) B = last_from (headOffset s) (above a L lo) →
  above a L R = [].
Proof.
  intros El Elo Hlast.
  destruct (list_cases (above a L R)) as [E|(x & r & E)]; [assumption|exfalso].
  pose proof (wf_NoDup s a l Hwf) as Hnd. rewrite El, Elo in Hnd.
  rewrite Elo, above_app, last_from_app in Hlast.
  assert (Hin : last_from (headOffset s) B ∈ R).
  { rewrite Hlast. eapply (proj1 (above_elem a L _ R)).
    apply last_from_elem. rewrite E. discriminate. }
  apply NoDup_cons in Hnd as [Hh Hnd].
  pose proof (last_from_in_cons (headOffset s) B) as HB.
  apply elem_of_cons in HB as [HB|HB].
  - apply Hh. rewrite <- HB. rewrite !elem_of_app. auto.
  - rewrite <- app_assoc in Hnd. apply NoDup_app in Hnd as (_ & Hd & _).
    apply (Hd _ HB). rewrite elem_of_app. auto.
Qed.

Lemma splice_adjacent (k : list byte) (lo hi : list Z) (L : Z) :
  split_at a l k lo hi → 0 <= L < maxHeight →
  getNextOffset a (Some (last_from (headOffset s) (above a L lo))) L =
  Ret (first_or_null (above a L hi)).
Proof.
  intros Hsplit HL. pose proof Hsplit as (El & _).
  destruct (position_at_level s a lo L) as (B & R & Elo & Hlast & HB).
  pose proof (level_gap L lo hi B R El Elo Hlast) as Hgap.
  rewrite <- Hlast.
  assert (Hc : chain a L (last_from (headOffset s) B) (above a L (R ++ hi))).
  { apply (wf_chain_from s a l Hwf); [|assumption|assumption].
    rewrite El, Elo. now rewrite <- app_assoc. }
  rewrite above_app, Hgap in Hc. cbn [app] in Hc.
  apply (wf_getNextOffset s a l Hwf _ L _ Hc).
  destruct HB as [->|HB]; [|lia].
  rewrite last_from_nil, (wf_head s a l Hwf). lia.
Qed.

Lemma findSplice_meaning (k : list byte) (L : Z) (fuel : nat) :
  0 <= L < maxHeight → (length l < fuel)%nat →
  ∃ p q,
    findSpliceForLevel fuel s k (headOffset s) L = Ret (p, q) ∧
    ((p = q ∧ p ∈ l ∧ L < hgt a p ∧ skey a p = k) ∨
     (p ≠ q ∧
      (p = headOffset s ∨ (p ∈ l ∧ L < hgt a p ∧ CompareKeys (skey a p) k < 0)) ∧
      (q = 0 ∨ (q ∈ l ∧ L < hgt a q ∧ CompareKeys k (skey a q) < 0)) ∧
      getNextOffset a (Some p) L = Ret q)).
Proof.
  intros HL Hfuel.
  destruct (key_split a l k (wf_sorted s a l Hwf)) as (lo & hi & Hsplit).
  pose proof Hsplit as (El & Hlo & Hhi).
  pose proof (findSplice_spec s a l lo hi k L Hs Hwf Hsplit HL fuel [] lo eq_refl) as Hrun.
  rewrite last_from_nil in Hrun. rewrite Hrun; [|now left|rewrite El, length_app in Hfuel; lia].
  unfold splice_of.
  assert (Hnx : above a L hi = [] ∨
                ∃ x r, above a L hi = x :: r ∧ x ∈ hi ∧ L < hgt a x ∧ x ≠ 0).
  { destruct (list_cases (above a L hi)) as [E|(x & r & E)]; [now left|right].
    exists x, r. split; [assumption|].
    assert (Hx : x ∈ above a L hi) by (rewrite E; left).
    apply above_elem in Hx as [Hx HLx]. split; [assumption|]. split; [assumption|].
    destruct (wf_elem s a l Hwf x (hi_elem a l lo hi k Hsplit x Hx)) as (_ & Hpos & _). lia. }
  pose proof (splice_adjacent k lo hi L Hsplit HL) as Hadj.
  pose proof (splice_distinct s a l lo hi k Hwf Hsplit L) as Hdist.
  assert (Hp : last_from (headOffset s) (above a L lo) = headOffset s ∨
               (last_from (headOffset s) (above a L lo) ∈ l ∧
                L < hgt a (last_from (headOffset s) (above a L lo)) ∧
                CompareKeys (skey a (last_from (headOffset s) (above a L lo))) k < 0)).
  { pose proof (last_from_in_cons (headOffset s) (above a L lo)) as H.
    apply elem_of_cons in H as [H|H]; [now left|right].
    apply above_elem in H as [H HLp].
    split; [apply (lo_elem a l lo hi k Hsplit _ H)|]. split; [assumption|].
    apply (lo_before a l lo hi k Hsplit _ H). }
  destruct Hnx as [E|(x & r & E & Hx & HLx & Hx0)]; rewrite E in *;
    cbn [first_or_null hd] in *.
  - cbn [Z.eqb negb andb]. eexists _, _. split; [reflexivity|]. right.
    split; [assumption|]. split; [assumption|]. split; [now left|assumption].
  - destruct (Z.eqb_spec x 0) as [|_]; [contradiction|]. cbn [negb andb].
    rewrite Forall_forall in Hhi. pose proof (Hhi x Hx) as Hkx.
    destruct (Z.eqb_spec (CompareKeys k (skey a x)) 0) as [Heq|Hne].
    + eexists _, _. split; [reflexivity|]. left.
      split; [reflexivity|]. split; [apply (hi_elem a l lo hi k Hsplit _ Hx)|].
      split; [assumption|]. symmetry. now apply CompareKeys_eq.
    + eexists _, _. split; [reflexivity|]. right.
      split; [assumption|]. split; [assumption|]. split; [|assumption].
      right. split; [apply (hi_elem a l lo hi k Hsplit _ Hx)|]. split; [assumption|lia].
Qed.

(** The neighbours of a reachable node. *)
Lemma Next_at (B A : list Z) (p : Z) :
  l = B ++ p :: A → Next s {| it_n := Some p |} = Ret {| it_n := head A |}.
Proof.
  intros El. unfold Next, Valid. cbn [it_n].
  rewrite bool_decide_eq_true_2 by discriminate. cbn [AssertTrue mbind outcome_bind].
  assert (Hp : p ∈ l) by (rewrite El, elem_of_app, elem_of_cons; auto).
  destruct (wf_elem s a l Hwf p Hp) as (Hh & _).
  assert (Hc : chain a 0 p (above a 0 A)).
  { replace p with (last_from (headOffset s) (B ++ [p])) by apply last_from_snoc.
    apply (wf_chain_from s a l Hwf).
    - rewrite El. now rewrite <- app_assoc.
    - unfold maxHeight. lia.
    - right. rewrite last_from_snoc. lia. }
  rewrite (getNext_chain s a l Hs Hwf p 0 A Hc) by lia. cbn [mbind outcome_bind].
  rewrite (suffix_above_zero s a l Hwf (B ++ [p]) A) by (rewrite El; now rewrite <- app_assoc).
  reflexivity.
Qed.

Lemma before_is_last (B A : list Z) (p : Z) (fuel : nat) :
  l = B ++ p :: A → (length l + 20 < fuel)%nat →
  ∃ b, findNear fuel s (skey a p) true false = Ret (last B, b).
Proof.
  intros El Hfuel. set (k := skey a p).
  pose proof (wf_sorted s a l Hwf) as Hsorted. rewrite El in Hsorted.
  assert (HB : ∀ q, q ∈ B → CompareKeys (skey a q) k < 0).
  { intros q Hq. apply (sorted_app_lt (key_lt a) B (p :: A) q p Hsorted Hq). left. }
  assert (HA : ∀ q, q ∈ p :: A → CompareKeys (skey a q) k >= 0).
  { intros q Hq. apply elem_of_cons in Hq as [->|Hq].
    - unfold k. rewrite CompareKeys_refl. lia.
    - apply StronglySorted_app_1_r in Hsorted.
      apply StronglySorted_inv in Hsorted as [_ Hall].
      rewrite Forall_forall in Hall. specialize (Hall q Hq). unfold key_lt in Hall.
      unfold k. rewrite CompareKeys_antisym. lia. }
  destruct (key_split a l k (wf_sorted s a l Hwf)) as (lo & hi & Hsplit).
  pose proof (findNear_near_of s a l lo hi k true false fuel Hs Hwf Hsplit Hfuel) as Hnear.
  destruct (near_of a k lo hi true false) as [r b] eqn:Er.
  destruct (near_of_meaning s a l lo hi k Hwf Hsplit true false r b Er) as [Hr _].
  exists b. rewrite Hnear. do 2 f_equal.
  assert (Hin : ∀ q, q ∈ l → CompareKeys (skey a q) k < 0 → q ∈ B).
  { intros q Hq Hlt. rewrite El in Hq. apply elem_of_app in Hq as [Hq|Hq]; [assumption|].
    specialize (HA q Hq). lia. }
  destruct (snoc_cases B) as [EB|(B' & y & EB)].
  - rewrite EB. cbn [last]. destruct r as [r0|]; [exfalso|reflexivity].
    destruct Hr as (Hr0 & Hw & _). cbn [wanted] in Hw.
    specialize (Hin r0 Hr0 Hw). rewrite EB in Hin. now apply elem_of_nil in Hin.
  - rewrite EB, last_snoc.
    assert (Hy : y ∈ B) by (rewrite EB, elem_of_app, list_elem_of_singleton; auto).
    assert (Hyl : y ∈ l) by (rewrite El, elem_of_app; auto).
    destruct r as [r0|].
    + destruct Hr as (Hr0 & Hw & Hnearer). cbn [wanted nearer] in Hw, Hnearer.
      f_equal. pose proof (Hin r0 Hr0 Hw) as Hr0B. rewrite EB in Hr0B.
      apply elem_of_app in Hr0B as [Hr0B|Hr0B]; [exfalso|now apply list_elem_of_singleton in Hr0B].
      assert (Hlt : key_lt a r0 y).
      { apply (sorted_snoc_lt (key_lt a) B' y r0); [|assumption].
        apply StronglySorted_app_1_l in Hsorted. now rewrite EB in Hsorted. }
      unfold key_lt in Hlt.
      specialize (Hnearer y Hyl (HB y Hy)). rewrite CompareKeys_antisym in Hnearer. lia.
    + exfalso. apply (Hr y Hyl). cbn [wanted]. exact (HB y Hy).
Qed.
End neighbours.

(** X17: on a skiplist that satisfies the representation invariant,
    [findSpliceForLevel] started at the head returns, at any level [L],
    either the same offset twice, that of the reachable node whose key is
    the key looked for, or two different offsets: the head or a reachable
    node with a smaller key, and null or a reachable node with a greater
    key, both linked at level [L], the second being the level-[L]
    successor of the first. *)
Theorem findSplice_bracket (s : Skiplist) (a : Arena) (l : list Z) (k : list byte)
    (L : Z) (fuel : nat) :
  arena s = Some a → wf_at s a l → 0 <= L < maxHeight → (length l < fuel)%nat →
  ∃ p q,
    findSpliceForLevel fuel s k (headOffset s) L = Ret (p, q) ∧
    ((p = q ∧ p ∈ l ∧ L < hgt a p ∧ skey a p = k) ∨
     (p ≠ q ∧
      (p = headOffset s ∨ (p ∈ l ∧ L < hgt a p ∧ CompareKeys (skey a p) k < 0)) ∧
      (q = 0 ∨ (q ∈ l ∧ L < hgt a q ∧ CompareKeys k (skey a q) < 0)) ∧
      getNextOffset a (Some p) L = Ret q)).
Proof. intros Hs Hwf HL Hfuel. now apply (findSplice_meaning s a l Hs Hwf). Qed.

Lemma findSplice_bracket_witness :
  arena sample_list = Some sample_arena ∧ wf_at sample_list sample_arena [160; 112; 192] ∧
  0 <= 1 < maxHeight ∧ (length [160; 112; 192] < 40)%nat ∧
  ∃ p q,
    findSpliceForLevel 40 sample_list (x62 :: stamp 5) (headOffset sample_list) 1 =
    Ret (p, q) ∧
    ((p = q ∧ p ∈ [160; 112; 192] ∧ 1 < hgt sample_arena p ∧
      skey sample_arena p = x62 :: stamp 5) ∨
     (p ≠ q ∧
      (p = headOffset sample_list ∨
       (p ∈ [160; 112; 192] ∧ 1 < hgt sample_arena p ∧
        CompareKeys (skey sample_arena p) (x62 :: stamp 5) < 0)) ∧
      (q = 0 ∨ (q ∈ [160; 112; 192] ∧ 1 < hgt sample_arena q ∧
                CompareKeys (x62 :: stamp 5) (skey sample_arena q) < 0)) ∧
      getNextOffset sample_arena (Some p) 1 = Ret q)).
Proof.
  assert (H1 : 0 <= 1 < maxHeight) by (vm_compute; split; [discriminate|reflexivity]).
  assert (H2 : (length [160; 112; 192] < 40)%nat) by (simpl; lia).
  split; [exact sample_arena_eq|]. split; [exact sample_wf_at|].
  split; [exact H1|]. split; [exact H2|].
  exact (findSplice_bracket sample_list sample_arena [160; 112; 192] (x62 :: stamp 5) 1
           40%nat sample_arena_eq sample_wf_at H1 H2).
Defined.

(** X18: on a skiplist that satisfies the representation invariant,
    with the iterator at a reachable node, [Key] reads the node's key,
    [Next] moves to the node that follows it in level-0 order (or makes
    the iterator invalid at the last node) and [Prev] moves to the node
    before it (or makes the iterator invalid at the first node). *)
Theorem Next_Prev_neighbours (s : Skiplist) (a : Arena) (l B A : list Z) (p : Z)
    (fuel : nat) :
  arena s = Some a → wf_at s a l → l = B ++ p :: A → (length l + 20 < fuel)%nat →
  IterKey s {| it_n := Some p |} = Ret (skey a p) ∧
  Next s {| it_n := Some p |} = Ret {| it_n := head A |} ∧
  Prev fuel s {| it_n := Some p |} = Ret {| it_n := last B |}.
Proof.
  intros Hs Hwf El Hfuel.
  assert (Hp : p ∈ l) by (rewrite El, elem_of_app, elem_of_cons; auto).
  assert (Hkey : IterKey s {| it_n := Some p |} = Ret (skey a p)).
  { exact (wf_node_key s a l p Hs Hwf Hp). }
  split; [assumption|]. split; [exact (Next_at s a l Hs Hwf B A p El)|].
  unfold Prev, Valid. cbn [it_n].
  rewrite bool_decide_eq_true_2 by discriminate. cbn [AssertTrue mbind outcome_bind].
  rewrite Hkey. cbn [mbind outcome_bind].
  destruct (before_is_last s a l Hs Hwf B A p fuel El Hfuel) as (b & ->). reflexivity.
Qed.

Lemma Next_Prev_neighbours_witness :
  arena sample_list = Some sample_arena ∧ wf_at sample_list sample_arena [160; 112; 192] ∧
  [160; 112; 192] = [160] ++ 112 :: [192] ∧ (length [160; 112; 192] + 20 < 40)%nat ∧
  IterKey sample_list {| it_n := Some 112 |} = Ret (skey sample_arena 112) ∧
  Next sample_list {| it_n := Some 112 |} = Ret {| it_n := head [192] |} ∧
  Prev 40 sample_list {| it_n := Some 112 |} = Ret {| it_n := last [160] |}.
Proof.
  assert (H1 : [160; 112; 192] = [160] ++ 112 :: [192]) by reflexivity.
  assert (H2 : (length [160; 112; 192] + 20 < 40)%nat) by (simpl; lia).
  split; [exact sample_arena_eq|]. split; [exact sample_wf_at|].
  split; [exact H1|]. split; [exact H2|].
  exact (Next_Prev_neighbours sample_list sample_arena [160; 112; 192] [160] [192] 112
           40%nat sample_arena_eq sample_wf_at H1 H2).
Defined.

Lemma sizeVarint_loop_lower (b : nat) : ∀ x c, c + 1 <= sizeVarint_loop b x c.
Proof.
  induction b as [|b IH]; intros x c; cbn [sizeVarint_loop];
    destruct (Z.shiftr x 7 =? 0); try lia.
  specialize (IH (Z.shiftr x 7) (c + 1)). lia.
Qed.

Lemma sizeVarint_loop_le (b : nat) :
  ∀ x c k, 0 <= x < 2 ^ (7 * (Z.of_nat b + 1)) → 1 <= k →
           (sizeVarint_loop b x c <= c + k ↔ x < 2 ^ (7 * k)).
Proof.
  induction b as [|b IH]; intros x c k Hx Hk.
  - cbn [sizeVarint_loop]. change (2 ^ (7 * (Z.of_nat 0 + 1))) with 128 in Hx.
    assert (128 <= 2 ^ (7 * k)).
    { change 128 with (2 ^ 7). apply Z.pow_le_mono_r; lia. }
    destruct (Z.shiftr x 7 =? 0); split; intros _; lia.
  - cbn [sizeVarint_loop]. rewrite shiftr7.
    assert (Hpow : 2 ^ (7 * (Z.of_nat (S b) + 1)) = 128 * 2 ^ (7 * (Z.of_nat b + 1))).
    { replace (7 * (Z.of_nat (S b) + 1)) with (7 + 7 * (Z.of_nat b + 1)) by lia.
      rewrite Z.pow_add_r by lia. reflexivity. }
    destruct (Z.eqb_spec (x / 128) 0) as [E0|Hne].
    + assert (x < 128).
      { destruct (Z.lt_ge_cases x 128); [assumption|].
        assert (1 <= x / 128) by (apply Z.div_le_lower_bound; lia). lia. }
      assert (128 <= 2 ^ (7 * k)).
      { change 128 with (2 ^ 7). apply Z.pow_le_mono_r; lia. }
      split; intros _; lia.
    + assert (Hx' : 0 <= x / 128 < 2 ^ (7 * (Z.of_nat b + 1))).
      { split; [apply Z.div_pos; lia|]. apply Z.div_lt_upper_bound; lia. }
      assert (Hge : 128 <= x).
      { destruct (Z.lt_ge_cases x 128) as [Hlt|]; [|assumption].
        rewrite Z.div_small in Hne by lia. contradiction. }
      destruct (Z.eq_dec k 1) as [->|Hk1].
      * pose proof (sizeVarint_loop_lower b (x / 128) (c + 1)).
        change (2 ^ (7 * 1)) with 128. split; intros; lia.
      * specialize (IH (x / 128) (c + 1) (k - 1) Hx' ltac:(lia)).
        replace (c + 1 + (k - 1)) with (c + k) in IH by lia.
        rewrite IH.
        replace (7 * k) with (7 + 7 * (k - 1)) by lia.
        rewrite Z.pow_add_r by lia. change (2 ^ 7) with 128.
        assert (0 < 2 ^ (7 * (k - 1))) by (apply Z.pow_pos_nonneg; lia).
        split; intros Hlt.
        -- pose proof (Z.div_mod x 128 ltac:(lia)).
           pose proof (Z.mod_pos_bound x 128 ltac:(lia)). nia.
        -- apply Z.div_lt_upper_bound; lia.
Qed.

(** X19: for a [uint64] value [x], [sizeVarint x] is between 1 and 10,
    and it is at most [k] exactly when [x] is below [2^(7k)]: it is the
    number of 7-bit groups [x] needs, which is the number of bytes
    [PutUvarint] writes for [x]. *)
Theorem sizeVarint_groups (x k : Z) :
  0 <= x < 2 ^ 64 → 1 <= k →
  1 <= sizeVarint x <= 10 ∧
  (sizeVarint x <= k ↔ x < 2 ^ (7 * k)) ∧
  ∀ b, sizeVarint x <= len b →
       ∃ b', PutUvarint b x = Ret (b', sizeVarint x).
Proof.
  intros Hx Hk. split; [now apply sizeVarint_bounds|]. split.
  - unfold sizeVarint.
    apply (sizeVarint_loop_le 9 x 0 k); [|assumption].
    assert (2 ^ 64 < 2 ^ (7 * (Z.of_nat 9 + 1))) by reflexivity. lia.
  - intros b Hb. rewrite (sizeVarint_varint x Hx) in *.
    rewrite (PutUvarint_spec b x Hx Hb). eauto.
Qed.

Lemma sizeVarint_groups_witness :
  0 <= 300 < 2 ^ 64 ∧ 1 <= 2 ∧ 1 <= sizeVarint 300 <= 10 ∧
  (sizeVarint 300 <= 2 ↔ 300 < 2 ^ (7 * 2)) ∧
  ∀ b, sizeVarint 300 <= len b → ∃ b', PutUvarint b 300 = Ret (b', sizeVarint 300).
Proof.
  assert (H1 : 0 <= 300 < 2 ^ 64) by lia.
  assert (H2 : 1 <= 2) by lia.
  split; [exact H1|]. split; [exact H2|]. exact (sizeVarint_groups 300 2 H1 H2).
Defined.

(** * [EncodeValue] on a buffer that is too short *)

Lemma store_byte_out (b : list byte) (i : nat) (x : byte) :
  (length b <= i)%nat → store_byte b (Z.of_nat i) x = Fatal RuntimePanic.
Proof.
  intros H. unfold store_byte, len.
  destruct (Z.ltb_spec (Z.of_nat i) (Z.of_nat (length b))); [lia|].
  now rewrite andb_false_r.
Qed.

Lemma PutUvarint_loop_short (b : nat) :
  ∀ (dst : list byte) (x : Z) (i : nat),
    0 <= x < 2 ^ (7 * (Z.of_nat b + 1)) →
    (length dst < i + length (varint_groups b x))%nat →
    PutUvarint_loop b dst x (Z.of_nat i) = Fatal RuntimePanic.
Proof.
  induction b as [|b IH]; intros dst x i Hx Hshort;
    cbn [PutUvarint_loop varint_groups] in *.
  - change (7 * (Z.of_nat 0 + 1)) with 7 in Hx. change (2 ^ 7) with 128 in Hx.
    destruct (Z.ltb_spec x 128); [|lia]. destruct (Z.leb_spec 128 x); [lia|].
    cbn [length] in Hshort. rewrite store_byte_out by lia. reflexivity.
  - destruct (Z.ltb_spec x 128); destruct (Z.leb_spec 128 x); try lia.
    + cbn [length] in Hshort. rewrite store_byte_out by lia. reflexivity.
    + cbn [length] in Hshort.
      destruct (Nat.lt_ge_cases i (length dst)) as [Hin|Hout].
      * rewrite store_byte_ok by lia. cbn [mbind outcome_bind].
        rewrite shiftr7.
        replace (Z.of_nat i + 1) with (Z.of_nat (S i)) by lia.
        apply IH.
        -- apply quotient_bound; [lia|].
           replace (7 + 7 * (Z.of_nat b + 1)) with (7 * (Z.of_nat (S b) + 1)) by lia.
           exact Hx.
        -- rewrite length_insert. lia.
      * rewrite store_byte_out by lia. reflexivity.
Qed.

Lemma PutUvarint_short (dst : list byte) (x : Z) :
  0 <= x < 2 ^ 64 → len dst < len (varint x) → PutUvarint dst x = Fatal RuntimePanic.
Proof.
  intros Hx Hshort. unfold PutUvarint, varint, len in *.
  change (PutUvarint_loop 9 dst x 0) with (PutUvarint_loop 9 dst x (Z.of_nat 0)).
  apply PutUvarint_loop_short; [|lia].
  assert (2 ^ 64 < 2 ^ (7 * (Z.of_nat 9 + 1))) by reflexivity. lia.
Qed.

(** X20: [EncodeValue] on a buffer shorter than the encoded cell: an
    empty buffer, or one that cannot hold [Meta] and the varint of
    [ExpiresAt], makes it panic (index out of range); a buffer that holds
    those but not the whole [Value] is filled to its end with the first
    bytes of [Value], without any error, and the count returned is the
    length of the buffer. *)
Theorem EncodeValue_short_buffer (v : ValueStruct) (b : list byte) :
  0 <= ExpiresAt v < 2 ^ 64 → len b < 2 ^ 32 →
  len b < 1 + len (varint (ExpiresAt v)) + len (Value v) →
  (len b < 1 + len (varint (ExpiresAt v)) → EncodeValue v b = Fatal RuntimePanic) ∧
  (1 + len (varint (ExpiresAt v)) <= len b →
   EncodeValue v b =
   Ret (Meta v :: varint (ExpiresAt v) ++
        take (Z.to_nat (len b - 1 - len (varint (ExpiresAt v)))) (Value v),
        len b)).
Proof.
  intros He Hb Hshort.
  pose proof (sizeVarint_bounds _ He) as Hk. rewrite sizeVarint_varint in Hk by assumption.
  destruct b as [|c b].
  { split; [intros _; reflexivity|]. unfold len at 2. cbn [length]. lia. }
  rewrite len_cons in *.
  assert (Hhead : EncodeValue v (c :: b) =
                  '(b1, sz) ← PutUvarint b (ExpiresAt v);
                  tail ← slice_from b1 sz;
                  let '(tail, cnt) := copy tail (Value v) in
                  Ret ([Meta v] ++ take (Z.to_nat sz) b1 ++ tail, wrap32 (1 + sz + cnt))).
  { unfold EncodeValue. change 0 with (Z.of_nat 0) at 1.
    rewrite store_byte_ok by (simpl; lia). cbn [mbind outcome_bind].
    change (<[0%nat:=Meta v]> (c :: b)) with (Meta v :: b).
    rewrite slice_from_ok by (rewrite ?len_cons; unfold len; lia).
    reflexivity. }
  rewrite Hhead. clear Hhead.
  split.
  - intros Hvar. rewrite PutUvarint_short by (assumption || lia). reflexivity.
  - intros Hvar. rewrite PutUvarint_spec by (assumption || lia). cbn [mbind outcome_bind].
    rewrite slice_from_ok.
    2: lia.
    2:{ rewrite len_app. unfold len at 3. rewrite length_drop. unfold len in *. lia. }
    cbn [mbind outcome_bind].
    replace (Z.to_nat (len (varint (ExpiresAt v)))) with (length (varint (ExpiresAt v)))
      by (unfold len; lia).
    rewrite drop_app_length. unfold copy.
    assert (Hd : len (drop (length (varint (ExpiresAt v))) b)
                 = len b - len (varint (ExpiresAt v)))
      by (unfold len in *; rewrite length_drop; lia).
    rewrite (drop_ge (drop _ b)) by (unfold len in *; rewrite length_drop; lia).
    rewrite Hd, Z.min_l by lia. rewrite app_nil_r.
    rewrite wrap32_small by (unfold len in *; lia).
    f_equal. f_equal; [|lia].
    cbn [app]. f_equal.
    rewrite take_app_length. f_equal. f_equal.
    rewrite length_drop. unfold len. lia.
Qed.

Lemma EncodeValue_short_buffer_witness :
  0 <= ExpiresAt wide_cell < 2 ^ 64 ∧ len (replicate 10 x00) < 2 ^ 32 ∧
  len (replicate 10 x00) < 1 + len (varint (ExpiresAt wide_cell)) + len (Value wide_cell) ∧
  1 + len (varint (ExpiresAt wide_cell)) <= len (replicate 10 x00) ∧
  EncodeValue wide_cell (replicate 10 x00) =
  Ret (Meta wide_cell :: varint (ExpiresAt wide_cell) ++
       take (Z.to_nat (len (replicate 10 x00) - 1 - len (varint (ExpiresAt wide_cell))))
            (Value wide_cell),
       len (replicate 10 x00)).
Proof.
  assert (H1 : 0 <= ExpiresAt wide_cell < 2 ^ 64) by (vm_compute; split; [discriminate|reflexivity]).
  assert (H2 : len (replicate 10 x00) < 2 ^ 32) by (vm_compute; reflexivity).
  assert (H3 : len (replicate 10 x00) <
               1 + len (varint (ExpiresAt wide_cell)) + len (Value wide_cell))
    by (vm_compute; reflexivity).
  assert (H4 : 1 + len (varint (ExpiresAt wide_cell)) <= len (replicate 10 x00))
    by (vm_compute; discriminate).
  split; [exact H1|]. split; [exact H2|]. split; [exact H3|]. split; [exact H4|].
  exact (proj2 (EncodeValue_short_buffer wide_cell (replicate 10 x00) H1 H2 H3) H4).
Defined.
